(** * Adaptive radix tree (package art): shallow embedding and verification

    The Go sources [tree.go] (Search / Insert / Delete / Each / Size) and the
    node file (artNode, addChild, RemoveChild, grow, shrink, ...) are
    translated function by function.

    Conventions of the embedding
    - a Go [byte] is a [Byte.byte]; [int(b)] is [b2z], [byte(i)] is [z2b]
      (truncation modulo 256 written out);
    - a Go [int] is a [Z]: the only integers of the program are array
      indices, child counts, key offsets and prefix lengths, all bounded by
      the length of a key held in memory, so 64-bit wrap-around is out of
      reach; negative values do occur and are kept;
    - a fixed-size Go array is a list; every indexing goes through [get] /
      [set], which fail ([None]) exactly where Go panics with an index out
      of range;
    - a computation that may panic lives in the [option] monad: [None] is a
      runtime panic, [Some r] is normal completion with result [r];
    - a [*artNode] is an [option artNode] ([None] is the nil pointer); a
      parent exclusively owns its children, so in-place mutation of a node
      is the replacement of the slot that points to it. *)

From Stdlib Require Import ZArith Lia.
From Stdlib Require Import Strings.Byte.
From stdpp Require Import base tactics option list numbers sorting.

Open Scope Z_scope.

(** ** Bytes and integers *)

Abbreviation byte := Byte.byte.

#[global] Instance byte_eq_dec : EqDecision byte := Byte.byte_eq_dec.

(** [int(b)] *)
Definition b2z (b : byte) : Z := Z.of_N (Byte.to_N b).

(** [byte(i)]: conversion of an integer to a byte keeps the low 8 bits. *)
Definition z2b (i : Z) : byte :=
  match Byte.of_N (Z.to_N (i mod 256)) with
  | Some b => b
  | None => Byte.x00
  end.

(** [a < b] on bytes *)
Definition byte_ltb (a b : byte) : bool := b2z a <? b2z b.
(** [a <= b] on bytes *)
Definition byte_leb (a b : byte) : bool := b2z a <=? b2z b.

(** ** Arrays and slices *)

Section Arrays.
Context {A : Type}.

(** [a[i]] read; panics when [i] is out of range. *)
Definition get (a : list A) (i : Z) : option A :=
  if i <? 0 then None else a !! Z.to_nat i.

(** [a[i] = x]; panics when [i] is out of range. *)
Definition set (a : list A) (i : Z) (x : A) : option (list A) :=
  if (0 <=? i) && (i <? Z.of_nat (length a))
  then Some (<[Z.to_nat i := x]> a) else None.

(** [len(a)] *)
Definition len (a : list A) : Z := Z.of_nat (length a).

(** [s[from:]]; panics when [from] is outside [0..len(s)]. *)
Definition slice_from (s : list A) (from : Z) : option (list A) :=
  if (0 <=? from) && (from <=? len s)
  then Some (drop (Z.to_nat from) s) else None.
End Arrays.

(** [min] of the node file. *)
Definition min (a b : Z) : Z := if a <? b then a else b.

(** [memcpy] of tree.go: copies while [i < numBytes], [i < len(src)] and
    [i < len(dst)]; it never panics.  [i] counts up from [0]; [fuel] is the
    number of iterations still allowed, and [len(dst)] of them always
    suffice. *)
Fixpoint memcpy_loop (fuel : nat) (dst src : list byte) (numBytes i : Z)
  : list byte :=
  match fuel with
  | O => dst
  | S fuel' =>
      if (i <? numBytes) && (i <? len src) && (i <? len dst) then
        match get src i with
        | Some x => memcpy_loop fuel' (<[Z.to_nat i := x]> dst) src numBytes (i + 1)
        | None => dst
        end
      else dst
  end.

Definition memcpy (dst src : list byte) (numBytes : Z) : list byte :=
  memcpy_loop (length dst) dst src numBytes 0.

(** [memmove] of tree.go: [for i := 0; i < numBytes; i++ { dst[i] = src[i] }],
    with Go's bounds checks.  [src] is given as a function of the current
    destination, because at one call site source and destination are slices
    of the same array ([node.prefix[:]] and [node.prefix[mismatch+1:]]): the
    read of iteration [i] sees the writes of the iterations before it. *)
Fixpoint memmove_loop (fuel : nat) (dst : list byte)
    (src : list byte -> option (list byte)) (numBytes i : Z)
  : option (list byte) :=
  match fuel with
  | O => Some dst
  | S fuel' =>
      if i <? numBytes then
        s ← src dst;
        x ← get s i;
        dst' ← set dst i x;
        memmove_loop fuel' dst' src numBytes (i + 1)
      else Some dst
  end.

Definition memmove (dst : list byte) (src : list byte -> option (list byte))
    (numBytes : Z) : option (list byte) :=
  memmove_loop (Z.to_nat numBytes) dst src numBytes 0.

(** Counting loops.  [for_up n i body s] runs [body] at [i], [i+1], ...,
    [n] times ([for i := lo; i < hi; i++] with [n = hi - lo]); [for_down]
    runs it at [i], [i-1], ... ([for i := hi; i > lo; i--]).  A panic in the
    body ends the loop. *)
Fixpoint for_up {S : Type} (n : nat) (i : Z) (body : Z -> S -> option S)
    (s : S) : option S :=
  match n with
  | O => Some s
  | S n' => s' ← body i s; for_up n' (i + 1) body s'
  end.

Fixpoint for_down {S : Type} (n : nat) (i : Z) (body : Z -> S -> option S)
    (s : S) : option S :=
  match n with
  | O => Some s
  | S n' => s' ← body i s; for_down n' (i - 1) body s'
  end.

(** [sort.Search] of the Go standard library:
    [i, j := 0, n; for i < j { h := int(uint(i+j) >> 1);
      if !f(h) { i = h + 1 } else { j = h } }; return i].
    [j - i] shrinks at every turn, so [n] turns are always enough. *)
Fixpoint sort_Search_loop (fuel : nat) (f : Z -> option bool) (i j : Z)
  : option Z :=
  match fuel with
  | O => Some i
  | S fuel' =>
      if i <? j then
        let h := (i + j) / 2 in
        b ← f h;
        if negb b then sort_Search_loop fuel' f (h + 1) j
        else sort_Search_loop fuel' f i h
      else Some i
  end.

Definition sort_Search (n : Z) (f : Z -> option bool) : option Z :=
  sort_Search_loop (Z.to_nat n) f 0 n.

(** ** Nodes *)

(** Bounds of the node file. *)
Definition node4Min : Z := 2.
Definition node4Max : Z := 4.
Definition node16Min : Z := 5.
Definition node16Max : Z := 16.
Definition node48Min : Z := 17.
Definition node48Max : Z := 48.
Definition node256Min : Z := 49.
Definition node256Max : Z := 256.
Definition maxPrefixLen : Z := 10.

Abbreviation Key := (list byte).

(** [type NodeType uint8] *)
Inductive NodeType := LeafNode | Node4 | Node16 | Node48 | Node256.

#[global] Instance NodeType_eq_dec : EqDecision NodeType.
Proof. solve_decision. Defined.

(** [type node struct]: the metadata shared by the inner nodes. *)
Record node := mkNode {
  size : Z;
  prefixLen : Z;
  prefix : list byte   (* [maxPrefixLen]byte *)
}.

#[local] Set Warnings "-register-all".

Section Art.
(** [Value] is Go's [interface{}]; a nil interface is [None : option V]. *)
Context {V : Type}.

(** [artNode]: the discriminator [nodeType] and the struct behind
    [nodePtr], as one tagged union. *)
Inductive artNode :=
| Leaf (key : Key) (value : V)
| N4 (n : node) (keys : list byte) (children : list (option artNode))
| N16 (n : node) (keys : list byte) (children : list (option artNode))
| N48 (n : node) (keys : list byte) (children : list (option artNode))
| N256 (n : node) (children : list (option artNode)).

Definition zeroNode : node := mkNode 0 0 (replicate 10 Byte.x00).

Definition newLeafNode (key : Key) (value : V) : artNode := Leaf key value.
Definition newNode4 : artNode :=
  N4 zeroNode (replicate 4 Byte.x00) (replicate 4 None).
Definition newNode16 : artNode :=
  N16 zeroNode (replicate 16 Byte.x00) (replicate 16 None).
Definition newNode48 : artNode :=
  N48 zeroNode (replicate 256 Byte.x00) (replicate 49 None).
Definition newNode256 : artNode :=
  N256 zeroNode (replicate 256 None).

Definition nodeType (n : artNode) : NodeType :=
  match n with
  | Leaf _ _ => LeafNode
  | N4 _ _ _ => Node4
  | N16 _ _ _ => Node16
  | N48 _ _ _ => Node48
  | N256 _ _ => Node256
  end.

Definition isLeaf (n : artNode) : bool :=
  bool_decide (nodeType n = LeafNode).

(** [isMatch]: the length test, then [bytes.Compare(...) == 0]. *)
Definition isMatch (n : artNode) (key : Key) : bool :=
  match n with
  | Leaf k _ =>
      if bool_decide (len k = len key) then bool_decide (k = key) else false
  | _ => false
  end.

(** Driving a recursive function into the [i]-th slot of a children
    array: [onNil] when the slot holds nil, a panic when [i] is out of
    range. *)
Definition at_child {R : Type} (f : artNode -> option R) (onNil : option R)
  : list (option artNode) -> nat -> option R :=
  fix go (cs : list (option artNode)) (i : nat) {struct cs} : option R :=
    match cs with
    | [] => None
    | c :: cs' =>
        match i with
        | O => match c with Some c' => f c' | None => onNil end
        | S i' => go cs' i'
        end
    end.

Definition at_childZ {R : Type} (f : artNode -> option R) (onNil : option R)
    (cs : list (option artNode)) (i : Z) : option R :=
  if i <? 0 then None else at_child f onNil cs (Z.to_nat i).

(** First index [i] of [l] at or after [from] with [p l[i]]; used for the
    upward scans [for cond(a[i]) { i++ }], which panic when they run off
    the end of the array. *)
Fixpoint scan_up {A : Type} (p : A -> bool) (l : list A) (from : Z)
  : option Z :=
  match l with
  | [] => None
  | x :: l' => if p x then Some from else scan_up p l' (from + 1)
  end.

(** [minimum] of a (non-nil) node: [Some (Some leaf)] on success,
    [Some None] when the walk ends in a nil pointer ([minimum] of nil is
    nil), [None] when it panics. *)
Fixpoint minimum (n : artNode) : option (option artNode) :=
  match n with
  | Leaf _ _ => Some (Some n)
  | N4 _ _ cs => at_child minimum (Some None) cs 0
  | N16 _ _ cs => at_child minimum (Some None) cs 0
  | N48 _ ks cs =>
      i ← scan_up (fun k => negb (bool_decide (k = Byte.x00))) ks 0;
      k ← get ks i;
      at_childZ minimum (Some None) cs (b2z k)
  | N256 _ cs =>
      i ← scan_up (fun c : option artNode => bool_decide (is_Some c)) cs 0;
      at_childZ minimum (Some None) cs i
  end.

(** Same, for a recursive function that also replaces the slot it was
    driven into (the [**artNode] recursion of insert and delete): [f]
    returns the new content of the slot together with its result. *)
Definition on_child {R : Type}
    (f : artNode -> option (option artNode * R))
  : list (option artNode) -> nat -> option (list (option artNode) * R) :=
  fix go (cs : list (option artNode)) (i : nat) {struct cs} :=
    match cs with
    | [] => None
    | c :: cs' =>
        match i with
        | O => match c with
               | Some c' => r ← f c'; Some (r.1 :: cs', r.2)
               | None => None
               end
        | S i' => r ← go cs' i'; Some (c :: r.1, r.2)
        end
    end.

(** The struct behind a leaf is [{key []byte; value interface{}}]; the
    node file reads it through [node()] in one place (the fall-through of
    [deleteHelper] on a leaf that does not match).  Read as a [node], the
    slice's length word is [prefixLen]; the words that land on [size] and
    on [prefix] (the data pointer, the capacity, the start of the
    interface's type word) depend on the platform's layout and on runtime
    addresses, and are a parameter of the development. *)
Context (leafWords : Key -> V -> Z * list byte).

(** [node()] *)
Definition nodeOf (n : artNode) : node :=
  match n with
  | Leaf k v => mkNode (leafWords k v).1 (len k) (leafWords k v).2
  | N4 m _ _ | N16 m _ _ | N48 m _ _ | N256 m _ => m
  end.

(** Writing the metadata back; only ever done on inner nodes. *)
Definition setNode (n : artNode) (m : node) : artNode :=
  match n with
  | Leaf _ _ => n
  | N4 _ ks cs => N4 m ks cs
  | N16 _ ks cs => N16 m ks cs
  | N48 _ ks cs => N48 m ks cs
  | N256 _ cs => N256 m cs
  end.

Definition childrenOf (n : artNode) : list (option artNode) :=
  match n with
  | Leaf _ _ => []
  | N4 _ _ cs | N16 _ _ cs | N48 _ _ cs | N256 _ cs => cs
  end.

Definition minSize (n : artNode) : Z :=
  match n with
  | N4 _ _ _ => node4Min
  | N16 _ _ _ => node16Min
  | N48 _ _ _ => node48Min
  | N256 _ _ => node256Min
  | Leaf _ _ => 0
  end.

Definition maxSize (n : artNode) : Z :=
  match n with
  | N4 _ _ _ => node4Max
  | N16 _ _ _ => node16Max
  | N48 _ _ _ => node48Max
  | N256 _ _ => node256Max
  | Leaf _ _ => 0
  end.

Definition isFull (n : artNode) : bool :=
  bool_decide (size (nodeOf n) = maxSize n).

(** [n.minimum().leafNode().key]: a nil result is dereferenced, which
    panics. *)
Definition minimumKey (n : artNode) : option Key :=
  r ← minimum n;
  match r with
  | Some (Leaf k _) => Some k
  | _ => None
  end.

(** [keyChar]: the byte of [key] at [i], or [0] past its end. *)
Definition keyCharAt (key : Key) (i : Z) : option byte :=
  if (i <? 0) || (i >=? len key) then Some Byte.x00 else get key i.

(** First loop of [prefixMismatch]: [inl idx] is [return idx] from inside
    the loop, [inr idx] is the loop running to its end. *)
Fixpoint prefixMismatch_inline (n : nat) (pfx : list byte) (key : Key)
    (depth idx : Z) : option (Z + Z) :=
  match n with
  | O => Some (inr idx)
  | S n' =>
      keyChar ← keyCharAt key (depth + idx);
      p ← get pfx idx;
      if bool_decide (keyChar ≠ p) then Some (inl idx)
      else prefixMismatch_inline n' pfx key depth (idx + 1)
  end.

(** Second loop of [prefixMismatch], against the key of the minimum leaf. *)
Fixpoint prefixMismatch_overflow (n : nat) (minKey key : Key)
    (depth idx : Z) : option Z :=
  match n with
  | O => Some idx
  | S n' =>
      a ← get key (depth + idx);
      b ← get minKey (depth + idx);
      if bool_decide (a ≠ b) then Some idx
      else prefixMismatch_overflow n' minKey key depth (idx + 1)
  end.

Definition prefixMismatch (n : artNode) (key : Key) (depth : Z) : option Z :=
  let m := nodeOf n in
  r ← prefixMismatch_inline (Z.to_nat (min maxPrefixLen (prefixLen m)))
        (prefix m) key depth 0;
  match r with
  | inl idx => Some idx
  | inr idx =>
      if prefixLen m >? maxPrefixLen then
        minKey ← minimumKey n;
        prefixMismatch_overflow (Z.to_nat (prefixLen m - idx)) minKey key
          depth idx
      else Some idx
  end.

(** [bytes.IndexByte] *)
Fixpoint indexByte (l : list byte) (b : byte) : Z :=
  match l with
  | [] => -1
  | x :: l' =>
      if bool_decide (x = b) then 0
      else let r := indexByte l' b in if r <? 0 then -1 else r + 1
  end.

Definition index (n : artNode) (key : byte) : option Z :=
  match n with
  | N4 _ ks _ | N16 _ ks _ => Some (indexByte ks key)
  | N48 _ ks _ => k ← get ks (b2z key); Some (b2z k)
  | N256 _ _ => Some (b2z key)
  | Leaf _ _ => Some (-1)
  end.

(** The [**artNode] returned by [findChild]: the address of the shared
    [nullNode] variable, or the address of a slot of the children array. *)
Inductive childRef := NullRef | Slot (i : Z).

Definition findChild (n : artNode) (key : byte) : option childRef :=
  idx ← match n with
        | N4 _ _ _ | N16 _ _ _ | N48 _ _ _ => index n key
        | N256 _ _ => Some (b2z key)
        | Leaf _ _ => Some 0
        end;
  if idx <? 0 then Some NullRef
  else
    match n with
    | N4 _ _ cs | N16 _ _ cs => _ ← get cs idx; Some (Slot idx)
    | N48 _ _ cs =>
        if idx =? 0 then Some NullRef else _ ← get cs idx; Some (Slot idx)
    | N256 _ cs =>
        c ← get cs idx;
        match c with None => Some NullRef | Some _ => Some (Slot idx) end
    | Leaf _ _ => Some NullRef
    end.

(** [*ref] *)
Definition load (n : artNode) (r : childRef) : option artNode :=
  match r with
  | NullRef => None
  | Slot i => default None (get (childrenOf n) i)
  end.

(** [copyMeta], on the two [node()] views. *)
Definition copyMeta (to from : node) : option node :=
  pfx ← for_up (Z.to_nat (min (prefixLen from) maxPrefixLen)) 0
        (fun i p => x ← get (prefix from) i; set p i x) (prefix to);
  Some (mkNode (size from) (prefixLen from) pfx).

(** [grow]: the result is the new content of the [artNode] ([replaceWith]). *)
Definition grow (n : artNode) : option artNode :=
  match n with
  | N4 m ks cs =>
      m' ← copyMeta zeroNode m;
      r ← for_up (Z.to_nat (size m)) 0
            (fun i (s : list byte * list (option artNode)) =>
               k ← get ks i; ks' ← set s.1 i k;
               c ← get cs i; cs' ← set s.2 i c;
               Some (ks', cs'))
            (replicate 16 Byte.x00, replicate 16 None);
      Some (N16 m' r.1 r.2)
  | N16 m ks cs =>
      m' ← copyMeta zeroNode m;
      r ← for_up (Z.to_nat (size m)) 0
            (fun i (s : list byte * list (option artNode)) =>
               k ← get ks i; ks' ← set s.1 (b2z k) (z2b (i + 1));
               c ← get cs i; cs' ← set s.2 (i + 1) c;
               Some (ks', cs'))
            (replicate 256 Byte.x00, replicate 49 None);
      Some (N48 m' r.1 r.2)
  | N48 m ks cs =>
      m' ← copyMeta zeroNode m;
      cs' ← for_up (Z.to_nat (len ks)) 0
            (fun i (s : list (option artNode)) =>
               k ← get ks i;
               if bool_decide (k = Byte.x00) then Some s
               else
                 c ← get cs (b2z k);
                 match c with
                 | Some _ => set s (b2z (z2b i)) c
                 | None => Some s
                 end)
            (replicate 256 None);
      Some (N256 m' cs')
  | N256 _ _ => Some n
  | Leaf _ _ => Some n
  end.

(** Search loop of the Node4 case of [addChild]:
    [for idx = 0; idx < n4.size; idx++ { if key < n4.keys[idx] { break } }]. *)
Fixpoint addChild_scan (n : nat) (ks : list byte) (key : byte) (idx : Z)
  : option Z :=
  match n with
  | O => Some idx
  | S n' =>
      k ← get ks idx;
      if byte_ltb key k then Some idx
      else addChild_scan n' ks key (idx + 1)
  end.

(** [for i := size; i > idx; i-- { keys[i] = keys[i-1];
      children[i] = children[i-1] }] *)
Definition shift_right (sz idx : Z) (ks : list byte)
    (cs : list (option artNode)) : option (list byte * list (option artNode)) :=
  for_down (Z.to_nat (sz - idx)) sz
    (fun i (s : list byte * list (option artNode)) =>
       k ← get s.1 (i - 1); ks' ← set s.1 i k;
       c ← get s.2 (i - 1); cs' ← set s.2 i c;
       Some (ks', cs'))
    (ks, cs).

Definition incSize (m : node) : node :=
  mkNode (size m + 1) (prefixLen m) (prefix m).
Definition decSize (m : node) : node :=
  mkNode (size m - 1) (prefixLen m) (prefix m).

(** [addChild]: a full node grows and the call is retried on the grown
    node, which is of the next variant; [fuel] bounds the retries, and
    one more than the number of growing variants is always enough because
    Node256 never retries. *)
Fixpoint addChild_fuel (fuel : nat) (n : artNode) (key : byte)
    (child : artNode) : option artNode :=
  match fuel with
  | O => None
  | S fuel' =>
      match n with
      | N4 m ks cs =>
          if isFull n then n' ← grow n; addChild_fuel fuel' n' key child
          else
            idx ← (if size m =? 0 then Some 0
                   else addChild_scan (Z.to_nat (size m)) ks key 0);
            r ← shift_right (size m) idx ks cs;
            ks' ← set r.1 idx key;
            cs' ← set r.2 idx (Some child);
            Some (N4 (incSize m) ks' cs')
      | N16 m ks cs =>
          if isFull n then n' ← grow n; addChild_fuel fuel' n' key child
          else
            idx ← (if size m =? 0 then Some 0
                   else sort_Search (size m)
                          (fun i => k ← get ks (b2z (z2b i));
                                    Some (byte_leb key k)));
            r ← shift_right (size m) idx ks cs;
            ks' ← set r.1 idx key;
            cs' ← set r.2 idx (Some child);
            Some (N16 (incSize m) ks' cs')
      | N48 m ks cs =>
          if isFull n then n' ← grow n; addChild_fuel fuel' n' key child
          else
            idx ← scan_up (fun c : option artNode => bool_decide (c = None))
                    (drop 1 cs) 1;
            cs' ← set cs idx (Some child);
            ks' ← set ks (b2z key) (z2b idx);
            Some (N48 (incSize m) ks' cs')
      | N256 m cs =>
          if isFull n then Some n
          else
            cs' ← set cs (b2z key) (Some child);
            Some (N256 (incSize m) cs')
      | Leaf _ _ => Some n
      end
  end.

Definition addChild (n : artNode) (key : byte) (child : artNode)
  : option artNode :=
  addChild_fuel 4 n key child.

(** [shrink] *)
Definition shrink (n : artNode) : option artNode :=
  match n with
  | N4 m ks cs =>
      c0 ← get cs 0;
      newNode ← c0;
      if negb (isLeaf newNode) then
        let child := nodeOf newNode in
        let currentPrefixLen := prefixLen m in
        s1 ← (if currentPrefixLen <? maxPrefixLen then
                 k0 ← get ks 0;
                 p ← set (prefix m) currentPrefixLen k0;
                 Some (p, currentPrefixLen + 1)
               else Some (prefix m, currentPrefixLen));
        s2 ← (if s1.2 <? maxPrefixLen then
                 let childPrefixLen :=
                   min (prefixLen child) (maxPrefixLen - s1.2) in
                 dst ← slice_from s1.1 s1.2;
                 Some (take (Z.to_nat s1.2) s1.1
                         ++ memcpy dst (prefix child) childPrefixLen,
                       s1.2 + childPrefixLen)
               else Some s1);
        let pfx := memcpy (prefix child) s2.1 (min s2.2 maxPrefixLen) in
        Some (setNode newNode
                (mkNode (size child) (prefixLen child + prefixLen m + 1) pfx))
      else Some newNode
  | N16 m ks cs =>
      m' ← copyMeta zeroNode m;
      r ← for_up (Z.to_nat (size m)) 0
            (fun i (s : Z * list byte * list (option artNode)) =>
               k ← get ks i; ks' ← set s.1.2 s.1.1 k;
               c ← get cs i; cs' ← set s.2 s.1.1 c;
               Some (s.1.1 + 1, ks', cs'))
            (0, replicate 4 Byte.x00, replicate 4 None);
      Some (N4 (mkNode r.1.1 (prefixLen m') (prefix m')) r.1.2 r.2)
  | N48 m ks cs =>
      m' ← copyMeta zeroNode m;
      r ← for_up (Z.to_nat (len ks)) 0
            (fun i (s : Z * list byte * list (option artNode)) =>
               idx ← get ks (b2z (z2b i));
               if b2z idx <=? 0 then Some s
               else
                 ks' ← set s.1.2 s.1.1 (z2b i);
                 c ← get cs (b2z idx);
                 cs' ← set s.2 s.1.1 c;
                 Some (s.1.1 + 1, ks', cs'))
            (0, replicate 16 Byte.x00, replicate 16 None);
      Some (N16 (mkNode r.1.1 (prefixLen m') (prefix m')) r.1.2 r.2)
  | N256 m cs =>
      m' ← copyMeta zeroNode m;
      r ← for_up (Z.to_nat (len cs)) 0
            (fun i (s : Z * list byte * list (option artNode)) =>
               c ← get cs (b2z (z2b i));
               match c with
               | None => Some s
               | Some _ =>
                   cs' ← set s.2 (s.1.1 + 1) c;
                   ks' ← set s.1.2 (b2z (z2b i)) (z2b (s.1.1 + 1));
                   Some (s.1.1 + 1, ks', cs')
               end)
            (0, replicate 256 Byte.x00, replicate 49 None);
      Some (N48 (mkNode r.1.1 (prefixLen m') (prefix m')) r.1.2 r.2)
  | Leaf _ _ => Some n
  end.

(** [for i := idx; i < size-1; i++ { keys[i] = keys[i+1];
      children[i] = children[i+1] }] *)
Definition shift_left (sz idx : Z) (ks : list byte)
    (cs : list (option artNode)) : option (list byte * list (option artNode)) :=
  for_up (Z.to_nat (sz - 1 - idx)) idx
    (fun i (s : list byte * list (option artNode)) =>
       k ← get s.1 (i + 1); ks' ← set s.1 i k;
       c ← get s.2 (i + 1); cs' ← set s.2 i c;
       Some (ks', cs'))
    (ks, cs).

(** The Node4 / Node16 case of [RemoveChild], on the fields. *)
Definition removeAt (m : node) (ks : list byte) (cs : list (option artNode))
    (idx : Z) : option (node * list byte * list (option artNode)) :=
  ks1 ← set ks idx Byte.x00;
  cs1 ← set cs idx None;
  r ← shift_left (size m) idx ks1 cs1;
  ks2 ← set r.1 (size m - 1) Byte.x00;
  cs2 ← set r.2 (size m - 1) None;
  Some (decSize m, ks2, cs2).

(** [RemoveChild] *)
Definition RemoveChild (n : artNode) (key : byte) : option artNode :=
  n' ← match n with
       | N4 m ks cs =>
           idx ← index n key;
           if idx <? 0 then Some n
           else r ← removeAt m ks cs idx; Some (N4 r.1.1 r.1.2 r.2)
       | N16 m ks cs =>
           idx ← index n key;
           if idx <? 0 then Some n
           else r ← removeAt m ks cs idx; Some (N16 r.1.1 r.1.2 r.2)
       | N48 m ks cs =>
           idx ← index n key;
           if idx <=? 0 then Some n
           else
             cs' ← set cs idx None;
             ks' ← set ks (b2z key) Byte.x00;
             Some (N48 (decSize m) ks' cs')
       | N256 m cs =>
           idx ← index n key;
           cs' ← set cs idx None;
           Some (N256 (decSize m) cs')
       | Leaf _ _ => Some n
       end;
  if size (nodeOf n') <? minSize n' then shrink n' else Some n'.

(** Loop of [longestCommonPrefix]: [return i] at the first difference,
    [return limit] when the loop runs to its end. *)
Fixpoint longestCommonPrefix_loop (n : nat) (k1 k2 : Key) (depth limit i : Z)
  : option Z :=
  match n with
  | O => Some limit
  | S n' =>
      a ← get k1 (depth + i);
      b ← get k2 (depth + i);
      if bool_decide (a ≠ b) then Some i
      else longestCommonPrefix_loop n' k1 k2 depth limit (i + 1)
  end.

(** [longestCommonPrefix]; both nodes are leaves at its only call site. *)
Definition longestCommonPrefix (n other : artNode) (depth : Z) : option Z :=
  match n, other with
  | Leaf k1 _, Leaf k2 _ =>
      let limit := min (len k1) (len k2) - depth in
      longestCommonPrefix_loop (Z.to_nat limit) k1 k2 depth limit 0
  | _, _ => None
  end.

(** ** The tree *)

(** [type tree struct]; the counter field [size] of the source is
    [count] here, [size] being the field of [node]. *)
Record tree := mkTree {
  root : option artNode;
  count : Z
}.

Definition newArt : tree := mkTree None 0.

(** [searchHelper]: the loop [for current != nil] descends one child per
    turn; the recursion is on the node. The result is [Some None] for
    Go's nil value. *)
Fixpoint searchHelper (current : artNode) (key : Key) (depth : Z)
  : option (option V) :=
  let descend (cs : list (option artNode)) : option (option V) :=
    mismatch ← prefixMismatch current key depth;
    if bool_decide (mismatch ≠ prefixLen (nodeOf current)) then Some None
    else
      let depth := depth + prefixLen (nodeOf current) in
      keyChar ← keyCharAt key depth;
      next ← findChild current keyChar;
      match next with
      | NullRef => Some None
      | Slot i =>
          at_childZ (fun c => searchHelper c key (depth + 1)) (Some None) cs i
      end in
  match current with
  | Leaf _ v => if isMatch current key then Some (Some v) else Some None
  | N4 _ _ cs => descend cs
  | N16 _ _ cs => descend cs
  | N48 _ _ cs => descend cs
  | N256 _ cs => descend cs
  end.

Definition Search (t : tree) (key : Key) : option (option V) :=
  match root t with
  | None => Some None
  | Some current => searchHelper current key 0
  end.

(** The Node4 of a split: [newNode4()] with its [prefixLen] and [prefix]
    set. *)
Definition splitNode4 (prefixLen : Z) (pfx : list byte) : artNode :=
  N4 (mkNode 0 prefixLen pfx) (replicate 4 Byte.x00) (replicate 4 None).

(** The prefix-mismatch branch of [insertHelper] (lines 98-119).
    [current] is linked under the new Node4 by pointer and its metadata
    is rewritten afterwards; the child seen through that pointer is the
    rewritten node. *)
Definition insertSplit (current : artNode) (key : Key) (value : V)
    (depth mismatch cnt : Z) : option (artNode * Z) :=
  let node := nodeOf current in
  let newNode4 :=
    splitNode4 mismatch
      (memcpy (replicate 10 Byte.x00) (prefix node) mismatch) in
  let prefixLen' := prefixLen node - (mismatch + 1) in
  n4 ← (if prefixLen node <? maxPrefixLen then
           b ← get (prefix node) mismatch;
           _ ← slice_from (prefix node) (mismatch + 1);
           pfx ← memmove (prefix node)
                   (fun d => slice_from d (mismatch + 1))
                   (min prefixLen' maxPrefixLen);
           addChild newNode4 b
             (setNode current (mkNode (size node) prefixLen' pfx))
         else
           minKey ← minimumKey current;
           b ← get minKey (depth + mismatch);
           src ← slice_from minKey (depth + mismatch + 1);
           pfx ← memmove (prefix node) (fun _ => Some src)
                   (min prefixLen' maxPrefixLen);
           addChild newNode4 b
             (setNode current (mkNode (size node) prefixLen' pfx)));
  kb ← get key (depth + mismatch);
  n4' ← addChild n4 kb (newLeafNode key value);
  Some (n4', cnt + 1).

(** The leaf branch of [insertHelper] without a match (lines 67-91). *)
Definition insertLeafSplit (current : artNode) (curKey : Key) (key : Key)
    (value : V) (depth cnt : Z) : option (artNode * Z) :=
  let newLeaf := newLeafNode key value in
  limit ← longestCommonPrefix current newLeaf depth;
  src ← slice_from key depth;
  let newNode4 :=
    splitNode4 limit
      (memcpy (replicate 10 Byte.x00) src (min limit maxPrefixLen)) in
  b1 ← keyCharAt curKey (depth + limit);
  n4 ← addChild newNode4 b1 current;
  b2 ← keyCharAt key (depth + limit);
  n4' ← addChild n4 b2 newLeaf;
  Some (n4', cnt + 1).

(** [insertHelper] on a non-nil [*currentRef]; the result is the new
    content of [*currentRef] and the new value of [t.size]. *)
Fixpoint insertHelper (current : artNode) (key : Key) (value : V)
    (depth cnt : Z) : option (artNode * Z) :=
  let inner (cs : list (option artNode))
      (rebuild : list (option artNode) -> artNode) : option (artNode * Z) :=
    let node := nodeOf current in
    r ← (if bool_decide (prefixLen node ≠ 0) then
           mismatch ← prefixMismatch current key depth;
           if bool_decide (mismatch ≠ prefixLen node) then
             res ← insertSplit current key value depth mismatch cnt;
             Some (inl res)
           else Some (inr (depth + prefixLen node))
         else Some (inr depth));
    match r with
    | inl res => Some res
    | inr depth =>
        kd ← get key depth;
        next ← findChild current kd;
        match load current next, next with
        | Some _, Slot i =>
            r ← on_child
                  (fun c => r ← insertHelper c key value (depth + 1) cnt;
                            Some (Some r.1, r.2))
                  cs (Z.to_nat i);
            Some (rebuild r.1, r.2)
        | _, _ =>
            n' ← addChild current kd (newLeafNode key value);
            Some (n', cnt + 1)
        end
    end in
  match current with
  | Leaf k _ =>
      if isMatch current key then Some (Leaf k value, cnt)
      else insertLeafSplit current k key value depth cnt
  | N4 m ks cs => inner cs (N4 m ks)
  | N16 m ks cs => inner cs (N16 m ks)
  | N48 m ks cs => inner cs (N48 m ks)
  | N256 m cs => inner cs (N256 m)
  end.

Definition Insert (t : tree) (key : Key) (value : V) : option tree :=
  match root t with
  | None => Some (mkTree (Some (newLeafNode key value)) (count t + 1))
  | Some current =>
      r ← insertHelper current key value 0 (count t);
      Some (mkTree (Some r.1) r.2)
  end.

(** [deleteHelper] on a non-nil [*currentRef]; the result is the new
    content of [*currentRef], the returned boolean and the new [t.size].
    A leaf that does not match falls through to the inner-node code, as
    in the source. *)
Fixpoint deleteHelper (current : artNode) (key : Key) (depth cnt : Z)
  : option (option artNode * (bool * Z)) :=
  let body (cs : list (option artNode))
      (rebuild : list (option artNode) -> artNode)
    : option (option artNode * (bool * Z)) :=
    if isLeaf current && isMatch current key then Some (None, (true, cnt - 1))
    else
      let node := nodeOf current in
      d ← (if bool_decide (prefixLen node ≠ 0) then
             mismatch ← prefixMismatch current key depth;
             if bool_decide (mismatch ≠ prefixLen node) then Some None
             else Some (Some (depth + prefixLen node))
           else Some (Some depth));
      match d with
      | None => Some (Some current, (false, cnt))
      | Some depth =>
          keyChar ← keyCharAt key depth;
          next ← findChild current keyChar;
          match load current next, next with
          | Some c, Slot i =>
              if isLeaf c && isMatch c key then
                n' ← RemoveChild current keyChar;
                Some (Some n', (true, cnt - 1))
              else
                r ← on_child (fun c => deleteHelper c key (depth + 1) cnt)
                      cs (Z.to_nat i);
                Some (Some (rebuild r.1), r.2)
          | _, _ => Some (Some current, (false, cnt))
          end
      end in
  if bool_decide (len key = 0) then Some (Some current, (false, cnt))
  else
    match current with
    | Leaf _ _ => body [] (fun _ => current)
    | N4 m ks cs => body cs (N4 m ks)
    | N16 m ks cs => body cs (N16 m ks)
    | N48 m ks cs => body cs (N48 m ks)
    | N256 m cs => body cs (N256 m)
    end.

Definition Delete (t : tree) (key : Key) : option (bool * tree) :=
  match root t with
  | None => Some (false, t)
  | Some current =>
      r ← deleteHelper current key 0 (count t);
      Some (r.2.1, mkTree r.1 r.2.2)
  end.

Definition Size (t : tree) : Z := count t.

(** [eachChildren] *)
Definition eachChildren (each : artNode -> option (list artNode))
  : list (option artNode) -> option (list artNode) :=
  fix go (children : list (option artNode)) :=
    match children with
    | [] => Some []
    | child :: rest =>
        a ← match child with Some c => each c | None => Some [] end;
        b ← go rest;
        Some (a ++ b)
    end.

(** The Node48 loop of [eachHelper]: [for _, i := range node.keys]. *)
Definition eachKeys48 (each : artNode -> option (list artNode))
    (cs : list (option artNode)) : list byte -> option (list artNode) :=
  fix go (ks : list byte) :=
    match ks with
    | [] => Some []
    | i :: rest =>
        a ← (if b2z i >? 0 then at_childZ each (Some []) cs (b2z i)
             else Some []);
        b ← go rest;
        Some (a ++ b)
    end.

(** [eachHelper]: the sequence of nodes handed to the callback. *)
Fixpoint eachHelper (current : artNode) : option (list artNode) :=
  rest ← match current with
         | Leaf _ _ => Some []
         | N4 _ _ cs => eachChildren eachHelper cs
         | N16 _ _ cs => eachChildren eachHelper cs
         | N48 _ ks cs => eachKeys48 eachHelper cs ks
         | N256 _ cs => eachChildren eachHelper cs
         end;
  Some (current :: rest).

Definition Each (t : tree) : option (list artNode) :=
  match root t with
  | None => Some []
  | Some current => eachHelper current
  end.
End Art.

Arguments artNode : clear implicits.
Arguments tree : clear implicits.


(** * Basic facts *)

(** ** Bytes *)

Lemma b2z_range (b : byte) : 0 <= b2z b < 256.
Proof.
  unfold b2z. pose proof (Byte.to_N_bounded b). lia.
Qed.

Lemma b2z_inj (a b : byte) : b2z a = b2z b -> a = b.
Proof.
  unfold b2z. intros H. apply N2Z.inj in H.
  pose proof (Byte.of_to_N a) as Ha. rewrite H, Byte.of_to_N in Ha. congruence.
Qed.

Lemma z2b_b2z (b : byte) : z2b (b2z b) = b.
Proof.
  unfold z2b. pose proof (b2z_range b).
  rewrite Z.mod_small by lia. unfold b2z. rewrite N2Z.id.
  by rewrite Byte.of_to_N.
Qed.

Lemma b2z_z2b (i : Z) : 0 <= i < 256 -> b2z (z2b i) = i.
Proof.
  intros Hi. unfold z2b. rewrite Z.mod_small by lia.
  destruct (Byte.of_N (Z.to_N i)) as [b|] eqn:E.
  - apply Byte.to_of_N in E. unfold b2z. rewrite E. lia.
  - apply Byte.of_N_None_iff in E. lia.
Qed.

Lemma b2z_x00 : b2z Byte.x00 = 0.
Proof. reflexivity. Qed.

Lemma b2z_0_inv (b : byte) : b2z b = 0 -> b = Byte.x00.
Proof. intros H. apply b2z_inj. by rewrite H. Qed.

Lemma byte_ltb_lt (a b : byte) : byte_ltb a b = true <-> b2z a < b2z b.
Proof. unfold byte_ltb. apply Z.ltb_lt. Qed.

Lemma byte_leb_le (a b : byte) : byte_leb a b = true <-> b2z a <= b2z b.
Proof. unfold byte_leb. apply Z.leb_le. Qed.

Lemma min_Zmin (a b : Z) : min a b = Z.min a b.
Proof. unfold min. destruct (Z.ltb_spec a b); lia. Qed.

(** ** Arrays *)

Section ArrayFacts.
Context {A : Type}.
Implicit Types (a : list A) (i : Z) (x : A).

Lemma get_nat a (n : nat) : get a (Z.of_nat n) = a !! n.
Proof.
  unfold get. destruct (Z.ltb_spec (Z.of_nat n) 0); [lia|]. by rewrite Nat2Z.id.
Qed.

Lemma get_Some a i x :
  get a i = Some x <-> 0 <= i /\ a !! Z.to_nat i = Some x.
Proof.
  unfold get. destruct (Z.ltb_spec i 0).
  - split; [done|]. intros [? _]. lia.
  - split; [intros; split; [lia|done] | by intros [_ ?]].
Qed.

Lemma get_lt a i x : get a i = Some x -> 0 <= i < len a.
Proof.
  intros [? H]%get_Some. apply lookup_lt_Some in H. unfold len. lia.
Qed.

Lemma get_is_Some a i : 0 <= i < len a -> is_Some (get a i).
Proof.
  intros Hi. unfold get, len in *. destruct (Z.ltb_spec i 0); [lia|].
  apply lookup_lt_is_Some. lia.
Qed.

Lemma get_None_ge a i : len a <= i -> get a i = None.
Proof.
  intros Hi. unfold get, len in *. destruct (Z.ltb_spec i 0); [done|].
  apply lookup_ge_None. lia.
Qed.

Lemma set_Some a i x :
  0 <= i < len a -> set a i x = Some (<[Z.to_nat i := x]> a).
Proof.
  intros Hi. unfold set, len in *.
  destruct (Z.leb_spec 0 i); [|lia].
  destruct (Z.ltb_spec i (Z.of_nat (length a))); [done|lia].
Qed.

Lemma set_inv a i x a' :
  set a i x = Some a' -> 0 <= i < len a /\ a' = <[Z.to_nat i := x]> a.
Proof.
  unfold set, len.
  destruct (Z.leb_spec 0 i); simpl; [|done].
  destruct (Z.ltb_spec i (Z.of_nat (length a))); [|done].
  intros [= <-]. split; [lia|done].
Qed.

Lemma set_length a i x a' : set a i x = Some a' -> length a' = length a.
Proof. intros [_ ->]%set_inv. by rewrite length_insert. Qed.

Lemma len_nonneg a : 0 <= len a.
Proof. unfold len. lia. Qed.

Lemma slice_from_Some (s : list A) from :
  0 <= from <= len s -> slice_from s from = Some (drop (Z.to_nat from) s).
Proof.
  intros H. unfold slice_from.
  destruct (Z.leb_spec 0 from); [|lia].
  destruct (Z.leb_spec from (len s)); [done|lia].
Qed.

Lemma slice_from_inv (s s' : list A) from :
  slice_from s from = Some s' ->
  0 <= from <= len s /\ s' = drop (Z.to_nat from) s.
Proof.
  unfold slice_from.
  destruct (Z.leb_spec 0 from); simpl; [|done].
  destruct (Z.leb_spec from (len s)); [|done].
  intros [= <-]. split; [lia|done].
Qed.
End ArrayFacts.

(** ** Loops *)

Section LoopFacts.
Context {S : Type}.

(** Invariant rule for a counting loop that is known to complete. *)
Lemma for_up_inv (P : Z -> S -> Prop) n i body s s' :
  for_up n i body s = Some s' ->
  P i s ->
  (forall j t t', i <= j < i + Z.of_nat n -> P j t -> body j t = Some t' ->
                  P (j + 1) t') ->
  P (i + Z.of_nat n) s'.
Proof.
  revert i s. induction n as [|n IH]; intros i s Hrun Hi Hstep; cbn [for_up for_down] in *.
  - injection Hrun as <-. by replace (i + Z.of_nat 0) with i by lia.
  - destruct (body i s) as [t|] eqn:Hb; simpl in *; [|done].
    replace (i + Z.of_nat (Datatypes.S n)) with ((i + 1) + Z.of_nat n) by lia.
    eapply IH; [done| |].
    + eapply Hstep; [|done..]. lia.
    + intros j u u' Hj. apply Hstep. lia.
Qed.

(** Total-correctness rule: the body never panics under the invariant. *)
Lemma for_up_spec (P : Z -> S -> Prop) n i body s :
  P i s ->
  (forall j t, i <= j < i + Z.of_nat n -> P j t ->
               exists t', body j t = Some t' /\ P (j + 1) t') ->
  exists s', for_up n i body s = Some s' /\ P (i + Z.of_nat n) s'.
Proof.
  revert i s. induction n as [|n IH]; intros i s Hi Hstep; cbn [for_up for_down].
  - exists s. by replace (i + Z.of_nat 0) with i by lia.
  - destruct (Hstep i s) as (t & Hb & Ht); [lia|done|]. rewrite Hb. simpl.
    replace (i + Z.of_nat (Datatypes.S n)) with ((i + 1) + Z.of_nat n) by lia.
    apply IH; [done|]. intros j u Hj. apply Hstep. lia.
Qed.

Lemma for_down_inv (P : Z -> S -> Prop) n i body s s' :
  for_down n i body s = Some s' ->
  P i s ->
  (forall j t t', i - Z.of_nat n < j <= i -> P j t -> body j t = Some t' ->
                  P (j - 1) t') ->
  P (i - Z.of_nat n) s'.
Proof.
  revert i s. induction n as [|n IH]; intros i s Hrun Hi Hstep; cbn [for_up for_down] in *.
  - injection Hrun as <-. by replace (i - Z.of_nat 0) with i by lia.
  - destruct (body i s) as [t|] eqn:Hb; simpl in *; [|done].
    replace (i - Z.of_nat (Datatypes.S n)) with ((i - 1) - Z.of_nat n) by lia.
    eapply IH; [done| |].
    + eapply Hstep; [|done..]. lia.
    + intros j u u' Hj. apply Hstep. lia.
Qed.

Lemma for_down_spec (P : Z -> S -> Prop) n i body s :
  P i s ->
  (forall j t, i - Z.of_nat n < j <= i -> P j t ->
               exists t', body j t = Some t' /\ P (j - 1) t') ->
  exists s', for_down n i body s = Some s' /\ P (i - Z.of_nat n) s'.
Proof.
  revert i s. induction n as [|n IH]; intros i s Hi Hstep; cbn [for_up for_down].
  - exists s. by replace (i - Z.of_nat 0) with i by lia.
  - destruct (Hstep i s) as (t & Hb & Ht); [lia|done|]. rewrite Hb. simpl.
    replace (i - Z.of_nat (Datatypes.S n)) with ((i - 1) - Z.of_nat n) by lia.
    apply IH; [done|]. intros j u Hj. apply Hstep. lia.
Qed.
End LoopFacts.

(** ** List lookups, in decidable form *)

Section LookupDec.
Context {A : Type}.
Implicit Types (l : list A).

Lemma lookup_app_dec l1 l2 (i : nat) :
  (l1 ++ l2) !! i = if decide (i < length l1)%nat then l1 !! i
                    else l2 !! (i - length l1)%nat.
Proof.
  case_decide; [by apply lookup_app_l | apply lookup_app_r; lia].
Qed.

Lemma lookup_cons_dec (x : A) l (i : nat) :
  (x :: l) !! i = if decide (i = 0)%nat then Some x else l !! (i - 1)%nat.
Proof.
  destruct i as [|i]; simpl; [done|]. by rewrite Nat.sub_0_r.
Qed.

Lemma lookup_replicate_dec (n : nat) (x : A) (i : nat) :
  replicate n x !! i = if decide (i < n)%nat then Some x else None.
Proof.
  case_decide; [by apply lookup_replicate_2 | by apply lookup_replicate_None; lia].
Qed.
End LookupDec.

(** Normalisation of lookups into case distinctions on the index. *)
Ltac lookup_norm :=
  repeat first
    [ rewrite lookup_app_dec | rewrite lookup_take | rewrite lookup_drop
    | rewrite list_lookup_insert | rewrite lookup_replicate_dec
    | rewrite lookup_cons_dec | rewrite lookup_nil
    | rewrite length_app | rewrite length_take | rewrite length_drop
    | rewrite length_insert | rewrite length_replicate
    | rewrite List.length_cons | rewrite List.length_nil
    | rewrite length_fmap ].

Ltac lookup_cases :=
  repeat case_decide; try done; try lia; try (f_equal; lia).

Ltac lookup_solve :=
  apply list_eq; intro; lookup_norm; lookup_cases.

(** * The directory of an inner node, abstractly

    Whatever its variant, an inner node maps key bytes to children.  The
    list of its (byte, child) pairs in ascending byte order is the
    abstraction the tree algorithms are verified against. *)

Definition byte_lt (a b : byte) : Prop := b2z a < b2z b.

(** All byte values, in ascending order. *)
Definition allBytes : list byte := (fun i => z2b (Z.of_nat i)) <$> seq 0 256.

(** The inline bytes that are part of the compressed path: the first
    [min(prefixLen, maxPrefixLen)] bytes of [prefix]. *)
Definition storedPrefix (m : node) : list byte :=
  take (Z.to_nat (Z.min (prefixLen m) maxPrefixLen)) (prefix m).

(** What [copyMeta] carries over. *)
Definition metaKept (m m' : node) : Prop :=
  size m' = size m /\ prefixLen m' = prefixLen m
  /\ storedPrefix m' = storedPrefix m /\ length (prefix m') = 10%nat.

Section Edges.
Context {V : Type}.
Abbreviation edge := (byte * artNode V)%type.

(** The child listed first under [b]. *)
Fixpoint lookupEdge (b : byte) (es : list edge) : option (artNode V) :=
  match es with
  | [] => None
  | e :: es' => if decide (e.1 = b) then Some e.2 else lookupEdge b es'
  end.

(** Insertion in front of the first entry with a larger byte. *)
Fixpoint insertEdge (b : byte) (c : artNode V) (es : list edge) : list edge :=
  match es with
  | [] => [(b, c)]
  | e :: es' =>
      if byte_ltb b e.1 then (b, c) :: e :: es' else e :: insertEdge b c es'
  end.

Definition removeEdge (b : byte) (es : list edge) : list edge :=
  filter (fun e => e.1 ≠ b) es.

Definition replaceEdge (b : byte) (c : artNode V) (es : list edge)
  : list edge :=
  (fun e : edge => if decide (e.1 = b) then (b, c) else e) <$> es.

Definition sortedEdges (es : list edge) : Prop :=
  StronglySorted byte_lt es.*1.

(** [*(n.findChild(b))]: the pointer stored in the slot [findChild]
    returns. *)
Definition childUnder (n : artNode V) (b : byte)
  : option (option (artNode V)) :=
  r ← findChild n b; Some (load n r).

Definition setChildren (n : artNode V) (cs : list (option (artNode V)))
  : artNode V :=
  match n with
  | Leaf _ _ => n
  | N4 m ks _ => N4 m ks cs
  | N16 m ks _ => N16 m ks cs
  | N48 m ks _ => N48 m ks cs
  | N256 m _ => N256 m cs
  end.

(** Node4 / Node16: the entries fill the front of the two parallel arrays,
    the unused tail holds zero bytes and nil pointers. *)
Definition layout (cap : nat) (m : node) (ks : list byte)
    (cs : list (option (artNode V))) (es : list edge) : Prop :=
  length (prefix m) = 10%nat
  /\ size m = len es
  /\ (length es <= cap)%nat
  /\ ks = es.*1 ++ replicate (cap - length es) Byte.x00
  /\ cs = (Some <$> es.*2) ++ replicate (cap - length es) None.

(** Number of non-nil pointers of a children array. *)
Definition countSome (cs : list (option (artNode V))) : nat :=
  length (filter (fun c => is_Some c) cs).

(** Node48: [keys] maps a byte to a slot of [children], [0] for none; slot
    [0] is never used; a slot in use is named by exactly one byte. *)
Definition layout48 (m : node) (ks : list byte)
    (cs : list (option (artNode V))) (es : list edge) : Prop :=
  length (prefix m) = 10%nat
  /\ size m = len es
  /\ length ks = 256%nat
  /\ length cs = 49%nat
  /\ cs !! 0%nat = Some None
  /\ countSome cs = length es
  /\ (forall b s, get ks (b2z b) = Some s ->
        if decide (s = Byte.x00) then lookupEdge b es = None
        else exists c, get cs (b2z s) = Some (Some c)
                       /\ lookupEdge b es = Some c)
  /\ (forall b b' s, get ks (b2z b) = Some s -> get ks (b2z b') = Some s ->
        s ≠ Byte.x00 -> b = b').

(** Node256: [children] is indexed by the byte itself. *)
Definition layout256 (m : node) (cs : list (option (artNode V)))
    (es : list edge) : Prop :=
  length (prefix m) = 10%nat
  /\ size m = len es
  /\ length cs = 256%nat
  /\ (forall b, get cs (b2z b) = Some (lookupEdge b es)).

(** [dir n es]: the inner node [n] is well laid out and its directory is
    the strictly ascending list [es]. *)
Definition dir (n : artNode V) (es : list edge) : Prop :=
  sortedEdges es /\
  match n with
  | Leaf _ _ => False
  | N4 m ks cs => layout 4 m ks cs es
  | N16 m ks cs => layout 16 m ks cs es
  | N48 m ks cs => layout48 m ks cs es
  | N256 m cs => layout256 m cs es
  end.

(** The callback sequence of the children of a directory, in order. *)
Definition eachEdges (es : list edge) : option (list (artNode V)) :=
  foldr (fun e acc => a ← eachHelper e.2; b ← acc; Some (a ++ b)) (Some []) es.

(** The (key, value) pairs among the nodes handed to the callback. *)
Definition leafList (ns : list (artNode V)) : list (Key * V) :=
  omap (fun n => match n with Leaf k v => Some (k, v) | _ => None end) ns.
End Edges.

(** ** Facts about directories as sorted association lists *)

#[global] Instance byte_lt_trans : Transitive byte_lt.
Proof. unfold byte_lt. intros a b c. lia. Qed.

Lemma byte_lt_irrefl (a : byte) : ~ byte_lt a a.
Proof. unfold byte_lt. lia. Qed.

Lemma byte_lt_ne (a b : byte) : byte_lt a b -> a ≠ b.
Proof. intros H ->. by apply byte_lt_irrefl in H. Qed.

Lemma byte_trichotomy (a b : byte) : byte_lt a b \/ a = b \/ byte_lt b a.
Proof.
  unfold byte_lt. destruct (Z.lt_trichotomy (b2z a) (b2z b)) as [?|[?|?]];
    [by left| right; left; by apply b2z_inj | by right; right].
Qed.

Section EdgeFacts.
Context {V : Type}.
Implicit Types (es : list (byte * artNode V)) (b : byte) (c : artNode V).

Lemma lookupEdge_None b es : lookupEdge b es = None <-> b ∉ es.*1.
Proof.
  induction es as [|[k x] es IH]; simpl.
  - split; [intros _; apply not_elem_of_nil | done].
  - rewrite not_elem_of_cons. destruct (decide (k = b)) as [->|Hne]; split.
    + done.
    + intros [? _]. done.
    + intros H. split; [done|]. by apply IH.
    + intros [_ H]. by apply IH.
Qed.

Lemma lookupEdge_Some_elem b c es : lookupEdge b es = Some c -> (b, c) ∈ es.
Proof.
  induction es as [|[k x] es IH]; simpl; [done|].
  destruct (decide (k = b)) as [->|Hne].
  - intros [= ->]. apply elem_of_cons. by left.
  - intros H. apply elem_of_cons. right. by apply IH.
Qed.

Lemma sortedEdges_cons k x es :
  sortedEdges ((k, x) :: es) <->
  sortedEdges es /\ Forall (fun e => byte_lt k e.1) es.
Proof.
  unfold sortedEdges. simpl. split.
  - intros [H2 H1]%StronglySorted_cons. split; [done|].
    rewrite Forall_fmap in H2. exact H2.
  - intros [H1 H2]. apply StronglySorted_cons. split; [|done].
    rewrite Forall_fmap. exact H2.
Qed.

Lemma sortedEdges_nil : sortedEdges (@nil (byte * artNode V)).
Proof. constructor. Qed.

Lemma lookupEdge_lt_None b es :
  Forall (fun e => byte_lt b e.1) es -> lookupEdge b es = None.
Proof.
  intros H. apply lookupEdge_None. intros (e & -> & He)%list_elem_of_fmap.
  rewrite Forall_forall in H. apply H in He. by apply byte_lt_irrefl in He.
Qed.

Lemma elem_lookupEdge b c es :
  sortedEdges es -> (b, c) ∈ es -> lookupEdge b es = Some c.
Proof.
  induction es as [|[k x] es IH]; intros Hs Hin.
  - by apply elem_of_nil in Hin.
  - apply sortedEdges_cons in Hs as [Hs Hall]. simpl.
    apply elem_of_cons in Hin as [[= <- <-]|Hin].
    + by rewrite decide_True.
    + rewrite decide_False; [by apply IH|].
      rewrite Forall_forall in Hall. apply Hall in Hin. simpl in Hin.
      by apply byte_lt_ne.
Qed.

Lemma lookupEdge_elem_iff b c es :
  sortedEdges es -> lookupEdge b es = Some c <-> (b, c) ∈ es.
Proof.
  intros Hs. split; [apply lookupEdge_Some_elem | by apply elem_lookupEdge].
Qed.

(** *** insertEdge *)

Lemma length_insertEdge b c es :
  length (insertEdge b c es) = Datatypes.S (length es).
Proof.
  induction es as [|e es IH]; simpl; [done|].
  destruct (byte_ltb b e.1); simpl; by rewrite ?IH.
Qed.

Lemma elem_of_insertEdge (e : byte * artNode V) b c es :
  e ∈ insertEdge b c es <-> e = (b, c) \/ e ∈ es.
Proof.
  induction es as [|e' es IH]; simpl.
  - rewrite list_elem_of_singleton. split; [by left|].
    intros [?|?%elem_of_nil]; done.
  - destruct (byte_ltb b e'.1).
    + by rewrite elem_of_cons.
    + rewrite !elem_of_cons, IH. tauto.
Qed.

Lemma lookupEdge_insertEdge_ne b b' c es :
  b' ≠ b -> lookupEdge b' (insertEdge b c es) = lookupEdge b' es.
Proof.
  intros Hne. induction es as [|e es IH]; simpl.
  - by rewrite decide_False.
  - destruct (byte_ltb b e.1); simpl.
    + by rewrite decide_False.
    + by rewrite IH.
Qed.

Lemma lookupEdge_insertEdge_fresh b c es :
  lookupEdge b es = None -> lookupEdge b (insertEdge b c es) = Some c.
Proof.
  induction es as [|e es IH]; simpl.
  - intros _. by rewrite decide_True.
  - destruct (decide (e.1 = b)); [done|]. intros H.
    destruct (byte_ltb b e.1); simpl.
    + by rewrite decide_True.
    + rewrite decide_False by done. by apply IH.
Qed.

Lemma lookupEdge_insertEdge b b' c es :
  lookupEdge b es = None ->
  lookupEdge b' (insertEdge b c es)
  = if decide (b' = b) then Some c else lookupEdge b' es.
Proof.
  intros H. destruct (decide (b' = b)) as [->|Hne].
  - by apply lookupEdge_insertEdge_fresh.
  - by apply lookupEdge_insertEdge_ne.
Qed.

Lemma sortedEdges_insertEdge b c es :
  sortedEdges es -> lookupEdge b es = None -> sortedEdges (insertEdge b c es).
Proof.
  induction es as [|[k x] es IH]; simpl; intros Hs Hf.
  - apply sortedEdges_cons. split; [apply sortedEdges_nil | constructor].
  - destruct (decide (k = b)) as [|Hne]; [done|].
    pose proof Hs as Hs0. apply sortedEdges_cons in Hs as [Hs Hall].
    destruct (byte_ltb b k) eqn:Hlt.
    + apply byte_ltb_lt in Hlt. apply sortedEdges_cons. split; [done|].
      constructor; [done|]. eapply Forall_impl; [exact Hall|].
      intros e He. simpl in *. unfold byte_lt in *. lia.
    + apply sortedEdges_cons. split; [by apply IH|].
      apply Forall_forall. intros e [->|He]%elem_of_insertEdge.
      * simpl. destruct (byte_trichotomy k b) as [?|[?|Hb]]; [done|done|].
        apply byte_ltb_lt in Hb. congruence.
      * rewrite Forall_forall in Hall. by apply Hall.
Qed.

(** *** removeEdge *)

Lemma elem_of_removeEdge (e : byte * artNode V) b es :
  e ∈ removeEdge b es <-> e.1 ≠ b /\ e ∈ es.
Proof. unfold removeEdge. by rewrite list_elem_of_filter. Qed.

Lemma lookupEdge_removeEdge b b' es :
  lookupEdge b' (removeEdge b es)
  = if decide (b' = b) then None else lookupEdge b' es.
Proof.
  unfold removeEdge. induction es as [|[k x] es IH]; simpl.
  - by destruct (decide (b' = b)).
  - rewrite filter_cons. simpl. destruct (decide (k ≠ b)) as [Hkb|Hkb]; simpl.
    + rewrite IH. destruct (decide (k = b')) as [->|]; [|done].
      by rewrite decide_False.
    + apply dec_stable in Hkb as ->. rewrite IH.
      destruct (decide (b' = b)) as [->|]; [done|]. by rewrite decide_False.
Qed.

Lemma sortedEdges_removeEdge b es :
  sortedEdges es -> sortedEdges (removeEdge b es).
Proof.
  unfold removeEdge. induction es as [|[k x] es IH]; intros Hs; [done|].
  apply sortedEdges_cons in Hs as [Hs Hall]. rewrite filter_cons.
  destruct (decide _); [|by apply IH].
  apply sortedEdges_cons. split; [by apply IH|].
  apply Forall_forall. intros e [_ He]%list_elem_of_filter.
  rewrite Forall_forall in Hall. by apply Hall.
Qed.

Lemma length_removeEdge b c es :
  sortedEdges es -> lookupEdge b es = Some c ->
  Datatypes.S (length (removeEdge b es)) = length es.
Proof.
  unfold removeEdge. induction es as [|[k x] es IH]; intros Hs Hl; [done|].
  apply sortedEdges_cons in Hs as [Hs Hall]. rewrite filter_cons. simpl in *.
  destruct (decide (k = b)) as [->|Hne].
  - rewrite decide_False by (intros ?; done). f_equal.
    assert (filter (fun e : byte * artNode V => e.1 ≠ b) es = es) as ->; [|done].
    clear -Hall. induction Hall as [|e es He Hall IH]; [done|].
    rewrite filter_cons_True; [by rewrite IH|].
    intros Heq. rewrite Heq in He. by apply byte_lt_irrefl in He.
  - rewrite decide_True by done. simpl. f_equal. by apply IH.
Qed.

(** *** replaceEdge *)

Lemma replaceEdge_keys b c es : (replaceEdge b c es).*1 = es.*1.
Proof.
  unfold replaceEdge. rewrite <- list_fmap_compose. apply list_fmap_ext.
  intros i [k x] _. simpl. by destruct (decide (k = b)) as [->|].
Qed.

Lemma length_replaceEdge b c es : length (replaceEdge b c es) = length es.
Proof. unfold replaceEdge. by rewrite length_fmap. Qed.

Lemma sortedEdges_replaceEdge b c es :
  sortedEdges es -> sortedEdges (replaceEdge b c es).
Proof. unfold sortedEdges. by rewrite replaceEdge_keys. Qed.

Lemma lookupEdge_replaceEdge b b' c es :
  lookupEdge b' (replaceEdge b c es)
  = if decide (b' = b) then (fun _ => c) <$> lookupEdge b es else lookupEdge b' es.
Proof.
  unfold replaceEdge. induction es as [|[k x] es IH].
  - simpl. by destruct (decide (b' = b)).
  - rewrite fmap_cons. cbn [lookupEdge fst snd].
    destruct (decide (k = b)) as [->|Hkb]; cbn [lookupEdge fst snd].
    + destruct (decide (b = b')) as [<-|Hbb'].
      * by rewrite decide_True.
      * rewrite decide_False by done. rewrite IH. by rewrite decide_False.
    + destruct (decide (k = b')) as [->|Hkb'].
      * by rewrite decide_False.
      * by rewrite IH.
Qed.

Lemma elem_of_replaceEdge (e : byte * artNode V) b c es :
  e ∈ replaceEdge b c es ->
  (e = (b, c) /\ b ∈ es.*1) \/ (e.1 ≠ b /\ e ∈ es).
Proof.
  unfold replaceEdge. intros (e' & -> & He')%list_elem_of_fmap.
  destruct (decide (e'.1 = b)) as [<-|Hne].
  - left. split; [done|]. apply list_elem_of_fmap. by exists e'.
  - right. done.
Qed.
End EdgeFacts.

(** * The loops of the node file, in closed form *)

(** ** Copy loops *)

Section CopyLoops.
Context {A : Type}.
Implicit Types (l src dst : list A).

(** [for i := lo; i < lo+n; i++ { dst[i] = src[i] }] *)
Lemma copy_loop_spec (n : nat) (lo : Z) src dst :
  0 <= lo -> lo + Z.of_nat n <= len src -> lo + Z.of_nat n <= len dst ->
  exists dst',
    for_up n lo (fun i p => x ← get src i; set p i x) dst = Some dst'
    /\ length dst' = length dst
    /\ forall j : nat,
         dst' !! j = if decide (lo <= Z.of_nat j < lo + Z.of_nat n)
                     then src !! j else dst !! j.
Proof.
  intros Hlo Hs Hd.
  destruct (for_up_spec
    (fun i p => length p = length dst /\
       forall j : nat, p !! j = if decide (lo <= Z.of_nat j < i)
                                then src !! j else dst !! j)
    n lo (fun i p => x ← get src i; set p i x) dst) as (d & Hrun & Hlen & Hd').
  - split; [done|]. intros j. rewrite decide_False by lia. done.
  - intros i p Hi [Hlen Hp].
    destruct (get_is_Some src i) as [x Hx]; [lia|]. rewrite Hx. simpl.
    rewrite set_Some by (unfold len in *; lia). eexists. split; [done|].
    split; [by rewrite length_insert|]. intros j.
    apply get_Some in Hx as [_ Hx].
    destruct (decide (j = Z.to_nat i)) as [->|Hne].
    + rewrite list_lookup_insert_eq by (unfold len in *; lia).
      rewrite decide_True by lia. done.
    + rewrite list_lookup_insert_ne by done. rewrite Hp.
      destruct (decide (lo <= Z.of_nat j < i)), (decide (lo <= Z.of_nat j < i + 1));
        try done; lia.
  - exists d. done.
Qed.

Lemma copy_loop_take (n : nat) src dst :
  (n <= length src)%nat -> (n <= length dst)%nat ->
  for_up n 0 (fun i p => x ← get src i; set p i x) dst
  = Some (take n src ++ drop n dst).
Proof.
  intros Hs Hd.
  destruct (copy_loop_spec n 0 src dst) as (d & -> & Hlen & Hp);
    [lia | unfold len; lia | unfold len; lia |].
  f_equal. apply list_eq. intros j. rewrite Hp.
  destruct (decide (j < n)%nat).
  - rewrite decide_True by lia. rewrite lookup_app_l by (rewrite length_take; lia).
    by rewrite lookup_take_lt.
  - rewrite decide_False by lia.
    rewrite lookup_app_r by (rewrite length_take; lia).
    rewrite length_take, lookup_drop. f_equal. lia.
Qed.
End CopyLoops.

(** [memcpy] copies [min(numBytes, len(src), len(dst))] bytes. *)
Lemma memcpy_loop_spec (fuel : nat) dst src numBytes (i : nat) :
  (length dst <= fuel + i)%nat ->
  let k := Z.to_nat (Z.min numBytes (Z.min (len src) (len dst))) in
  let r := memcpy_loop fuel dst src numBytes (Z.of_nat i) in
  length r = length dst /\
  forall j : nat,
    r !! j = if decide (i <= j < k)%nat then src !! j else dst !! j.
Proof.
  revert dst i. induction fuel as [|fuel IH]; intros dst i Hf k; simpl.
  - split; [done|]. intros j. rewrite decide_False; [done|].
    subst k. unfold len. lia.
  - destruct (Z.ltb_spec (Z.of_nat i) numBytes); simpl;
      [destruct (Z.ltb_spec (Z.of_nat i) (len src)); simpl;
        [destruct (Z.ltb_spec (Z.of_nat i) (len dst)); simpl|]|].
    2-4: (split; [done|]; intros j; rewrite decide_False; [done|];
          subst k; unfold len in *; lia).
    rewrite get_nat. destruct (src !! i) as [x|] eqn:Hx.
    2:{ apply lookup_ge_None in Hx. unfold len in *. lia. }
    rewrite Nat2Z.id.
    replace (Z.of_nat i + 1) with (Z.of_nat (Datatypes.S i)) by lia.
    destruct (IH (<[i:=x]> dst) (Datatypes.S i)) as [Hlen Hr].
    { rewrite length_insert. lia. }
    unfold len in *. rewrite length_insert in *. fold k in Hr.
    split; [done|]. intros j. rewrite Hr.
    assert (i < k)%nat by (subst k; lia).
    destruct (decide (j = i)) as [->|Hne].
    + rewrite decide_False by lia. rewrite decide_True by lia.
      rewrite list_lookup_insert_eq by lia. done.
    + rewrite list_lookup_insert_ne by done.
      destruct (decide (Datatypes.S i <= j < k)%nat), (decide (i <= j < k)%nat);
        try done; lia.
Qed.

Lemma memcpy_spec dst src numBytes :
  let k := Z.to_nat (Z.min numBytes (Z.min (len src) (len dst))) in
  memcpy dst src numBytes = take k src ++ drop k dst.
Proof.
  intros k. unfold memcpy.
  destruct (memcpy_loop_spec (length dst) dst src numBytes 0) as [Hlen Hr];
    [lia|]. fold k in Hr. simpl in Hr.
  apply list_eq. intros j. rewrite Hr.
  assert (k <= length src /\ k <= length dst)%nat as [? ?]
    by (subst k; unfold len; lia).
  destruct (decide (j < k)%nat).
  - rewrite decide_True by lia.
    rewrite lookup_app_l by (rewrite length_take; lia).
    by rewrite lookup_take_lt.
  - rewrite decide_False by lia.
    rewrite lookup_app_r by (rewrite length_take; lia).
    rewrite length_take, lookup_drop. f_equal. lia.
Qed.

(** The same with the number of copied bytes given. *)
Lemma memcpy_take dst src numBytes (k : nat) :
  k = Z.to_nat (Z.min numBytes (Z.min (len src) (len dst))) ->
  memcpy dst src numBytes = take k src ++ drop k dst.
Proof. intros ->. apply memcpy_spec. Qed.

Lemma memcpy_length dst src numBytes :
  length (memcpy dst src numBytes) = length dst.
Proof.
  rewrite memcpy_spec. rewrite length_app, length_take, length_drop.
  unfold len. lia.
Qed.

(** ** Loops over parallel arrays *)

Lemma for_up_ext {S : Type} n i (body1 body2 : Z -> S -> option S) s :
  (forall j t, body1 j t = body2 j t) ->
  for_up n i body1 s = for_up n i body2 s.
Proof.
  intros H. revert i s. induction n as [|n IH]; intros i s; simpl; [done|].
  rewrite H. destruct (body2 i s); simpl; [apply IH|done].
Qed.

(** A loop that updates two arrays independently is the two loops. *)
Lemma for_up_pair {A B : Type} n i (f : Z -> A -> option A)
    (g : Z -> B -> option B) a b :
  for_up n i (fun j (s : A * B) => a' ← f j s.1; b' ← g j s.2; Some (a', b'))
    (a, b)
  = a' ← for_up n i f a; b' ← for_up n i g b; Some (a', b').
Proof.
  revert i a b. induction n as [|n IH]; intros i a b; simpl; [done|].
  destruct (f i a) as [a1|]; simpl; [|done].
  destruct (g i b) as [b1|]; simpl.
  - apply IH.
  - by destruct (for_up n (i + 1) f a1).
Qed.

(** Copying the first [n] entries of two parallel arrays. *)
Lemma copy_pair_loop {A B : Type} (n : nat) (srcA dstA : list A)
    (srcB dstB : list B) :
  (n <= length srcA)%nat -> (n <= length dstA)%nat ->
  (n <= length srcB)%nat -> (n <= length dstB)%nat ->
  for_up n 0
    (fun i (s : list A * list B) =>
       k ← get srcA i; a ← set s.1 i k;
       c ← get srcB i; b ← set s.2 i c;
       Some (a, b))
    (dstA, dstB)
  = Some (take n srcA ++ drop n dstA, take n srcB ++ drop n dstB).
Proof.
  intros H1 H2 H3 H4.
  transitivity
    (a' ← for_up n 0 (fun i p => x ← get srcA i; set p i x) dstA;
     b' ← for_up n 0 (fun i p => x ← get srcB i; set p i x) dstB;
     Some (a', b')).
  - rewrite <- for_up_pair. apply for_up_ext. intros j [a d]. simpl.
    destruct (get srcA j) as [k|]; simpl; [|reflexivity].
    destruct (set a j k); simpl; [|reflexivity].
    destruct (get srcB j) as [x|]; simpl; [|reflexivity].
    by destruct (set d j x).
  - by rewrite !copy_loop_take.
Qed.

(** ** [bytes.IndexByte] *)

Lemma indexByte_range (l : list byte) b : -1 <= indexByte l b < len l.
Proof.
  unfold len. induction l as [|x l IH]; simpl; [lia|].
  destruct (bool_decide (x = b)); [lia|].
  destruct (Z.ltb_spec (indexByte l b) 0); lia.
Qed.

Lemma indexByte_neg (l : list byte) b : indexByte l b < 0 <-> b ∉ l.
Proof.
  induction l as [|x l IH]; simpl.
  - split; [intros _; apply not_elem_of_nil | lia].
  - rewrite not_elem_of_cons. case_bool_decide as Hx.
    + split; [lia|]. intros [? _]. done.
    + pose proof (indexByte_range l b).
      destruct (Z.ltb_spec (indexByte l b) 0) as [Hlt|Hge].
      * split; [|lia]. intros _. split; [done|]. by apply IH.
      * split; [lia|]. intros [_ Hn]. apply IH in Hn. lia.
Qed.

Lemma indexByte_first (l : list byte) b (i : nat) :
  l !! i = Some b -> b ∉ take i l -> indexByte l b = Z.of_nat i.
Proof.
  revert i. induction l as [|x l IH]; intros i Hi Hn; [done|].
  destruct i as [|i]; simpl in *.
  - injection Hi as ->. by rewrite bool_decide_true.
  - apply not_elem_of_cons in Hn as [Hne Hn].
    rewrite bool_decide_false by done.
    rewrite (IH i) by done.
    destruct (Z.ltb_spec (Z.of_nat i) 0); lia.
Qed.

(** ** The insertion point of the Node4 case *)

Lemma addChild_scan_spec (n : nat) (ks : list byte) key (i : nat) :
  (i + n <= length ks)%nat ->
  exists p : nat,
    addChild_scan n ks key (Z.of_nat i) = Some (Z.of_nat p)
    /\ (i <= p <= i + n)%nat
    /\ (forall j k, (i <= j < p)%nat -> ks !! j = Some k ->
                    byte_ltb key k = false)
    /\ ((p < i + n)%nat -> exists k, ks !! p = Some k /\ byte_ltb key k = true).
Proof.
  revert i. induction n as [|n IH]; intros i Hlen; simpl.
  - exists i. split; [done|]. split; [lia|]. split; [|lia]. intros; lia.
  - rewrite get_nat. destruct (ks !! i) as [k|] eqn:Hk.
    2:{ apply lookup_ge_None in Hk. lia. }
    simpl. destruct (byte_ltb key k) eqn:Hlt.
    + exists i. split; [done|]. split; [lia|]. split; [intros; lia|].
      intros _. by exists k.
    + replace (Z.of_nat i + 1) with (Z.of_nat (Datatypes.S i)) by lia.
      destruct (IH (Datatypes.S i)) as (p & Hrun & Hp & Hbefore & Hat); [lia|].
      exists p. split; [done|]. split; [lia|]. split.
      * intros j k' Hj Hj'. destruct (decide (j = i)) as [->|].
        -- congruence.
        -- apply (Hbefore j); [lia|done].
      * intros Hp'. apply Hat. lia.
Qed.

(** ** [sort.Search] *)

Lemma sort_Search_loop_spec (g : Z -> bool) (f : Z -> option bool) n fuel i j :
  (forall k, 0 <= k < n -> f k = Some (g k)) ->
  (forall k k', 0 <= k <= k' -> k' < n -> g k = true -> g k' = true) ->
  0 <= i <= j -> j <= n -> j - i <= Z.of_nat fuel ->
  (forall k, 0 <= k < i -> g k = false) ->
  (forall k, j <= k < n -> g k = true) ->
  exists p, sort_Search_loop fuel f i j = Some p
            /\ 0 <= p <= n
            /\ (forall k, 0 <= k < p -> g k = false)
            /\ (forall k, p <= k < n -> g k = true).
Proof.
  intros Hf Hmono. revert i j.
  induction fuel as [|fuel IH]; intros i j Hij Hjn Hfuel Hlo Hhi; simpl.
  - exists i. split; [done|]. assert (i = j) as -> by lia.
    split; [lia|]. split; done.
  - destruct (Z.ltb_spec i j) as [Hlt|Hge].
    2:{ exists i. split; [done|]. assert (i = j) as -> by lia.
        split; [lia|]. split; done. }
    assert (i <= (i + j) / 2 < j) as Hh.
    { split; [apply Z.div_le_lower_bound; lia|apply Z.div_lt_upper_bound; lia]. }
    rewrite Hf by lia. simpl. destruct (g ((i + j) / 2)) eqn:Hg; simpl.
    + apply IH; try lia; [done|].
      intros k Hk. destruct (decide (k < j)); [|apply Hhi; lia].
      apply (Hmono ((i + j) / 2)); [lia|lia|done].
    + apply IH; try lia; [|done].
      intros k Hk. destruct (g k) eqn:Hgk; [|done].
      rewrite (Hmono k ((i + j) / 2)) in Hg; [done|lia|lia|done].
Qed.

Lemma sort_Search_spec (g : Z -> bool) (f : Z -> option bool) n :
  0 <= n ->
  (forall k, 0 <= k < n -> f k = Some (g k)) ->
  (forall k k', 0 <= k <= k' -> k' < n -> g k = true -> g k' = true) ->
  exists p, sort_Search n f = Some p
            /\ 0 <= p <= n
            /\ (forall k, 0 <= k < p -> g k = false)
            /\ (forall k, p <= k < n -> g k = true).
Proof.
  intros Hn Hf Hmono. unfold sort_Search.
  apply (sort_Search_loop_spec g); try done; try lia.
Qed.

(** ** Shifting a tail of an array by one place *)

Section Shift.
Context {A : Type}.
Implicit Types (l : list A).

(** State of the right shift when the counter has come down to [j]: the
    places [j+1 .. sz] hold what was at [j .. sz-1]. *)
Definition shiftedR l (sz j : Z) (l' : list A) : Prop :=
  length l' = length l /\
  forall i : nat,
    l' !! i = if decide (j < Z.of_nat i <= sz) then l !! (i - 1)%nat
              else l !! i.

Lemma shiftedR_start l sz : shiftedR l sz sz l.
Proof. split; [done|]. intros i. by rewrite decide_False by lia. Qed.

Lemma shiftedR_step l sz j l' :
  shiftedR l sz j l' -> 0 < j <= sz -> sz < len l ->
  exists x, get l' (j - 1) = Some x /\
    exists l'', set l' j x = Some l'' /\ shiftedR l sz (j - 1) l''.
Proof.
  intros [Hlen Hl'] Hj Hsz. unfold len in *.
  destruct (get_is_Some l' (j - 1)) as [x Hx]; [unfold len; lia|].
  exists x. split; [done|]. rewrite set_Some by (unfold len; lia).
  eexists. split; [done|]. split; [by rewrite length_insert|].
  intros i. apply get_Some in Hx as [_ Hx]. rewrite Hl' in Hx.
  rewrite decide_False in Hx by lia.
  destruct (decide (i = Z.to_nat j)) as [->|Hne].
  - rewrite list_lookup_insert_eq by lia. rewrite decide_True by lia.
    rewrite <- Hx. f_equal. lia.
  - rewrite list_lookup_insert_ne by done. rewrite Hl'.
    destruct (decide (j < Z.of_nat i <= sz)),
      (decide (j - 1 < Z.of_nat i <= sz)); try done; lia.
Qed.

(** The array of a Node4 / Node16 after the shift and the store: the entry
    is inserted at [p]. *)
Lemma shiftedR_insert (entries : list A) (pad : A) (cap p : nat) x l' :
  (length entries < cap)%nat -> (p <= length entries)%nat ->
  shiftedR (entries ++ replicate (cap - length entries) pad)
    (Z.of_nat (length entries)) (Z.of_nat p) l' ->
  <[p := x]> l'
  = (take p entries ++ x :: drop p entries)
      ++ replicate (cap - Datatypes.S (length entries)) pad.
Proof.
  intros Hcap Hp [Hlen Hl']. rewrite length_app, length_replicate in Hlen.
  apply list_eq. intros i. rewrite list_lookup_insert, Hlen, Hl'.
  lookup_norm. lookup_cases.
Qed.

(** State of the left shift when the counter has come up to [j]. *)
Definition shiftedL l (idx j : Z) (l' : list A) : Prop :=
  length l' = length l /\
  forall i : nat,
    l' !! i = if decide (idx <= Z.of_nat i < j) then l !! (i + 1)%nat
              else l !! i.

Lemma shiftedL_start l idx : shiftedL l idx idx l.
Proof. split; [done|]. intros i. by rewrite decide_False by lia. Qed.

Lemma shiftedL_step l idx j l' :
  shiftedL l idx j l' -> 0 <= idx <= j -> j + 1 < len l ->
  exists x, get l' (j + 1) = Some x /\
    exists l'', set l' j x = Some l'' /\ shiftedL l idx (j + 1) l''.
Proof.
  intros [Hlen Hl'] Hj Hsz. unfold len in *.
  destruct (get_is_Some l' (j + 1)) as [x Hx]; [unfold len; lia|].
  exists x. split; [done|]. rewrite set_Some by (unfold len; lia).
  eexists. split; [done|]. split; [by rewrite length_insert|].
  intros i. apply get_Some in Hx as [_ Hx]. rewrite Hl' in Hx.
  rewrite decide_False in Hx by lia.
  destruct (decide (i = Z.to_nat j)) as [->|Hne].
  - rewrite list_lookup_insert_eq by lia. rewrite decide_True by lia.
    rewrite <- Hx. f_equal. lia.
  - rewrite list_lookup_insert_ne by done. rewrite Hl'.
    destruct (decide (idx <= Z.of_nat i < j)),
      (decide (idx <= Z.of_nat i < j + 1)); try done; lia.
Qed.

(** The array after clearing place [i], the left shift and the clearing of
    the last used place: entry [i] is gone. *)
Lemma shiftedL_delete (entries : list A) (pad : A) (cap i : nat) l' :
  (i < length entries)%nat -> (length entries <= cap)%nat ->
  shiftedL (<[i := pad]> (entries ++ replicate (cap - length entries) pad))
    (Z.of_nat i) (Z.of_nat (length entries) - 1) l' ->
  <[(length entries - 1)%nat := pad]> l'
  = (take i entries ++ drop (Datatypes.S i) entries)
      ++ replicate (cap - (length entries - 1)) pad.
Proof.
  intros Hi Hcap [Hlen Hl'].
  rewrite length_insert, length_app, length_replicate in Hlen.
  apply list_eq. intros x. rewrite list_lookup_insert, Hlen, Hl'.
  lookup_norm. lookup_cases.
Qed.
End Shift.

(** Packing the first [n] entries of two parallel arrays into fresh
    arrays, with a running count (the shrink loops). *)
Lemma pack_pair_loop {A B : Type} (n cap : nat) (srcA : list A)
    (srcB : list B) (padA : A) (padB : B) :
  (n <= cap)%nat -> (n <= length srcA)%nat -> (n <= length srcB)%nat ->
  for_up n 0
    (fun i (s : Z * list A * list B) =>
       k ← get srcA i; a ← set s.1.2 s.1.1 k;
       c ← get srcB i; b ← set s.2 s.1.1 c;
       Some (s.1.1 + 1, a, b))
    (0, replicate cap padA, replicate cap padB)
  = Some (Z.of_nat n, take n srcA ++ replicate (cap - n) padA,
          take n srcB ++ replicate (cap - n) padB).
Proof.
  intros Hcap HA HB.
  destruct (for_up_spec
    (fun i (s : Z * list A * list B) =>
       s = (i, take (Z.to_nat i) srcA ++ replicate (cap - Z.to_nat i) padA,
            take (Z.to_nat i) srcB ++ replicate (cap - Z.to_nat i) padB))
    n 0
    (fun i (s : Z * list A * list B) =>
       k ← get srcA i; a ← set s.1.2 s.1.1 k;
       c ← get srcB i; b ← set s.2 s.1.1 c;
       Some (s.1.1 + 1, a, b))
    (0, replicate cap padA, replicate cap padB)) as (s' & -> & ->).
  - simpl. by rewrite Nat.sub_0_r.
  - intros j t Hj ->. cbn [fst snd].
    destruct (get_is_Some srcA j) as [k Hk]; [unfold len; lia|].
    destruct (get_is_Some srcB j) as [c Hc]; [unfold len; lia|].
    rewrite Hk, Hc. cbn [mbind option_bind].
    rewrite !set_Some
      by (unfold len; rewrite length_app, length_take, length_replicate; lia).
    cbn [mbind option_bind]. eexists. split; [done|].
    apply get_Some in Hk as [_ Hk]. apply get_Some in Hc as [_ Hc].
    replace (Z.to_nat (j + 1)) with (Datatypes.S (Z.to_nat j)) by lia.
    rewrite (take_S_r srcA _ k Hk), (take_S_r srcB _ c Hc).
    f_equal; [f_equal|].
    + apply list_eq. intros x. lookup_norm. simpl. lookup_norm. lookup_cases.
    + apply list_eq. intros x. lookup_norm. simpl. lookup_norm. lookup_cases.
  - f_equal. rewrite Z.add_0_l, Nat2Z.id. done.
Qed.

(** * Node4 and Node16 *)

Section SmallNodes.
Context {V : Type} (leafWords : Key -> V -> Z * list byte).
Implicit Types (es : list (byte * artNode V)) (b : byte) (c : artNode V).
Implicit Types (ks : list byte) (cs : list (option (artNode V))) (m : node).

Lemma layout_lengths cap m ks cs es :
  layout cap m ks cs es -> length ks = cap /\ length cs = cap.
Proof.
  intros (_ & _ & Hle & -> & ->).
  rewrite !length_app, !length_fmap, !length_replicate. lia.
Qed.

Lemma shift_right_spec sz idx ks cs :
  0 <= idx <= sz -> sz < len ks -> sz < len cs ->
  exists ks' cs',
    shift_right sz idx ks cs = Some (ks', cs')
    /\ shiftedR ks sz idx ks' /\ shiftedR cs sz idx cs'.
Proof.
  intros Hidx Hks Hcs. unfold shift_right.
  destruct (for_down_spec
    (fun j (s : list byte * list (option (artNode V))) =>
       shiftedR ks sz j s.1 /\ shiftedR cs sz j s.2)
    (Z.to_nat (sz - idx)) sz
    (fun i (s : list byte * list (option (artNode V))) =>
       k ← get s.1 (i - 1); ks' ← set s.1 i k;
       c ← get s.2 (i - 1); cs' ← set s.2 i c;
       Some (ks', cs'))
    (ks, cs)) as ([ks' cs'] & Hrun & H1 & H2).
  - split; apply shiftedR_start.
  - intros j [a d] Hj [Ha Hd]. simpl in *.
    destruct (shiftedR_step _ _ _ _ Ha) as (x & Hx & a' & Hx' & Ha'); [lia..|].
    destruct (shiftedR_step _ _ _ _ Hd) as (y & Hy & d' & Hy' & Hd'); [lia..|].
    rewrite Hx. simpl. rewrite Hx'. simpl. rewrite Hy. simpl. rewrite Hy'.
    simpl. by exists (a', d').
  - exists ks', cs'. split; [done|].
    replace (sz - Z.of_nat (Z.to_nat (sz - idx))) with idx in * by lia. done.
Qed.

(** Storing an entry at place [p] of a node that is not full. *)
Lemma layout_insert cap m ks cs es (p : nat) b c :
  layout cap m ks cs es -> (length es < cap)%nat -> (p <= length es)%nat ->
  exists r ks' cs',
    shift_right (size m) (Z.of_nat p) ks cs = Some r
    /\ set r.1 (Z.of_nat p) b = Some ks'
    /\ set r.2 (Z.of_nat p) (Some c) = Some cs'
    /\ layout cap (incSize m) ks' cs' (take p es ++ (b, c) :: drop p es).
Proof.
  intros Hl Hlt Hp. pose proof (layout_lengths _ _ _ _ _ Hl) as [Hlk Hlc].
  destruct Hl as (Hpfx & Hsz & Hle & Hks & Hcs).
  destruct (shift_right_spec (size m) (Z.of_nat p) ks cs)
    as (ks1 & cs1 & Hrun & Hk1 & Hc1); [unfold len in *; lia..|].
  exists (ks1, cs1). simpl.
  pose proof Hk1 as [Hlk1 _]. pose proof Hc1 as [Hlc1 _].
  rewrite !set_Some by (unfold len; lia). do 2 eexists.
  split; [done|]. split; [done|]. split; [done|].
  rewrite Nat2Z.id.
  assert (length (take p es ++ (b, c) :: drop p es) = Datatypes.S (length es))
    as Hlen'.
  { rewrite length_app, length_cons, length_take, length_drop. lia. }
  split; [done|]. split; [simpl; unfold len in *; lia|].
  split; [lia|]. rewrite Hlen'. unfold len in Hsz.
  rewrite Hsz, Hks in Hk1. rewrite Hsz, Hcs in Hc1.
  rewrite <- (length_fmap fst es) in Hk1 at 1 2.
  rewrite <- (length_fmap snd es), <- (length_fmap Some) in Hc1 at 1 2.
  split.
  - rewrite (shiftedR_insert (es.*1) Byte.x00 cap p b ks1);
      [|rewrite length_fmap; lia|rewrite length_fmap; lia|exact Hk1].
    rewrite length_fmap, fmap_app, fmap_cons, fmap_take, fmap_drop. done.
  - rewrite (shiftedR_insert (Some <$> es.*2) None cap p (Some c) cs1);
      [|rewrite !length_fmap; lia|rewrite !length_fmap; lia|exact Hc1].
    rewrite !length_fmap, !fmap_app, !fmap_cons, !fmap_take, !fmap_drop. done.
Qed.

(** The insertion point found by the scan is the one of [insertEdge]. *)
Lemma insertEdge_at b c es (p : nat) :
  (p <= length es)%nat ->
  (forall j e, (j < p)%nat -> es !! j = Some e -> byte_ltb b e.1 = false) ->
  ((p < length es)%nat -> exists e, es !! p = Some e /\ byte_ltb b e.1 = true) ->
  insertEdge b c es = take p es ++ (b, c) :: drop p es.
Proof.
  revert p. induction es as [|e es IH]; intros p Hp Hbefore Hat; simpl.
  - by destruct p.
  - destruct p as [|p]; simpl.
    + destruct Hat as (e' & [= <-] & ->); [simpl; lia|]. done.
    + rewrite (Hbefore 0%nat e) by (done || lia). f_equal.
      apply IH; [simpl in Hp; lia| |].
      * intros j e' Hj He'. apply (Hbefore (Datatypes.S j)); [lia|done].
      * intros Hp'. apply Hat. simpl. lia.
Qed.

(** [addChild] on a Node4 that is not full. *)
Lemma addChild_N4 m ks cs es b c :
  layout 4 m ks cs es -> (length es < 4)%nat ->
  exists ks' cs',
    addChild leafWords (N4 m ks cs) b c = Some (N4 (incSize m) ks' cs')
    /\ layout 4 (incSize m) ks' cs' (insertEdge b c es).
Proof.
  intros Hl Hlt. pose proof (layout_lengths _ _ _ _ _ Hl) as [Hlk Hlc].
  pose proof Hl as (Hpfx & Hsz & Hle & Hks & Hcs).
  unfold addChild. cbn [addChild_fuel]. unfold isFull. cbn [nodeOf maxSize].
  rewrite bool_decide_false by (unfold node4Max, len in *; lia).
  destruct (addChild_scan_spec (Z.to_nat (size m)) ks b 0)
    as (p & Hscan & Hp & Hbefore & Hat); [unfold len in *; lia|].
  assert ((if size m =? 0 then Some 0
           else addChild_scan (Z.to_nat (size m)) ks b 0)
          = Some (Z.of_nat p)) as ->.
  { destruct (Z.eqb_spec (size m) 0) as [H0|H0]; [|done].
    rewrite H0 in *. simpl in Hp. f_equal. lia. }
  cbn [mbind option_bind].
  assert (p <= length es)%nat as Hple by (unfold len in *; lia).
  destruct (layout_insert 4 m ks cs es p b c Hl Hlt Hple)
    as (r & ks' & cs' & -> & Hk' & Hc' & Hl').
  cbn [mbind option_bind]. rewrite Hk'. cbn [mbind option_bind]. rewrite Hc'.
  cbn [mbind option_bind]. exists ks', cs'. split; [done|].
  rewrite (insertEdge_at b c es p); [done|done| |].
  - intros j e Hj He. apply (Hbefore j); [lia|].
    rewrite Hks. rewrite lookup_app_l by (rewrite length_fmap; lia).
    by rewrite list_lookup_fmap, He.
  - intros Hp'. destruct Hat as (k & Hk & Hlt'); [unfold len in *; lia|].
    rewrite Hks in Hk. rewrite lookup_app_l in Hk by (rewrite length_fmap; lia).
    rewrite list_lookup_fmap in Hk. destruct (es !! p) as [e|]; [|done].
    injection Hk as <-. by exists e.
Qed.

(** *** Finding a child *)

Lemma lookupEdge_first b es c :
  lookupEdge b es = Some c ->
  exists i : nat, es !! i = Some (b, c) /\ b ∉ take i es.*1.
Proof.
  induction es as [|[k x] es IH]; simpl; [done|].
  destruct (decide (k = b)) as [->|Hne].
  - intros [= ->]. exists 0%nat. split; [done|]. apply not_elem_of_nil.
  - intros (i & Hi & Hn)%IH. exists (Datatypes.S i). split; [done|].
    simpl. apply not_elem_of_cons. split; [congruence|done].
Qed.

Lemma sortedEdges_lookup_lt es (i j : nat) e1 e2 :
  sortedEdges es -> (i < j)%nat -> es !! i = Some e1 -> es !! j = Some e2 ->
  byte_lt e1.1 e2.1.
Proof.
  revert i j. induction es as [|[k x] es IH]; intros i j Hs Hij H1 H2; [done|].
  apply sortedEdges_cons in Hs as [Hs Hall].
  destruct j as [|j]; [lia|]. simpl in H2. destruct i as [|i]; simpl in H1.
  - injection H1 as <-. rewrite Forall_forall in Hall. apply Hall.
    by eapply list_elem_of_lookup_2.
  - apply (IH i j); [done|lia|done|done].
Qed.

Lemma sortedEdges_lookup_inj es (i j : nat) e1 e2 :
  sortedEdges es -> es !! i = Some e1 -> es !! j = Some e2 ->
  e1.1 = e2.1 -> i = j.
Proof.
  intros Hs H1 H2 Heq.
  destruct (Nat.lt_trichotomy i j) as [Hlt|[?|Hlt]]; [|done|].
  - pose proof (sortedEdges_lookup_lt _ _ _ _ _ Hs Hlt H1 H2) as H.
    rewrite Heq in H. by apply byte_lt_irrefl in H.
  - pose proof (sortedEdges_lookup_lt _ _ _ _ _ Hs Hlt H2 H1) as H.
    rewrite Heq in H. by apply byte_lt_irrefl in H.
Qed.

Lemma indexByte_layout cap m ks cs es b :
  layout cap m ks cs es ->
  match lookupEdge b es with
  | Some c => exists i : nat,
      indexByte ks b = Z.of_nat i /\ es !! i = Some (b, c)
      /\ cs !! i = Some (Some c)
  | None => indexByte ks b < 0
            \/ exists i : nat, indexByte ks b = Z.of_nat i /\ cs !! i = Some None
  end.
Proof.
  intros (Hpfx & Hsz & Hle & Hks & Hcs).
  destruct (lookupEdge b es) as [c|] eqn:Hl.
  - apply lookupEdge_first in Hl as (i & Hi & Hn).
    pose proof (lookup_lt_Some _ _ _ Hi) as Hlt.
    exists i. split; [|split; [done|]].
    + apply indexByte_first.
      * rewrite Hks, lookup_app_l by (rewrite length_fmap; lia).
        by rewrite list_lookup_fmap, Hi.
      * rewrite Hks, take_app_le by (rewrite length_fmap; lia). done.
    + rewrite Hcs, lookup_app_l by (rewrite !length_fmap; lia).
      by rewrite !list_lookup_fmap, Hi.
  - apply lookupEdge_None in Hl.
    destruct (decide (b = Byte.x00 /\ (length es < cap)%nat)) as [[-> Hlt]|Hno].
    + right. exists (length es). split.
      * apply indexByte_first.
        -- rewrite Hks, lookup_app_r by (rewrite length_fmap; lia).
           rewrite length_fmap, Nat.sub_diag. apply lookup_replicate_2. lia.
        -- rewrite Hks, take_app_le by (rewrite length_fmap; lia).
           rewrite take_ge by (rewrite length_fmap; lia). done.
      * rewrite Hcs, lookup_app_r by (rewrite !length_fmap; lia).
        rewrite !length_fmap, Nat.sub_diag. apply lookup_replicate_2. lia.
    + left. apply indexByte_neg. rewrite Hks. intros [Hin|Hin]%elem_of_app.
      * done.
      * apply elem_of_replicate in Hin as [-> Hne]. apply Hno. split; [done|lia].
Qed.

(** Replacing the child in slot [i]. *)
Lemma replaceEdge_insert es (i : nat) b c c' :
  sortedEdges es -> es !! i = Some (b, c) ->
  replaceEdge b c' es = <[i := (b, c')]> es.
Proof.
  intros Hs Hi. apply list_eq. intros j. unfold replaceEdge.
  rewrite list_lookup_fmap.
  destruct (decide (i = j)) as [<-|Hne].
  - rewrite list_lookup_insert_eq by (by eapply lookup_lt_Some).
    rewrite Hi. simpl. by rewrite decide_True.
  - rewrite list_lookup_insert_ne by done.
    destruct (es !! j) as [e|] eqn:Hj; [|done]. simpl.
    rewrite decide_False; [done|]. intros He. apply Hne.
    by apply (sortedEdges_lookup_inj es i j (b, c) e).
Qed.

Lemma layout_replace cap m ks cs es (i : nat) b c c' :
  layout cap m ks cs es -> sortedEdges es -> es !! i = Some (b, c) ->
  layout cap m ks (<[i := Some c']> cs) (replaceEdge b c' es).
Proof.
  intros (Hpfx & Hsz & Hle & Hks & Hcs) Hs Hi.
  pose proof (lookup_lt_Some _ _ _ Hi) as Hlt.
  rewrite (replaceEdge_insert es i b c c') by done.
  split; [done|]. unfold len in *. rewrite length_insert.
  split; [done|]. split; [done|]. split.
  - rewrite list_fmap_insert. simpl. rewrite list_insert_id; [done|].
    by rewrite list_lookup_fmap, Hi.
  - rewrite !list_fmap_insert. simpl. rewrite Hcs.
    by rewrite insert_app_l by (rewrite !length_fmap; lia).
Qed.

Lemma childUnder_small cap m ks cs es b (n : artNode V) :
  n = N4 m ks cs \/ n = N16 m ks cs ->
  layout cap m ks cs es ->
  childUnder n b = Some (lookupEdge b es).
Proof.
  intros Hn Hl. pose proof (indexByte_layout _ _ _ _ _ b Hl) as H.
  pose proof (indexByte_range ks b) as Hr.
  assert (childUnder n b
          = (if indexByte ks b <? 0 then Some None
             else x ← get cs (indexByte ks b); Some x)) as ->.
  { unfold childUnder, findChild, load.
    destruct Hn as [-> | ->]; simpl;
      (destruct (Z.ltb_spec (indexByte ks b) 0); [done|]);
      (destruct (get cs (indexByte ks b)) eqn:E; simpl; [by rewrite E|done]). }
  destruct (lookupEdge b es) as [c|].
  - destruct H as (i & -> & _ & Hc).
    destruct (Z.ltb_spec (Z.of_nat i) 0); [lia|]. by rewrite get_nat, Hc.
  - destruct H as [H|(i & -> & Hc)].
    + by destruct (Z.ltb_spec (indexByte ks b) 0); [|lia].
    + destruct (Z.ltb_spec (Z.of_nat i) 0); [lia|]. by rewrite get_nat, Hc.
Qed.

Lemma findChild_small cap m ks cs es b c (n : artNode V) :
  n = N4 m ks cs \/ n = N16 m ks cs ->
  layout cap m ks cs es -> lookupEdge b es = Some c ->
  exists i : nat,
    findChild n b = Some (Slot (Z.of_nat i))
    /\ es !! i = Some (b, c) /\ cs !! i = Some (Some c).
Proof.
  intros Hn Hl Hb. pose proof (indexByte_layout _ _ _ _ _ b Hl) as H.
  rewrite Hb in H. destruct H as (i & Hi & He & Hc). exists i.
  split; [|done]. unfold findChild.
  destruct Hn as [-> | ->]; simpl; rewrite Hi;
    (destruct (Z.ltb_spec (Z.of_nat i) 0); [lia|]); by rewrite get_nat, Hc.
Qed.

(** *** [copyMeta] *)

Lemma copyMeta_zero m :
  length (prefix m) = 10%nat ->
  exists m', copyMeta zeroNode m = Some m' /\ metaKept m m'.
Proof.
  intros Hlen. unfold copyMeta, metaKept, storedPrefix. rewrite min_Zmin.
  assert (Z.to_nat (Z.min (prefixLen m) maxPrefixLen) <= 10)%nat as Hn
    by (unfold maxPrefixLen; lia).
  rewrite copy_loop_take;
    [|lia|change (length (prefix (@zeroNode))) with 10%nat; lia].
  cbn [mbind option_bind]. eexists. split; [done|].
  cbn [size prefixLen prefix zeroNode].
  revert Hn. generalize (Z.to_nat (Z.min (prefixLen m) maxPrefixLen)).
  intros n Hn.
  split; [done|]. split; [done|]. split.
  - rewrite take_app_le by (rewrite length_take; lia).
    by rewrite take_take, Nat.min_id.
  - rewrite length_app, length_take, length_drop, length_replicate. lia.
Qed.

(** *** Growing a Node4 *)

Lemma layout_take_keys cap m ks cs es :
  layout cap m ks cs es ->
  take (length es) ks = es.*1 /\ take (length es) cs = Some <$> es.*2.
Proof.
  intros (_ & _ & _ & -> & ->). split.
  - by rewrite take_app_length' by (by rewrite length_fmap).
  - by rewrite take_app_length' by (by rewrite !length_fmap).
Qed.

Lemma grow_N4 m ks cs es :
  layout 4 m ks cs es ->
  exists m' ks' cs',
    grow (N4 m ks cs) = Some (N16 m' ks' cs')
    /\ layout 16 m' ks' cs' es /\ metaKept m m'.
Proof.
  intros Hl. pose proof (layout_lengths _ _ _ _ _ Hl) as [Hlk Hlc].
  pose proof (layout_take_keys _ _ _ _ _ Hl) as [Htk Htc].
  destruct Hl as (Hpfx & Hsz & Hle & Hks & Hcs).
  destruct (copyMeta_zero m Hpfx) as (m' & Hm' & Hkept).
  unfold grow. rewrite Hm'. cbn [mbind option_bind].
  unfold len in Hsz. rewrite Hsz, Nat2Z.id.
  rewrite copy_pair_loop by (rewrite ?length_replicate; lia).
  cbn [mbind option_bind fst snd]. do 3 eexists. split; [done|].
  destruct Hkept as (Hs' & Hp' & Hst & Hlen'). split; [|done].
  split; [done|]. split; [unfold len; lia|]. split; [lia|].
  rewrite Htk, Htc, !drop_replicate. done.
Qed.

(** *** [addChild] on a Node16 that is not full *)

Lemma sortedEdges_lookup_le es (i j : nat) e1 e2 :
  sortedEdges es -> (i <= j)%nat -> es !! i = Some e1 -> es !! j = Some e2 ->
  b2z e1.1 <= b2z e2.1.
Proof.
  intros Hs Hij H1 H2. destruct (decide (i = j)) as [->|Hne].
  - rewrite H1 in H2. injection H2 as ->. lia.
  - assert (i < j)%nat as Hlt by lia.
    pose proof (sortedEdges_lookup_lt _ _ _ _ _ Hs Hlt H1 H2) as H.
    unfold byte_lt in H. lia.
Qed.

Lemma addChild_N16 fuel m ks cs es b c :
  layout 16 m ks cs es -> sortedEdges es -> (length es < 16)%nat ->
  exists (p : nat) ks' cs',
    addChild_fuel leafWords (Datatypes.S fuel) (N16 m ks cs) b c
    = Some (N16 (incSize m) ks' cs')
    /\ layout 16 (incSize m) ks' cs' (take p es ++ (b, c) :: drop p es)
    /\ (p <= length es)%nat
    /\ (forall j e, (j < p)%nat -> es !! j = Some e -> byte_lt e.1 b)
    /\ (forall j e, (p <= j)%nat -> es !! j = Some e -> b2z b <= b2z e.1).
Proof.
  intros Hl Hs Hlt. pose proof (layout_lengths _ _ _ _ _ Hl) as [Hlk Hlc].
  pose proof Hl as (Hpfx & Hsz & Hle & Hks & Hcs).
  cbn [addChild_fuel]. unfold isFull. cbn [nodeOf maxSize].
  rewrite bool_decide_false by (unfold node16Max, len in *; lia).
  set (g := fun i : Z => match es !! Z.to_nat i with
                         | Some e => byte_leb b e.1
                         | None => false
                         end).
  destruct (sort_Search_spec g
              (fun i => k ← get ks (b2z (z2b i)); Some (byte_leb b k))
              (size m)) as (p & Hrun & Hp & Hbefore & Hafter).
  { unfold len in *. lia. }
  { intros k Hk. rewrite b2z_z2b by (unfold len in *; lia).
    unfold g. unfold get. destruct (Z.ltb_spec k 0); [lia|].
    rewrite Hks, lookup_app_l by (rewrite length_fmap; unfold len in *; lia).
    rewrite list_lookup_fmap.
    destruct (es !! Z.to_nat k) as [e|] eqn:He; [done|].
    apply lookup_ge_None in He. unfold len in *. lia. }
  { intros k k' Hk Hk'. unfold g.
    destruct (es !! Z.to_nat k) as [e|] eqn:He; [|done].
    destruct (es !! Z.to_nat k') as [e'|] eqn:He'.
    2:{ apply lookup_ge_None in He'. unfold len in *. lia. }
    intros Hle'%byte_leb_le. apply byte_leb_le.
    assert (Z.to_nat k <= Z.to_nat k')%nat as Hkk by lia.
    pose proof (sortedEdges_lookup_le es _ _ e e' Hs Hkk He He').
    lia. }
  assert ((if size m =? 0 then Some 0
           else sort_Search (size m)
                  (fun i => k ← get ks (b2z (z2b i)); Some (byte_leb b k)))
          = Some (Z.of_nat (Z.to_nat p))) as ->.
  { rewrite Z2Nat.id by lia.
    destruct (Z.eqb_spec (size m) 0) as [H0|H0]; [|done]. f_equal. lia. }
  cbn [mbind option_bind].
  assert (Z.to_nat p <= length es)%nat as Hple by (unfold len in *; lia).
  destruct (layout_insert 16 m ks cs es (Z.to_nat p) b c Hl Hlt Hple)
    as (r & ks' & cs' & -> & Hk' & Hc' & Hl').
  cbn [mbind option_bind]. rewrite Hk'. cbn [mbind option_bind]. rewrite Hc'.
  cbn [mbind option_bind]. exists (Z.to_nat p), ks', cs'.
  split; [done|]. split; [done|]. split; [done|]. split.
  - intros j e Hj He. specialize (Hbefore (Z.of_nat j)). unfold g in Hbefore.
    rewrite Nat2Z.id, He in Hbefore. unfold byte_lt.
    assert (byte_leb b e.1 = false) as Hf by (apply Hbefore; lia).
    unfold byte_leb in Hf. apply Z.leb_gt in Hf. done.
  - intros j e Hj He. specialize (Hafter (Z.of_nat j)). unfold g in Hafter.
    rewrite Nat2Z.id, He in Hafter. apply byte_leb_le. apply Hafter.
    apply lookup_lt_Some in He. unfold len in *. lia.
Qed.

Lemma addChild_N16_fresh fuel m ks cs es b c :
  layout 16 m ks cs es -> sortedEdges es -> (length es < 16)%nat ->
  lookupEdge b es = None ->
  exists ks' cs',
    addChild_fuel leafWords (Datatypes.S fuel) (N16 m ks cs) b c
    = Some (N16 (incSize m) ks' cs')
    /\ layout 16 (incSize m) ks' cs' (insertEdge b c es).
Proof.
  intros Hl Hs Hlt Hf.
  destruct (addChild_N16 fuel m ks cs es b c Hl Hs Hlt)
    as (p & ks' & cs' & Hrun & Hl' & Hp & Hbefore & Hafter).
  exists ks', cs'. split; [done|].
  rewrite (insertEdge_at b c es p); [done|done| |].
  - intros j e Hj He. apply Hbefore in He; [|done].
    unfold byte_lt in He. unfold byte_ltb. apply Z.ltb_ge. lia.
  - intros Hp'. destruct (es !! p) as [e|] eqn:He.
    2:{ apply lookup_ge_None in He. lia. }
    exists e. split; [done|]. apply byte_ltb_lt.
    pose proof (Hafter p e (le_n _) He) as Hle.
    apply lookupEdge_None in Hf.
    assert (e.1 ≠ b) as Hne.
    { intros <-. apply Hf. apply list_elem_of_fmap. exists e. split; [done|].
      by eapply list_elem_of_lookup_2. }
    assert (b2z b ≠ b2z e.1) by (intros ?%b2z_inj; done). lia.
Qed.

(** [addChild] on a full Node4: it grows into a Node16 first. *)
Lemma addChild_N4_full m ks cs es b c :
  layout 4 m ks cs es -> sortedEdges es -> length es = 4%nat ->
  exists (p : nat) m' ks' cs',
    addChild leafWords (N4 m ks cs) b c = Some (N16 m' ks' cs')
    /\ layout 16 m' ks' cs' (take p es ++ (b, c) :: drop p es)
    /\ prefixLen m' = prefixLen m /\ storedPrefix m' = storedPrefix m
    /\ (p <= length es)%nat
    /\ (forall j e, (j < p)%nat -> es !! j = Some e -> byte_lt e.1 b)
    /\ (forall j e, (p <= j)%nat -> es !! j = Some e -> b2z b <= b2z e.1).
Proof.
  intros Hl Hs Hlen. pose proof Hl as (Hpfx & Hsz & Hle & Hks & Hcs).
  destruct (grow_N4 m ks cs es Hl) as (m1 & ks1 & cs1 & Hg & Hl1 & Hkept).
  unfold addChild. cbn [addChild_fuel]. unfold isFull. cbn [nodeOf maxSize].
  rewrite bool_decide_true by (unfold node4Max, len in *; lia).
  rewrite Hg. cbn [mbind option_bind].
  destruct (addChild_N16 2 m1 ks1 cs1 es b c Hl1 Hs)
    as (p & ks' & cs' & Hrun & Hl' & Hp); [lia|].
  exists p, (incSize m1), ks', cs'. split; [done|]. split; [done|].
  destruct Hkept as (_ & HL & Hst & _). done.
Qed.

(** *** Removing an entry *)

Lemma shift_left_spec sz idx ks cs :
  0 <= idx < sz -> sz <= len ks -> sz <= len cs ->
  exists ks' cs',
    shift_left sz idx ks cs = Some (ks', cs')
    /\ shiftedL ks idx (sz - 1) ks' /\ shiftedL cs idx (sz - 1) cs'.
Proof.
  intros Hidx Hks Hcs. unfold shift_left.
  destruct (for_up_spec
    (fun j (s : list byte * list (option (artNode V))) =>
       shiftedL ks idx j s.1 /\ shiftedL cs idx j s.2)
    (Z.to_nat (sz - 1 - idx)) idx
    (fun i (s : list byte * list (option (artNode V))) =>
       k ← get s.1 (i + 1); ks' ← set s.1 i k;
       c ← get s.2 (i + 1); cs' ← set s.2 i c;
       Some (ks', cs'))
    (ks, cs)) as ([ks' cs'] & Hrun & H1 & H2).
  - split; apply shiftedL_start.
  - intros j [a d] Hj [Ha Hd]. simpl in *.
    destruct (shiftedL_step _ _ _ _ Ha) as (x & Hx & a' & Hx' & Ha'); [lia..|].
    destruct (shiftedL_step _ _ _ _ Hd) as (y & Hy & d' & Hy' & Hd'); [lia..|].
    rewrite Hx. simpl. rewrite Hx'. simpl. rewrite Hy. simpl. rewrite Hy'.
    simpl. by exists (a', d').
  - exists ks', cs'. split; [done|].
    replace (idx + Z.of_nat (Z.to_nat (sz - 1 - idx))) with (sz - 1) in * by lia.
    done.
Qed.

Lemma layout_remove cap m ks cs es (i : nat) :
  layout cap m ks cs es -> (i < length es)%nat ->
  exists ks' cs',
    removeAt m ks cs (Z.of_nat i) = Some (decSize m, ks', cs')
    /\ layout cap (decSize m) ks' cs' (take i es ++ drop (Datatypes.S i) es).
Proof.
  intros Hl Hi. pose proof (layout_lengths _ _ _ _ _ Hl) as [Hlk Hlc].
  destruct Hl as (Hpfx & Hsz & Hle & Hks & Hcs). unfold removeAt, len in *.
  rewrite !set_Some by (unfold len; lia). cbn [mbind option_bind].
  rewrite Nat2Z.id.
  destruct (shift_left_spec (size m) (Z.of_nat i)
              (<[i:=Byte.x00]> ks) (<[i:=None]> cs))
    as (ks1 & cs1 & -> & Hk1 & Hc1);
    [lia|unfold len; rewrite length_insert; lia..|].
  cbn [mbind option_bind fst snd].
  pose proof Hk1 as [Hlk1 _]. pose proof Hc1 as [Hlc1 _].
  rewrite length_insert in Hlk1. rewrite length_insert in Hlc1.
  rewrite !set_Some by (unfold len; lia). cbn [mbind option_bind].
  do 2 eexists. split; [done|].
  assert (length (take i es ++ drop (Datatypes.S i) es) = (length es - 1)%nat)
    as Hlen'.
  { rewrite length_app, length_take, length_drop. lia. }
  split; [done|]. split; [simpl; unfold len; lia|]. split; [lia|].
  rewrite Hlen'. rewrite Hsz, Hks in Hk1. rewrite Hsz, Hcs in Hc1.
  rewrite Hsz.
  replace (Z.to_nat (Z.of_nat (length es) - 1)) with (length es - 1)%nat by lia.
  split.
  - pose proof (shiftedL_delete (es.*1) Byte.x00 cap i ks1) as E.
    rewrite !length_fmap in E. rewrite E; [|lia|lia|].
    + by rewrite fmap_app, fmap_take, fmap_drop.
    + exact Hk1.
  - pose proof (shiftedL_delete (Some <$> es.*2) None cap i cs1) as E.
    rewrite !length_fmap in E. rewrite E; [|lia|lia|].
    + by rewrite !fmap_app, !fmap_take, !fmap_drop.
    + exact Hc1.
Qed.

Lemma removeEdge_delete es (i : nat) b c :
  sortedEdges es -> es !! i = Some (b, c) ->
  removeEdge b es = take i es ++ drop (Datatypes.S i) es.
Proof.
  intros Hs Hi. unfold removeEdge.
  rewrite <- (take_drop_middle es i (b, c) Hi) at 1.
  rewrite filter_app, filter_cons_False by (simpl; intros H; by apply H).
  assert (forall l : list (byte * artNode V),
            (forall j e, l !! j = Some e -> e.1 ≠ b) ->
            filter (fun e => e.1 ≠ b) l = l) as Hid.
  { induction l as [|e l IH]; intros Hl; [done|].
    rewrite filter_cons_True by (apply (Hl 0%nat); done).
    f_equal. apply IH. intros j e' He'. by apply (Hl (Datatypes.S j)). }
  rewrite !Hid; [done| |].
  - intros j e He Heq. rewrite lookup_drop in He.
    pose proof (sortedEdges_lookup_inj es i _ (b, c) e Hs Hi He
                  (eq_sym Heq)). lia.
  - intros j e He Heq. apply lookup_take_Some in He as [He Hj].
    pose proof (sortedEdges_lookup_inj es i _ (b, c) e Hs Hi He
                  (eq_sym Heq)). lia.
Qed.

(** [RemoveChild] on a Node4 / Node16, up to the shrink test. *)
Lemma RemoveChild_N4 m ks cs es b c :
  layout 4 m ks cs es -> sortedEdges es -> lookupEdge b es = Some c ->
  exists ks' cs',
    layout 4 (decSize m) ks' cs' (removeEdge b es)
    /\ RemoveChild leafWords (N4 m ks cs) b
       = if size m - 1 <? node4Min
         then shrink leafWords (N4 (decSize m) ks' cs')
         else Some (N4 (decSize m) ks' cs').
Proof.
  intros Hl Hs Hb.
  pose proof (indexByte_layout _ _ _ _ _ b Hl) as H. rewrite Hb in H.
  destruct H as (i & Hidx & Hi & _).
  destruct (layout_remove 4 m ks cs es i Hl) as (ks' & cs' & Hrm & Hl').
  { by eapply lookup_lt_Some. }
  exists ks', cs'. rewrite (removeEdge_delete es i b c) by done.
  split; [done|]. unfold RemoveChild. cbn [index mbind option_bind].
  rewrite Hidx. destruct (Z.ltb_spec (Z.of_nat i) 0); [lia|].
  rewrite Hrm. cbn [mbind option_bind fst snd nodeOf minSize]. done.
Qed.

Lemma RemoveChild_N16 m ks cs es b c :
  layout 16 m ks cs es -> sortedEdges es -> lookupEdge b es = Some c ->
  exists ks' cs',
    layout 16 (decSize m) ks' cs' (removeEdge b es)
    /\ RemoveChild leafWords (N16 m ks cs) b
       = if size m - 1 <? node16Min
         then shrink leafWords (N16 (decSize m) ks' cs')
         else Some (N16 (decSize m) ks' cs').
Proof.
  intros Hl Hs Hb.
  pose proof (indexByte_layout _ _ _ _ _ b Hl) as H. rewrite Hb in H.
  destruct H as (i & Hidx & Hi & _).
  destruct (layout_remove 16 m ks cs es i Hl) as (ks' & cs' & Hrm & Hl').
  { by eapply lookup_lt_Some. }
  exists ks', cs'. rewrite (removeEdge_delete es i b c) by done.
  split; [done|]. unfold RemoveChild. cbn [index mbind option_bind].
  rewrite Hidx. destruct (Z.ltb_spec (Z.of_nat i) 0); [lia|].
  rewrite Hrm. cbn [mbind option_bind fst snd nodeOf minSize]. done.
Qed.

(** Shrinking a Node16 that holds at most four entries. *)
Lemma shrink_N16 m ks cs es :
  layout 16 m ks cs es -> (length es <= 4)%nat ->
  exists m' ks' cs',
    shrink leafWords (N16 m ks cs) = Some (N4 m' ks' cs')
    /\ layout 4 m' ks' cs' es
    /\ prefixLen m' = prefixLen m /\ storedPrefix m' = storedPrefix m.
Proof.
  intros Hl Hle4. pose proof (layout_lengths _ _ _ _ _ Hl) as [Hlk Hlc].
  pose proof (layout_take_keys _ _ _ _ _ Hl) as [Htk Htc].
  destruct Hl as (Hpfx & Hsz & Hle & Hks & Hcs).
  destruct (copyMeta_zero m Hpfx) as (m' & Hm' & Hkept).
  unfold shrink. rewrite Hm'. cbn [mbind option_bind].
  unfold len in Hsz. rewrite Hsz, Nat2Z.id.
  rewrite pack_pair_loop by lia. cbn [mbind option_bind fst snd].
  do 3 eexists. split; [done|].
  destruct Hkept as (Hs' & Hp' & Hst & Hlen').
  split; [|split; [done|]].
  - split; [exact Hlen'|]. split; [reflexivity|]. split; [lia|].
    by rewrite Htk, Htc.
  - unfold storedPrefix in *. cbn [prefixLen prefix]. exact Hst.
Qed.

(** *** Traversal and minimum *)

Lemma eachChildren_cons (f : artNode V -> option (list (artNode V)))
    (o : option (artNode V)) cs :
  eachChildren f (o :: cs)
  = a ← match o with Some c' => f c' | None => Some [] end;
    b ← eachChildren f cs; Some (a ++ b).
Proof. done. Qed.

Lemma eachChildren_nones (f : artNode V -> option (list (artNode V))) n :
  eachChildren f (replicate n None) = Some [].
Proof.
  induction n as [|n IH]; [done|].
  cbn [replicate]. by rewrite eachChildren_cons, IH.
Qed.

Lemma eachChildren_layout cap m ks cs es :
  layout cap m ks cs es ->
  eachChildren eachHelper cs = eachEdges es.
Proof.
  intros (_ & _ & _ & _ & ->). generalize (cap - length es)%nat. intros n.
  induction es as [|[k x] es IH].
  - apply eachChildren_nones.
  - rewrite !fmap_cons. cbn [app]. rewrite eachChildren_cons, IH. done.
Qed.

Lemma minimum_layout cap m ks cs b c es :
  layout cap m ks cs ((b, c) :: es) ->
  at_child minimum (Some None) cs 0 = minimum c.
Proof. intros (_ & _ & _ & _ & ->). done. Qed.
End SmallNodes.

(** * Directories indexed by the key byte *)

Lemma allBytes_length : length allBytes = 256%nat.
Proof. unfold allBytes. by rewrite length_fmap, length_seq. Qed.

Lemma allBytes_lookup (i : nat) :
  (i < 256)%nat -> allBytes !! i = Some (z2b (Z.of_nat i)).
Proof.
  intros Hi. unfold allBytes. rewrite list_lookup_fmap.
  rewrite lookup_seq_lt by done. done.
Qed.

Lemma allBytes_drop (i : nat) :
  (i < 256)%nat ->
  drop i allBytes = z2b (Z.of_nat i) :: drop (Datatypes.S i) allBytes.
Proof. intros Hi. apply drop_S. by apply allBytes_lookup. Qed.

Lemma elem_of_allBytes_drop (i : nat) b :
  b ∈ drop i allBytes -> Z.of_nat i <= b2z b.
Proof.
  intros (j & Hj)%list_elem_of_lookup_1. rewrite lookup_drop in Hj.
  pose proof (lookup_lt_Some _ _ _ Hj) as Hlt. rewrite allBytes_length in Hlt.
  rewrite allBytes_lookup in Hj by done. injection Hj as <-.
  rewrite b2z_z2b by lia. lia.
Qed.

Lemma omap_ext_elem {A B : Type} (f g : A -> option B) (l : list A) :
  (forall x, x ∈ l -> f x = g x) -> omap f l = omap g l.
Proof.
  induction l as [|x l IH]; intros H; [done|]. cbn [omap list_omap].
  rewrite (H x) by (apply elem_of_cons; by left).
  fold (omap f l). fold (omap g l). rewrite IH; [done|].
  intros y Hy. apply H. apply elem_of_cons. by right.
Qed.

Lemma omap_cons_eq {A B : Type} (f : A -> option B) (x : A) (l : list A) :
  omap f (x :: l)
  = match f x with Some y => y :: omap f l | None => omap f l end.
Proof. done. Qed.

Lemma omap_length_le {A B : Type} (f : A -> option B) (l : list A) :
  (length (omap f l) <= length l)%nat.
Proof.
  induction l as [|x l IH]; [done|]. cbn [omap list_omap].
  fold (omap f l). destruct (f x); simpl; lia.
Qed.

Section ByBytes.
Context {V : Type}.
Implicit Types (es : list (byte * artNode V)) (b : byte) (c : artNode V).

(** The entry of [es] for byte [b], if any. *)
Definition edgeAt es b : option (byte * artNode V) :=
  (fun c => (b, c)) <$> lookupEdge b es.

(** The entries of [es] for the bytes below [i]. *)
Definition edgesBelow es (i : nat) : list (byte * artNode V) :=
  omap (edgeAt es) (take i allBytes).

Lemma omap_edgeAt_from es (n i : nat) :
  (i + n = 256)%nat -> sortedEdges es ->
  Forall (fun e => Z.of_nat i <= b2z e.1) es ->
  omap (edgeAt es) (drop i allBytes) = es.
Proof.
  revert i es. induction n as [|n IH]; intros i es Hi Hs Hall.
  - rewrite drop_ge by (rewrite allBytes_length; lia). simpl.
    destruct es as [|e es]; [done|]. apply Forall_cons in Hall as [He _].
    pose proof (b2z_range e.1). lia.
  - rewrite allBytes_drop by lia. cbn [omap list_omap].
    destruct es as [|[k x] es].
    + simpl. apply (IH (Datatypes.S i) []); [lia|done|done].
    + pose proof Hs as Hs0. apply sortedEdges_cons in Hs as [Hs Hlt].
      apply Forall_cons in Hall as [Hk Hall]. simpl in Hk.
      destruct (decide (k = z2b (Z.of_nat i))) as [->|Hne].
      * unfold edgeAt at 1. simpl. rewrite decide_True by done. simpl. f_equal.
        rewrite <- (IH (Datatypes.S i) es) at 2; [|lia|done|].
        -- apply omap_ext_elem. intros b Hb.
           apply elem_of_allBytes_drop in Hb. unfold edgeAt. simpl.
           rewrite decide_False; [done|]. intros Heq. subst b.
           rewrite b2z_z2b in Hb by lia. lia.
        -- eapply Forall_impl; [exact Hlt|]. intros e He. simpl in He.
           unfold byte_lt in He. rewrite b2z_z2b in He by lia. lia.
      * assert (Z.of_nat i < b2z k) as Hik.
        { destruct (decide (Z.of_nat i = b2z k)) as [Heq|]; [|lia].
          exfalso. apply Hne. rewrite Heq. by rewrite z2b_b2z. }
        unfold edgeAt at 1. simpl. rewrite decide_False by done.
        rewrite lookupEdge_lt_None.
        2:{ eapply Forall_impl; [exact Hlt|]. intros e He. simpl in *.
            unfold byte_lt in *. rewrite b2z_z2b by lia. lia. }
        simpl. apply (IH (Datatypes.S i)); [lia|done|].
        constructor; [simpl; lia|].
        eapply Forall_impl; [exact Hlt|]. intros e He. simpl in *.
        unfold byte_lt in *. lia.
Qed.

(** A strictly ascending directory is the list of its entries by byte. *)
Lemma omap_edgeAt es : sortedEdges es -> omap (edgeAt es) allBytes = es.
Proof.
  intros Hs. apply (omap_edgeAt_from es 256 0); [done|done|].
  apply Forall_forall. intros e _. pose proof (b2z_range e.1). lia.
Qed.

Lemma edgesBelow_all es : sortedEdges es -> edgesBelow es 256 = es.
Proof.
  intros Hs. unfold edgesBelow.
  rewrite take_ge by (rewrite allBytes_length; lia). by apply omap_edgeAt.
Qed.

Lemma edgesBelow_S es (i : nat) :
  (i < 256)%nat ->
  edgesBelow es (Datatypes.S i)
  = edgesBelow es i ++ match lookupEdge (z2b (Z.of_nat i)) es with
                       | Some c => [(z2b (Z.of_nat i), c)]
                       | None => []
                       end.
Proof.
  intros Hi. unfold edgesBelow.
  rewrite (take_S_r _ _ _ (allBytes_lookup i Hi)), omap_app. f_equal.
  simpl. unfold edgeAt. by destruct (lookupEdge _ es).
Qed.

Lemma edgesBelow_length es (i : nat) :
  sortedEdges es -> (length (edgesBelow es i) <= length es)%nat.
Proof.
  intros Hs. rewrite <- (omap_edgeAt es Hs) at 2. unfold edgesBelow.
  rewrite <- (take_drop i allBytes) at 2. rewrite omap_app, length_app. lia.
Qed.

(** Two strictly ascending directories with the same lookups are equal. *)
Lemma sortedEdges_ext es es' :
  sortedEdges es -> sortedEdges es' ->
  (forall b, lookupEdge b es = lookupEdge b es') -> es = es'.
Proof.
  intros Hs Hs' H. rewrite <- (omap_edgeAt es Hs), <- (omap_edgeAt es' Hs').
  apply omap_ext_elem. intros b _. unfold edgeAt. by rewrite H.
Qed.

Lemma sortedEdges_length_le es : sortedEdges es -> (length es <= 256)%nat.
Proof.
  intros Hs. rewrite <- (omap_edgeAt es Hs).
  etrans; [apply omap_length_le|]. by rewrite allBytes_length.
Qed.

(** With 256 entries every byte has one. *)
Lemma sortedEdges_full es b :
  sortedEdges es -> length es = 256%nat -> is_Some (lookupEdge b es).
Proof.
  intros Hs Hlen.
  assert (forall (l : list byte),
            length (omap (edgeAt es) l) = length l ->
            forall x, x ∈ l -> is_Some (edgeAt es x)) as Hfull.
  { induction l as [|y l IH]; intros Hl x Hx; [by apply elem_of_nil in Hx|].
    cbn [omap list_omap] in Hl. pose proof (omap_length_le (edgeAt es) l) as Hle.
    destruct (edgeAt es y) as [e|] eqn:Hy; simpl in Hl; [|lia].
    apply elem_of_cons in Hx as [->|Hx]; [by rewrite Hy|].
    apply IH; [lia|done]. }
  specialize (Hfull allBytes). rewrite (omap_edgeAt es Hs) in Hfull.
  rewrite allBytes_length in Hfull. specialize (Hfull Hlen b).
  unfold edgeAt in Hfull. destruct (lookupEdge b es); [done|].
  destruct Hfull as [? Hf]; [|done].
  apply list_elem_of_lookup. exists (Z.to_nat (b2z b)).
  pose proof (b2z_range b). rewrite allBytes_lookup by lia.
  rewrite Z2Nat.id by lia. by rewrite z2b_b2z.
Qed.
End ByBytes.

(** * Node48 *)

Lemma scan_up_found {A : Type} (p : A -> bool) (l : list A) (from : Z) :
  (exists x, x ∈ l /\ p x = true) ->
  exists (i : nat) x,
    scan_up p l from = Some (from + Z.of_nat i)
    /\ l !! i = Some x /\ p x = true
    /\ (forall j y, (j < i)%nat -> l !! j = Some y -> p y = false).
Proof.
  revert from. induction l as [|y l IH]; intros from (x & Hx & Hp).
  - by apply elem_of_nil in Hx.
  - simpl. destruct (p y) eqn:Hy.
    + exists 0%nat, y. split; [f_equal; lia|]. split; [done|]. split; [done|].
      intros; lia.
    + apply elem_of_cons in Hx as [->|Hx]; [congruence|].
      destruct (IH (from + 1)) as (i & z & Hrun & Hi & Hz & Hbefore);
        [by exists x|].
      exists (Datatypes.S i), z. split; [rewrite Hrun; f_equal; lia|].
      split; [done|]. split; [done|].
      intros [|j] w Hj Hw; simpl in Hw; [congruence|].
      apply (Hbefore j); [lia|done].
Qed.

Lemma scan_up_first {A : Type} (p : A -> bool) (l : list A) (from : Z)
    (i : nat) x :
  l !! i = Some x -> p x = true ->
  (forall j y, (j < i)%nat -> l !! j = Some y -> p y = false) ->
  scan_up p l from = Some (from + Z.of_nat i).
Proof.
  revert from i. induction l as [|y l IH]; intros from i Hi Hx Hbefore; [done|].
  destruct i as [|i]; simpl in *.
  - injection Hi as ->. rewrite Hx. f_equal. lia.
  - rewrite (Hbefore 0%nat y) by (lia || done).
    rewrite (IH (from + 1) i); [f_equal; lia|done|done|].
    intros j z Hj Hz. apply (Hbefore (Datatypes.S j)); [lia|done].
Qed.

Section Node48.
Context {V : Type} (leafWords : Key -> V -> Z * list byte).
Implicit Types (es : list (byte * artNode V)) (b : byte) (c : artNode V).
Implicit Types (ks : list byte) (cs : list (option (artNode V))) (m : node).

(** *** Counting the slots in use *)

Lemma countSome_app cs1 cs2 :
  countSome (cs1 ++ cs2) = (countSome cs1 + countSome cs2)%nat.
Proof. unfold countSome. by rewrite filter_app, length_app. Qed.

Lemma countSome_cons (o : option (artNode V)) cs :
  countSome (o :: cs)
  = ((if o is Some _ then 1 else 0) + countSome cs)%nat.
Proof.
  unfold countSome. destruct o.
  - by rewrite filter_cons_True by done.
  - rewrite filter_cons_False; [done|]. by intros [? ?].
Qed.

Lemma countSome_nones n : countSome (replicate n (@None (artNode V))) = 0%nat.
Proof.
  induction n as [|n IH]; [done|]. cbn [replicate].
  by rewrite countSome_cons, IH.
Qed.

Lemma countSome_somes (l : list (artNode V)) :
  countSome (Some <$> l) = length l.
Proof.
  induction l as [|x l IH]; [done|]. rewrite fmap_cons, countSome_cons, IH.
  done.
Qed.

Lemma countSome_insert cs (i : nat) (o o' : option (artNode V)) :
  cs !! i = Some o ->
  (countSome (<[i := o']> cs) + (if o is Some _ then 1 else 0)
   = countSome cs + (if o' is Some _ then 1 else 0))%nat.
Proof.
  intros Hi. pose proof (lookup_lt_Some _ _ _ Hi) as Hlt.
  rewrite <- (take_drop_middle cs i o Hi) at 2.
  rewrite insert_take_drop by done.
  rewrite !countSome_app, !countSome_cons. lia.
Qed.

Lemma countSome_le cs : (countSome cs <= length cs)%nat.
Proof. unfold countSome. apply length_filter. Qed.

Lemma countSome_lt_None cs :
  (countSome cs < length cs)%nat -> None ∈ cs.
Proof.
  induction cs as [|o cs IH]; simpl; [lia|].
  rewrite countSome_cons. intros H. apply elem_of_cons.
  destruct o; [right; apply IH; lia|by left].
Qed.

(** *** Finding a child *)

Lemma get_byte ks b : length ks = 256%nat -> is_Some (get ks (b2z b)).
Proof.
  intros Hlen. apply get_is_Some. pose proof (b2z_range b). unfold len. lia.
Qed.

Lemma childUnder_N48 m ks cs es b :
  layout48 m ks cs es ->
  childUnder (N48 m ks cs) b = Some (lookupEdge b es).
Proof.
  intros (_ & _ & Hlk & Hlc & Hc0 & _ & Hslot & _).
  destruct (get_byte ks b Hlk) as [s Hs]. specialize (Hslot b s Hs).
  unfold childUnder, findChild, load. cbn [index childrenOf]. rewrite Hs.
  cbn [mbind option_bind]. pose proof (b2z_range s).
  destruct (Z.ltb_spec (b2z s) 0); [lia|].
  destruct (decide (s = Byte.x00)) as [->|Hne].
  - simpl. by rewrite Hslot.
  - destruct (Z.eqb_spec (b2z s) 0) as [Hz|Hz].
    { exfalso. apply Hne. by apply b2z_0_inv. }
    destruct Hslot as (c & Hc & ->). rewrite Hc. simpl. by rewrite Hc.
Qed.

Lemma findChild_N48 m ks cs es b c :
  layout48 m ks cs es -> lookupEdge b es = Some c ->
  exists i : nat,
    findChild (N48 m ks cs) b = Some (Slot (Z.of_nat i))
    /\ cs !! i = Some (Some c)
    /\ forall c', layout48 m ks (<[i := Some c']> cs) (replaceEdge b c' es).
Proof.
  intros (Hpfx & Hsz & Hlk & Hlc & Hc0 & Hcnt & Hslot & Hinj) Hb.
  destruct (get_byte ks b Hlk) as [s Hs]. pose proof (Hslot b s Hs) as Hbs.
  pose proof (b2z_range s) as Hsr.
  destruct (decide (s = Byte.x00)) as [->|Hne]; [congruence|].
  destruct Hbs as (c0 & Hc & Hb'). assert (c0 = c) as -> by congruence.
  assert (b2z s ≠ 0) as H0. { intros H0. apply Hne. by apply b2z_0_inv. }
  exists (Z.to_nat (b2z s)). rewrite Z2Nat.id by lia.
  apply get_Some in Hc as [_ Hc]. split; [|split; [done|]].
  - unfold findChild. cbn [index]. rewrite Hs. cbn [mbind option_bind].
    destruct (Z.ltb_spec (b2z s) 0); [lia|].
    destruct (Z.eqb_spec (b2z s) 0); [lia|].
    unfold get. destruct (Z.ltb_spec (b2z s) 0); [lia|]. by rewrite Hc.
  - intros c'. split; [done|]. unfold len in *.
    rewrite length_replaceEdge, length_insert.
    split; [done|]. split; [done|]. split; [done|].
    split; [rewrite list_lookup_insert_ne by lia; done|]. split.
    { pose proof (countSome_insert cs _ _ (Some c') Hc). lia. }
    split; [|done].
    intros b' s' Hs'. pose proof (Hslot b' s' Hs') as Hb's'.
    rewrite lookupEdge_replaceEdge.
    destruct (decide (s' = Byte.x00)) as [->|Hne'].
    + destruct (decide (b' = b)) as [->|]; [congruence|done].
    + destruct Hb's' as (c1 & Hc1 & Hl1).
      destruct (decide (b' = b)) as [->|Hbb].
      * assert (s' = s) as -> by congruence. exists c'. rewrite Hb. split; [|done].
        apply get_Some. split; [lia|].
        apply list_lookup_insert_eq. by eapply lookup_lt_Some.
      * exists c1. split; [|done]. apply get_Some in Hc1 as [? Hc1].
        apply get_Some. split; [done|]. rewrite list_lookup_insert_ne; [done|].
        intros Heq. apply Hbb. apply (Hinj b' b s'); [done| |done].
        assert (s' = s) as ->; [|done].
        pose proof (b2z_range s'). apply b2z_inj. lia.
Qed.

(** *** [addChild] on a Node48 that is not full *)

Lemma freeSlot cs (n : nat) :
  length cs = 49%nat -> cs !! 0%nat = Some None -> countSome cs = n ->
  (n < 48)%nat ->
  exists i : nat,
    scan_up (fun o : option (artNode V) => bool_decide (o = None)) (drop 1 cs) 1
    = Some (Z.of_nat i)
    /\ (1 <= i <= 48)%nat /\ cs !! i = Some None.
Proof.
  intros Hlen H0 Hcnt Hn.
  destruct cs as [|o cs]; [done|]. simpl in H0. injection H0 as ->.
  rewrite countSome_cons in Hcnt. simpl in *.
  destruct (scan_up_found
    (fun o : option (artNode V) => bool_decide (o = None)) cs 1)
    as (i & x & Hrun & Hi & Hx & _).
  { exists None. split; [|done]. apply countSome_lt_None. lia. }
  apply bool_decide_eq_true in Hx. subst x.
  exists (Datatypes.S i). rewrite drop_0. split; [rewrite Hrun; f_equal; lia|].
  split; [|done]. apply lookup_lt_Some in Hi. lia.
Qed.

Lemma addChild_N48 fuel m ks cs es b c :
  layout48 m ks cs es -> (length es < 48)%nat -> lookupEdge b es = None ->
  exists ks' cs',
    addChild_fuel leafWords (Datatypes.S fuel) (N48 m ks cs) b c
    = Some (N48 (incSize m) ks' cs')
    /\ layout48 (incSize m) ks' cs' (insertEdge b c es).
Proof.
  intros (Hpfx & Hsz & Hlk & Hlc & Hc0 & Hcnt & Hslot & Hinj) Hlt Hfresh.
  cbn [addChild_fuel]. unfold isFull. cbn [nodeOf maxSize].
  rewrite bool_decide_false by (unfold node48Max, len in *; lia).
  destruct (freeSlot cs (length es) Hlc Hc0 Hcnt Hlt) as (i & -> & Hi & Hfree).
  cbn [mbind option_bind]. pose proof (b2z_range b) as Hbr.
  rewrite !set_Some by (unfold len; lia). cbn [mbind option_bind].
  rewrite Nat2Z.id. do 2 eexists. split; [done|].
  assert (b2z (z2b (Z.of_nat i)) = Z.of_nat i) as Hzi by (apply b2z_z2b; lia).
  split; [done|]. unfold len in *. rewrite length_insertEdge, !length_insert.
  split; [simpl; lia|]. split; [done|]. split; [done|].
  split; [rewrite list_lookup_insert_ne by lia; done|]. split.
  { pose proof (countSome_insert cs _ _ (Some c) Hfree) as Hci.
    simpl in Hci. lia. }
  assert (forall b' s', b' ≠ b ->
            get (<[Z.to_nat (b2z b):=z2b (Z.of_nat i)]> ks) (b2z b') = Some s' ->
            get ks (b2z b') = Some s') as Hother.
  { intros b' s' Hne [? Hg]%get_Some. apply get_Some. split; [done|].
    rewrite list_lookup_insert_ne in Hg; [done|].
    intros Heq. apply Hne. apply b2z_inj. pose proof (b2z_range b'). lia. }
  assert (get (<[Z.to_nat (b2z b):=z2b (Z.of_nat i)]> ks) (b2z b)
          = Some (z2b (Z.of_nat i))) as Hself.
  { apply get_Some. split; [lia|]. apply list_lookup_insert_eq. lia. }
  assert (forall b' s', get ks (b2z b') = Some s' -> s' ≠ Byte.x00 ->
            b2z s' ≠ Z.of_nat i) as Hused.
  { intros b' s' Hs' Hne Heq. pose proof (Hslot b' s' Hs') as H.
    rewrite decide_False in H by done. destruct H as (c1 & Hc1 & _).
    apply get_Some in Hc1 as [_ Hc1]. rewrite Heq, Nat2Z.id in Hc1. congruence. }
  split.
  - intros b' s' Hs'. rewrite lookupEdge_insertEdge by done.
    destruct (decide (b' = b)) as [->|Hne].
    + rewrite Hself in Hs'. injection Hs' as <-.
      rewrite decide_False.
      2:{ intros H0. rewrite H0 in Hzi. rewrite b2z_x00 in Hzi. lia. }
      exists c. split; [|done]. apply get_Some. split; [lia|].
      rewrite Hzi, Nat2Z.id. apply list_lookup_insert_eq. lia.
    + apply Hother in Hs'; [|done]. pose proof (Hslot b' s' Hs') as H.
      destruct (decide (s' = Byte.x00)) as [|Hs0]; [done|].
      destruct H as (c1 & Hc1 & Hl1). exists c1. split; [|done].
      apply get_Some in Hc1 as [? Hc1]. apply get_Some. split; [done|].
      rewrite list_lookup_insert_ne; [done|].
      pose proof (Hused b' s' Hs' Hs0). lia.
  - intros b1 b2 s' H1 H2 Hne.
    destruct (decide (b1 = b)) as [->|Hn1], (decide (b2 = b)) as [->|Hn2].
    + done.
    + rewrite Hself in H1. injection H1 as <-. apply Hother in H2; [|done].
      exfalso. by apply (Hused b2 _ H2).
    + rewrite Hself in H2. injection H2 as <-. apply Hother in H1; [|done].
      exfalso. by apply (Hused b1 _ H1).
    + apply Hother in H1; [|done]. apply Hother in H2; [|done].
      by apply (Hinj b1 b2 s').
Qed.

(** *** Growing a Node16 *)

Lemma grow_N16 m ks cs es :
  layout 16 m ks cs es -> sortedEdges es ->
  exists m' ks' cs',
    grow (N16 m ks cs) = Some (N48 m' ks' cs')
    /\ layout48 m' ks' cs' es /\ metaKept m m'.
Proof.
  intros Hl Hs. pose proof (layout_lengths _ _ _ _ _ Hl) as [Hlk Hlc].
  pose proof (layout_take_keys _ _ _ _ _ Hl) as [Htk Htc].
  pose proof Hl as (Hpfx & Hsz & Hle & Hks & Hcs).
  destruct (copyMeta_zero m Hpfx) as (m' & Hm' & Hkept).
  unfold grow. rewrite Hm'. cbn [mbind option_bind].
  assert (forall j : nat, (j < length es)%nat ->
            exists e, es !! j = Some e /\ ks !! j = Some e.1
                      /\ cs !! j = Some (Some e.2)) as Hentry.
  { intros j Hj. destruct (lookup_lt_is_Some_2 es j Hj) as [e He].
    exists e. split; [done|].
    rewrite Hks, Hcs, !lookup_app_l by (rewrite ?length_fmap; lia).
    by rewrite !list_lookup_fmap, He. }
  destruct (for_up_spec
    (fun i (s : list byte * list (option (artNode V))) =>
       length s.1 = 256%nat
       /\ s.2 = None :: take (Z.to_nat i) cs ++ replicate (48 - Z.to_nat i) None
       /\ (forall (j : nat) e, Z.of_nat j < i -> es !! j = Some e ->
             get s.1 (b2z e.1) = Some (z2b (Z.of_nat j + 1)))
       /\ (forall b, b ∉ (take (Z.to_nat i) es).*1 ->
             get s.1 (b2z b) = Some Byte.x00))
    (Z.to_nat (size m)) 0
    (fun i (s : list byte * list (option (artNode V))) =>
       k ← get ks i; ks' ← set s.1 (b2z k) (z2b (i + 1));
       c ← get cs i; cs' ← set s.2 (i + 1) c;
       Some (ks', cs'))
    (replicate 256 Byte.x00, replicate 49 None))
    as ([ks' cs'] & Hrun & Hlk' & Hcs' & Hin & Hout).
  - cbn [fst snd]. split; [by rewrite length_replicate|]. split; [done|].
    split; [intros; lia|]. intros b _. apply get_Some.
    pose proof (b2z_range b). split; [lia|]. apply lookup_replicate_2. lia.
  - intros i [a d] Hi (Hla & Hd & Hin & Hout). cbn [fst snd] in *.
    unfold len in *.
    destruct (Hentry (Z.to_nat i)) as (e & He & Hk & Hc); [lia|].
    assert (get ks i = Some e.1) as Hgk by (apply get_Some; split; [lia|done]).
    assert (get cs i = Some (Some e.2)) as Hgc
      by (apply get_Some; split; [lia|done]).
    rewrite Hgk, Hgc. cbn [mbind option_bind]. pose proof (b2z_range e.1).
    rewrite !set_Some
      by (unfold len; rewrite ?Hd, ?length_cons, ?length_app, ?length_take,
            ?length_replicate; lia).
    cbn [mbind option_bind]. eexists. split; [done|]. cbn [fst snd].
    split; [by rewrite length_insert|]. split; [|split].
    + rewrite Hd. replace (Z.to_nat (i + 1)) with (Datatypes.S (Z.to_nat i)) by lia.
      rewrite (take_S_r cs _ _ Hc). apply list_eq. intros x.
      lookup_norm. simpl. lookup_norm. lookup_cases.
    + intros j e' Hj He'. apply get_Some. pose proof (b2z_range e'.1).
      split; [lia|]. destruct (decide (Z.of_nat j = i)) as [Hji|Hji].
      * assert (e' = e) as -> by (rewrite <- Hji, Nat2Z.id in He; congruence).
        rewrite list_lookup_insert_eq by lia. by rewrite Hji.
      * rewrite list_lookup_insert_ne.
        -- assert (Z.of_nat j < i) as Hji' by lia.
           pose proof (Hin j e' Hji' He') as Hg. by apply get_Some in Hg as [_ Hg].
        -- intros Heq. assert (e.1 = e'.1) as Hkk by (apply b2z_inj; lia).
           pose proof (sortedEdges_lookup_inj es _ _ e e' Hs He He' Hkk). lia.
    + intros b Hb. apply get_Some. pose proof (b2z_range b). split; [lia|].
      replace (Z.to_nat (i + 1)) with (Datatypes.S (Z.to_nat i)) in Hb by lia.
      rewrite (take_S_r es _ _ He), fmap_app in Hb.
      apply not_elem_of_app in Hb as [Hb1 Hb2].
      rewrite list_lookup_insert_ne.
      * pose proof (Hout b Hb1) as Hg. by apply get_Some in Hg as [_ Hg].
      * intros Heq. apply Hb2. simpl. apply list_elem_of_singleton.
        apply b2z_inj. lia.
  - rewrite Hrun. cbn [mbind option_bind fst snd] in *.
    do 3 eexists. split; [done|]. split; [|done].
    destruct Hkept as (Hs' & Hp' & Hst & Hlen').
    unfold len in *. rewrite Z.add_0_l, Hsz, !Nat2Z.id in *.
    rewrite take_ge in Hout by lia. rewrite Htc in Hcs'.
    split; [done|]. split; [unfold len; lia|]. split; [done|].
    split; [rewrite Hcs'; simpl; rewrite length_app, !length_fmap,
            length_replicate; lia|].
    split; [by rewrite Hcs'|]. split.
    { rewrite Hcs', countSome_cons, countSome_app, countSome_nones.
      rewrite countSome_somes, length_fmap. simpl. lia. }
    assert (forall b c, lookupEdge b es = Some c ->
              exists j : nat, (j < 16)%nat /\ es !! j = Some (b, c)
                /\ get ks' (b2z b) = Some (z2b (Z.of_nat j + 1))) as Hhit.
    { intros b c (j & Hj & _)%lookupEdge_first. exists j.
      pose proof (lookup_lt_Some _ _ _ Hj). split; [lia|]. split; [done|].
      apply (Hin j (b, c)); [lia|done]. }
    split.
    + intros b s Hbs. destruct (lookupEdge b es) as [c|] eqn:Hb.
      * destruct (Hhit b c Hb) as (j & Hj & He & Hg).
        assert (s = z2b (Z.of_nat j + 1)) as -> by congruence.
        assert (b2z (z2b (Z.of_nat j + 1)) = Z.of_nat j + 1) as Hz
          by (apply b2z_z2b; lia).
        rewrite decide_False.
        2:{ intros H0. rewrite H0, b2z_x00 in Hz. lia. }
        exists c. split; [|done]. rewrite Hz. apply get_Some. split; [lia|].
        rewrite Hcs'. replace (Z.to_nat (Z.of_nat j + 1)) with (Datatypes.S j) by lia.
        pose proof (lookup_lt_Some _ _ _ He).
        simpl. rewrite lookup_app_l by (rewrite !length_fmap; lia).
        by rewrite !list_lookup_fmap, He.
      * apply lookupEdge_None in Hb. rewrite (Hout b Hb) in Hbs.
        injection Hbs as <-. by rewrite decide_True.
    + intros b1 b2 s H1 H2 Hne.
      destruct (lookupEdge b1 es) as [c1|] eqn:Hb1.
      2:{ apply lookupEdge_None in Hb1. rewrite (Hout b1 Hb1) in H1. congruence. }
      destruct (lookupEdge b2 es) as [c2|] eqn:Hb2.
      2:{ apply lookupEdge_None in Hb2. rewrite (Hout b2 Hb2) in H2. congruence. }
      destruct (Hhit b1 c1 Hb1) as (j1 & Hj1 & He1 & Hg1).
      destruct (Hhit b2 c2 Hb2) as (j2 & Hj2 & He2 & Hg2).
      assert (z2b (Z.of_nat j1 + 1) = z2b (Z.of_nat j2 + 1)) as Hzz by congruence.
      apply (f_equal b2z) in Hzz. rewrite !b2z_z2b in Hzz by lia.
      assert (j1 = j2) as -> by lia. congruence.
Qed.

(** [addChild] on a full Node16: it grows into a Node48 first. *)
Lemma addChild_N16_full fuel m ks cs es b c :
  layout 16 m ks cs es -> sortedEdges es -> length es = 16%nat ->
  lookupEdge b es = None ->
  exists m' ks' cs',
    addChild_fuel leafWords (Datatypes.S (Datatypes.S fuel)) (N16 m ks cs) b c
    = Some (N48 m' ks' cs')
    /\ layout48 m' ks' cs' (insertEdge b c es)
    /\ prefixLen m' = prefixLen m /\ storedPrefix m' = storedPrefix m.
Proof.
  intros Hl Hs Hlen Hfresh. pose proof Hl as (Hpfx & Hsz & Hle & Hks & Hcs).
  destruct (grow_N16 m ks cs es Hl Hs) as (m1 & ks1 & cs1 & Hg & Hl1 & Hkept).
  cbn [addChild_fuel]. unfold isFull. cbn [nodeOf maxSize].
  rewrite bool_decide_true by (unfold node16Max, len in *; lia).
  rewrite Hg. cbn [mbind option_bind].
  destruct (addChild_N48 fuel m1 ks1 cs1 es b c Hl1)
    as (ks' & cs' & Hrun & Hl'); [lia|done|].
  exists (incSize m1), ks', cs'. split; [done|]. split; [done|].
  destruct Hkept as (_ & HL & Hst & _). done.
Qed.

(** *** Removing a child *)

Lemma RemoveChild_N48 m ks cs es b c :
  layout48 m ks cs es -> sortedEdges es -> lookupEdge b es = Some c ->
  exists ks' cs',
    layout48 (decSize m) ks' cs' (removeEdge b es)
    /\ RemoveChild leafWords (N48 m ks cs) b
       = if size m - 1 <? node48Min
         then shrink leafWords (N48 (decSize m) ks' cs')
         else Some (N48 (decSize m) ks' cs').
Proof.
  intros (Hpfx & Hsz & Hlk & Hlc & Hc0 & Hcnt & Hslot & Hinj) Hs Hb.
  destruct (get_byte ks b Hlk) as [s Hbs]. pose proof (Hslot b s Hbs) as H.
  destruct (decide (s = Byte.x00)) as [->|Hne]; [congruence|].
  destruct H as (c0 & Hc & Hb'). assert (c0 = c) as -> by congruence.
  pose proof (b2z_range s) as Hsr. pose proof (b2z_range b) as Hbr.
  assert (b2z s ≠ 0) as H0. { intros H0. apply Hne. by apply b2z_0_inv. }
  pose proof (get_lt _ _ _ Hc) as Hslt. apply get_Some in Hc as [_ Hc].
  exists (<[Z.to_nat (b2z b) := Byte.x00]> ks), (<[Z.to_nat (b2z s) := None]> cs).
  split.
  - pose proof (length_removeEdge b c es Hs Hb) as Hlen.
    split; [done|]. unfold len in *. rewrite !length_insert.
    split; [simpl; lia|]. split; [done|]. split; [done|].
    split; [rewrite list_lookup_insert_ne by lia; done|]. split.
    { pose proof (countSome_insert cs _ _ None Hc) as Hci. simpl in Hci. lia. }
    assert (forall b' s', b' ≠ b ->
              get (<[Z.to_nat (b2z b):=Byte.x00]> ks) (b2z b') = Some s' ->
              get ks (b2z b') = Some s') as Hother.
    { intros b' s' Hn [? Hg]%get_Some. apply get_Some. split; [done|].
      rewrite list_lookup_insert_ne in Hg; [done|].
      intros Heq. apply Hn. apply b2z_inj. pose proof (b2z_range b'). lia. }
    assert (get (<[Z.to_nat (b2z b):=Byte.x00]> ks) (b2z b) = Some Byte.x00)
      as Hself.
    { apply get_Some. split; [lia|]. apply list_lookup_insert_eq. lia. }
    split.
    + intros b' s' Hs'. rewrite lookupEdge_removeEdge.
      destruct (decide (b' = b)) as [->|Hbb].
      * rewrite Hself in Hs'. injection Hs' as <-. by rewrite decide_True.
      * apply Hother in Hs'; [|done]. pose proof (Hslot b' s' Hs') as H.
        destruct (decide (s' = Byte.x00)) as [|Hs0]; [done|].
        destruct H as (c1 & Hc1 & Hl1). exists c1. split; [|done].
        apply get_Some in Hc1 as [? Hc1]. apply get_Some. split; [done|].
        rewrite list_lookup_insert_ne; [done|]. intros Heq. apply Hbb.
        apply (Hinj b' b s'); [done| |done].
        assert (s' = s) as ->; [|done].
        pose proof (b2z_range s'). apply b2z_inj. lia.
    + intros b1 b2 s' H1 H2 Hs0.
      destruct (decide (b1 = b)) as [->|Hn1].
      { rewrite Hself in H1. congruence. }
      destruct (decide (b2 = b)) as [->|Hn2].
      { rewrite Hself in H2. congruence. }
      apply Hother in H1; [|done]. apply Hother in H2; [|done].
      by apply (Hinj b1 b2 s').
  - unfold RemoveChild. cbn [index]. rewrite Hbs. cbn [mbind option_bind].
    destruct (Z.leb_spec (b2z s) 0); [lia|].
    rewrite !set_Some by (unfold len in *; lia).
    cbn [mbind option_bind nodeOf minSize]. done.
Qed.

(** *** Shrinking a Node48 that holds at most sixteen entries *)

Lemma shrink_N48 m ks cs es :
  layout48 m ks cs es -> sortedEdges es -> (length es <= 16)%nat ->
  exists m' ks' cs',
    shrink leafWords (N48 m ks cs) = Some (N16 m' ks' cs')
    /\ layout 16 m' ks' cs' es
    /\ prefixLen m' = prefixLen m /\ storedPrefix m' = storedPrefix m.
Proof.
  intros (Hpfx & Hsz & Hlk & Hlc & Hc0 & Hcnt & Hslot & Hinj) Hs Hle.
  destruct (copyMeta_zero m Hpfx) as (m' & Hm' & Hkept).
  unfold shrink. rewrite Hm'. cbn [mbind option_bind].
  assert (Z.to_nat (len ks) = 256%nat) as -> by (unfold len; lia).
  destruct (for_up_spec
    (fun i (s : Z * list byte * list (option (artNode V))) =>
       s = (Z.of_nat (length (edgesBelow es (Z.to_nat i))),
            (edgesBelow es (Z.to_nat i)).*1
              ++ replicate (16 - length (edgesBelow es (Z.to_nat i))) Byte.x00,
            (Some <$> (edgesBelow es (Z.to_nat i)).*2)
              ++ replicate (16 - length (edgesBelow es (Z.to_nat i))) None))
    256%nat 0
    (fun i (s : Z * list byte * list (option (artNode V))) =>
       idx ← get ks (b2z (z2b i));
       if b2z idx <=? 0 then Some s
       else
         ks' ← set s.1.2 s.1.1 (z2b i);
         c ← get cs (b2z idx);
         cs' ← set s.2 s.1.1 c;
         Some (s.1.1 + 1, ks', cs'))
    (0, replicate 16 Byte.x00, replicate 16 None)) as (r & Hrun & Hr).
  - done.
  - intros i t Hi ->.
    rewrite b2z_z2b by lia.
    destruct (get_is_Some ks i) as [s Hsi]; [unfold len; lia|]. rewrite Hsi.
    cbn [mbind option_bind].
    pose proof (Hslot (z2b i) s) as H. rewrite b2z_z2b in H by lia.
    specialize (H Hsi). pose proof (b2z_range s) as Hsr.
    replace (Z.to_nat (i + 1)) with (Datatypes.S (Z.to_nat i)) by lia.
    rewrite edgesBelow_S by lia. rewrite Z2Nat.id by lia.
    pose proof (edgesBelow_length es (Datatypes.S (Z.to_nat i)) Hs) as Hbl.
    rewrite edgesBelow_S in Hbl by lia. rewrite Z2Nat.id in Hbl by lia.
    destruct (decide (s = Byte.x00)) as [->|Hne].
    + rewrite b2z_x00. simpl. rewrite H. rewrite app_nil_r. eauto.
    + destruct (Z.leb_spec (b2z s) 0) as [Hs0|Hs0].
      { exfalso. apply Hne. apply b2z_0_inv. lia. }
      destruct H as (c & Hc & Hl). rewrite Hl in *. cbn [fst snd].
      rewrite length_app in Hbl. simpl in Hbl.
      set (eb := edgesBelow es (Z.to_nat i)) in *.
      rewrite set_Some
        by (unfold len; rewrite length_app, !length_fmap, length_replicate; lia).
      cbn [mbind option_bind]. rewrite Hc. cbn [mbind option_bind].
      rewrite set_Some
        by (unfold len; rewrite length_app, !length_fmap, length_replicate; lia).
      cbn [mbind option_bind]. eexists. split; [done|].
      rewrite Nat2Z.id, length_app. simpl.
      f_equal; [f_equal; [lia|]|].
      * rewrite fmap_app. simpl. apply list_eq. intros x.
        lookup_norm. simpl. lookup_norm. lookup_cases.
      * rewrite !fmap_app. simpl. apply list_eq. intros x.
        lookup_norm. simpl. lookup_norm. lookup_cases.
  - rewrite Hrun. cbn [mbind option_bind].
    replace (Z.to_nat (0 + Z.of_nat 256)) with 256%nat in Hr by lia.
    rewrite (edgesBelow_all es Hs) in Hr. subst r. cbn [fst snd].
    do 3 eexists. split; [done|].
    destruct Hkept as (Hs' & Hp' & Hst & Hlen').
    split; [|split; [done|]].
    + split; [exact Hlen'|]. split; [reflexivity|]. split; [lia|]. done.
    + unfold storedPrefix in *. cbn [prefixLen prefix]. exact Hst.
Qed.

(** *** Traversal and minimum *)

Lemma at_child_lookup {R : Type} (f : artNode V -> option R) (d : option R)
    cs (i : nat) c :
  cs !! i = Some (Some c) -> at_child f d cs i = f c.
Proof.
  revert i. induction cs as [|o cs IH]; intros i Hi; [done|].
  destruct i as [|i]; simpl in *.
  - by injection Hi as ->.
  - by apply IH.
Qed.

Lemma at_childZ_lookup {R : Type} (f : artNode V -> option R) (d : option R)
    cs (i : Z) c :
  get cs i = Some (Some c) -> at_childZ f d cs i = f c.
Proof.
  intros [Hi Hc]%get_Some. unfold at_childZ.
  destruct (Z.ltb_spec i 0); [lia|]. by apply at_child_lookup.
Qed.

Lemma eachEdges_cons (e : byte * artNode V) es :
  eachEdges (e :: es)
  = a ← eachHelper e.2; r ← eachEdges es; Some (a ++ r).
Proof. done. Qed.

Lemma eachKeys48_cons (f : artNode V -> option (list (artNode V))) cs
    (k : byte) ks :
  eachKeys48 f cs (k :: ks)
  = a ← (if b2z k >? 0 then at_childZ f (Some []) cs (b2z k) else Some []);
    r ← eachKeys48 f cs ks; Some (a ++ r).
Proof. done. Qed.

Lemma eachKeys48_from m ks cs es (n i : nat) :
  layout48 m ks cs es -> (i + n = 256)%nat ->
  eachKeys48 eachHelper cs (drop i ks)
  = eachEdges (omap (edgeAt es) (drop i allBytes)).
Proof.
  intros (Hpfx & Hsz & Hlk & Hlc & Hc0 & Hcnt & Hslot & Hinj).
  revert i. induction n as [|n IH]; intros i Hi.
  - by rewrite !drop_ge by (rewrite ?allBytes_length; lia).
  - rewrite allBytes_drop by lia.
    destruct (get_is_Some ks (Z.of_nat i)) as [s Hsi]; [unfold len; lia|].
    pose proof (Hslot (z2b (Z.of_nat i)) s) as H.
    rewrite b2z_z2b in H by lia. specialize (H Hsi).
    rewrite get_nat in Hsi. rewrite (drop_S _ _ _ Hsi), eachKeys48_cons.
    rewrite IH by lia. rewrite omap_cons_eq.
    pose proof (b2z_range s) as Hsr.
    destruct (decide (s = Byte.x00)) as [->|Hne].
    + assert (edgeAt es (z2b (Z.of_nat i)) = None) as ->
        by (unfold edgeAt; by rewrite H).
      rewrite b2z_x00. cbn [Z.gtb Z.compare mbind option_bind].
      by destruct (eachEdges (omap (edgeAt es) (drop (Datatypes.S i) allBytes))).
    + destruct H as (c & Hc & Hl).
      assert (edgeAt es (z2b (Z.of_nat i)) = Some (z2b (Z.of_nat i), c)) as ->
        by (unfold edgeAt; by rewrite Hl).
      destruct (Z.gtb_spec (b2z s) 0) as [_|Hs0].
      2:{ exfalso. apply Hne. apply b2z_0_inv. lia. }
      rewrite (at_childZ_lookup _ _ _ _ c Hc). done.
Qed.

Lemma eachKeys48_layout m ks cs es :
  layout48 m ks cs es -> sortedEdges es ->
  eachKeys48 eachHelper cs ks = eachEdges es.
Proof.
  intros Hl Hs. pose proof (eachKeys48_from m ks cs es 256 0 Hl eq_refl) as H.
  rewrite !drop_0 in H. by rewrite H, omap_edgeAt.
Qed.

Lemma minimum_N48 m ks cs b c es :
  layout48 m ks cs ((b, c) :: es) -> sortedEdges ((b, c) :: es) ->
  minimum (N48 m ks cs) = minimum c.
Proof.
  intros (Hpfx & Hsz & Hlk & Hlc & Hc0 & Hcnt & Hslot & Hinj) Hs.
  destruct (get_byte ks b Hlk) as [s Hbs]. pose proof (Hslot b s Hbs) as H.
  assert (lookupEdge b ((b, c) :: es) = Some c) as Hlb
    by (cbn [lookupEdge fst snd]; by rewrite decide_True).
  rewrite Hlb in H.
  destruct (decide (s = Byte.x00)) as [|Hne]; [discriminate H|].
  destruct H as (c0 & Hc & [= ->]). pose proof (b2z_range b) as Hbr.
  cbn [minimum].
  rewrite (scan_up_first _ ks 0 (Z.to_nat (b2z b)) s).
  - cbn [mbind option_bind]. rewrite Z.add_0_l, Z2Nat.id by lia.
    rewrite Hbs. cbn [mbind option_bind]. by apply at_childZ_lookup.
  - by apply get_Some in Hbs as [_ ?].
  - by rewrite bool_decide_false.
  - intros j y Hj Hy. apply negb_false_iff, bool_decide_eq_true.
    pose proof (lookup_lt_Some _ _ _ Hy) as Hj256.
    pose proof (Hslot (z2b (Z.of_nat j)) y) as Hy'.
    rewrite b2z_z2b in Hy' by lia. rewrite get_nat in Hy'. specialize (Hy' Hy).
    destruct (decide (y = Byte.x00)) as [|Hy0]; [done|].
    destruct Hy' as (c1 & _ & Hl). exfalso.
    apply sortedEdges_cons in Hs as [_ Hall]. simpl in Hl.
    destruct (decide (b = z2b (Z.of_nat j))) as [Heq|Hnb].
    { rewrite Heq, b2z_z2b in Hj by lia. lia. }
    apply lookupEdge_Some_elem in Hl. rewrite Forall_forall in Hall.
    apply Hall in Hl. simpl in Hl. unfold byte_lt in Hl.
    rewrite b2z_z2b in Hl by lia. lia.
Qed.
End Node48.

(** * Node256 *)

Section Node256.
Context {V : Type} (leafWords : Key -> V -> Z * list byte).
Implicit Types (es : list (byte * artNode V)) (b : byte) (c : artNode V).
Implicit Types (ks : list byte) (cs : list (option (artNode V))) (m : node).

Lemma childUnder_N256 m cs es b :
  layout256 m cs es ->
  childUnder (N256 m cs) b = Some (lookupEdge b es).
Proof.
  intros (_ & _ & Hlc & Hslot).
  unfold childUnder, findChild, load. cbn [mbind option_bind childrenOf].
  pose proof (b2z_range b). destruct (Z.ltb_spec (b2z b) 0); [lia|].
  rewrite Hslot. cbn [mbind option_bind].
  destruct (lookupEdge b es) as [c|] eqn:Hb; cbn [mbind option_bind]; [|done].
  by rewrite Hslot, Hb.
Qed.

Lemma layout256_lookup m cs es b :
  layout256 m cs es -> cs !! Z.to_nat (b2z b) = Some (lookupEdge b es).
Proof.
  intros (_ & _ & _ & Hslot). specialize (Hslot b).
  by apply get_Some in Hslot as [_ ?].
Qed.

Lemma get_insert_byte {A : Type} (l : list A) b b' (x : A) :
  length l = 256%nat ->
  get (<[Z.to_nat (b2z b) := x]> l) (b2z b')
  = if decide (b' = b) then Some x else get l (b2z b').
Proof.
  intros Hl. pose proof (b2z_range b). pose proof (b2z_range b').
  unfold get. destruct (Z.ltb_spec (b2z b') 0); [lia|].
  destruct (decide (b' = b)) as [->|Hne].
  - apply list_lookup_insert_eq. lia.
  - apply list_lookup_insert_ne. intros Heq. apply Hne, b2z_inj. lia.
Qed.

Lemma findChild_N256 m cs es b c :
  layout256 m cs es -> lookupEdge b es = Some c ->
  exists i : nat,
    findChild (N256 m cs) b = Some (Slot (Z.of_nat i))
    /\ cs !! i = Some (Some c)
    /\ forall c', layout256 m (<[i := Some c']> cs) (replaceEdge b c' es).
Proof.
  intros Hl Hb. pose proof (layout256_lookup _ _ _ b Hl) as Hi.
  destruct Hl as (Hpfx & Hsz & Hlc & Hslot). pose proof (b2z_range b).
  exists (Z.to_nat (b2z b)). rewrite Z2Nat.id by lia. rewrite Hb in Hi.
  split; [|split; [done|]].
  - unfold findChild. cbn [mbind option_bind].
    destruct (Z.ltb_spec (b2z b) 0); [lia|]. rewrite Hslot, Hb. done.
  - intros c'. split; [done|]. unfold len. rewrite length_replaceEdge.
    split; [done|]. rewrite length_insert. split; [done|].
    intros b'. rewrite get_insert_byte by done.
    rewrite lookupEdge_replaceEdge.
    destruct (decide (b' = b)) as [->|]; [by rewrite Hb|done].
Qed.

(** *** [addChild] on a Node256 that is not full *)

Lemma addChild_N256 fuel m cs es b c :
  layout256 m cs es -> (length es < 256)%nat -> lookupEdge b es = None ->
  exists cs',
    addChild_fuel leafWords (Datatypes.S fuel) (N256 m cs) b c
    = Some (N256 (incSize m) cs')
    /\ layout256 (incSize m) cs' (insertEdge b c es).
Proof.
  intros (Hpfx & Hsz & Hlc & Hslot) Hlt Hfresh.
  cbn [addChild_fuel]. unfold isFull. cbn [nodeOf maxSize].
  rewrite bool_decide_false by (unfold node256Max, len in *; lia).
  pose proof (b2z_range b).
  rewrite set_Some by (unfold len; lia). cbn [mbind option_bind].
  eexists. split; [done|]. split; [done|]. unfold len in *.
  rewrite length_insertEdge, length_insert. split; [simpl; lia|].
  split; [done|]. intros b'. rewrite get_insert_byte by done.
  rewrite lookupEdge_insertEdge by done.
  destruct (decide (b' = b)); [done|apply Hslot].
Qed.

(** A full Node256 is returned as it is: the child is not installed. *)
Lemma addChild_N256_full fuel m cs b c :
  size m = node256Max ->
  addChild_fuel leafWords (Datatypes.S fuel) (N256 m cs) b c
  = Some (N256 m cs).
Proof.
  intros Hsz. cbn [addChild_fuel]. unfold isFull. cbn [nodeOf maxSize].
  by rewrite bool_decide_true.
Qed.

(** *** Growing a Node48 *)

Lemma grow_N48 m ks cs es :
  layout48 m ks cs es ->
  exists m' cs',
    grow (N48 m ks cs) = Some (N256 m' cs')
    /\ layout256 m' cs' es /\ metaKept m m'.
Proof.
  intros (Hpfx & Hsz & Hlk & Hlc & Hc0 & Hcnt & Hslot & Hinj).
  destruct (copyMeta_zero m Hpfx) as (m' & Hm' & Hkept).
  unfold grow. rewrite Hm'. cbn [mbind option_bind].
  assert (Z.to_nat (len ks) = 256%nat) as -> by (unfold len; lia).
  destruct (for_up_spec
    (fun i (s : list (option (artNode V))) =>
       length s = 256%nat
       /\ forall b, get s (b2z b)
                    = Some (if decide (b2z b < i) then lookupEdge b es
                            else None))
    256%nat 0
    (fun i (s : list (option (artNode V))) =>
       k ← get ks i;
       if bool_decide (k = Byte.x00) then Some s
       else
         c ← get cs (b2z k);
         match c with
         | Some _ => set s (b2z (z2b i)) c
         | None => Some s
         end)
    (replicate 256 None)) as (cs' & Hrun & Hlen' & Hcs').
  - split; [by rewrite length_replicate|]. intros b. pose proof (b2z_range b).
    rewrite decide_False by lia. apply get_Some. split; [lia|].
    apply lookup_replicate_2. lia.
  - intros i s Hi (Hls & Hs).
    destruct (get_is_Some ks i) as [k Hk]; [unfold len; lia|]. rewrite Hk.
    cbn [mbind option_bind].
    pose proof (Hslot (z2b i) k) as H. rewrite b2z_z2b in H by lia.
    specialize (H Hk).
    assert (forall b, b ≠ z2b i ->
              (if decide (b2z b < i + 1) then lookupEdge b es else None)
              = if decide (b2z b < i) then lookupEdge b es else None) as Hoth.
    { intros b Hb. assert (b2z b ≠ i).
      { intros <-. by rewrite z2b_b2z in Hb. }
      repeat case_decide; try done; lia. }
    destruct (decide (k = Byte.x00)) as [->|Hne].
    + rewrite bool_decide_true by done. eexists. split; [done|].
      split; [done|]. intros b. destruct (decide (b = z2b i)) as [->|Hb].
      * rewrite Hs, b2z_z2b by lia. rewrite H.
        by repeat case_decide.
      * by rewrite Hs, Hoth.
    + rewrite bool_decide_false by done. destruct H as (c & Hc & Hl).
      rewrite Hc. cbn [mbind option_bind]. rewrite b2z_z2b by lia.
      rewrite set_Some by (unfold len; lia). eexists. split; [done|].
      split; [by rewrite length_insert|]. intros b.
      replace (Z.to_nat i) with (Z.to_nat (b2z (z2b i)))
        by (rewrite b2z_z2b; lia).
      rewrite get_insert_byte by done.
      destruct (decide (b = z2b i)) as [->|Hb].
      * rewrite b2z_z2b by lia. rewrite decide_True by lia. by rewrite Hl.
      * by rewrite Hs, Hoth.
  - rewrite Hrun. do 2 eexists. split; [done|]. split; [|done].
    destruct Hkept as (Hs' & Hp' & Hst & Hlen'').
    split; [done|]. split; [lia|]. split; [done|].
    intros b. rewrite Hcs'. pose proof (b2z_range b).
    by rewrite decide_True by lia.
Qed.

(** [addChild] on a full Node48: it grows into a Node256 first. *)
Lemma addChild_N48_full fuel m ks cs es b c :
  layout48 m ks cs es -> length es = 48%nat -> lookupEdge b es = None ->
  exists m' cs',
    addChild_fuel leafWords (Datatypes.S (Datatypes.S fuel)) (N48 m ks cs) b c
    = Some (N256 m' cs')
    /\ layout256 m' cs' (insertEdge b c es)
    /\ prefixLen m' = prefixLen m /\ storedPrefix m' = storedPrefix m.
Proof.
  intros Hl Hlen Hfresh.
  pose proof Hl as (Hpfx & Hsz & _).
  destruct (grow_N48 m ks cs es Hl) as (m1 & cs1 & Hg & Hl1 & Hkept).
  cbn [addChild_fuel]. unfold isFull. cbn [nodeOf maxSize].
  rewrite bool_decide_true by (unfold node48Max, len in *; lia).
  rewrite Hg. cbn [mbind option_bind].
  destruct (addChild_N256 fuel m1 cs1 es b c Hl1)
    as (cs' & Hrun & Hl'); [lia|done|].
  exists (incSize m1), cs'. split; [done|]. split; [done|].
  destruct Hkept as (_ & HL & Hst & _). done.
Qed.

(** *** Removing a child *)

Lemma RemoveChild_N256 m cs es b c :
  layout256 m cs es -> sortedEdges es -> lookupEdge b es = Some c ->
  exists cs',
    layout256 (decSize m) cs' (removeEdge b es)
    /\ RemoveChild leafWords (N256 m cs) b
       = if size m - 1 <? node256Min
         then shrink leafWords (N256 (decSize m) cs')
         else Some (N256 (decSize m) cs').
Proof.
  intros (Hpfx & Hsz & Hlc & Hslot) Hs Hb. pose proof (b2z_range b).
  exists (<[Z.to_nat (b2z b) := None]> cs). split.
  - pose proof (length_removeEdge b c es Hs Hb) as Hlen.
    split; [done|]. unfold len in *. rewrite length_insert.
    split; [simpl; lia|]. split; [done|].
    intros b'. rewrite get_insert_byte by done. rewrite lookupEdge_removeEdge.
    destruct (decide (b' = b)); [done|apply Hslot].
  - unfold RemoveChild. cbn [index mbind option_bind].
    rewrite set_Some by (unfold len; lia). done.
Qed.

(** A Node48 whose entries are listed in [es]: the slots [1..] of
    [children] hold them in order, [keys] names the slot of each byte. *)
Lemma layout48_packed m ks cs es :
  length (prefix m) = 10%nat -> size m = len es -> length ks = 256%nat ->
  sortedEdges es -> (length es <= 48)%nat ->
  cs = None :: (Some <$> es.*2) ++ replicate (48 - length es) None ->
  (forall (j : nat) e, es !! j = Some e ->
     get ks (b2z e.1) = Some (z2b (Z.of_nat j + 1))) ->
  (forall b, b ∉ es.*1 -> get ks (b2z b) = Some Byte.x00) ->
  layout48 m ks cs es.
Proof.
  intros Hpfx Hsz Hlk Hs Hle Hcs Hin Hout.
  split; [done|]. split; [done|]. split; [done|].
  split; [rewrite Hcs; simpl; rewrite length_app, !length_fmap,
          length_replicate; lia|].
  split; [by rewrite Hcs|]. split.
  { rewrite Hcs, countSome_cons, countSome_app, countSome_nones.
    rewrite countSome_somes, length_fmap. simpl. lia. }
  assert (forall b c, lookupEdge b es = Some c ->
            exists j : nat, (j < 48)%nat /\ es !! j = Some (b, c)
              /\ get ks (b2z b) = Some (z2b (Z.of_nat j + 1))) as Hhit.
  { intros b c (j & Hj & _)%lookupEdge_first. exists j.
    pose proof (lookup_lt_Some _ _ _ Hj). split; [lia|]. split; [done|].
    apply (Hin j (b, c)); done. }
  split.
  - intros b s Hbs. destruct (lookupEdge b es) as [c|] eqn:Hb.
    + destruct (Hhit b c Hb) as (j & Hj & He & Hg).
      assert (s = z2b (Z.of_nat j + 1)) as -> by congruence.
      assert (b2z (z2b (Z.of_nat j + 1)) = Z.of_nat j + 1) as Hz
        by (apply b2z_z2b; lia).
      rewrite decide_False.
      2:{ intros H0. rewrite H0, b2z_x00 in Hz. lia. }
      exists c. split; [|done]. rewrite Hz. apply get_Some. split; [lia|].
      rewrite Hcs. replace (Z.to_nat (Z.of_nat j + 1)) with (Datatypes.S j) by lia.
      pose proof (lookup_lt_Some _ _ _ He).
      simpl. rewrite lookup_app_l by (rewrite !length_fmap; lia).
      by rewrite !list_lookup_fmap, He.
    + apply lookupEdge_None in Hb. rewrite (Hout b Hb) in Hbs.
      injection Hbs as <-. by rewrite decide_True.
  - intros b1 b2 s H1 H2 Hne.
    destruct (lookupEdge b1 es) as [c1|] eqn:Hb1.
    2:{ apply lookupEdge_None in Hb1. rewrite (Hout b1 Hb1) in H1. congruence. }
    destruct (lookupEdge b2 es) as [c2|] eqn:Hb2.
    2:{ apply lookupEdge_None in Hb2. rewrite (Hout b2 Hb2) in H2. congruence. }
    destruct (Hhit b1 c1 Hb1) as (j1 & Hj1 & He1 & Hg1).
    destruct (Hhit b2 c2 Hb2) as (j2 & Hj2 & He2 & Hg2).
    assert (z2b (Z.of_nat j1 + 1) = z2b (Z.of_nat j2 + 1)) as Hzz by congruence.
    apply (f_equal b2z) in Hzz. rewrite !b2z_z2b in Hzz by lia.
    assert (j1 = j2) as -> by lia. congruence.
Qed.

Lemma edgesBelow_keys_lt es (i : nat) e :
  e ∈ edgesBelow es i -> (i <= 256)%nat -> b2z e.1 < Z.of_nat i.
Proof.
  unfold edgesBelow. intros He Hi. apply list_elem_of_omap in He.
  destruct He as (b & Hb & He). unfold edgeAt in He.
  destruct (lookupEdge b es); [|done]. injection He as <-. simpl.
  apply list_elem_of_lookup_1 in Hb as [j Hj].
  pose proof (lookup_lt_Some _ _ _ Hj) as Hlt. rewrite length_take in Hlt.
  rewrite lookup_take_lt in Hj by lia. rewrite allBytes_lookup in Hj by lia.
  injection Hj as <-. rewrite b2z_z2b by lia. lia.
Qed.

(** *** Shrinking a Node256 that holds at most forty-eight entries *)

Lemma shrink_N256 m cs es :
  layout256 m cs es -> sortedEdges es -> (length es <= 48)%nat ->
  exists m' ks' cs',
    shrink leafWords (N256 m cs) = Some (N48 m' ks' cs')
    /\ layout48 m' ks' cs' es
    /\ prefixLen m' = prefixLen m /\ storedPrefix m' = storedPrefix m.
Proof.
  intros (Hpfx & Hsz & Hlc & Hslot) Hs Hle.
  destruct (copyMeta_zero m Hpfx) as (m' & Hm' & Hkept).
  unfold shrink. rewrite Hm'. cbn [mbind option_bind].
  assert (Z.to_nat (len cs) = 256%nat) as -> by (unfold len; lia).
  destruct (for_up_spec
    (fun i (s : Z * list byte * list (option (artNode V))) =>
       let eb := edgesBelow es (Z.to_nat i) in
       s.1.1 = Z.of_nat (length eb)
       /\ length s.1.2 = 256%nat
       /\ s.2 = None :: (Some <$> eb.*2) ++ replicate (48 - length eb) None
       /\ (forall (j : nat) e, eb !! j = Some e ->
             get s.1.2 (b2z e.1) = Some (z2b (Z.of_nat j + 1)))
       /\ (forall b, b ∉ eb.*1 -> get s.1.2 (b2z b) = Some Byte.x00))
    256%nat 0
    (fun i (s : Z * list byte * list (option (artNode V))) =>
       c ← get cs (b2z (z2b i));
       match c with
       | None => Some s
       | Some _ =>
           cs' ← set s.2 (s.1.1 + 1) c;
           ks' ← set s.1.2 (b2z (z2b i)) (z2b (s.1.1 + 1));
           Some (s.1.1 + 1, ks', cs')
       end)
    (0, replicate 256 Byte.x00, replicate 49 None)) as (r & Hrun & Hr).
  - cbn [fst snd]. split; [done|]. split; [by rewrite length_replicate|].
    split; [done|]. split; [done|]. intros b _. pose proof (b2z_range b).
    apply get_Some. split; [lia|]. apply lookup_replicate_2. lia.
  - intros i [[n a] d] Hi (Hn & Hla & Hd & Hin & Hout). cbn [fst snd] in *.
    pose proof (Hslot (z2b i)) as H.
    rewrite H. cbn [mbind option_bind].
    replace (Z.to_nat (i + 1)) with (Datatypes.S (Z.to_nat i)) by lia.
    rewrite edgesBelow_S by lia. rewrite Z2Nat.id by lia.
    pose proof (edgesBelow_length es (Datatypes.S (Z.to_nat i)) Hs) as Hbl.
    rewrite edgesBelow_S in Hbl by lia. rewrite Z2Nat.id in Hbl by lia.
    assert (forall e, e ∈ edgesBelow es (Z.to_nat i) -> e.1 ≠ z2b i) as Hlow.
    { intros e He Heq. apply edgesBelow_keys_lt in He; [|lia].
      rewrite Heq, b2z_z2b in He by lia. lia. }
    set (eb := edgesBelow es (Z.to_nat i)) in *.
    destruct (lookupEdge (z2b i) es) as [c|] eqn:Hl.
    + rewrite length_app in Hbl. simpl in Hbl. rewrite b2z_z2b by lia.
      rewrite !set_Some
        by (unfold len; rewrite ?Hd, ?length_cons, ?length_app, ?length_fmap,
              ?length_replicate; lia).
      cbn [mbind option_bind]. eexists. split; [done|]. cbn [fst snd].
      rewrite length_app. simpl.
      split; [lia|]. split; [by rewrite length_insert|]. split; [|split].
      * rewrite Hd, Hn. rewrite !fmap_app. simpl.
        replace (Z.to_nat (Z.of_nat (length eb) + 1))
          with (Datatypes.S (length eb)) by lia.
        simpl. f_equal. apply list_eq. intros x.
        lookup_norm. simpl. lookup_norm. lookup_cases.
      * intros j e He. pose proof (b2z_range e.1).
        replace (Z.to_nat i) with (Z.to_nat (b2z (z2b i)))
          by (rewrite b2z_z2b; lia).
        rewrite get_insert_byte by done.
        rewrite lookup_app_dec in He. case_decide as Hj.
        -- rewrite decide_False; [by apply Hin|].
           apply Hlow. by eapply list_elem_of_lookup_2.
        -- destruct (j - length eb)%nat as [|?] eqn:Hjj; [|done].
           simpl in He. injection He as <-. simpl.
           rewrite decide_True by done. do 2 f_equal. lia.
      * intros b Hb. rewrite fmap_app in Hb.
        apply not_elem_of_app in Hb as [Hb1 Hb2].
        replace (Z.to_nat i) with (Z.to_nat (b2z (z2b i)))
          by (rewrite b2z_z2b; lia).
        rewrite get_insert_byte by done. rewrite decide_False; [by apply Hout|].
        intros ->. apply Hb2. simpl. by apply list_elem_of_singleton.
    + rewrite app_nil_r. eexists. split; [done|]. done.
  - rewrite Hrun. cbn [mbind option_bind].
    replace (Z.to_nat (0 + Z.of_nat 256)) with 256%nat in Hr by lia.
    rewrite (edgesBelow_all es Hs) in Hr. cbn zeta in Hr.
    destruct r as [[n a] d]. cbn [fst snd] in *.
    destruct Hr as (Hn & Hla & Hd & Hin & Hout).
    destruct Hkept as (Hs' & Hp' & Hst & Hlen').
    do 3 eexists. split; [done|]. split; [|done].
    apply layout48_packed; try done.
Qed.

(** *** Walking the children in order *)

Lemma eachChildren_from m cs es (n i : nat) :
  layout256 m cs es -> (i + n = 256)%nat ->
  eachChildren eachHelper (drop i cs)
  = eachEdges (omap (edgeAt es) (drop i allBytes)).
Proof.
  intros Hl. revert i. induction n as [|n IH]; intros i Hi.
  - destruct Hl as (_ & _ & Hlc & _).
    rewrite !drop_ge by (rewrite ?allBytes_length; lia). done.
  - pose proof (layout256_lookup _ _ _ (z2b (Z.of_nat i)) Hl) as Hc.
    rewrite b2z_z2b, Nat2Z.id in Hc by lia.
    rewrite (drop_S _ _ _ Hc), allBytes_drop by lia.
    rewrite eachChildren_cons, omap_cons_eq, IH by lia.
    destruct (lookupEdge (z2b (Z.of_nat i)) es) as [c|] eqn:Hlu.
    + assert (edgeAt es (z2b (Z.of_nat i)) = Some (z2b (Z.of_nat i), c)) as ->
        by (unfold edgeAt; by rewrite Hlu).
      by rewrite eachEdges_cons.
    + assert (edgeAt es (z2b (Z.of_nat i)) = None) as ->
        by (unfold edgeAt; by rewrite Hlu).
      cbn [mbind option_bind].
      by destruct (eachEdges (omap (edgeAt es) (drop (Datatypes.S i) allBytes))).
Qed.

Lemma eachChildren_layout256 m cs es :
  layout256 m cs es -> sortedEdges es ->
  eachChildren eachHelper cs = eachEdges es.
Proof.
  intros Hl Hs. pose proof (eachChildren_from m cs es 256 0 Hl eq_refl) as H.
  rewrite !drop_0 in H. by rewrite H, omap_edgeAt.
Qed.

Lemma minimum_N256 m cs b c es :
  layout256 m cs ((b, c) :: es) -> sortedEdges ((b, c) :: es) ->
  minimum (N256 m cs) = minimum c.
Proof.
  intros Hl Hs. pose proof (layout256_lookup _ _ _ b Hl) as Hb.
  cbn [lookupEdge fst snd] in Hb. rewrite decide_True in Hb by done.
  pose proof (b2z_range b) as Hbr. cbn [minimum].
  rewrite (scan_up_first _ cs 0 (Z.to_nat (b2z b)) (Some c)).
  - cbn [mbind option_bind]. rewrite Z.add_0_l, Z2Nat.id by lia.
    apply at_childZ_lookup. apply get_Some. split; [lia|done].
  - done.
  - by apply bool_decide_eq_true.
  - intros j y Hj Hy. apply bool_decide_eq_false. intros [c1 ->].
    pose proof (lookup_lt_Some _ _ _ Hy) as Hj256.
    assert (length cs = 256%nat) as Hlc by apply Hl. rewrite Hlc in Hj256.
    pose proof (layout256_lookup _ _ _ (z2b (Z.of_nat j)) Hl) as Hy'.
    rewrite b2z_z2b, Nat2Z.id in Hy' by lia. rewrite Hy in Hy'.
    injection Hy' as Hy'. symmetry in Hy'.
    apply sortedEdges_cons in Hs as [_ Hall]. simpl in Hy'.
    destruct (decide (b = z2b (Z.of_nat j))) as [Heq|Hnb].
    { rewrite Heq, b2z_z2b in Hj; lia. }
    apply lookupEdge_Some_elem in Hy'. rewrite Forall_forall in Hall.
    apply Hall in Hy'. simpl in Hy'. unfold byte_lt in Hy'.
    rewrite b2z_z2b in Hy' by lia. lia.
Qed.
End Node256.

(** * Collapsing a Node4 into its last child *)

(** The bytes [shrink] leaves in the child when both the key byte and a
    part of the child's prefix fit behind the prefix of the Node4. *)
Lemma merged_both (pm pc : list byte) (edge : byte) (lp lc : nat) :
  length pm = 10%nat -> length pc = 10%nat -> (lp + 1 < 10)%nat ->
  take (10 `min` (lp + 1 + lc))
    (take (S lp) (<[lp:=edge]> pm) ++
     take (lc `min` (9 - lp)) pc ++
     drop (lc `min` (9 - lp)) (drop (S lp) (<[lp:=edge]> pm))) ++
  drop (10 `min` (lp + 1 + lc)) pc =
  take 10 (take lp pm ++ edge :: take lc pc) ++
  drop (length (take 10 (take lp pm ++ edge :: take lc pc))) pc.
Proof.
  intros Hpm Hpc Hlp.
  assert (take (S lp) (<[lp:=edge]> pm) = take lp pm ++ [edge]) as ->.
  { apply list_eq. intros i. lookup_norm. lookup_cases. }
  assert (length (take lp pm ++ [edge]) = S lp) as HlA.
  { rewrite length_app, length_take. simpl. lia. }
  assert (length (take (lc `min` (9 - lp)) pc) = (lc `min` (9 - lp))%nat)
    as HlB.
  { rewrite length_take. lia. }
  rewrite (assoc_L (++)).
  rewrite (take_app_le (_ ++ _)) by (rewrite length_app, HlA, HlB; lia).
  rewrite (take_ge (_ ++ _)) by (rewrite length_app, HlA, HlB; lia).
  replace (take lp pm ++ edge :: take lc pc)
    with ((take lp pm ++ [edge]) ++ take lc pc)
    by (by rewrite <- (assoc_L (++))).
  rewrite take_app_ge by (rewrite HlA; lia).
  rewrite HlA, take_take.
  replace ((10 - S lp) `min` lc)%nat with (lc `min` (9 - lp))%nat by lia.
  rewrite length_app, HlA, HlB.
  f_equal. f_equal. lia.
Qed.

Section C9.
Context {V : Type} (leafWords : Key -> V -> Z * list byte).

Definition mergedPrefix (m child : node) (edge : byte) : list byte :=
  let cat := take (Z.to_nat (prefixLen m)) (prefix m) ++ [edge]
             ++ take (Z.to_nat (prefixLen child)) (prefix child) in
  take 10 cat ++ drop (length (take 10 cat)) (prefix child).

Lemma shrink_Node4_inner m ks cs edge (child : artNode V) :
  length (prefix m) = 10%nat -> 0 <= prefixLen m ->
  ks !! 0%nat = Some edge -> cs !! 0%nat = Some (Some child) ->
  isLeaf child = false ->
  length (prefix (nodeOf leafWords child)) = 10%nat ->
  0 <= prefixLen (nodeOf leafWords child) ->
  shrink leafWords (N4 m ks cs)
  = Some (setNode child
            (mkNode (size (nodeOf leafWords child))
               (prefixLen (nodeOf leafWords child) + prefixLen m + 1)
               (mergedPrefix m (nodeOf leafWords child) edge))).
Proof.
  intros Hpm HLp Hk Hc Hleaf Hpc HLc.
  unfold shrink. change 0 with (Z.of_nat 0). rewrite !get_nat, Hk, Hc. simpl.
  rewrite Hleaf. simpl.
  set (ch := nodeOf leafWords child) in *.
  unfold mergedPrefix, maxPrefixLen.
  destruct m as [sz Lp pm]. destruct ch as [szc Lc pc]. simpl in *.
  rewrite <- (Z2Nat.id Lp) by done. rewrite <- (Z2Nat.id Lc) by done.
  generalize (Z.to_nat Lp) (Z.to_nat Lc). clear HLp HLc Lp Lc. intros lp lc.
  rewrite !Nat2Z.id.
  destruct (Z.ltb_spec (Z.of_nat lp) 10) as [Hlt|Hge].
  - rewrite set_Some by (unfold len; lia). simpl. rewrite Nat2Z.id.
    destruct (Z.ltb_spec (Z.of_nat lp + 1) 10) as [Hlt1|Hge1].
    + rewrite slice_from_Some by (unfold len; rewrite length_insert; lia).
      simpl. do 2 f_equal. f_equal.
      replace (Z.to_nat (Z.of_nat lp + 1)) with (Datatypes.S lp) by lia.
      rewrite min_Zmin.
      rewrite (memcpy_take _ pc _ (Nat.min lc (9 - lp))).
      2:{ unfold len. rewrite length_drop, length_insert. lia. }
      rewrite min_Zmin.
      rewrite (memcpy_take pc _ _ (Nat.min 10 (lp + 1 + lc))).
      2:{ unfold len. rewrite !length_app, !length_take, length_drop,
            length_drop, length_insert. lia. }
      apply merged_both; [done|done|lia].
    + simpl. do 2 f_equal. f_equal. rewrite min_Zmin. 
      rewrite (memcpy_take pc _ _ 10).
      2:{ unfold len. rewrite length_insert. lia. }
      lookup_solve.
  - simpl. destruct (Z.ltb_spec (Z.of_nat lp) 10); [lia|]. simpl.
    do 2 f_equal. f_equal. rewrite min_Zmin.
    rewrite (memcpy_take pc _ _ 10) by (unfold len; lia).
    lookup_solve.
Qed.

Lemma shrink_Node4_leaf m ks cs (child : artNode V) :
  cs !! 0%nat = Some (Some child) -> isLeaf child = true ->
  shrink leafWords (N4 m ks cs) = Some child.
Proof.
  intros Hc Hleaf. unfold shrink. change 0 with (Z.of_nat 0).
  rewrite !get_nat, Hc. simpl. by rewrite Hleaf.
Qed.

(** C9: the Node4 case of [shrink].  With [Lp] the prefix length of the
    Node4 and [edge] the key byte of its first (only remaining) child: a
    leaf child replaces the Node4 as it is; an inner child replaces it with
    [prefixLen] raised by [Lp + 1] and with an inline prefix that starts
    with the first ten bytes of (stored prefix of the Node4) ++ [edge] ++
    (stored prefix of the child). *)
Theorem shrink_Node4_collapse m ks cs edge (child : artNode V) :
  length (prefix m) = 10%nat -> 0 <= prefixLen m ->
  ks !! 0%nat = Some edge -> cs !! 0%nat = Some (Some child) ->
  (isLeaf child = true -> shrink leafWords (N4 m ks cs) = Some child)
  /\ (isLeaf child = false ->
      length (prefix (nodeOf leafWords child)) = 10%nat ->
      0 <= prefixLen (nodeOf leafWords child) ->
      shrink leafWords (N4 m ks cs)
      = Some (setNode child
                (mkNode (size (nodeOf leafWords child))
                   (prefixLen (nodeOf leafWords child) + prefixLen m + 1)
                   (mergedPrefix m (nodeOf leafWords child) edge)))).
Proof.
  intros Hpm HLp Hk Hc. split.
  - intros Hleaf. by apply shrink_Node4_leaf.
  - intros. by apply shrink_Node4_inner.
Qed.
End C9.

(** * The four variants behind one directory

    The node operations, stated once for every variant over [dir]. *)

Section Directory.
Context {V : Type} (leafWords : Key -> V -> Z * list byte).
Implicit Types (es : list (byte * artNode V)) (b : byte) (c n : artNode V).
Implicit Types (ks : list byte) (cs : list (option (artNode V))) (m : node).

Lemma dir_inner n es : dir n es -> isLeaf n = false.
Proof. by destruct n; intros [? ?]. Qed.

Lemma dir_sorted n es : dir n es -> sortedEdges es.
Proof. by intros [? _]. Qed.

Lemma dir_prefix_length n es :
  dir n es -> length (prefix (nodeOf leafWords n)) = 10%nat.
Proof. destruct n; intros [_ H]; try done; apply H. Qed.

Lemma dir_size n es : dir n es -> size (nodeOf leafWords n) = len es.
Proof. destruct n; intros [_ H]; try done; apply H. Qed.

Lemma dir_length_le n es : dir n es -> len es <= maxSize n.
Proof.
  intros [Hs H]. destruct n; try done; cbn [maxSize].
  - destruct H as (_ & _ & H & _). unfold len, node4Max. lia.
  - destruct H as (_ & _ & H & _). unfold len, node16Max. lia.
  - destruct H as (_ & _ & _ & Hlc & Hc0 & Hcnt & _).
    destruct children as [|o rest]; [done|]. simpl in Hc0. injection Hc0 as ->.
    rewrite countSome_cons in Hcnt. pose proof (countSome_le rest).
    unfold len, node48Max. simpl in *. lia.
  - pose proof (sortedEdges_length_le es Hs). unfold len, node256Max. lia.
Qed.

Lemma dir_childUnder n es b :
  dir n es -> childUnder n b = Some (lookupEdge b es).
Proof.
  intros [Hs H]. destruct n as [|m ks cs|m ks cs|m ks cs|m cs]; [done|..].
  - by apply (childUnder_small 4 m ks cs); [left|].
  - by apply (childUnder_small 16 m ks cs); [right|].
  - by apply childUnder_N48.
  - by apply childUnder_N256.
Qed.

Lemma dir_findChild_None n es b :
  dir n es -> lookupEdge b es = None ->
  exists r, findChild n b = Some r /\ load n r = None.
Proof.
  intros Hd Hb. pose proof (dir_childUnder n es b Hd) as H.
  unfold childUnder in H. destruct (findChild n b) as [r|]; [|done].
  simpl in H. exists r. split; [done|]. congruence.
Qed.

Lemma dir_findChild_Some n es b c :
  dir n es -> lookupEdge b es = Some c ->
  exists i : nat,
    findChild n b = Some (Slot (Z.of_nat i))
    /\ childrenOf n !! i = Some (Some c)
    /\ forall c', dir (setChildren n (<[i := Some c']> (childrenOf n)))
                      (replaceEdge b c' es).
Proof.
  intros [Hs H] Hb.
  destruct n as [|m ks cs|m ks cs|m ks cs|m cs]; [done|..];
    cbn [childrenOf setChildren].
  - destruct (findChild_small 4 m ks cs es b c (N4 m ks cs)) as (i & Hf & He & Hc);
      [by left|done|done|].
    exists i. split; [done|]. split; [done|]. intros c'.
    split; [by apply sortedEdges_replaceEdge|].
    by apply (layout_replace 4 m ks cs es i b c c').
  - destruct (findChild_small 16 m ks cs es b c (N16 m ks cs))
      as (i & Hf & He & Hc); [by right|done|done|].
    exists i. split; [done|]. split; [done|]. intros c'.
    split; [by apply sortedEdges_replaceEdge|].
    by apply (layout_replace 16 m ks cs es i b c c').
  - destruct (findChild_N48 m ks cs es b c H Hb) as (i & Hf & Hc & Hr).
    exists i. split; [done|]. split; [done|]. intros c'.
    split; [by apply sortedEdges_replaceEdge|]. apply Hr.
  - destruct (findChild_N256 m cs es b c H Hb) as (i & Hf & Hc & Hr).
    exists i. split; [done|]. split; [done|]. intros c'.
    split; [by apply sortedEdges_replaceEdge|]. apply Hr.
Qed.

Lemma insertEdge_at_fresh es b c (p : nat) :
  lookupEdge b es = None -> (p <= length es)%nat ->
  (forall j e, (j < p)%nat -> es !! j = Some e -> byte_lt e.1 b) ->
  (forall j e, (p <= j)%nat -> es !! j = Some e -> b2z b <= b2z e.1) ->
  take p es ++ (b, c) :: drop p es = insertEdge b c es.
Proof.
  intros Hf Hp Hbefore Hafter. symmetry. apply insertEdge_at; [done| |].
  - intros j e Hj He. apply Hbefore in He; [|done].
    unfold byte_lt in He. unfold byte_ltb. apply Z.ltb_ge. lia.
  - intros Hp'. destruct (es !! p) as [e|] eqn:He.
    2:{ apply lookup_ge_None in He. lia. }
    exists e. split; [done|]. apply byte_ltb_lt.
    pose proof (Hafter p e (le_n _) He) as Hle.
    apply lookupEdge_None in Hf.
    assert (e.1 ≠ b) as Hne.
    { intros <-. apply Hf. apply list_elem_of_fmap. exists e. split; [done|].
      by eapply list_elem_of_lookup_2. }
    assert (b2z b ≠ b2z e.1) by (intros ?%b2z_inj; done). lia.
Qed.

(** [addChild] of a byte that is not in the directory. *)
Lemma dir_addChild n es b c :
  dir n es -> lookupEdge b es = None ->
  exists n',
    addChild leafWords n b c = Some n'
    /\ dir n' (insertEdge b c es)
    /\ prefixLen (nodeOf leafWords n') = prefixLen (nodeOf leafWords n)
    /\ storedPrefix (nodeOf leafWords n') = storedPrefix (nodeOf leafWords n)
    /\ minSize n' <= Z.max (minSize n) (len es + 1).
Proof.
  intros [Hs H] Hb.
  pose proof (sortedEdges_insertEdge b c es Hs Hb) as Hs'.
  destruct n as [|m ks cs|m ks cs|m ks cs|m cs]; [done|..]; cbn [nodeOf minSize].
  - pose proof H as (_ & _ & Hle & _).
    destruct (decide (length es = 4%nat)) as [Hfull|Hnf].
    + destruct (addChild_N4_full leafWords m ks cs es b c H Hs Hfull)
        as (p & m' & ks' & cs' & Hrun & Hl & HL & Hst & Hp & Hbef & Haft).
      rewrite (insertEdge_at_fresh es b c p) in Hl by done.
      eexists. split; [done|]. split; [done|]. cbn [nodeOf minSize].
      split; [done|]. split; [done|]. unfold len, node16Min. lia.
    + destruct (addChild_N4 leafWords m ks cs es b c H) as (ks' & cs' & Hrun & Hl);
        [lia|].
      eexists. split; [done|]. split; [done|]. cbn [nodeOf minSize].
      split; [done|]. split; [done|]. lia.
  - pose proof H as (_ & _ & Hle & _).
    destruct (decide (length es = 16%nat)) as [Hfull|Hnf].
    + destruct (addChild_N16_full leafWords 2 m ks cs es b c H Hs Hfull Hb)
        as (m' & ks' & cs' & Hrun & Hl & HL & Hst).
      eexists. split; [done|]. split; [done|]. cbn [nodeOf minSize].
      split; [done|]. split; [done|]. unfold len, node48Min. lia.
    + destruct (addChild_N16_fresh leafWords 3 m ks cs es b c H Hs)
        as (ks' & cs' & Hrun & Hl); [lia|done|].
      eexists. split; [done|]. split; [done|]. cbn [nodeOf minSize].
      split; [done|]. split; [done|]. lia.
  - pose proof (dir_length_le (N48 m ks cs) es (conj Hs H)) as Hle.
    cbn [maxSize] in Hle. unfold node48Max, len in Hle.
    destruct (decide (length es = 48%nat)) as [Hfull|Hnf].
    + destruct (addChild_N48_full leafWords 2 m ks cs es b c H Hfull Hb)
        as (m' & cs' & Hrun & Hl & HL & Hst).
      eexists. split; [done|]. split; [done|]. cbn [nodeOf minSize].
      split; [done|]. split; [done|]. unfold len, node256Min. lia.
    + destruct (addChild_N48 leafWords 3 m ks cs es b c H)
        as (ks' & cs' & Hrun & Hl); [lia|done|].
      eexists. split; [done|]. split; [done|]. cbn [nodeOf minSize].
      split; [done|]. split; [done|]. lia.
  - pose proof (sortedEdges_length_le es Hs) as Hle.
    assert (length es ≠ 256%nat) as Hnf.
    { intros Hfull. destruct (sortedEdges_full es b Hs Hfull) as [? ?].
      congruence. }
    destruct (addChild_N256 leafWords 3 m cs es b c H)
      as (cs' & Hrun & Hl); [lia|done|].
    eexists. split; [done|]. split; [done|]. cbn [nodeOf minSize].
    split; [done|]. split; [done|]. lia.
Qed.

(** [RemoveChild] of a byte that is in the directory, when the node is a
    Node4 with two entries: what is left is [shrink] of a Node4 that holds
    the other entry in its first slot. *)
Lemma dir_RemoveChild_last m ks cs es b c :
  dir (N4 m ks cs) es -> lookupEdge b es = Some c -> length es = 2%nat ->
  exists ks' cs' b' c',
    removeEdge b es = [(b', c')]
    /\ ks' !! 0%nat = Some b' /\ cs' !! 0%nat = Some (Some c')
    /\ RemoveChild leafWords (N4 m ks cs) b
       = shrink leafWords (N4 (decSize m) ks' cs').
Proof.
  intros [Hs H] Hb Hlen.
  destruct (RemoveChild_N4 leafWords m ks cs es b c H Hs Hb)
    as (ks' & cs' & Hl & Hrun).
  pose proof (length_removeEdge b c es Hs Hb) as Hlr.
  destruct (removeEdge b es) as [|[b' c'] [|]] eqn:Hre; simpl in Hlr; try lia.
  exists ks', cs', b', c'. split; [done|].
  destruct Hl as (_ & _ & _ & -> & ->). split; [done|]. split; [done|].
  rewrite Hrun. destruct H as (_ & Hsz & _). unfold len in Hsz.
  destruct (Z.ltb_spec (size m - 1) node4Min) as [|Hge]; [done|].
  unfold node4Min in Hge. lia.
Qed.

(** [RemoveChild] of a byte that is in the directory, otherwise. *)
Lemma dir_RemoveChild n es b c :
  dir n es -> lookupEdge b es = Some c -> minSize n <= len es ->
  (nodeType n = Node4 -> length es ≠ 2%nat) ->
  exists n',
    RemoveChild leafWords n b = Some n'
    /\ dir n' (removeEdge b es)
    /\ prefixLen (nodeOf leafWords n') = prefixLen (nodeOf leafWords n)
    /\ storedPrefix (nodeOf leafWords n') = storedPrefix (nodeOf leafWords n)
    /\ minSize n' <= len (removeEdge b es).
Proof.
  intros [Hs H] Hb Hmin Hn4.
  pose proof (sortedEdges_removeEdge b es Hs) as Hs'.
  pose proof (length_removeEdge b c es Hs Hb) as Hlr.
  destruct n as [|m ks cs|m ks cs|m ks cs|m cs]; [done|..];
    cbn [nodeOf minSize] in *.
  - destruct (RemoveChild_N4 leafWords m ks cs es b c H Hs Hb)
      as (ks' & cs' & Hl & Hrun).
    specialize (Hn4 eq_refl). destruct H as (_ & Hsz & _).
    unfold len, node4Min in *.
    destruct (Z.ltb_spec (size m - 1) 2) as [|Hge]; [lia|].
    eexists. split; [done|]. split; [done|]. cbn [nodeOf minSize].
    split; [done|]. split; [done|]. unfold node4Min. lia.
  - destruct (RemoveChild_N16 leafWords m ks cs es b c H Hs Hb)
      as (ks' & cs' & Hl & Hrun).
    destruct H as (_ & Hsz & _). unfold len, node16Min in *.
    destruct (Z.ltb_spec (size m - 1) 5) as [Hlt|Hge].
    + destruct (shrink_N16 leafWords (decSize m) ks' cs' _ Hl)
        as (m' & ks2 & cs2 & Hsh & Hl2 & HL & Hst); [lia|].
      rewrite Hsh in Hrun.
      eexists. split; [done|]. split; [done|]. cbn [nodeOf minSize].
      split; [done|]. split; [done|]. unfold node4Min. lia.
    + eexists. split; [done|]. split; [done|]. cbn [nodeOf minSize].
      split; [done|]. split; [done|]. unfold node16Min. lia.
  - destruct (RemoveChild_N48 leafWords m ks cs es b c H Hs Hb)
      as (ks' & cs' & Hl & Hrun).
    destruct H as (_ & Hsz & _). unfold len, node48Min in *.
    destruct (Z.ltb_spec (size m - 1) 17) as [Hlt|Hge].
    + destruct (shrink_N48 leafWords (decSize m) ks' cs' _ Hl Hs')
        as (m' & ks2 & cs2 & Hsh & Hl2 & HL & Hst); [lia|].
      rewrite Hsh in Hrun.
      eexists. split; [done|]. split; [done|]. cbn [nodeOf minSize].
      split; [done|]. split; [done|]. unfold node16Min. lia.
    + eexists. split; [done|]. split; [done|]. cbn [nodeOf minSize].
      split; [done|]. split; [done|]. unfold node48Min. lia.
  - destruct (RemoveChild_N256 leafWords m cs es b c H Hs Hb)
      as (cs' & Hl & Hrun).
    destruct H as (_ & Hsz & _). unfold len, node256Min in *.
    destruct (Z.ltb_spec (size m - 1) 49) as [Hlt|Hge].
    + destruct (shrink_N256 leafWords (decSize m) cs' _ Hl Hs')
        as (m' & ks2 & cs2 & Hsh & Hl2 & HL & Hst); [lia|].
      rewrite Hsh in Hrun.
      eexists. split; [done|]. split; [done|]. cbn [nodeOf minSize].
      split; [done|]. split; [done|]. unfold node48Min. lia.
    + eexists. split; [done|]. split; [done|]. cbn [nodeOf minSize].
      split; [done|]. split; [done|]. unfold node256Min. lia.
Qed.

(** The callback sequence of an inner node: the node, then its children
    in ascending byte order. *)
Lemma dir_eachHelper n es :
  dir n es -> eachHelper n = rest ← eachEdges es; Some (n :: rest).
Proof.
  intros [Hs H].
  destruct n as [|m ks cs|m ks cs|m ks cs|m cs]; [done|..]; cbn [eachHelper].
  - by rewrite (eachChildren_layout 4 m ks cs es).
  - by rewrite (eachChildren_layout 16 m ks cs es).
  - by rewrite (eachKeys48_layout m ks cs es).
  - by rewrite (eachChildren_layout256 m cs es).
Qed.

(** The minimum of an inner node is the minimum of its first child. *)
Lemma dir_minimum n b c es :
  dir n ((b, c) :: es) -> minimum n = minimum c.
Proof.
  intros [Hs H].
  destruct n as [|m ks cs|m ks cs|m ks cs|m cs]; [done|..].
  - cbn [minimum]. by apply (minimum_layout 4 m ks cs b c es).
  - cbn [minimum]. by apply (minimum_layout 16 m ks cs b c es).
  - by apply (minimum_N48 m ks cs b c es).
  - by apply (minimum_N256 m cs b c es).
Qed.

(** The fresh Node4 of a split. *)
Lemma dir_splitNode4 (L : Z) (pfx : list byte) :
  length pfx = 10%nat -> dir (@splitNode4 V L pfx) [].
Proof.
  intros Hp. split; [apply sortedEdges_nil|]. unfold splitNode4.
  split; [done|]. split; [done|]. split; [simpl; lia|]. done.
Qed.

(** Rewriting the prefix of an inner node. *)
Lemma dir_setNode n es m' :
  dir n es -> size m' = size (nodeOf leafWords n) ->
  length (prefix m') = 10%nat ->
  dir (setNode n m') es.
Proof.
  intros [Hs H] Hsz Hp. split; [done|].
  destruct n as [|m ks cs|m ks cs|m ks cs|m cs]; [done|..];
    cbn [setNode nodeOf] in *.
  - destruct H as (_ & ? & ?). split; [done|]. split; [congruence|done].
  - destruct H as (_ & ? & ?). split; [done|]. split; [congruence|done].
  - destruct H as (_ & ? & ?). split; [done|]. split; [congruence|done].
  - destruct H as (_ & ? & ?). split; [done|]. split; [congruence|done].
Qed.

Lemma nodeOf_setNode n m' :
  isLeaf n = false -> nodeOf leafWords (setNode n m') = m'.
Proof. by destruct n. Qed.

Lemma childrenOf_setNode n m' : childrenOf (setNode n m') = childrenOf n.
Proof. by destruct n. Qed.

Lemma minSize_setNode n m' : minSize (setNode n m') = minSize n.
Proof. by destruct n. Qed.

Lemma nodeOf_setChildren n cs :
  nodeOf leafWords (setChildren n cs) = nodeOf leafWords n.
Proof. by destruct n. Qed.

Lemma minSize_setChildren n cs : minSize (setChildren n cs) = minSize n.
Proof. by destruct n. Qed.
End Directory.

(** * Growing, and adding to a node at capacity *)

(** The variant a node grows into. *)
Definition grownType (t : NodeType) : NodeType :=
  match t with
  | Node4 => Node16
  | Node16 => Node48
  | Node48 => Node256
  | t => t
  end.

Section Grow.
Context {V : Type} (leafWords : Key -> V -> Z * list byte).
Implicit Types (es : list (byte * artNode V)) (b : byte) (c n : artNode V).

Lemma dir_grow n es :
  dir n es -> nodeType n ≠ Node256 ->
  exists n',
    grow n = Some n'
    /\ nodeType n' = grownType (nodeType n)
    /\ dir n' es
    /\ metaKept (nodeOf leafWords n) (nodeOf leafWords n').
Proof.
  intros [Hs H] Hty.
  destruct n as [|m ks cs|m ks cs|m ks cs|m cs]; [done|..|done].
  - destruct (grow_N4 m ks cs es H) as (m' & ks' & cs' & Hg & Hl & Hk).
    by exists (N16 m' ks' cs').
  - destruct (grow_N16 m ks cs es H Hs) as (m' & ks' & cs' & Hg & Hl & Hk).
    by exists (N48 m' ks' cs').
  - destruct (grow_N48 m ks cs es H) as (m' & cs' & Hg & Hl & Hk).
    by exists (N256 m' cs').
Qed.

(** C8 (amended): on a well laid out Node4, Node16 or Node48 (key bytes
    strictly ascending, hence no byte listed twice), [grow] yields a node of
    the next variant with the same [size], [prefixLen] and stored prefix
    bytes, and every byte reaches the same child after growing as before. *)
Theorem grow_preserves_directory n es :
  dir n es -> nodeType n ≠ Node256 ->
  exists n',
    grow n = Some n'
    /\ nodeType n' = grownType (nodeType n)
    /\ metaKept (nodeOf leafWords n) (nodeOf leafWords n')
    /\ forall b, childUnder n' b = childUnder n b.
Proof.
  intros Hd Hty.
  destruct (dir_grow n es Hd Hty) as (n' & Hg & Ht & Hd' & Hk).
  exists n'. split; [done|]. split; [done|]. split; [done|].
  intros b. by rewrite (dir_childUnder n' es b Hd'), (dir_childUnder n es b Hd).
Qed.

Lemma dir_addChild_full n es b c :
  dir n es -> isFull leafWords n = true -> nodeType n ≠ Node256 ->
  lookupEdge b es = None ->
  exists n',
    addChild leafWords n b c = Some n'
    /\ nodeType n' = grownType (nodeType n)
    /\ dir n' (insertEdge b c es).
Proof.
  intros [Hs H] Hfull Hty Hb.
  pose proof (sortedEdges_insertEdge b c es Hs Hb) as Hs'.
  apply bool_decide_eq_true in Hfull.
  destruct n as [|m ks cs|m ks cs|m ks cs|m cs]; [done|..|done];
    cbn [nodeOf maxSize] in Hfull.
  - assert (length es = 4%nat) as Hlen.
    { destruct H as (_ & Hsz & _). unfold len, node4Max in *. lia. }
    destruct (addChild_N4_full leafWords m ks cs es b c H Hs Hlen)
      as (p & m' & ks' & cs' & Hrun & Hl & HL & Hst & Hp & Hbef & Haft).
    rewrite (insertEdge_at_fresh es b c p) in Hl by done.
    by exists (N16 m' ks' cs').
  - assert (length es = 16%nat) as Hlen.
    { destruct H as (_ & Hsz & _). unfold len, node16Max in *. lia. }
    destruct (addChild_N16_full leafWords 2 m ks cs es b c H Hs Hlen Hb)
      as (m' & ks' & cs' & Hrun & Hl & HL & Hst).
    by exists (N48 m' ks' cs').
  - assert (length es = 48%nat) as Hlen.
    { destruct H as (_ & Hsz & _). unfold len, node48Max in *. lia. }
    destruct (addChild_N48_full leafWords 2 m ks cs es b c H Hlen Hb)
      as (m' & cs' & Hrun & Hl & HL & Hst).
    by exists (N256 m' cs').
Qed.

(** C7 (amended): [addChild] on a node at capacity.  A well laid out full
    Node4, Node16 or Node48 whose directory does not list [b] grows into the
    next variant and the child is installed: afterwards [b] reaches the new
    child and every other byte reaches the child it reached before.  A full
    Node256 cannot grow: the call returns normally and leaves the node as
    it was. *)
Theorem addChild_at_capacity n b c :
  isFull leafWords n = true ->
  (forall es, dir n es -> nodeType n ≠ Node256 -> lookupEdge b es = None ->
     exists n',
       addChild leafWords n b c = Some n'
       /\ nodeType n' = grownType (nodeType n)
       /\ size (nodeOf leafWords n') = size (nodeOf leafWords n) + 1
       /\ forall b', childUnder n' b'
                     = Some (if decide (b' = b) then Some c
                             else lookupEdge b' es))
  /\ (nodeType n = Node256 -> addChild leafWords n b c = Some n).
Proof.
  intros Hfull. split.
  - intros es Hd Hty Hb.
    destruct (dir_addChild_full n es b c Hd Hfull Hty Hb)
      as (n' & Hrun & Ht & Hd').
    exists n'. split; [done|]. split; [done|]. split.
    + rewrite (dir_size leafWords n' _ Hd'), (dir_size leafWords n _ Hd).
      unfold len. rewrite length_insertEdge. lia.
    + intros b'. rewrite (dir_childUnder n' _ b' Hd').
      by rewrite lookupEdge_insertEdge.
  - intros Hty. destruct n as [| | | |m cs]; try done.
    apply bool_decide_eq_true in Hfull. unfold addChild.
    by apply addChild_N256_full.
Qed.
End Grow.

(** * The tree as a set of keys

    A key is stored along the path of bytes that leads to its leaf: the
    compressed prefixes of the inner nodes and the key bytes of the edges
    taken.  [keyChar] reads a zero byte past the end of a key, so the path
    of a leaf is a prefix of its key followed by one zero byte. *)

(** The key followed by the zero byte [keyChar] reads at its end. *)
Definition keyZ (k : Key) : list byte := k ++ [Byte.x00].

(** The byte [keyChar] sees at position [j]. *)
Definition kc (k : Key) (j : nat) : byte := default Byte.x00 (k !! j).

(** [bytes.Compare(k1, k2) < 0] *)
Fixpoint key_ltb (k1 k2 : Key) : bool :=
  match k1, k2 with
  | [], [] => false
  | [], _ :: _ => true
  | _ :: _, [] => false
  | a :: k1', b :: k2' =>
      if byte_ltb a b then true
      else if byte_ltb b a then false
      else key_ltb k1' k2'
  end.

Definition key_lt (k1 k2 : Key) : Prop := key_ltb k1 k2 = true.

(** [k] is a proper prefix of [k0]. *)
Definition properPrefix (k k0 : Key) : Prop :=
  exists r, r ≠ [] /\ k0 = k ++ r.

Section Sem.
Context {V : Type} (leafWords : Key -> V -> Z * list byte).
Implicit Types (es : list (byte * artNode V)) (b : byte) (c n : artNode V).
Implicit Types (p q pq : list byte) (k key : Key) (kvs : list (Key * V)).

(** [Sem p n kvs]: the subtree [n], reached along the path [p], is well
    formed and holds the pairs [kvs], listed in the order of the walk.
    An inner node has a well laid out directory within the bounds of its
    variant and a compressed path [q] of which [prefix] stores the first
    ten bytes. *)
Inductive Sem : list byte -> artNode V -> list (Key * V) -> Prop :=
| Sem_leaf p k v :
    p `prefix_of` keyZ k -> Sem p (Leaf k v) [(k, v)]
| Sem_inner p n es q kvs :
    dir n es -> minSize n <= len es ->
    prefixLen (nodeOf leafWords n) = len q ->
    storedPrefix (nodeOf leafWords n) = take 10 q ->
    SemEdges (p ++ q) es kvs ->
    Sem p n kvs
with SemEdges : list byte -> list (byte * artNode V) -> list (Key * V) -> Prop :=
| SemEdges_nil pq : SemEdges pq [] []
| SemEdges_cons pq b c es l1 l2 :
    Sem (pq ++ [b]) c l1 -> SemEdges pq es l2 ->
    SemEdges pq ((b, c) :: es) (l1 ++ l2).

Scheme Sem_mut := Minimality for Sem Sort Prop
  with SemEdges_mut := Minimality for SemEdges Sort Prop.
Combined Scheme Sem_SemEdges_ind from Sem_mut, SemEdges_mut.

(** Every pair held by the subtree at [p]. *)
Definition allUnder p kvs : Prop :=
  Forall (fun kv : Key * V => p `prefix_of` keyZ kv.1) kvs.

Lemma allUnder_app p l1 l2 :
  allUnder p (l1 ++ l2) <-> allUnder p l1 /\ allUnder p l2.
Proof. apply Forall_app. Qed.

Lemma allUnder_weaken p p' kvs :
  p `prefix_of` p' -> allUnder p' kvs -> allUnder p kvs.
Proof.
  intros Hp H. eapply Forall_impl; [apply H|]. intros kv H'. by etrans.
Qed.

Lemma Sem_SemEdges_under :
  (forall p n kvs, Sem p n kvs -> allUnder p kvs)
  /\ (forall pq es kvs, SemEdges pq es kvs ->
        Forall (fun kv : Key * V =>
                  exists b, b ∈ es.*1 /\ (pq ++ [b]) `prefix_of` keyZ kv.1) kvs).
Proof.
  apply Sem_SemEdges_ind.
  - intros p k v Hp. by apply Forall_singleton.
  - intros p n es q kvs _ _ _ _ _ IH. unfold allUnder.
    eapply Forall_impl; [apply IH|]. intros kv (b & _ & Hb). simpl in Hb.
    etrans; [|apply Hb]. rewrite <- !(assoc_L (++)). by apply prefix_app_r.
  - intros pq. constructor.
  - intros pq b c es l1 l2 _ IH1 _ IH2. apply Forall_app. split.
    + eapply Forall_impl; [apply IH1|]. intros kv H. exists b. split; [|done].
      simpl. by left.
    + eapply Forall_impl; [apply IH2|]. intros kv (b' & Hb' & H). exists b'.
      split; [|done]. simpl. by right.
Qed.

Lemma Sem_under p n kvs : Sem p n kvs -> allUnder p kvs.
Proof. apply Sem_SemEdges_under. Qed.

Lemma SemEdges_under pq es kvs :
  SemEdges pq es kvs ->
  Forall (fun kv : Key * V =>
            exists b, b ∈ es.*1 /\ (pq ++ [b]) `prefix_of` keyZ kv.1) kvs.
Proof. apply Sem_SemEdges_under. Qed.

(** A subtree holds at least one pair. *)
Lemma Sem_SemEdges_nonempty :
  (forall p n kvs, Sem p n kvs -> kvs ≠ [])
  /\ (forall pq es kvs, SemEdges pq es kvs -> es ≠ [] -> kvs ≠ []).
Proof.
  apply Sem_SemEdges_ind.
  - done.
  - intros p n es q kvs [_ Hd] Hmin _ _ _ IH. apply IH. intros ->.
    destruct n; [done|..]; cbn [minSize] in Hmin; unfold len in Hmin;
      simpl in Hmin;
      unfold node4Min, node16Min, node48Min, node256Min in Hmin; lia.
  - done.
  - intros pq b c es l1 l2 _ IH1 _ _ _ Happ.
    apply app_eq_nil in Happ as [? _]. done.
Qed.

Lemma Sem_nonempty p n kvs : Sem p n kvs -> kvs ≠ [].
Proof. apply Sem_SemEdges_nonempty. Qed.

Lemma Sem_inner_inv p n kvs :
  Sem p n kvs -> isLeaf n = false ->
  exists es q,
    dir n es /\ minSize n <= len es
    /\ prefixLen (nodeOf leafWords n) = len q
    /\ storedPrefix (nodeOf leafWords n) = take 10 q
    /\ SemEdges (p ++ q) es kvs.
Proof.
  intros H Hl. inversion H; subst; [done|]. by exists es, q.
Qed.

Lemma Sem_leaf_inv p k v kvs :
  Sem p (Leaf k v) kvs -> kvs = [(k, v)] /\ p `prefix_of` keyZ k.
Proof.
  intros H. inversion H; subst; [done|].
  match goal with H : dir _ _ |- _ => by destruct H end.
Qed.

(** The path to a subtree can be cut short. *)
Lemma Sem_leaf_weaken p p' k v :
  p `prefix_of` p' -> Sem p' (Leaf k v) [(k, v)] -> Sem p (Leaf k v) [(k, v)].
Proof.
  intros Hp H. apply Sem_leaf_inv in H as [_ H]. constructor. by etrans.
Qed.
End Sem.

(** ** Paths and keys *)

Lemma prefix_snoc_inj {A : Type} (p l : list A) (a b : A) :
  (p ++ [a]) `prefix_of` l -> (p ++ [b]) `prefix_of` l -> a = b.
Proof.
  intros [r1 H1] [r2 H2]. rewrite H1 in H2.
  rewrite <- !(assoc_L (++)) in H2. apply app_inv_head in H2.
  by injection H2.
Qed.

Lemma prefix_lookup_eq {A : Type} (p l : list A) (j : nat) :
  p `prefix_of` l -> (j < length p)%nat -> p !! j = l !! j.
Proof.
  intros [r ->] Hj. by rewrite lookup_app_l.
Qed.

Lemma prefix_take {A : Type} (p l : list A) :
  p `prefix_of` l -> p = take (length p) l.
Proof. intros [r ->]. by rewrite take_app_length. Qed.

Lemma prefix_of_take {A : Type} (l : list A) (n : nat) :
  take n l `prefix_of` l.
Proof. exists (drop n l). by rewrite take_drop. Qed.

Lemma keyZ_length k : length (keyZ k) = Datatypes.S (length k).
Proof. unfold keyZ. rewrite length_app. simpl. lia. Qed.

Lemma keyZ_lookup k (j : nat) :
  (j <= length k)%nat -> keyZ k !! j = Some (kc k j).
Proof.
  intros Hj. unfold keyZ, kc. destruct (decide (j < length k)%nat) as [Hlt|Hge].
  - rewrite lookup_app_l by done.
    destruct (lookup_lt_is_Some_2 k j Hlt) as [x Hx]. by rewrite Hx.
  - rewrite lookup_app_r by lia. replace (j - length k)%nat with 0%nat by lia.
    rewrite (lookup_ge_None_2 k j) by lia. done.
Qed.

Lemma kc_lookup k (j : nat) x : k !! j = Some x -> kc k j = x.
Proof. unfold kc. by intros ->. Qed.

Lemma kc_ge k (j : nat) : (length k <= j)%nat -> kc k j = Byte.x00.
Proof. intros Hj. unfold kc. by rewrite lookup_ge_None_2. Qed.

Lemma keyCharAt_kc k (i : Z) :
  0 <= i -> keyCharAt k i = Some (kc k (Z.to_nat i)).
Proof.
  intros Hi. unfold keyCharAt, kc.
  destruct (Z.ltb_spec i 0); [lia|]. simpl.
  destruct (Z.geb_spec i (len k)) as [Hge|Hlt].
  - rewrite lookup_ge_None_2 by (unfold len in Hge; lia). done.
  - unfold get. destruct (Z.ltb_spec i 0); [lia|].
    destruct (lookup_lt_is_Some_2 k (Z.to_nat i)) as [x Hx];
      [unfold len in Hlt; lia|].
    by rewrite Hx.
Qed.

Lemma prefix_keyZ_kc p b k :
  (p ++ [b]) `prefix_of` keyZ k -> kc k (length p) = b.
Proof.
  intros Hp. pose proof (prefix_length _ _ Hp) as Hl.
  rewrite length_app, keyZ_length in Hl. simpl in Hl.
  pose proof (prefix_lookup_eq _ _ (length p) Hp) as He.
  rewrite length_app, lookup_app_r, Nat.sub_diag in He by lia.
  simpl in He. rewrite keyZ_lookup in He by lia.
  specialize (He ltac:(lia)). congruence.
Qed.

Lemma prefix_keyZ_key p k :
  p `prefix_of` keyZ k -> (length p <= length k)%nat -> p `prefix_of` k.
Proof.
  intros Hp Hl. rewrite (prefix_take _ _ Hp). unfold keyZ.
  rewrite take_app_le by done. apply prefix_of_take.
Qed.

Lemma prefix_keyZ_nonzero p b k :
  (p ++ [b]) `prefix_of` keyZ k -> b ≠ Byte.x00 -> (p ++ [b]) `prefix_of` k.
Proof.
  intros Hp Hb. apply prefix_keyZ_key; [done|].
  pose proof (prefix_length _ _ Hp) as Hl.
  rewrite length_app, keyZ_length in Hl. rewrite length_app. simpl in *.
  destruct (decide (length p < length k)%nat) as [|Hge]; [lia|].
  exfalso. apply Hb. rewrite <- (prefix_keyZ_kc p b k Hp).
  apply kc_ge. lia.
Qed.

Lemma prefix_key_keyZ p k : p `prefix_of` k -> p `prefix_of` keyZ k.
Proof. intros H. by apply prefix_app_r. Qed.

Lemma properPrefix_snoc p b k :
  (p ++ [b]) `prefix_of` k -> properPrefix p k.
Proof.
  intros [r ->]. exists ([b] ++ r). split; [done|].
  by rewrite <- !(assoc_L (++)).
Qed.

Lemma properPrefix_trans_prefix k p k0 :
  properPrefix k p -> p `prefix_of` k0 -> properPrefix k k0.
Proof.
  intros (r & Hr & ->) [r' ->]. exists (r ++ r'). split.
  - intros [-> ->]%app_eq_nil. done.
  - by rewrite <- !(assoc_L (++)).
Qed.

(** ** The order of the walk *)

Lemma key_lt_branch (pq : list byte) b b' k1 k2 :
  (pq ++ [b]) `prefix_of` keyZ k1 -> (pq ++ [b']) `prefix_of` keyZ k2 ->
  byte_lt b b' -> key_lt k1 k2.
Proof.
  unfold key_lt. revert k1 k2.
  induction pq as [|a pq IH]; intros k1 k2 H1 H2 Hlt.
  - assert (b' ≠ Byte.x00) as Hb'.
    { intros ->. unfold byte_lt in Hlt. rewrite b2z_x00 in Hlt.
      pose proof (b2z_range b). lia. }
    apply prefix_keyZ_nonzero in H2; [|done]. destruct H2 as [r2 ->].
    destruct k1 as [|x k1]; [done|].
    destruct H1 as [r1 H1]. injection H1 as -> _. simpl.
    unfold byte_ltb. unfold byte_lt in Hlt.
    by destruct (Z.ltb_spec (b2z b) (b2z b')); [|lia].
  - destruct k1 as [|x k1].
    { apply prefix_length in H1. rewrite keyZ_length in H1.
      simpl in H1. rewrite length_app in H1. simpl in H1. lia. }
    destruct k2 as [|y k2].
    { apply prefix_length in H2. rewrite keyZ_length in H2.
      simpl in H2. rewrite length_app in H2. simpl in H2. lia. }
    unfold keyZ in *. simpl in H1, H2.
    pose proof (prefix_cons_inv_1 _ _ _ _ H1) as <-.
    pose proof (prefix_cons_inv_1 _ _ _ _ H2) as <-.
    apply prefix_cons_inv_2 in H1. apply prefix_cons_inv_2 in H2.
    simpl. unfold byte_ltb. rewrite Z.ltb_irrefl. by apply IH.
Qed.

Section SemFacts.
Context {V : Type} (leafWords : Key -> V -> Z * list byte).
Implicit Types (es : list (byte * artNode V)) (b : byte) (c n : artNode V).
Implicit Types (p q pq : list byte) (k key : Key) (kvs : list (Key * V)).

Lemma replaceEdge_notin b c es : b ∉ es.*1 -> replaceEdge b c es = es.
Proof.
  induction es as [|e es IH]; [done|]. intros Hb. rewrite fmap_cons in Hb.
  apply not_elem_of_cons in Hb as [Hne Hb]. unfold replaceEdge in *.
  rewrite fmap_cons, IH by done. by rewrite decide_False by done.
Qed.

Lemma removeEdge_notin b es : b ∉ es.*1 -> removeEdge b es = es.
Proof.
  induction es as [|e es IH]; [done|]. intros Hb. rewrite fmap_cons in Hb.
  apply not_elem_of_cons in Hb as [Hne Hb]. unfold removeEdge in *.
  rewrite filter_cons_True by done. by rewrite IH.
Qed.

Lemma sortedEdges_head_notin b c es :
  sortedEdges ((b, c) :: es) -> b ∉ es.*1.
Proof.
  intros [_ Hall]%sortedEdges_cons Hin.
  apply list_elem_of_fmap in Hin as (e & -> & He).
  rewrite Forall_forall in Hall. apply Hall in He.
  by apply byte_lt_irrefl in He.
Qed.

(** The pairs below the edge [b] of a directory, and the pairs to their
    left and right in the walk. *)
Lemma SemEdges_split pq es kvs b c :
  SemEdges leafWords pq es kvs -> sortedEdges es ->
  lookupEdge b es = Some c ->
  exists pre mid post,
    kvs = pre ++ mid ++ post
    /\ Sem leafWords (pq ++ [b]) c mid
    /\ Forall (fun kv : Key * V => ~ (pq ++ [b]) `prefix_of` keyZ kv.1)
         (pre ++ post)
    /\ (forall c' mid', Sem leafWords (pq ++ [b]) c' mid' ->
          SemEdges leafWords pq (replaceEdge b c' es) (pre ++ mid' ++ post))
    /\ SemEdges leafWords pq (removeEdge b es) (pre ++ post).
Proof.
  intros H. revert b c. induction H as [|pq b0 c0 es l1 l2 H1 H2 IH];
    intros b c Hs Hb; [done|].
  pose proof (sortedEdges_head_notin _ _ _ Hs) as Hnotin.
  apply sortedEdges_cons in Hs as [Hs Hall].
  cbn [lookupEdge fst snd] in Hb.
  destruct (decide (b0 = b)) as [->|Hne].
  - injection Hb as <-. exists [], l1, l2. split; [done|]. split; [done|].
    split; [|split].
    + simpl. eapply Forall_impl; [apply (SemEdges_under _ _ _ _ H2)|].
      intros kv (b' & Hb' & Hp) Hp'.
      pose proof (prefix_snoc_inj _ _ _ _ Hp Hp') as ->. done.
    + intros c' mid' Hc'. unfold replaceEdge. rewrite fmap_cons.
      cbn [fst]. rewrite decide_True by done.
      fold (replaceEdge b c' es). rewrite replaceEdge_notin by done.
      simpl. by constructor.
    + unfold removeEdge. rewrite filter_cons_False by (simpl; tauto).
      fold (removeEdge b es). by rewrite removeEdge_notin.
  - destruct (IH b c Hs Hb) as (pre & mid & post & -> & Hmid & Hout & Hrep & Hrem).
    exists (l1 ++ pre), mid, post. rewrite <- !(assoc_L (++)).
    split; [done|]. split; [done|]. split; [|split].
    + apply Forall_app. split; [|done].
      eapply Forall_impl; [apply (Sem_under _ _ _ _ H1)|].
      intros kv Hp Hp'. apply Hne.
      apply (prefix_snoc_inj pq (keyZ kv.1) b0 b Hp Hp').
    + intros c' mid' Hc'. unfold replaceEdge. rewrite fmap_cons.
      cbn [fst]. rewrite decide_False by done.
      fold (replaceEdge b c' es). rewrite <- (assoc_L (++)).
      constructor; [done|]. by apply Hrep.
    + unfold removeEdge. rewrite filter_cons_True by done.
      fold (removeEdge b es). by constructor.
Qed.

Lemma SemEdges_fresh pq es kvs b :
  SemEdges leafWords pq es kvs -> lookupEdge b es = None ->
  Forall (fun kv : Key * V => ~ (pq ++ [b]) `prefix_of` keyZ kv.1) kvs.
Proof.
  intros H Hb. apply lookupEdge_None in Hb.
  eapply Forall_impl; [apply (SemEdges_under _ _ _ _ H)|].
  intros kv (b' & Hb' & Hp) Hp'.
  pose proof (prefix_snoc_inj _ _ _ _ Hp Hp') as ->. done.
Qed.

(** Hanging a new subtree under a byte of the directory's gaps. *)
Lemma SemEdges_insert pq es kvs b c l :
  SemEdges leafWords pq es kvs ->
  Sem leafWords (pq ++ [b]) c l ->
  exists pre post,
    kvs = pre ++ post
    /\ SemEdges leafWords pq (insertEdge b c es) (pre ++ l ++ post).
Proof.
  intros H Hc. induction H as [|pq b0 c0 es l1 l2 H1 H2 IH].
  - exists [], []. split; [done|]. simpl. by repeat constructor.
  - cbn [insertEdge fst]. destruct (byte_ltb b b0).
    + exists [], (l1 ++ l2). split; [done|].
      simpl. constructor; [done|]. by constructor.
    + destruct (IH Hc) as (pre & post & -> & Hins).
      exists (l1 ++ pre), post. rewrite <- !(assoc_L (++)).
      split; [done|]. by constructor.
Qed.
End SemFacts.

(** ** The walk, the minimum and the order of a well-formed subtree *)

Lemma key_ltb_irrefl (k : Key) : key_ltb k k = false.
Proof.
  induction k as [|a k IH]; [done|]. simpl. unfold byte_ltb.
  by rewrite Z.ltb_irrefl.
Qed.

Lemma StronglySorted_key_lt_NoDup (l : list Key) :
  StronglySorted key_lt l -> NoDup l.
Proof.
  induction 1 as [|x l Hs IH Hall]; constructor; [|done].
  intros Hin. rewrite Forall_forall in Hall. apply Hall in Hin.
  unfold key_lt in Hin. by rewrite key_ltb_irrefl in Hin.
Qed.

Section Walk.
Context {V : Type} (leafWords : Key -> V -> Z * list byte).
Implicit Types (es : list (byte * artNode V)) (b : byte) (c n : artNode V).
Implicit Types (p q pq : list byte) (k key : Key) (kvs : list (Key * V)).

(** An inner node within the bounds of its variant, with a well laid out
    directory. *)
Definition okNode (n : artNode V) : Prop :=
  isLeaf n = true \/ exists es, dir n es /\ minSize n <= len es.

Lemma leafList_app (l1 l2 : list (artNode V)) :
  leafList (l1 ++ l2) = leafList l1 ++ leafList l2.
Proof. unfold leafList. apply omap_app. Qed.

Lemma leafList_cons_inner n (l : list (artNode V)) :
  isLeaf n = false -> leafList (n :: l) = leafList l.
Proof. by destruct n. Qed.

Lemma Sem_SemEdges_each :
  (forall p n kvs, Sem leafWords p n kvs ->
     exists ns, eachHelper n = Some ns /\ leafList ns = kvs
                /\ Forall okNode ns)
  /\ (forall pq es kvs, SemEdges leafWords pq es kvs ->
        exists ns, eachEdges es = Some ns /\ leafList ns = kvs
                   /\ Forall okNode ns).
Proof.
  apply Sem_SemEdges_ind.
  - intros p k v _. exists [Leaf k v]. split; [done|]. split; [done|].
    constructor; [by left|constructor].
  - intros p n es q kvs Hd Hmin _ _ _ (ns & Hns & Hl & Hok).
    exists (n :: ns). rewrite (dir_eachHelper n es Hd), Hns.
    split; [done|]. split.
    + rewrite leafList_cons_inner; [done|]. by eapply dir_inner.
    + constructor; [|done]. right. by exists es.
  - intros pq. by exists [].
  - intros pq b c es l1 l2 _ (ns1 & Hns1 & Hl1 & Hok1) _ (ns2 & Hns2 & Hl2 & Hok2).
    exists (ns1 ++ ns2). rewrite eachEdges_cons. cbn [snd].
    rewrite Hns1, Hns2. split; [done|]. split.
    + by rewrite leafList_app, Hl1, Hl2.
    + by apply Forall_app.
Qed.

Lemma Sem_each p n kvs :
  Sem leafWords p n kvs ->
  exists ns, eachHelper n = Some ns /\ leafList ns = kvs /\ Forall okNode ns.
Proof. apply Sem_SemEdges_each. Qed.

Lemma Sem_SemEdges_minimum :
  (forall p n kvs, Sem leafWords p n kvs ->
     exists k v rest,
       kvs = (k, v) :: rest /\ minimum n = Some (Some (Leaf k v)))
  /\ (forall pq es kvs, SemEdges leafWords pq es kvs ->
        forall b c es', es = (b, c) :: es' ->
        exists k v rest,
          kvs = (k, v) :: rest /\ minimum c = Some (Some (Leaf k v))).
Proof.
  apply Sem_SemEdges_ind.
  - intros p k v _. by exists k, v, [].
  - intros p n es q kvs Hd Hmin _ _ HS IH.
    destruct es as [|[b c] es'].
    { exfalso. destruct Hd as [_ Hd].
      destruct n; [done|..]; cbn [minSize] in Hmin;
        unfold len, node4Min, node16Min, node48Min, node256Min in Hmin;
        simpl in Hmin; lia. }
    destruct (IH b c es' eq_refl) as (k & v & rest & -> & Hm).
    exists k, v, rest. split; [done|]. by rewrite (dir_minimum n b c es' Hd).
  - done.
  - intros pq b c es l1 l2 _ (k & v & rest & -> & Hm) _ _ b' c' es' [= <- <- <-].
    by exists k, v, (rest ++ l2).
Qed.

Lemma Sem_minimum p n kvs :
  Sem leafWords p n kvs ->
  exists k v rest, kvs = (k, v) :: rest /\ minimum n = Some (Some (Leaf k v)).
Proof. apply Sem_SemEdges_minimum. Qed.

(** The key [prefixMismatch] reads the long prefixes from. *)
Lemma Sem_minimumKey p n es q kvs :
  dir n es -> SemEdges leafWords (p ++ q) es kvs ->
  Sem leafWords p n kvs ->
  exists kmin, minimumKey n = Some kmin /\ (p ++ q) `prefix_of` kmin
               /\ kmin ∈ kvs.*1.
Proof.
  intros Hd HS H. destruct (Sem_minimum p n kvs H) as (k & v & rest & -> & Hm).
  exists k. unfold minimumKey. rewrite Hm. split; [done|]. split.
  - pose proof (SemEdges_under _ _ _ _ HS) as Hu.
    apply Forall_cons in Hu as [(b & _ & Hb) _]. simpl in Hb.
    apply prefix_keyZ_key.
    + etrans; [|apply Hb]. by apply prefix_app_r.
    + apply prefix_length in Hb. rewrite keyZ_length, length_app in Hb.
      simpl in Hb. lia.
  - simpl. by left.
Qed.

Lemma Sem_SemEdges_sorted :
  (forall p n kvs, Sem leafWords p n kvs -> StronglySorted key_lt kvs.*1)
  /\ (forall pq es kvs, SemEdges leafWords pq es kvs -> sortedEdges es ->
        StronglySorted key_lt kvs.*1).
Proof.
  apply Sem_SemEdges_ind.
  - intros p k v _. repeat constructor.
  - intros p n es q kvs Hd _ _ _ _ IH. apply IH. by eapply dir_sorted.
  - intros pq _. constructor.
  - intros pq b c es l1 l2 H1 IH1 H2 IH2 Hs.
    apply sortedEdges_cons in Hs as [Hs Hall].
    rewrite fmap_app. apply StronglySorted_app.
    split; [|split; [done|by apply IH2]].
    intros k1 k2 (kv1 & -> & Hin1)%list_elem_of_fmap
      (kv2 & -> & Hin2)%list_elem_of_fmap.
    pose proof (Sem_under _ _ _ _ H1) as Hu1.
    pose proof (SemEdges_under _ _ _ _ H2) as Hu2.
    unfold allUnder in Hu1. rewrite Forall_forall in Hu1.
    rewrite Forall_forall in Hu2. rewrite Forall_forall in Hall.
    destruct (Hu2 _ Hin2) as (b' & (e & -> & He)%list_elem_of_fmap & Hp2).
    apply (key_lt_branch pq b e.1); [by apply Hu1|done|by apply Hall].
Qed.

Lemma Sem_sorted p n kvs :
  Sem leafWords p n kvs -> StronglySorted key_lt kvs.*1.
Proof. apply Sem_SemEdges_sorted. Qed.

Lemma Sem_NoDup p n kvs : Sem leafWords p n kvs -> NoDup kvs.*1.
Proof. intros H. by apply StronglySorted_key_lt_NoDup, (Sem_sorted p n). Qed.

(** No stored key followed by a zero byte is a prefix of another stored
    key. *)
Lemma Sem_SemEdges_aliasFree :
  (forall p n kvs, Sem leafWords p n kvs ->
     forall k1 k2, k1 ∈ kvs.*1 -> k2 ∈ kvs.*1 -> ~ keyZ k1 `prefix_of` k2)
  /\ (forall pq es kvs, SemEdges leafWords pq es kvs -> sortedEdges es ->
        forall k1 k2, k1 ∈ kvs.*1 -> k2 ∈ kvs.*1 -> ~ keyZ k1 `prefix_of` k2).
Proof.
  apply Sem_SemEdges_ind.
  - intros p k v _ k1 k2 Hk1 Hk2 Hp. simpl in *.
    apply list_elem_of_singleton in Hk1 as ->.
    apply list_elem_of_singleton in Hk2 as ->.
    by apply prefix_snoc_not in Hp.
  - intros p n es q kvs Hd _ _ _ _ IH. apply IH. by eapply dir_sorted.
  - intros pq _ k1 k2 Hk1. by apply elem_of_nil in Hk1.
  - intros pq b c es l1 l2 H1 IH1 H2 IH2 Hs k1 k2 Hk1 Hk2 Hp.
    apply sortedEdges_cons in Hs as [Hs Hall].
    pose proof (Sem_under _ _ _ _ H1) as Hu1.
    pose proof (SemEdges_under _ _ _ _ H2) as Hu2.
    unfold allUnder in Hu1. rewrite Forall_forall in Hu1.
    rewrite Forall_forall in Hu2. rewrite Forall_forall in Hall.
    rewrite fmap_app in Hk1, Hk2.
    assert (forall kv1 kv2 : Key * V, kv1 ∈ l1 -> kv2 ∈ l2 ->
              ~ exists k', keyZ kv1.1 `prefix_of` k'
                           /\ keyZ kv2.1 `prefix_of` k') as Hcross.
    { intros kv1 kv2 Hin1 Hin2 (k' & Hp1 & Hp2).
      destruct (Hu2 _ Hin2) as (b' & (e & -> & He)%list_elem_of_fmap & Hb').
      pose proof (Hu1 _ Hin1) as Hb.
      assert (b = e.1) as Heq.
      { apply (prefix_snoc_inj pq k'); by etrans. }
      specialize (Hall _ He). rewrite <- Heq in Hall.
      by apply byte_lt_irrefl in Hall. }
    apply elem_of_app in Hk1 as [Hk1|Hk1], Hk2 as [Hk2|Hk2].
    + by apply (IH1 k1 k2).
    + apply list_elem_of_fmap in Hk1 as (kv1 & -> & Hin1).
      apply list_elem_of_fmap in Hk2 as (kv2 & -> & Hin2).
      apply (Hcross kv1 kv2 Hin1 Hin2). exists (keyZ kv2.1).
      split; [by apply prefix_key_keyZ|done].
    + apply list_elem_of_fmap in Hk1 as (kv1 & -> & Hin1).
      apply list_elem_of_fmap in Hk2 as (kv2 & -> & Hin2).
      apply (Hcross kv2 kv1 Hin2 Hin1). exists (keyZ kv2.1).
      split; [done|by apply prefix_key_keyZ].
    + by apply (IH2 Hs k1 k2).
Qed.

Lemma Sem_aliasFree p n kvs k1 k2 :
  Sem leafWords p n kvs -> k1 ∈ kvs.*1 -> k2 ∈ kvs.*1 ->
  ~ keyZ k1 `prefix_of` k2.
Proof. intros H. by apply (proj1 Sem_SemEdges_aliasFree p n kvs H). Qed.
End Walk.

(** ** [prefixMismatch] *)

(** The first [j] bytes of the compressed path [q] are what [keyChar] reads
    from [key] at depth [d]. *)
Definition agree (q : list byte) (key : Key) (d j : nat) : Prop :=
  forall i, (i < j)%nat -> q !! i = Some (kc key (d + i)).

Lemma agree_le q key d j j' : agree q key d j -> (j' <= j)%nat -> agree q key d j'.
Proof. intros H Hle i Hi. apply H. lia. Qed.

Lemma agree_prefix p q key :
  (p ++ q) `prefix_of` keyZ key -> agree q key (length p) (length q).
Proof.
  intros Hp i Hi.
  pose proof (prefix_lookup_eq _ _ (length p + i) Hp) as He.
  rewrite length_app in He. specialize (He ltac:(lia)).
  rewrite lookup_app_r in He by lia.
  replace (length p + i - length p)%nat with i in He by lia.
  rewrite He. apply keyZ_lookup.
  apply prefix_length in Hp. rewrite length_app, keyZ_length in Hp. lia.
Qed.

(** A key that runs out while it agrees with the path is a prefix of the
    path. *)
Lemma agree_short p q key (j : nat) :
  p `prefix_of` key -> agree q key (length p) j -> (j <= length q)%nat ->
  (length key <= length p + j)%nat ->
  key `prefix_of` (p ++ q).
Proof.
  intros [r ->] Hag Hj Hlen. rewrite length_app in Hlen.
  apply prefix_app. assert (r = take (length r) q) as ->; [|apply prefix_of_take].
  apply list_eq. intros i. destruct (decide (i < length r)%nat) as [Hi|Hi].
  - rewrite lookup_take_lt by done. rewrite (Hag i) by lia.
    unfold kc. rewrite lookup_app_r by lia.
    replace (length p + i - length p)%nat with i by lia.
    destruct (lookup_lt_is_Some_2 r i Hi) as [x Hx]. by rewrite Hx.
  - rewrite lookup_take_ge by lia. apply lookup_ge_None_2. lia.
Qed.

(** The path agrees with a key that extends it. *)
Lemma agree_full_prefix p q key :
  p `prefix_of` key -> agree q key (length p) (length q) ->
  (length p + length q <= length key)%nat ->
  (p ++ q) `prefix_of` key.
Proof.
  intros [r ->] Hag Hlen. rewrite length_app in Hlen.
  apply prefix_app. assert (q = take (length q) r) as ->; [|apply prefix_of_take].
  apply list_eq. intros i. destruct (decide (i < length q)%nat) as [Hi|Hi].
  - rewrite lookup_take_lt by done. rewrite (Hag i) by lia.
    unfold kc. rewrite lookup_app_r by lia.
    replace (length p + i - length p)%nat with i by lia.
    destruct (lookup_lt_is_Some_2 r i) as [x Hx]; [lia|]. by rewrite Hx.
  - rewrite lookup_take_ge by lia. apply lookup_ge_None_2. lia.
Qed.

Lemma prefixMismatch_inline_spec (cnt : nat) pfx key (d i0 : nat) :
  (i0 + cnt <= length pfx)%nat ->
  exists r,
    prefixMismatch_inline cnt pfx key (Z.of_nat d) (Z.of_nat i0) = Some r
    /\ match r with
       | inl j => exists j' : nat,
           j = Z.of_nat j' /\ (i0 <= j' < i0 + cnt)%nat
           /\ (forall i, (i0 <= i < j')%nat -> pfx !! i = Some (kc key (d + i)))
           /\ pfx !! j' ≠ Some (kc key (d + j'))
       | inr j =>
           j = Z.of_nat (i0 + cnt)
           /\ (forall i, (i0 <= i < i0 + cnt)%nat ->
                 pfx !! i = Some (kc key (d + i)))
       end.
Proof.
  revert i0. induction cnt as [|cnt IH]; intros i0 Hlen.
  - exists (inr (Z.of_nat i0)). split; [done|]. split; [f_equal; lia|].
    intros i Hi. lia.
  - cbn [prefixMismatch_inline].
    rewrite keyCharAt_kc by lia. cbn [mbind option_bind].
    replace (Z.to_nat (Z.of_nat d + Z.of_nat i0)) with (d + i0)%nat by lia.
    rewrite get_nat.
    destruct (lookup_lt_is_Some_2 pfx i0) as [x Hx]; [lia|]. rewrite Hx.
    cbn [mbind option_bind]. case_bool_decide as Hne.
    + exists (inl (Z.of_nat i0)). split; [done|]. exists i0.
      split; [done|]. split; [lia|]. split; [intros; lia|].
      rewrite Hx. congruence.
    + replace (Z.of_nat i0 + 1) with (Z.of_nat (Datatypes.S i0)) by lia.
      destruct (IH (Datatypes.S i0)) as (r & Hr & Hspec); [lia|].
      exists r. split; [done|]. destruct r as [j|j].
      * destruct Hspec as (j' & -> & Hj & Hall & Hmis). exists j'.
        split; [done|]. split; [lia|]. split; [|done].
        intros i Hi. destruct (decide (i = i0)) as [->|]; [|apply Hall; lia].
        by rewrite Hx, Hne.
      * destruct Hspec as (-> & Hall). split; [f_equal; lia|].
        intros i Hi. destruct (decide (i = i0)) as [->|]; [|apply Hall; lia].
        by rewrite Hx, Hne.
Qed.

Lemma prefixMismatch_overflow_spec (cnt : nat) minKey key (d i0 : nat) :
  (d + i0 + cnt <= length minKey)%nat ->
  match prefixMismatch_overflow cnt minKey key (Z.of_nat d) (Z.of_nat i0) with
  | Some j => exists j' : nat,
      j = Z.of_nat j' /\ (i0 <= j' <= i0 + cnt)%nat
      /\ (forall i, (i0 <= i < j')%nat ->
            (d + i < length key)%nat /\ key !! (d + i)%nat = minKey !! (d + i)%nat)
      /\ ((j' < i0 + cnt)%nat ->
            (d + j' < length key)%nat
            /\ key !! (d + j')%nat ≠ minKey !! (d + j')%nat)
  | None => exists j' : nat,
      (i0 <= j' < i0 + cnt)%nat /\ (length key <= d + j')%nat
      /\ (forall i, (i0 <= i < j')%nat ->
            (d + i < length key)%nat /\ key !! (d + i)%nat = minKey !! (d + i)%nat)
  end.
Proof.
  revert i0. induction cnt as [|cnt IH]; intros i0 Hlen.
  - cbn [prefixMismatch_overflow]. exists i0. split; [done|]. split; [lia|].
    split; intros; lia.
  - cbn [prefixMismatch_overflow].
    replace (Z.of_nat d + Z.of_nat i0) with (Z.of_nat (d + i0)) by lia.
    rewrite !get_nat.
    destruct (key !! (d + i0)%nat) as [a|] eqn:Ha; cbn [mbind option_bind].
    2:{ apply lookup_ge_None in Ha. exists i0. split; [lia|]. split; [lia|].
        intros; lia. }
    pose proof (lookup_lt_Some _ _ _ Ha) as Hla.
    destruct (lookup_lt_is_Some_2 minKey (d + i0)) as [x Hx]; [lia|].
    rewrite Hx. cbn [mbind option_bind]. case_bool_decide as Hne.
    + exists i0. split; [done|]. split; [lia|]. split; [intros; lia|].
      intros _. split; [done|]. rewrite Ha, Hx. congruence.
    + subst x.
      replace (Z.of_nat i0 + 1) with (Z.of_nat (Datatypes.S i0)) by lia.
      specialize (IH (Datatypes.S i0) ltac:(lia)).
      destruct (prefixMismatch_overflow cnt minKey key (Z.of_nat d)
                  (Z.of_nat (Datatypes.S i0))) as [j|].
      * destruct IH as (j' & -> & Hj & Hall & Hmis). exists j'.
        split; [done|]. split; [lia|]. split.
        -- intros i Hi. destruct (decide (i = i0)) as [->|]; [|apply Hall; lia].
           split; [done|congruence].
        -- intros Hlt. apply Hmis. lia.
      * destruct IH as (j' & Hj & Hshort & Hall). exists j'.
        split; [lia|]. split; [done|].
        intros i Hi. destruct (decide (i = i0)) as [->|]; [|apply Hall; lia].
        split; [done|congruence].
Qed.

Section PrefixMismatch.
Context {V : Type} (leafWords : Key -> V -> Z * list byte).
Implicit Types (es : list (byte * artNode V)) (b : byte) (c n : artNode V).
Implicit Types (p q pq : list byte) (k key : Key) (kvs : list (Key * V)).

(** The stored bytes are the first bytes of the compressed path. *)
Lemma storedPrefix_lookup (m : node) q (i : nat) :
  length (prefix m) = 10%nat -> prefixLen m = len q ->
  storedPrefix m = take 10 q -> (i < 10)%nat -> (i < length q)%nat ->
  prefix m !! i = q !! i.
Proof.
  intros Hl HL Hst Hi Hq. unfold storedPrefix, maxPrefixLen, len in *.
  rewrite HL in Hst.
  assert (take (Z.to_nat (Z.min (Z.of_nat (length q)) 10)) (prefix m) !! i
          = take 10 q !! i) as He by (by rewrite Hst).
  rewrite !lookup_take_lt in He by lia. done.
Qed.

(** [prefixMismatch] returns the length of the longest part of the
    compressed path that agrees with the key; it panics when the key runs
    out in the part of a long path that is not stored inline. *)
Lemma prefixMismatch_spec n p q key kmin :
  length (prefix (nodeOf leafWords n)) = 10%nat ->
  prefixLen (nodeOf leafWords n) = len q ->
  storedPrefix (nodeOf leafWords n) = take 10 q ->
  minimumKey n = Some kmin -> (p ++ q) `prefix_of` kmin ->
  match prefixMismatch leafWords n key (Z.of_nat (length p)) with
  | Some j => exists j' : nat,
      j = Z.of_nat j' /\ (j' <= length q)%nat
      /\ agree q key (length p) j'
      /\ ((j' < length q)%nat -> q !! j' ≠ Some (kc key (length p + j')))
  | None => exists j' : nat,
      (j' < length q)%nat /\ (length key <= length p + j')%nat
      /\ agree q key (length p) j'
  end.
Proof.
  intros Hl HL Hst Hmin Hkmin. unfold prefixMismatch.
  set (m := nodeOf leafWords n) in *. rewrite min_Zmin, HL.
  unfold maxPrefixLen, len.
  replace (Z.to_nat (Z.min 10 (Z.of_nat (length q))))
    with (Nat.min 10 (length q)) by lia.
  destruct (prefixMismatch_inline_spec (Nat.min 10 (length q)) (prefix m) key
              (length p) 0) as (r & Hr & Hspec); [lia|].
  change (Z.of_nat 0) with 0 in Hr. rewrite Hr. cbn [mbind option_bind].
  assert (forall i, (i < Nat.min 10 (length q))%nat -> prefix m !! i = q !! i)
    as Hsto.
  { intros i Hi. apply storedPrefix_lookup; try done; lia. }
  destruct r as [j|j].
  - destruct Hspec as (j' & -> & Hj & Hall & Hmis). exists j'.
    split; [done|]. split; [lia|]. split.
    + intros i Hi. rewrite <- Hsto by lia. apply Hall. lia.
    + intros _. rewrite <- Hsto by lia. done.
  - destruct Hspec as (-> & Hall).
    assert (agree q key (length p) (Nat.min 10 (length q))) as Hag.
    { intros i Hi. rewrite <- Hsto by lia. apply Hall. lia. }
    destruct (Z.gtb_spec (Z.of_nat (length q)) 10) as [Hlong|Hshort].
    + rewrite Hmin. cbn [mbind option_bind].
      replace (0 + Nat.min 10 (length q))%nat with 10%nat in * by lia.
      replace (Z.to_nat (Z.of_nat (length q) - Z.of_nat 10))
        with (length q - 10)%nat by lia.
      pose proof (prefix_length _ _ Hkmin) as Hlk. rewrite length_app in Hlk.
      pose proof (prefixMismatch_overflow_spec (length q - 10) kmin key
                    (length p) 10 ltac:(lia)) as Hov.
      assert (forall i, (i < length q)%nat ->
                kmin !! (length p + i)%nat = q !! i) as Hkq.
      { intros i Hi.
        rewrite <- (prefix_lookup_eq _ _ (length p + i) Hkmin)
          by (rewrite length_app; lia).
        rewrite lookup_app_r by lia. f_equal. lia. }
      assert (forall j', (10 <= j' <= length q)%nat ->
                (forall i, (10 <= i < j')%nat ->
                   (length p + i < length key)%nat
                   /\ key !! (length p + i)%nat = kmin !! (length p + i)%nat) ->
                agree q key (length p) j') as Hext.
      { intros j' Hj' Hreal i Hi.
        destruct (decide (i < 10)%nat) as [Hlo|Hhi]; [apply Hag; lia|].
        destruct (Hreal i ltac:(lia)) as [Hlt He].
        rewrite <- Hkq by lia. rewrite <- He.
        destruct (lookup_lt_is_Some_2 key (length p + i) Hlt) as [x Hx].
        rewrite Hx. f_equal. symmetry. by apply kc_lookup. }
      destruct (prefixMismatch_overflow (length q - 10) kmin key
                  (Z.of_nat (length p)) (Z.of_nat 10)) as [j|].
      * destruct Hov as (j' & -> & Hj & Hreal & Hmis). exists j'.
        split; [done|]. split; [lia|]. split; [apply Hext; [lia|done]|].
        intros Hlt. destruct Hmis as [Hin Hne]; [lia|].
        rewrite <- Hkq by done.
        destruct (lookup_lt_is_Some_2 key (length p + j') Hin) as [x Hx].
        rewrite (kc_lookup _ _ _ Hx), <- Hx. congruence.
      * destruct Hov as (j' & Hj & Hshort & Hreal). exists j'.
        split; [lia|]. split; [done|]. apply Hext; [lia|done].
    + replace (0 + Nat.min 10 (length q))%nat with (length q) in * by lia.
      exists (length q). split; [done|]. split; [done|].
      split; [|intros; lia].
      replace (Nat.min 10 (length q)) with (length q) in Hag by lia. done.
Qed.

(** On a key that extends the whole path, [prefixMismatch] returns
    [prefixLen]. *)
Lemma prefixMismatch_full n p q key kmin :
  length (prefix (nodeOf leafWords n)) = 10%nat ->
  prefixLen (nodeOf leafWords n) = len q ->
  storedPrefix (nodeOf leafWords n) = take 10 q ->
  minimumKey n = Some kmin -> (p ++ q) `prefix_of` kmin ->
  (p ++ q) `prefix_of` key ->
  prefixMismatch leafWords n key (Z.of_nat (length p)) = Some (len q).
Proof.
  intros Hl HL Hst Hmin Hkmin Hkey.
  pose proof (prefixMismatch_spec n p q key kmin Hl HL Hst Hmin Hkmin) as H.
  pose proof (prefix_length _ _ Hkey) as Hlen. rewrite length_app in Hlen.
  pose proof (agree_prefix p q key (prefix_key_keyZ _ _ Hkey)) as Hag.
  destruct (prefixMismatch leafWords n key (Z.of_nat (length p))) as [j|].
  - destruct H as (j' & -> & Hj & _ & Hmis). unfold len.
    destruct (decide (j' = length q)) as [->|Hne]; [done|].
    exfalso. apply Hmis; [lia|]. apply Hag. lia.
  - destruct H as (j' & Hj & Hshort & _). lia.
Qed.
End PrefixMismatch.

(** ** [Search] finds every stored key *)

Lemma prefix_snoc_lookup {A : Type} (p l : list A) (x : A) :
  p `prefix_of` l -> l !! length p = Some x -> (p ++ [x]) `prefix_of` l.
Proof.
  intros [r ->] Hx. rewrite lookup_app_r, Nat.sub_diag in Hx by lia.
  destruct r as [|y r]; [done|]. injection Hx as ->.
  exists r. by rewrite <- (assoc_L (++)).
Qed.

Lemma prefix_snoc_kc (p : list byte) (k : Key) :
  p `prefix_of` k -> (p ++ [kc k (length p)]) `prefix_of` keyZ k.
Proof.
  intros Hp. apply prefix_snoc_lookup; [by apply prefix_key_keyZ|].
  apply keyZ_lookup. by apply prefix_length.
Qed.

Section Search.
Context {V : Type} (leafWords : Key -> V -> Z * list byte).
Implicit Types (es : list (byte * artNode V)) (b : byte) (c n : artNode V).
Implicit Types (p q pq : list byte) (k key : Key) (kvs : list (Key * V)).

(** The pairs of a subtree are those its walk lists. *)
Lemma Sem_det p p' n kvs kvs' :
  Sem leafWords p n kvs -> Sem leafWords p' n kvs' -> kvs = kvs'.
Proof.
  intros (ns & Hns & <- & _)%Sem_each (ns' & Hns' & <- & _)%Sem_each.
  congruence.
Qed.

Lemma on_child_lookup {R : Type}
    (f : artNode V -> option (option (artNode V) * R))
    (cs : list (option (artNode V))) (i : nat) c :
  cs !! i = Some (Some c) ->
  on_child f cs i = r ← f c; Some (<[i := r.1]> cs, r.2).
Proof.
  revert i. induction cs as [|o cs IH]; intros i Hi; [done|].
  destruct i as [|i]; simpl in Hi.
  - injection Hi as ->. simpl. by destruct (f c).
  - cbn [on_child]. fold (on_child f). rewrite (IH i Hi).
    destruct (f c) as [r|]; [|done]. done.
Qed.

Lemma searchHelper_inner n key (depth : Z) :
  isLeaf n = false ->
  searchHelper leafWords n key depth
  = mismatch ← prefixMismatch leafWords n key depth;
    if bool_decide (mismatch ≠ prefixLen (nodeOf leafWords n)) then Some None
    else
      keyChar ← keyCharAt key (depth + prefixLen (nodeOf leafWords n));
      next ← findChild n keyChar;
      match next with
      | NullRef => Some None
      | Slot i =>
          at_childZ
            (fun c => searchHelper leafWords c key
                        (depth + prefixLen (nodeOf leafWords n) + 1))
            (Some None) (childrenOf n) i
      end.
Proof. by destruct n. Qed.

Lemma Sem_SemEdges_search :
  (forall p n kvs, Sem leafWords p n kvs ->
     forall key v, (key, v) ∈ kvs ->
       searchHelper leafWords n key (len p) = Some (Some v))
  /\ (forall pq es kvs, SemEdges leafWords pq es kvs ->
        forall key v, (key, v) ∈ kvs ->
          exists b c, (b, c) ∈ es /\ (pq ++ [b]) `prefix_of` keyZ key
            /\ searchHelper leafWords c key (len pq + 1) = Some (Some v)).
Proof.
  apply Sem_SemEdges_ind.
  - intros p k v _ key v' Hin. apply list_elem_of_singleton in Hin.
    injection Hin as -> ->. cbn [searchHelper isMatch].
    by rewrite !bool_decide_true.
  - intros p n es q kvs Hd Hmin HL Hst HS IH key v Hin.
    destruct (IH key v Hin) as (b & c & He & Hp & Hsearch).
    assert (Sem leafWords p n kvs) as HSem by (by econstructor).
    destruct (Sem_minimumKey leafWords p n es q kvs Hd HS HSem)
      as (kmin & Hkmin & Hpk & _).
    assert ((p ++ q) `prefix_of` key) as Hpq.
    { apply prefix_keyZ_key; [by eapply prefix_app_l|].
      apply prefix_length in Hp. rewrite keyZ_length, length_app in Hp.
      simpl in Hp. lia. }
    rewrite searchHelper_inner by (by eapply dir_inner).
    change (len p) with (Z.of_nat (length p)).
    rewrite (prefixMismatch_full leafWords n p q key kmin); try done.
    2:{ by eapply dir_prefix_length. }
    cbn [mbind option_bind]. rewrite HL.
    rewrite bool_decide_false by (intros ?; done).
    rewrite keyCharAt_kc by (unfold len; lia). cbn [mbind option_bind].
    replace (Z.to_nat (Z.of_nat (length p) + len q)) with (length (p ++ q))
      by (rewrite length_app; unfold len; lia).
    rewrite (prefix_keyZ_kc _ _ _ Hp).
    pose proof (elem_lookupEdge b c es (dir_sorted n es Hd) He) as Hl.
    destruct (dir_findChild_Some n es b c Hd Hl) as (i & Hf & Hc & _).
    rewrite Hf. cbn [mbind option_bind].
    rewrite (at_childZ_lookup _ _ _ _ c) by (by rewrite get_nat).
    rewrite <- Hsearch. f_equal. unfold len. rewrite length_app. lia.
  - intros pq key v Hin. by apply elem_of_nil in Hin.
  - intros pq b c es l1 l2 H1 IH1 H2 IH2 key v Hin.
    apply elem_of_app in Hin as [Hin|Hin].
    + exists b, c. split; [by left|]. split.
      * pose proof (Sem_under _ _ _ _ H1) as Hu. unfold allUnder in Hu.
        rewrite Forall_forall in Hu. by apply (Hu (key, v)).
      * rewrite <- (IH1 key v Hin). f_equal. unfold len.
        rewrite length_app. simpl. lia.
    + destruct (IH2 key v Hin) as (b' & c' & He & Hp & Hs).
      exists b', c'. split; [by right|done].
Qed.

Lemma Sem_search p n kvs key v :
  Sem leafWords p n kvs -> (key, v) ∈ kvs ->
  searchHelper leafWords n key (len p) = Some (Some v).
Proof. intros H. by apply (proj1 Sem_SemEdges_search). Qed.
End Search.

(** ** [memmove] *)

(** Moving a later part of an array to its front. *)
Lemma memmove_self (pfx : list byte) (s cnt : nat) :
  (1 <= s)%nat -> (s + cnt <= length pfx)%nat ->
  exists pfx',
    memmove pfx (fun d => slice_from d (Z.of_nat s)) (Z.of_nat cnt) = Some pfx'
    /\ length pfx' = length pfx
    /\ forall i, (i < cnt)%nat -> pfx' !! i = pfx !! (s + i)%nat.
Proof.
  intros Hs Hlen. unfold memmove. rewrite Nat2Z.id.
  assert (forall (fuel i0 : nat) (cur : list byte),
    (i0 + fuel = cnt)%nat -> length cur = length pfx ->
    (forall i, (i < i0)%nat -> cur !! i = pfx !! (s + i)%nat) ->
    (forall i, (i0 <= i)%nat -> cur !! i = pfx !! i) ->
    exists pfx',
      memmove_loop fuel cur (fun d => slice_from d (Z.of_nat s))
        (Z.of_nat cnt) (Z.of_nat i0) = Some pfx'
      /\ length pfx' = length pfx
      /\ forall i, (i < cnt)%nat -> pfx' !! i = pfx !! (s + i)%nat) as Hloop.
  { induction fuel as [|fuel IH]; intros i0 cur Hi0 Hlc Hdone Hrest.
    - exists cur. split; [done|]. split; [done|]. intros i Hi. apply Hdone. lia.
    - cbn [memmove_loop]. destruct (Z.ltb_spec (Z.of_nat i0) (Z.of_nat cnt)); [|lia].
      rewrite slice_from_Some by (unfold len; lia). cbn [mbind option_bind].
      rewrite Nat2Z.id, get_nat, lookup_drop.
      destruct (lookup_lt_is_Some_2 cur (s + i0)) as [x Hx]; [lia|].
      rewrite Hx. cbn [mbind option_bind].
      rewrite set_Some by (unfold len; lia). cbn [mbind option_bind].
      rewrite Nat2Z.id.
      replace (Z.of_nat i0 + 1) with (Z.of_nat (Datatypes.S i0)) by lia.
      apply IH; [lia|by rewrite length_insert| |].
      + intros i Hi. destruct (decide (i = i0)) as [->|Hne].
        * rewrite list_lookup_insert_eq by lia. rewrite <- Hx. apply Hrest. lia.
        * rewrite list_lookup_insert_ne by done. apply Hdone. lia.
      + intros i Hi. rewrite list_lookup_insert_ne by lia. apply Hrest. lia. }
  apply (Hloop cnt 0%nat pfx); [lia|done|intros; lia|done].
Qed.

(** Copying the front of a slice into an array. *)
Lemma memmove_from (dst src : list byte) (cnt : nat) :
  (cnt <= length dst)%nat -> (cnt <= length src)%nat ->
  exists dst',
    memmove dst (fun _ => Some src) (Z.of_nat cnt) = Some dst'
    /\ length dst' = length dst
    /\ forall i, (i < cnt)%nat -> dst' !! i = src !! i.
Proof.
  intros Hd Hs. unfold memmove. rewrite Nat2Z.id.
  assert (forall (fuel i0 : nat) (cur : list byte),
    (i0 + fuel = cnt)%nat -> length cur = length dst ->
    (forall i, (i < i0)%nat -> cur !! i = src !! i) ->
    exists dst',
      memmove_loop fuel cur (fun _ => Some src) (Z.of_nat cnt) (Z.of_nat i0)
      = Some dst'
      /\ length dst' = length dst
      /\ forall i, (i < cnt)%nat -> dst' !! i = src !! i) as Hloop.
  { induction fuel as [|fuel IH]; intros i0 cur Hi0 Hlc Hdone.
    - exists cur. split; [done|]. split; [done|]. intros i Hi. apply Hdone. lia.
    - cbn [memmove_loop]. destruct (Z.ltb_spec (Z.of_nat i0) (Z.of_nat cnt)); [|lia].
      cbn [mbind option_bind]. rewrite get_nat.
      destruct (lookup_lt_is_Some_2 src i0) as [x Hx]; [lia|].
      rewrite Hx. cbn [mbind option_bind].
      rewrite set_Some by (unfold len; lia). cbn [mbind option_bind].
      rewrite Nat2Z.id.
      replace (Z.of_nat i0 + 1) with (Z.of_nat (Datatypes.S i0)) by lia.
      apply IH; [lia|by rewrite length_insert|].
      intros i Hi. destruct (decide (i = i0)) as [->|Hne].
      + rewrite list_lookup_insert_eq by lia. done.
      + rewrite list_lookup_insert_ne by done. apply Hdone. lia. }
  apply (Hloop cnt 0%nat dst); [lia|done|intros; lia].
Qed.

(** ** The two splits of [insertHelper] *)

Lemma longestCommonPrefix_loop_spec (cnt : nat) (k1 k2 : Key) (d i0 : nat)
    (limit : Z) :
  (d + i0 + cnt <= length k1)%nat -> (d + i0 + cnt <= length k2)%nat ->
  limit = Z.of_nat (i0 + cnt) ->
  exists l : nat,
    longestCommonPrefix_loop cnt k1 k2 (Z.of_nat d) limit (Z.of_nat i0)
    = Some (Z.of_nat l)
    /\ (i0 <= l <= i0 + cnt)%nat
    /\ (forall i, (i0 <= i < l)%nat -> k1 !! (d + i)%nat = k2 !! (d + i)%nat)
    /\ ((l < i0 + cnt)%nat -> k1 !! (d + l)%nat ≠ k2 !! (d + l)%nat).
Proof.
  revert i0. induction cnt as [|cnt IH]; intros i0 H1 H2 ->.
  - exists i0. cbn [longestCommonPrefix_loop]. split; [f_equal; lia|].
    split; [lia|]. split; intros; lia.
  - cbn [longestCommonPrefix_loop].
    replace (Z.of_nat d + Z.of_nat i0) with (Z.of_nat (d + i0)) by lia.
    rewrite !get_nat.
    destruct (lookup_lt_is_Some_2 k1 (d + i0)) as [a Ha]; [lia|].
    destruct (lookup_lt_is_Some_2 k2 (d + i0)) as [b Hb]; [lia|].
    rewrite Ha, Hb. cbn [mbind option_bind]. case_bool_decide as Hne.
    + exists i0. split; [done|]. split; [lia|]. split; [intros; lia|].
      intros _. rewrite Ha, Hb. congruence.
    + subst b. replace (Z.of_nat i0 + 1) with (Z.of_nat (Datatypes.S i0)) by lia.
      destruct (IH (Datatypes.S i0)) as (l & Hrun & Hl & Hall & Hmis);
        [lia|lia|lia|].
      exists l. split; [done|]. split; [lia|]. split.
      * intros i Hi. destruct (decide (i = i0)) as [->|]; [congruence|].
        apply Hall. lia.
      * intros Hlt. apply Hmis. lia.
Qed.

Section Splits.
Context {V : Type} (leafWords : Key -> V -> Z * list byte).
Implicit Types (es : list (byte * artNode V)) (b : byte) (c n : artNode V).
Implicit Types (p q pq : list byte) (k key : Key) (kvs : list (Key * V)).

(** What [Insert(key, v)] does to the pairs of a subtree. *)
Definition inserted key (v : V) kvs kvs' : Prop :=
  forall kv, kv ∈ kvs' <-> kv = (key, v) \/ (kv ∈ kvs /\ kv.1 ≠ key).

(** [key] is a proper prefix of a stored key. *)
Definition blocked key kvs : Prop :=
  exists k0, k0 ∈ kvs.*1 /\ properPrefix key k0.

(** Neither [key] nor a stored key continues the other with a zero byte. *)
Definition aliasFree key kvs : Prop :=
  forall k0, k0 ∈ kvs.*1 ->
    ~ keyZ k0 `prefix_of` key /\ ~ keyZ key `prefix_of` k0.

(** Outcome of [insertHelper] on a subtree at path [p] that holds [kvs]:
    either the new subtree and the new counter, or a panic. *)
Definition insertPost p key (v : V) (cnt : Z) kvs
    (r : option (artNode V * Z)) : Prop :=
  match r with
  | Some (n', cnt') =>
      exists kvs',
        Sem leafWords p n' kvs' /\ inserted key v kvs kvs'
        /\ cnt' = cnt + (if decide (key ∈ kvs.*1) then 0 else 1)
  | None => blocked key kvs
  end.

Lemma inserted_fresh key v kvs pre post :
  kvs = pre ++ post -> key ∉ kvs.*1 ->
  inserted key v kvs (pre ++ [(key, v)] ++ post).
Proof.
  intros -> Hfresh kv. rewrite !elem_of_app, list_elem_of_singleton.
  split.
  - intros [H|[H|H]]; [right|by left|right]; (split; [tauto|]); intros <-;
      apply Hfresh, list_elem_of_fmap; exists kv; rewrite elem_of_app; tauto.
  - intros [->|[[H|H] _]]; tauto.
Qed.

Lemma storedPrefix_mkNode (sz L : Z) (pfx : list byte) :
  storedPrefix (mkNode sz L pfx) = take (Z.to_nat (Z.min L 10)) pfx.
Proof. done. Qed.

(** A fresh Node4 that receives two children under different bytes. *)
Lemma split_two p q (L : Z) pfx b1 c1 l1 b2 key v :
  length pfx = 10%nat -> L = len q ->
  take (Z.to_nat (Z.min L 10)) pfx = take 10 q -> b1 ≠ b2 ->
  Sem leafWords ((p ++ q) ++ [b1]) c1 l1 ->
  ((p ++ q) ++ [b2]) `prefix_of` keyZ key ->
  exists n4 n4' pre post,
    addChild leafWords (splitNode4 L pfx) b1 c1 = Some n4
    /\ addChild leafWords n4 b2 (Leaf key v) = Some n4'
    /\ l1 = pre ++ post
    /\ Sem leafWords p n4' (pre ++ [(key, v)] ++ post).
Proof.
  intros Hpfx HL Hst Hne H1 H2.
  destruct (dir_addChild leafWords (splitNode4 L pfx) [] b1 c1)
    as (n4 & Hrun1 & Hd1 & HL1 & Hst1 & Hmin1);
    [by apply dir_splitNode4|done|].
  cbn [insertEdge] in Hd1.
  destruct (dir_addChild leafWords n4 [(b1, c1)] b2 (Leaf key v) Hd1)
    as (n4' & Hrun2 & Hd2 & HL2 & Hst2 & Hmin2).
  { cbn [lookupEdge fst]. by rewrite decide_False. }
  assert (SemEdges leafWords (p ++ q) [(b1, c1)] (l1 ++ [])) as HS1
    by (constructor; [done|constructor]).
  rewrite app_nil_r in HS1.
  destruct (SemEdges_insert leafWords (p ++ q) [(b1, c1)] l1 b2 (Leaf key v)
              [(key, v)] HS1)
    as (pre & post & Hl1 & HS2); [by constructor|].
  exists n4, n4', pre, post. split; [done|]. split; [done|]. split; [done|].
  apply (Sem_inner leafWords p n4' (insertEdge b2 (Leaf key v) [(b1, c1)]) q);
    try done.
  - unfold len in *. rewrite length_insertEdge. simpl in *.
    change (minSize (splitNode4 L pfx)) with node4Min in Hmin1.
    unfold node4Min in *. lia.
  - rewrite HL2, HL1. done.
  - rewrite Hst2, Hst1. unfold splitNode4. cbn [nodeOf].
    by rewrite storedPrefix_mkNode.
Qed.

(** The leaf case of [insertHelper] without a match. *)
Lemma insertLeafSplit_spec p k1 (v1 : V) key v cnt :
  p `prefix_of` keyZ k1 -> p `prefix_of` key -> key ≠ k1 ->
  aliasFree key [(k1, v1)] ->
  insertPost p key v cnt [(k1, v1)]
    (insertLeafSplit leafWords (Leaf k1 v1) k1 key v (len p) cnt).
Proof.
  intros Hp1 Hpk Hne Hfree.
  destruct (Hfree k1) as [Hf1 Hf2]; [simpl; by left|].
  pose proof (prefix_length _ _ Hpk) as Hdk.
  assert (length p <= length k1)%nat as Hd1.
  { pose proof (prefix_length _ _ Hp1) as Hl. rewrite keyZ_length in Hl.
    destruct (decide (length p = Datatypes.S (length k1))) as [Heq|]; [|lia].
    exfalso. apply Hf1.
    rewrite <- (prefix_length_eq _ _ Hp1); [done|]. rewrite keyZ_length. lia. }
  apply prefix_keyZ_key in Hp1; [|done].
  unfold insertLeafSplit, longestCommonPrefix, newLeafNode.
  rewrite min_Zmin. unfold len.
  set (m0 := Nat.min (length k1) (length key)).
  replace (Z.min (Z.of_nat (length k1)) (Z.of_nat (length key))
           - Z.of_nat (length p)) with (Z.of_nat (0 + (m0 - length p)))
    by (unfold m0; lia).
  rewrite Nat2Z.id.
  destruct (longestCommonPrefix_loop_spec (0 + (m0 - length p)) k1 key
              (length p) 0 (Z.of_nat (0 + (m0 - length p))))
    as (l & Hrun & Hl & Hall & Hmis); [unfold m0; lia..|done|].
  change (Z.of_nat 0) with 0 in Hrun. rewrite Hrun. cbn [mbind option_bind].
  rewrite slice_from_Some by (unfold len; lia). cbn [mbind option_bind].
  rewrite Nat2Z.id. rewrite !keyCharAt_kc by lia. cbn [mbind option_bind].
  replace (Z.to_nat (Z.of_nat (length p) + Z.of_nat l)) with (length p + l)%nat
    by lia.
  set (q := take l (drop (length p) key)).
  assert (length q = l) as Hlq.
  { unfold q. rewrite length_take, length_drop. unfold m0 in *. lia. }
  assert ((p ++ q) `prefix_of` key) as Hpq.
  { destruct Hpk as [r ->]. apply prefix_app. unfold q.
    rewrite drop_app_length. apply prefix_of_take. }
  assert ((p ++ q) `prefix_of` k1) as Hpq1.
  { destruct Hp1 as [r1 ->]. destruct Hpk as [r ->]. apply prefix_app.
    unfold q. rewrite drop_app_length.
    rewrite !length_app in *.
    assert (take l r = take l r1) as ->; [|apply prefix_of_take].
    apply list_eq. intros i. destruct (decide (i < l)%nat) as [Hi|Hi].
    - rewrite !lookup_take_lt by done.
      specialize (Hall i ltac:(lia)).
      rewrite !lookup_app_r in Hall by lia.
      replace (length p + i - length p)%nat with i in Hall by lia. done.
    - by rewrite !lookup_take_ge by lia. }
  assert (length (p ++ q) = (length p + l)%nat) as Hlpq
    by (rewrite length_app; lia).
  assert (kc k1 (length p + l) ≠ kc key (length p + l)) as Hbb.
  { destruct (decide (l < 0 + (m0 - length p))%nat) as [Hlt|Hge].
    - specialize (Hmis Hlt). unfold kc.
      destruct (lookup_lt_is_Some_2 k1 (length p + l)) as [a Ha];
        [unfold m0 in *; lia|].
      destruct (lookup_lt_is_Some_2 key (length p + l)) as [b Hb];
        [unfold m0 in *; lia|].
      rewrite Ha, Hb in *. simpl. congruence.
    - assert (length p + l = m0)%nat as Hm0 by (unfold m0 in *; lia).
      destruct (Nat.lt_trichotomy (length k1) (length key)) as [Hlt|[Heq|Hgt]].
      + assert (p ++ q = k1) as Hk1.
        { apply prefix_length_eq; [done|]. unfold m0 in *. lia. }
        rewrite Hm0. unfold m0. rewrite Nat.min_l by lia.
        rewrite (kc_ge k1) by lia. intros Hz. apply Hf1.
        unfold keyZ. rewrite Hz.
        pose proof (prefix_snoc_kc (p ++ q) key Hpq) as Hs.
        rewrite Hk1 in Hs. apply prefix_keyZ_key; [done|].
        rewrite length_app. simpl. lia.
      + exfalso. apply Hne.
        rewrite <- (prefix_length_eq _ _ Hpq) by (unfold m0 in *; lia).
        rewrite <- (prefix_length_eq _ _ Hpq1) by (unfold m0 in *; lia). done.
      + assert (p ++ q = key) as Hk.
        { apply prefix_length_eq; [done|]. unfold m0 in *. lia. }
        rewrite Hm0. unfold m0. rewrite Nat.min_r by lia.
        rewrite (kc_ge key) by lia. intros Hz. apply Hf2.
        unfold keyZ. rewrite <- Hz.
        pose proof (prefix_snoc_kc (p ++ q) k1 Hpq1) as Hs.
        rewrite Hk in Hs. apply prefix_keyZ_key; [done|].
        rewrite length_app. simpl. lia. }
  destruct (split_two p q (Z.of_nat l)
              (memcpy (replicate 10 Byte.x00) (drop (length p) key)
                 (min (Z.of_nat l) maxPrefixLen))
              (kc k1 (length p + l)) (Leaf k1 v1) [(k1, v1)]
              (kc key (length p + l)) key v)
    as (n4 & n4' & pre & post & Hrun1 & Hrun2 & Hkvs & HSem).
  - by rewrite memcpy_length, length_replicate.
  - unfold len. lia.
  - rewrite min_Zmin. unfold maxPrefixLen.
    rewrite (memcpy_take _ _ _ (Nat.min l 10)).
    2:{ unfold len. rewrite length_replicate, length_drop.
        unfold m0 in *. lia. }
    replace (Z.to_nat (Z.min (Z.of_nat l) 10)) with (Nat.min l 10) by lia.
    rewrite take_app_le by (rewrite length_take, length_drop; unfold m0 in *; lia).
    unfold q. rewrite !take_take. f_equal. lia.
  - done.
  - constructor. rewrite <- Hlpq. apply prefix_snoc_kc. done.
  - rewrite <- Hlpq. by apply prefix_snoc_kc.
  - rewrite Hrun1. cbn [mbind option_bind]. rewrite Hrun2.
    cbn [mbind option_bind insertPost].
    exists (pre ++ [(key, v)] ++ post). split; [done|].
    assert (key ∉ [(k1, v1)].*1) as Hfresh.
    { simpl. intros Hin. apply list_elem_of_singleton in Hin. done. }
    split; [by apply inserted_fresh|]. by rewrite decide_False.
Qed.
End Splits.

(** ** Splitting a compressed path *)

Section PrefixSplit.
Context {V : Type} (leafWords : Key -> V -> Z * list byte).
Implicit Types (es : list (byte * artNode V)) (b : byte) (c n : artNode V).
Implicit Types (p q pq : list byte) (k key : Key) (kvs : list (Key * V)).

(** The node below the split keeps its directory; its compressed path is
    what follows the byte of the split. *)
Lemma split_child n es q kvs p (j : nat) qb (pfx' : list byte) :
  dir n es -> minSize n <= len es ->
  SemEdges leafWords (p ++ q) es kvs ->
  q !! j = Some qb -> length pfx' = 10%nat ->
  (forall i, (i < 10)%nat -> (j + 1 + i < length q)%nat ->
     pfx' !! i = q !! (j + 1 + i)%nat) ->
  Sem leafWords ((p ++ take j q) ++ [qb])
    (setNode n (mkNode (size (nodeOf leafWords n))
                  (len q - (Z.of_nat j + 1)) pfx')) kvs.
Proof.
  intros Hd Hmin HS Hj Hl Hpfx.
  pose proof (lookup_lt_Some _ _ _ Hj) as Hjq.
  apply (Sem_inner leafWords _ _ es (drop (Datatypes.S j) q)).
  - by apply (dir_setNode leafWords).
  - by rewrite minSize_setNode.
  - rewrite nodeOf_setNode by (by eapply dir_inner). cbn [prefixLen].
    unfold len. rewrite length_drop. lia.
  - rewrite nodeOf_setNode by (by eapply dir_inner).
    rewrite storedPrefix_mkNode. unfold len.
    replace (Z.to_nat (Z.min (Z.of_nat (length q) - (Z.of_nat j + 1)) 10))
      with (Nat.min (length q - (j + 1)) 10) by lia.
    apply list_eq. intros i. rewrite !lookup_take, lookup_drop.
    destruct (decide (i < 10)%nat) as [Hi|Hi].
    + destruct (decide (i < Nat.min (length q - (j + 1)) 10)%nat) as [Hi'|Hi'].
      * rewrite Hpfx by lia. f_equal. lia.
      * symmetry. apply lookup_ge_None_2. lia.
    + by rewrite decide_False by lia.
  - rewrite <- !(assoc_L (++)). simpl.
    by rewrite (take_drop_middle q j qb Hj).
Qed.

(** The prefix-mismatch case of [insertHelper]. *)
Lemma insertSplit_spec p n es q kvs key v cnt (j : nat) kmin :
  dir n es -> minSize n <= len es ->
  prefixLen (nodeOf leafWords n) = len q ->
  storedPrefix (nodeOf leafWords n) = take 10 q ->
  SemEdges leafWords (p ++ q) es kvs ->
  minimumKey n = Some kmin -> (p ++ q) `prefix_of` kmin -> kmin ∈ kvs.*1 ->
  p `prefix_of` key -> (j < length q)%nat ->
  agree q key (length p) j ->
  q !! j ≠ Some (kc key (length p + j)) ->
  insertPost leafWords p key v cnt kvs
    (insertSplit leafWords n key v (len p) (Z.of_nat j) cnt).
Proof.
  intros Hd Hmin HL Hst HS Hkmin Hpk Hkin Hp Hj Hag Hmis.
  pose proof (dir_prefix_length leafWords n es Hd) as Hlp.
  destruct (lookup_lt_is_Some_2 q j Hj) as [qb Hqb].
  destruct (key !! (length p + j)%nat) as [kb|] eqn:Hkb.
  2:{ (* the key ends inside the compressed path *)
    assert (insertSplit leafWords n key v (len p) (Z.of_nat j) cnt = None) as ->.
    { unfold insertSplit.
      match goal with |- context [mbind _ ?x] => destruct x end;
        cbn [mbind option_bind]; [|done].
      unfold len. replace (Z.of_nat (length p) + Z.of_nat j)
        with (Z.of_nat (length p + j)) by lia.
      by rewrite get_nat, Hkb. }
    apply lookup_ge_None in Hkb. exists kmin. split; [done|].
    pose proof (agree_short p q key j Hp Hag ltac:(lia) Hkb) as Hshort.
    destruct Hshort as [r Hr]. destruct Hpk as [r' ->].
    exists (r ++ r'). split.
    - intros [-> _]%app_eq_nil. rewrite app_nil_r in Hr. subst key.
      rewrite length_app in Hkb. lia.
    - rewrite Hr. by rewrite <- !(assoc_L (++)). }
  rewrite (kc_lookup _ _ _ Hkb) in Hmis.
  assert (qb ≠ kb) as Hne by congruence.
  pose proof (lookup_lt_Some _ _ _ Hkb) as Hlk.
  assert ((p ++ take j q) `prefix_of` key) as Hpq.
  { apply agree_full_prefix; [done| |].
    - rewrite length_take. intros i Hi.
      rewrite lookup_take_lt by lia. apply Hag. lia.
    - rewrite length_take. lia. }
  assert (((p ++ take j q) ++ [kb]) `prefix_of` keyZ key) as Hpk2.
  { apply prefix_key_keyZ. apply prefix_snoc_lookup; [done|].
    rewrite length_app, length_take.
    by replace (length p + Nat.min j (length q))%nat with (length p + j)%nat
      by lia. }
  set (m := nodeOf leafWords n) in *.
  assert (exists pfx',
    (if prefixLen m <? maxPrefixLen
     then b ← get (prefix m) (Z.of_nat j);
          _ ← slice_from (prefix m) (Z.of_nat j + 1);
          pfx ← memmove (prefix m) (fun d => slice_from d (Z.of_nat j + 1))
                  (min (prefixLen m - (Z.of_nat j + 1)) maxPrefixLen);
          Some (b, pfx)
     else minKey ← minimumKey n;
          b ← get minKey (len p + Z.of_nat j);
          src ← slice_from minKey (len p + Z.of_nat j + 1);
          pfx ← memmove (prefix m) (fun _ => Some src)
                  (min (prefixLen m - (Z.of_nat j + 1)) maxPrefixLen);
          Some (b, pfx)) = Some (qb, pfx')
    /\ length pfx' = 10%nat
    /\ forall i, (i < 10)%nat -> (j + 1 + i < length q)%nat ->
         pfx' !! i = q !! (j + 1 + i)%nat) as (pfx' & Hcomp & Hlp' & Hpfx').
  { rewrite HL, min_Zmin. unfold maxPrefixLen, len.
    replace (Z.min (Z.of_nat (length q) - (Z.of_nat j + 1)) 10)
      with (Z.of_nat (Nat.min (length q - (j + 1)) 10)) by lia.
    destruct (Z.ltb_spec (Z.of_nat (length q)) 10) as [Hshort|Hlong].
    - rewrite get_nat.
      rewrite (storedPrefix_lookup m q j) by (try done; lia).
      rewrite Hqb. cbn [mbind option_bind].
      rewrite slice_from_Some by (unfold len; lia). cbn [mbind option_bind].
      replace (Z.of_nat j + 1) with (Z.of_nat (j + 1)) by lia.
      destruct (memmove_self (prefix m) (j + 1) (Nat.min (length q - (j + 1)) 10))
        as (pfx' & Hrun & Hl' & Hall); [lia|lia|].
      rewrite Hrun. cbn [mbind option_bind]. exists pfx'.
      split; [done|]. split; [lia|]. intros i Hi Hi'.
      rewrite Hall by lia. apply storedPrefix_lookup; try done; lia.
    - rewrite Hkmin. cbn [mbind option_bind].
      pose proof (prefix_length _ _ Hpk) as Hlk'. rewrite length_app in Hlk'.
      assert (forall i, (i < length q)%nat ->
                kmin !! (length p + i)%nat = q !! i) as Hkq.
      { intros i Hi.
        rewrite <- (prefix_lookup_eq _ _ (length p + i) Hpk)
          by (rewrite length_app; lia).
        rewrite lookup_app_r by lia. f_equal. lia. }
      replace (Z.of_nat (length p) + Z.of_nat j)
        with (Z.of_nat (length p + j)) by lia.
      rewrite get_nat, Hkq, Hqb by done. cbn [mbind option_bind].
      rewrite slice_from_Some by (unfold len; lia). cbn [mbind option_bind].
      destruct (memmove_from (prefix m)
                  (drop (Z.to_nat (Z.of_nat (length p + j) + 1)) kmin)
                  (Nat.min (length q - (j + 1)) 10))
        as (pfx' & Hrun & Hl' & Hall); [lia|rewrite length_drop; lia|].
      rewrite Hrun. cbn [mbind option_bind]. exists pfx'.
      split; [done|]. split; [lia|]. intros i Hi Hi'.
      rewrite Hall by lia. rewrite lookup_drop.
      replace (Z.to_nat (Z.of_nat (length p + j) + 1) + i)%nat
        with (length p + (j + 1 + i))%nat by lia.
      by apply Hkq. }
  pose proof (split_child n es q kvs p j qb pfx' Hd Hmin HS Hqb Hlp' Hpfx')
    as Hchild.
  destruct (split_two leafWords p (take j q) (Z.of_nat j)
              (memcpy (replicate 10 Byte.x00) (prefix m) (Z.of_nat j))
              qb (setNode n (mkNode (size m) (len q - (Z.of_nat j + 1)) pfx'))
              kvs kb key v) as (n4 & n4' & pre & post & Hrun1 & Hrun2
                                     & Hkvs & HSem); try done.
  - by rewrite memcpy_length, length_replicate.
  - unfold len. rewrite length_take. lia.
  - rewrite (memcpy_take _ _ _ (Nat.min j 10))
      by (unfold len; rewrite length_replicate, Hlp; lia).
    replace (Z.to_nat (Z.min (Z.of_nat j) 10)) with (Nat.min j 10) by lia.
    rewrite take_app_le by (rewrite length_take; lia).
    rewrite !take_take. apply list_eq. intros i. rewrite !lookup_take.
    destruct (decide (i < Nat.min (Nat.min j 10) (Nat.min j 10))%nat) as [Hi|Hi].
    + rewrite decide_True by lia. apply storedPrefix_lookup; try done; lia.
    + by rewrite decide_False by lia.
  - assert (insertSplit leafWords n key v (len p) (Z.of_nat j) cnt
            = Some (n4', cnt + 1)) as ->.
    { unfold insertSplit. fold m. rewrite HL in Hcomp |- *.
      destruct (len q <? maxPrefixLen).
      - destruct (get (prefix m) (Z.of_nat j)) as [b0|];
          cbn [mbind option_bind] in Hcomp |- *; [|done].
        destruct (slice_from (prefix m) (Z.of_nat j + 1));
          cbn [mbind option_bind] in Hcomp |- *; [|done].
        destruct (memmove _ _ _) as [pf|];
          cbn [mbind option_bind] in Hcomp |- *; [|done].
        injection Hcomp as -> ->. rewrite Hrun1. cbn [mbind option_bind].
        unfold len. replace (Z.of_nat (length p) + Z.of_nat j)
          with (Z.of_nat (length p + j)) by lia.
        rewrite get_nat, Hkb. cbn [mbind option_bind].
        unfold newLeafNode. by rewrite Hrun2.
      - destruct (minimumKey n) as [mk|];
          cbn [mbind option_bind] in Hcomp |- *; [|done].
        destruct (get mk (len p + Z.of_nat j)) as [b0|];
          cbn [mbind option_bind] in Hcomp |- *; [|done].
        destruct (slice_from mk (len p + Z.of_nat j + 1));
          cbn [mbind option_bind] in Hcomp |- *; [|done].
        destruct (memmove _ _ _) as [pf|];
          cbn [mbind option_bind] in Hcomp |- *; [|done].
        injection Hcomp as -> ->. rewrite Hrun1. cbn [mbind option_bind].
        unfold len. replace (Z.of_nat (length p) + Z.of_nat j)
          with (Z.of_nat (length p + j)) by lia.
        rewrite get_nat, Hkb. cbn [mbind option_bind].
        unfold newLeafNode. by rewrite Hrun2. }
    cbn [insertPost]. exists (pre ++ [(key, v)] ++ post). split; [done|].
    assert (key ∉ kvs.*1) as Hfresh.
    { intros (kv & -> & Hin)%list_elem_of_fmap.
      pose proof (Sem_under _ _ _ _ Hchild) as Hu. unfold allUnder in Hu.
      rewrite Forall_forall in Hu. apply Hu in Hin.
      apply Hne. by apply (prefix_snoc_inj (p ++ take j q) (keyZ kv.1)). }
    split; [by apply inserted_fresh|]. by rewrite decide_False.
Qed.
End PrefixSplit.

(** ** [insertHelper] *)

Section InsertHelper.
Context {V : Type} (leafWords : Key -> V -> Z * list byte).
Implicit Types (es : list (byte * artNode V)) (b : byte) (c n : artNode V).
Implicit Types (p q pq : list byte) (k key : Key) (kvs : list (Key * V)).

Lemma insertHelper_inner n key (v : V) (depth cnt : Z) :
  isLeaf n = false ->
  insertHelper leafWords n key v depth cnt
  = r ← (if bool_decide (prefixLen (nodeOf leafWords n) ≠ 0) then
           mismatch ← prefixMismatch leafWords n key depth;
           if bool_decide (mismatch ≠ prefixLen (nodeOf leafWords n)) then
             res ← insertSplit leafWords n key v depth mismatch cnt;
             Some (inl res)
           else Some (inr (depth + prefixLen (nodeOf leafWords n)))
         else Some (inr depth));
    match r with
    | inl res => Some res
    | inr depth =>
        kd ← get key depth;
        next ← findChild n kd;
        match load n next, next with
        | Some _, Slot i =>
            r ← on_child
                  (fun c => r ← insertHelper leafWords c key v (depth + 1) cnt;
                            Some (Some r.1, r.2))
                  (childrenOf n) (Z.to_nat i);
            Some (setChildren n r.1, r.2)
        | _, _ =>
            n' ← addChild leafWords n kd (newLeafNode key v);
            Some (n', cnt + 1)
        end
    end.
Proof. by destruct n. Qed.

Lemma dir_two n es : dir n es -> minSize n <= len es -> (2 <= length es)%nat.
Proof.
  intros [_ Hd] Hmin. destruct n; [done|..]; cbn [minSize] in Hmin;
    unfold len, node4Min, node16Min, node48Min, node256Min in Hmin; lia.
Qed.

(** An inner node holds a key that goes on after the node's path. *)
Lemma SemEdges_longer pq es kvs :
  SemEdges leafWords pq es kvs -> sortedEdges es -> (2 <= length es)%nat ->
  exists k0 b, k0 ∈ kvs.*1 /\ (pq ++ [b]) `prefix_of` k0.
Proof.
  intros HS Hs Hlen. inversion HS as [|? b1 c1 es1 l1 l2 H1 HS2]; subst;
    [simpl in Hlen; lia|].
  inversion HS2 as [|? b2 c2 es2 l2' l3 H2 HS3]; subst; [simpl in Hlen; lia|].
  apply sortedEdges_cons in Hs as [_ Hall].
  apply Forall_cons in Hall as [Hlt _]. simpl in Hlt.
  assert (b2 ≠ Byte.x00) as Hb2.
  { intros ->. unfold byte_lt in Hlt. rewrite b2z_x00 in Hlt.
    pose proof (b2z_range b1). lia. }
  pose proof (Sem_nonempty _ _ _ _ H2) as Hne.
  destruct l2' as [|[k0 v0] l2']; [done|]. exists k0, b2. split.
  - rewrite !fmap_app. apply elem_of_app. right. apply elem_of_app. left.
    simpl. by left.
  - apply prefix_keyZ_nonzero; [|done].
    pose proof (Sem_under _ _ _ _ H2) as Hu.
    by apply Forall_cons in Hu as [Hu _].
Qed.

Lemma inserted_mid key (v : V) pre mid mid' post :
  inserted key v mid mid' ->
  Forall (fun kv : Key * V => kv.1 ≠ key) (pre ++ post) ->
  inserted key v (pre ++ mid ++ post) (pre ++ mid' ++ post).
Proof.
  intros Hins Hout kv. rewrite Forall_forall in Hout.
  rewrite !elem_of_app, (Hins kv). split.
  - intros [H|[[->|[H Hk]]|H]]; try tauto.
    + right. split; [tauto|]. apply Hout. rewrite elem_of_app. tauto.
    + right. split; [tauto|]. apply Hout. rewrite elem_of_app. tauto.
  - intros [->|[[H|[H|H]] Hk]]; tauto.
Qed.

Lemma elem_mid_keys key pre mid post :
  Forall (fun kv : Key * V => kv.1 ≠ key) (pre ++ post) ->
  key ∈ (pre ++ mid ++ post).*1 <-> key ∈ mid.*1.
Proof.
  intros Hout. rewrite Forall_forall in Hout. rewrite !fmap_app, !elem_of_app.
  split; [|tauto].
  intros [H|[H|H]]; [|done|]; apply list_elem_of_fmap in H as (kv & -> & Hin);
    exfalso; apply (Hout kv); try done; rewrite elem_of_app; tauto.
Qed.

Lemma aliasFree_mid key pre mid post :
  aliasFree key (pre ++ mid ++ post) -> aliasFree (V:=V) key mid.
Proof.
  intros H k0 Hk0. apply H. rewrite !fmap_app, !elem_of_app. tauto.
Qed.

Lemma blocked_mid key pre mid post :
  blocked (V:=V) key mid -> blocked key (pre ++ mid ++ post).
Proof.
  intros (k0 & Hk0 & Hp). exists k0. split; [|done].
  rewrite !fmap_app, !elem_of_app. tauto.
Qed.

(** The part of [insertHelper] that follows the check of the compressed
    path, on a key that agrees with the whole path. *)
Lemma insert_descend p n es q kvs key v cnt (dp : Z) :
  dir n es -> minSize n <= len es ->
  prefixLen (nodeOf leafWords n) = len q ->
  storedPrefix (nodeOf leafWords n) = take 10 q ->
  SemEdges leafWords (p ++ q) es kvs ->
  p `prefix_of` key -> agree q key (length p) (length q) ->
  aliasFree key kvs -> dp = len p + len q ->
  (forall b c mid, (b, c) ∈ es -> Sem leafWords ((p ++ q) ++ [b]) c mid ->
     ((p ++ q) ++ [b]) `prefix_of` key -> aliasFree key mid ->
     insertPost leafWords ((p ++ q) ++ [b]) key v cnt mid
       (insertHelper leafWords c key v (len (p ++ q) + 1) cnt)) ->
  insertPost leafWords p key v cnt kvs
    (kd ← get key dp;
     next ← findChild n kd;
     match load n next, next with
     | Some _, Slot i =>
         r ← on_child
               (fun c => r ← insertHelper leafWords c key v (dp + 1) cnt;
                         Some (Some r.1, r.2))
               (childrenOf n) (Z.to_nat i);
         Some (setChildren n r.1, r.2)
     | _, _ =>
         n' ← addChild leafWords n kd (newLeafNode key v);
         Some (n', cnt + 1)
     end).
Proof.
  intros Hd Hmin HL Hst HS Hp Hag Hfree -> IH.
  pose proof (dir_sorted n es Hd) as Hs.
  replace (len p + len q) with (Z.of_nat (length (p ++ q)))
    by (rewrite length_app; unfold len; lia).
  rewrite get_nat.
  destruct (key !! length (p ++ q)) as [kd|] eqn:Hkd; cbn [mbind option_bind].
  2:{ apply lookup_ge_None in Hkd. rewrite length_app in Hkd.
      destruct (SemEdges_longer (p ++ q) es kvs HS Hs (dir_two n es Hd Hmin))
        as (k0 & b & Hk0 & Hpk0).
      exists k0. split; [done|].
      pose proof (agree_short p q key (length q) Hp Hag (le_n _) Hkd) as [r Hr].
      destruct Hpk0 as [r' ->]. exists (r ++ [b] ++ r'). split.
      - intros [_ [=]]%app_eq_nil.
      - rewrite Hr. by rewrite <- !(assoc_L (++)). }
  pose proof (lookup_lt_Some _ _ _ Hkd) as Hlk. rewrite length_app in Hlk.
  assert ((p ++ q) `prefix_of` key) as Hpq
    by (apply agree_full_prefix; [done|done|lia]).
  assert (((p ++ q) ++ [kd]) `prefix_of` key) as Hpk
    by (by apply prefix_snoc_lookup).
  destruct (lookupEdge kd es) as [c|] eqn:Hl.
  - destruct (dir_findChild_Some n es kd c Hd Hl) as (i & Hf & Hc & Hrep).
    rewrite Hf. cbn [mbind option_bind]. unfold load. rewrite get_nat, Hc.
    cbn [default from_option id]. rewrite Nat2Z.id.
    rewrite (on_child_lookup _ _ _ c Hc).
    destruct (SemEdges_split leafWords (p ++ q) es kvs kd c HS Hs Hl)
      as (pre & mid & post & -> & Hmid & Hout & Hrepl & _).
    assert (Forall (fun kv : Key * V => kv.1 ≠ key) (pre ++ post)) as Hout'.
    { eapply Forall_impl; [apply Hout|]. intros kv Hnp Heq. apply Hnp.
      rewrite Heq. by apply prefix_key_keyZ. }
    specialize (IH kd c mid (lookupEdge_Some_elem _ _ _ Hl) Hmid Hpk
                  (aliasFree_mid _ _ _ _ Hfree)).
    replace (Z.of_nat (length (p ++ q)) + 1) with (len (p ++ q) + 1) by done.
    destruct (insertHelper leafWords c key v (len (p ++ q) + 1) cnt)
      as [[c' cnt']|]; cbn [mbind option_bind fst snd insertPost] in *.
    + destruct IH as (mid' & Hmid' & Hins & ->).
      exists (pre ++ mid' ++ post). split; [|split].
      * apply (Sem_inner leafWords p _ (replaceEdge kd c' es) q).
        -- apply Hrep.
        -- rewrite minSize_setChildren. unfold len in *.
           by rewrite length_replaceEdge.
        -- by rewrite nodeOf_setChildren.
        -- by rewrite nodeOf_setChildren.
        -- by apply Hrepl.
      * by apply inserted_mid.
      * f_equal. pose proof (elem_mid_keys key pre mid post Hout').
        repeat case_decide; tauto.
    + by apply blocked_mid.
  - destruct (dir_findChild_None n es kd Hd Hl) as (r & Hf & Hload).
    rewrite Hf. cbn [mbind option_bind]. rewrite Hload.
    destruct (dir_addChild leafWords n es kd (Leaf key v) Hd Hl)
      as (n' & Hrun & Hd' & HL' & Hst' & Hmin').
    unfold newLeafNode. rewrite Hrun. cbn [mbind option_bind insertPost].
    destruct (SemEdges_insert leafWords (p ++ q) es kvs kd (Leaf key v)
                [(key, v)] HS) as (pre & post & Hkvs & HS').
    { constructor. by apply prefix_key_keyZ. }
    assert (key ∉ kvs.*1) as Hfresh.
    { intros (kv & -> & Hin)%list_elem_of_fmap.
      pose proof (SemEdges_fresh leafWords _ _ _ kd HS Hl) as Hu.
      rewrite Forall_forall in Hu. apply (Hu kv Hin).
      by apply prefix_key_keyZ. }
    exists (pre ++ [(key, v)] ++ post). split; [|split].
    + apply (Sem_inner leafWords p n' (insertEdge kd (Leaf key v) es) q);
        try done; [|congruence|congruence].
      unfold len in *. rewrite length_insertEdge. lia.
    + by apply inserted_fresh.
    + by rewrite decide_False.
Qed.

Lemma blocked_short p q key (j : nat) k0 :
  p `prefix_of` key -> agree q key (length p) j -> (j < length q)%nat ->
  (length key <= length p + j)%nat -> (p ++ q) `prefix_of` k0 ->
  properPrefix key k0.
Proof.
  intros Hp Hag Hj Hlen Hk0.
  pose proof (agree_short p q key j Hp Hag ltac:(lia) Hlen) as [r Hr].
  destruct Hk0 as [r' ->]. exists (r ++ r'). split.
  - intros [-> _]%app_eq_nil. rewrite app_nil_r in Hr. subst key.
    rewrite length_app in Hlen. lia.
  - rewrite Hr. by rewrite <- !(assoc_L (++)).
Qed.

(** [insertHelper] on a well-formed subtree, for a key that follows the
    path to the subtree and is alias-free with respect to its keys: it
    panics only if the key is a proper prefix of a stored key, and
    otherwise returns a well-formed subtree that holds the new pair. *)
Lemma Sem_SemEdges_insert :
  (forall p n kvs, Sem leafWords p n kvs ->
     forall key v cnt, p `prefix_of` key -> aliasFree key kvs ->
       insertPost leafWords p key v cnt kvs
         (insertHelper leafWords n key v (len p) cnt))
  /\ (forall pq es kvs, SemEdges leafWords pq es kvs ->
        forall b c mid, (b, c) ∈ es -> Sem leafWords (pq ++ [b]) c mid ->
        forall key v cnt, (pq ++ [b]) `prefix_of` key -> aliasFree key mid ->
          insertPost leafWords (pq ++ [b]) key v cnt mid
            (insertHelper leafWords c key v (len pq + 1) cnt)).
Proof.
  apply Sem_SemEdges_ind.
  - intros p k v0 Hpk key v cnt Hp Hfree. cbn [insertHelper].
    destruct (isMatch (Leaf k v0) key) eqn:Hm.
    + cbn [isMatch] in Hm. case_bool_decide; [|done].
      apply bool_decide_eq_true in Hm as ->. cbn [insertPost].
      exists [(key, v)]. split; [by constructor|]. split.
      * intros kv. rewrite !list_elem_of_singleton. split; [tauto|].
        intros [->|[-> Hne]]; [done|]. by simpl in Hne.
      * rewrite decide_True; [lia|]. simpl. by left.
    + apply insertLeafSplit_spec; try done.
      intros ->. cbn [isMatch] in Hm. by rewrite !bool_decide_true in Hm.
  - intros p n es q kvs Hd Hmin HL Hst HS IH key v cnt Hp Hfree.
    assert (Sem leafWords p n kvs) as HSem by (by econstructor).
    destruct (Sem_minimumKey leafWords p n es q kvs Hd HS HSem)
      as (kmin & Hkmin & Hpk & Hkin).
    pose proof (dir_prefix_length leafWords n es Hd) as Hlp.
    rewrite insertHelper_inner by (by eapply dir_inner).
    assert (forall b c mid, (b, c) ∈ es ->
              Sem leafWords ((p ++ q) ++ [b]) c mid ->
              ((p ++ q) ++ [b]) `prefix_of` key -> aliasFree key mid ->
              insertPost leafWords ((p ++ q) ++ [b]) key v cnt mid
                (insertHelper leafWords c key v (len (p ++ q) + 1) cnt)) as IH'.
    { intros b c mid He Hc Hpb Hfm. by apply IH. }
    case_bool_decide as HL0.
    + pose proof (prefixMismatch_spec leafWords n p q key kmin Hlp HL Hst
                    Hkmin Hpk) as Hpm.
      change (len p) with (Z.of_nat (length p)).
      destruct (prefixMismatch leafWords n key (Z.of_nat (length p))) as [j|];
        cbn [mbind option_bind].
      * destruct Hpm as (j' & -> & Hj & Hag & Hmis). rewrite HL.
        case_bool_decide as Hjq.
        -- assert (j' < length q)%nat as Hlt by (unfold len in Hjq; lia).
           pose proof (insertSplit_spec leafWords p n es q kvs key v cnt j' kmin
                         Hd Hmin HL Hst HS Hkmin Hpk Hkin Hp Hlt Hag
                         (Hmis Hlt)) as Hsp.
           change (Z.of_nat (length p)) with (len p).
           destruct (insertSplit leafWords n key v (len p) (Z.of_nat j') cnt)
             as [[n' cnt']|]; done.
        -- cbn [mbind option_bind]. assert (j' = length q) as ->
             by (unfold len in Hjq; lia).
           by apply (insert_descend p n es q kvs key v cnt).
      * cbn [insertPost]. destruct Hpm as (j' & Hj & Hshort & Hag).
        exists kmin. split; [done|]. by apply (blocked_short p q key j').
    + cbn [mbind option_bind].
      assert (q = []) as ->.
      { rewrite HL in HL0. unfold len in HL0. destruct q; [done|].
        simpl in HL0. lia. }
      apply (insert_descend p n es [] kvs key v cnt); try done.
      * intros i Hi. simpl in Hi. lia.
      * unfold len. simpl. lia.
  - intros pq b c mid Hin. by apply elem_of_nil in Hin.
  - intros pq b c es l1 l2 H1 IH1 H2 IH2 b' c' mid Hin Hc' key v cnt Hp Hfree.
    apply elem_of_cons in Hin as [[= -> ->]|Hin].
    + pose proof (Sem_det leafWords _ _ _ _ _ Hc' H1) as ->.
      replace (len pq + 1) with (len (pq ++ [b]))
        by (unfold len; rewrite length_app; simpl; lia).
      by apply IH1.
    + by apply (IH2 b' c' mid).
Qed.

Lemma Sem_insert p n kvs key v cnt :
  Sem leafWords p n kvs -> p `prefix_of` key -> aliasFree key kvs ->
  insertPost leafWords p key v cnt kvs
    (insertHelper leafWords n key v (len p) cnt).
Proof. intros H. by apply (proj1 Sem_SemEdges_insert). Qed.
End InsertHelper.

(** ** [deleteHelper] *)

Section DeleteHelper.
Context {V : Type} (leafWords : Key -> V -> Z * list byte).
Implicit Types (es : list (byte * artNode V)) (b : byte) (c n : artNode V).
Implicit Types (p q pq : list byte) (k key : Key) (kvs : list (Key * V)).

Lemma take_stored (m : node) q :
  length (prefix m) = 10%nat -> prefixLen m = len q ->
  storedPrefix m = take 10 q ->
  take (Z.to_nat (prefixLen m)) (prefix m) = take 10 q.
Proof.
  intros Hl HL <-. unfold storedPrefix, maxPrefixLen.
  destruct (Z.le_gt_cases (prefixLen m) 10) as [Hle|Hgt].
  - by rewrite Z.min_l.
  - rewrite Z.min_r by lia. by rewrite !take_ge by lia.
Qed.

(** The inline prefix of a child that replaces its Node4 parent stores the
    first bytes of the joined path. *)
Lemma mergedPrefix_stored (m mc : node) (edge : byte) q qc (sz : Z) :
  length (prefix m) = 10%nat -> length (prefix mc) = 10%nat ->
  prefixLen m = len q -> prefixLen mc = len qc ->
  storedPrefix m = take 10 q -> storedPrefix mc = take 10 qc ->
  length (mergedPrefix m mc edge) = 10%nat
  /\ storedPrefix (mkNode sz (prefixLen mc + prefixLen m + 1)
                     (mergedPrefix m mc edge))
     = take 10 (q ++ [edge] ++ qc).
Proof.
  intros Hl Hlc HL HLc Hst Hstc. unfold mergedPrefix.
  rewrite (take_stored m q), (take_stored mc qc) by done.
  set (cat := take 10 q ++ [edge] ++ take 10 qc).
  assert (length cat
          = (Nat.min 10 (length q) + 1 + Nat.min 10 (length qc))%nat) as Hcat.
  { unfold cat. rewrite !length_app, !length_take. simpl. lia. }
  split.
  - rewrite length_app, length_take, length_drop. lia.
  - rewrite storedPrefix_mkNode, HL, HLc. unfold len.
    replace (Z.to_nat (Z.min (Z.of_nat (length qc) + Z.of_nat (length q) + 1) 10))
      with (Nat.min (length qc + length q + 1) 10) by lia.
    rewrite take_app_le by (rewrite length_take; lia).
    rewrite take_take. unfold cat. apply list_eq. intros i.
    lookup_norm. lookup_cases. symmetry. apply lookup_ge_None_2. lia.
Qed.

(** [shrink] of a Node4 that is left with one child. *)
Lemma collapse_spec p (m : node) ks cs q b' c' l :
  length (prefix m) = 10%nat -> prefixLen m = len q ->
  storedPrefix m = take 10 q ->
  ks !! 0%nat = Some b' -> cs !! 0%nat = Some (Some c') ->
  Sem leafWords ((p ++ q) ++ [b']) c' l ->
  exists n', shrink leafWords (N4 m ks cs) = Some n' /\ Sem leafWords p n' l.
Proof.
  intros Hl HL Hst Hk Hc Hc'. destruct (isLeaf c') eqn:Hleaf.
  - exists c'. split; [by apply shrink_Node4_leaf|].
    destruct c' as [k v| | | |]; try done.
    apply Sem_leaf_inv in Hc' as [-> Hp]. constructor.
    etrans; [|apply Hp]. rewrite <- (assoc_L (++)). by apply prefix_app_r.
  - destruct (Sem_inner_inv leafWords _ _ _ Hc' Hleaf)
      as (esc & qc & Hdc & Hminc & HLc & Hstc & HSc).
    pose proof (dir_prefix_length leafWords c' esc Hdc) as Hlc.
    eexists. split.
    + apply shrink_Node4_inner; try done; unfold len in *; lia.
    + destruct (mergedPrefix_stored m (nodeOf leafWords c') b' q qc
                  (size (nodeOf leafWords c')) Hl Hlc HL HLc Hst Hstc)
        as [Hlm Hsm].
      apply (Sem_inner leafWords p _ esc (q ++ [b'] ++ qc)).
      * by apply (dir_setNode leafWords).
      * by rewrite minSize_setNode.
      * rewrite nodeOf_setNode by done. cbn [prefixLen]. rewrite HL, HLc.
        unfold len. rewrite !length_app. simpl. lia.
      * by rewrite nodeOf_setNode.
      * by rewrite !(assoc_L (++)) in *.
Qed.

(** Outcome of [deleteHelper] on the subtree [n] at path [p] that holds
    [kvs]: a panic or [false] with the subtree as it was, both only for a
    key that is not stored; or [true], the pair gone and the counter
    decreased. *)
Definition deletePost p key (cnt : Z) n kvs
    (r : option (option (artNode V) * (bool * Z))) : Prop :=
  match r with
  | None => key ∉ kvs.*1
  | Some (r1, (true, cnt')) =>
      key ∈ kvs.*1 /\ cnt' = cnt - 1
      /\ match r1 with
         | None => (exists v, n = Leaf key v)
         | Some n' =>
             isLeaf n = false
             /\ Sem leafWords p n' (filter (fun kv => kv.1 ≠ key) kvs)
         end
  | Some (r1, (false, cnt')) => (key ∉ kvs.*1) /\ r1 = Some n /\ cnt' = cnt
  end.

Lemma deleteHelper_leaf k (v : V) key (depth cnt : Z) :
  key ≠ [] -> isMatch (Leaf k v) key = true ->
  deleteHelper leafWords (Leaf k v) key depth cnt
  = Some (None, (true, cnt - 1)).
Proof.
  intros Hk Hm. cbn [deleteHelper].
  rewrite bool_decide_false by (unfold len; destruct key; simpl; [done|lia]).
  by rewrite Hm.
Qed.

Lemma deleteHelper_leaf_miss k (v : V) key (depth cnt : Z) :
  key ≠ [] -> isMatch (Leaf k v) key = false ->
  deleteHelper leafWords (Leaf k v) key depth cnt = None
  \/ deleteHelper leafWords (Leaf k v) key depth cnt
     = Some (Some (Leaf k v), (false, cnt)).
Proof.
  intros Hk Hm. cbn [deleteHelper].
  rewrite bool_decide_false by (unfold len; destruct key; simpl; [done|lia]).
  rewrite Hm, andb_false_r.
  match goal with |- context [mbind _ ?x] => destruct x as [[d|]|] end;
    cbn [mbind option_bind]; [|by right|by left].
  destruct (keyCharAt key d) as [kcv|]; cbn [mbind option_bind]; [|by left].
  cbn [findChild mbind option_bind]. by right.
Qed.

Lemma deleteHelper_inner n key (depth cnt : Z) :
  isLeaf n = false -> key ≠ [] ->
  deleteHelper leafWords n key depth cnt
  = d ← (if bool_decide (prefixLen (nodeOf leafWords n) ≠ 0) then
           mismatch ← prefixMismatch leafWords n key depth;
           if bool_decide (mismatch ≠ prefixLen (nodeOf leafWords n))
           then Some None
           else Some (Some (depth + prefixLen (nodeOf leafWords n)))
         else Some (Some depth));
    match d with
    | None => Some (Some n, (false, cnt))
    | Some depth =>
        keyChar ← keyCharAt key depth;
        next ← findChild n keyChar;
        match load n next, next with
        | Some c, Slot i =>
            if isLeaf c && isMatch c key then
              n' ← RemoveChild leafWords n keyChar;
              Some (Some n', (true, cnt - 1))
            else
              r ← on_child
                    (fun c => deleteHelper leafWords c key (depth + 1) cnt)
                    (childrenOf n) (Z.to_nat i);
              Some (Some (setChildren n r.1), r.2)
        | _, _ => Some (Some n, (false, cnt))
        end
    end.
Proof.
  intros Hn Hk.
  assert (bool_decide (len key = 0) = false) as Hk0
    by (apply bool_decide_eq_false; unfold len; destruct key; simpl; [done|lia]).
  destruct n; [done|..]; cbn [deleteHelper]; rewrite Hk0, Hn; done.
Qed.
End DeleteHelper.

Section DeleteSpec.
Context {V : Type} (leafWords : Key -> V -> Z * list byte).
Implicit Types (es : list (byte * artNode V)) (b : byte) (c n : artNode V).
Implicit Types (p q pq : list byte) (k key : Key) (kvs : list (Key * V)).

Lemma isMatch_leaf k (v : V) key : isMatch (Leaf k v) key = true <-> k = key.
Proof.
  cbn [isMatch]. split.
  - case_bool_decide; [|done]. by intros ?%bool_decide_eq_true.
  - intros ->. by rewrite !bool_decide_true.
Qed.

Lemma isMatch_inv c key :
  isLeaf c && isMatch c key = true -> exists v, c = Leaf key v.
Proof.
  intros [Hl Hm]%andb_true_iff. destruct c as [k v| | | |]; try done.
  apply isMatch_leaf in Hm as ->. by exists v.
Qed.

Lemma keyCharAt_total key (i : Z) : is_Some (keyCharAt key i).
Proof.
  unfold keyCharAt. destruct (Z.ltb_spec i 0); [by eexists|]. simpl.
  destruct (Z.geb_spec i (len key)); [by eexists|].
  apply get_is_Some. lia.
Qed.

Lemma setChildren_id n (i : nat) c :
  childrenOf n !! i = Some (Some c) ->
  setChildren n (<[i := Some c]> (childrenOf n)) = n.
Proof. intros H. rewrite list_insert_id by done. by destruct n. Qed.

Lemma filter_out_mid key pre (mid : list (Key * V)) post :
  Forall (fun kv : Key * V => kv.1 ≠ key) (pre ++ post) ->
  filter (fun kv : Key * V => kv.1 ≠ key) (pre ++ mid ++ post)
  = pre ++ filter (fun kv : Key * V => kv.1 ≠ key) mid ++ post.
Proof.
  intros [Hpre Hpost]%Forall_app. rewrite !filter_app.
  f_equal; [|f_equal].
  - clear -Hpre. induction Hpre as [|x l Hx Hl IH]; [done|].
    by rewrite filter_cons_True, IH.
  - clear -Hpost. induction Hpost as [|x l Hx Hl IH]; [done|].
    by rewrite filter_cons_True, IH.
Qed.

Lemma storedPrefix_decSize (m : node) : storedPrefix (decSize m) = storedPrefix m.
Proof. done. Qed.

Lemma SemEdges_single_inv pq b c (l : list (Key * V)) :
  SemEdges leafWords pq [(b, c)] l -> Sem leafWords (pq ++ [b]) c l.
Proof.
  intros H. inversion H as [|? ? ? ? l1 l2 H1 H2]; subst.
  inversion H2; subst. by rewrite app_nil_r.
Qed.

(** Removing the leaf child under [b]. *)
Lemma remove_leaf_child p n es q pre post b key (v : V) :
  dir n es -> minSize n <= len es ->
  prefixLen (nodeOf leafWords n) = len q ->
  storedPrefix (nodeOf leafWords n) = take 10 q ->
  lookupEdge b es = Some (Leaf key v) ->
  SemEdges leafWords (p ++ q) (removeEdge b es) (pre ++ post) ->
  exists n', RemoveChild leafWords n b = Some n'
             /\ Sem leafWords p n' (pre ++ post).
Proof.
  intros Hd Hmin HL Hst Hl Hrem.
  destruct (decide (nodeType n = Node4 /\ length es = 2%nat)) as [[Hty Hlen]|Hno].
  - destruct n as [|m ks cs| | |]; try done.
    destruct (dir_RemoveChild_last leafWords m ks cs es b _ Hd Hl Hlen)
      as (ks' & cs' & b' & c' & Hre & Hk & Hc & Hrun).
    rewrite Hre in Hrem. apply SemEdges_single_inv in Hrem.
    rewrite Hrun.
    apply (collapse_spec leafWords p (decSize m) ks' cs' q b' c'); try done.
    apply (dir_prefix_length leafWords _ _ Hd).
  - destruct (dir_RemoveChild leafWords n es b _ Hd Hl Hmin)
      as (n' & Hrun & Hd' & HL' & Hst' & Hmin'); [tauto|].
    exists n'. split; [done|].
    apply (Sem_inner leafWords p n' (removeEdge b es) q); try done; congruence.
Qed.

(** [deleteHelper] on an inner node. *)
Lemma delete_inner p n es q kvs key cnt :
  dir n es -> minSize n <= len es ->
  prefixLen (nodeOf leafWords n) = len q ->
  storedPrefix (nodeOf leafWords n) = take 10 q ->
  SemEdges leafWords (p ++ q) es kvs -> key ≠ [] ->
  (forall b c mid, (b, c) ∈ es -> Sem leafWords ((p ++ q) ++ [b]) c mid ->
     deletePost leafWords ((p ++ q) ++ [b]) key cnt c mid
       (deleteHelper leafWords c key (len (p ++ q) + 1) cnt)) ->
  deletePost leafWords p key cnt n kvs
    (deleteHelper leafWords n key (len p) cnt).
Proof.
  intros Hd Hmin HL Hst HS Hk IH.
  pose proof (dir_sorted n es Hd) as Hs.
  pose proof (dir_inner n es Hd) as Hinner.
  assert (Sem leafWords p n kvs) as HSem by (by econstructor).
  destruct (Sem_minimumKey leafWords p n es q kvs Hd HS HSem)
    as (kmin & Hkmin & Hpk & Hkin).
  pose proof (dir_prefix_length leafWords n es Hd) as Hlp.
  assert (len (p ++ q) = len p + len q) as Hlen
    by (unfold len; rewrite length_app; lia).
  rewrite deleteHelper_inner by done.
  (* what happens below the edge taken, once the path has been matched *)
  assert (forall kcv,
    (key ∈ kvs.*1 -> ((p ++ q) ++ [kcv]) `prefix_of` keyZ key) ->
    deletePost leafWords p key cnt n kvs
      (next ← findChild n kcv;
       match load n next, next with
       | Some c, Slot i =>
           if isLeaf c && isMatch c key then
             n' ← RemoveChild leafWords n kcv;
             Some (Some n', (true, cnt - 1))
           else
             r ← on_child
                   (fun c => deleteHelper leafWords c key
                               (len p + len q + 1) cnt)
                   (childrenOf n) (Z.to_nat i);
             Some (Some (setChildren n r.1), r.2)
       | _, _ => Some (Some n, (false, cnt))
       end)) as Hbelow.
  { intros kcv Hpath. destruct (lookupEdge kcv es) as [c|] eqn:Hl.
    - destruct (dir_findChild_Some n es kcv c Hd Hl) as (i & Hf & Hc & Hrep).
      rewrite Hf. cbn [mbind option_bind]. unfold load. rewrite get_nat, Hc.
      cbn [default from_option id]. rewrite Nat2Z.id.
      destruct (SemEdges_split leafWords (p ++ q) es kvs kcv c HS Hs Hl)
        as (pre & mid & post & -> & Hmid & Hout & Hrepl & Hrem).
      assert (key ∈ (pre ++ mid ++ post).*1 ->
              Forall (fun kv : Key * V => kv.1 ≠ key) (pre ++ post)) as Hout'.
      { intros Hin. eapply Forall_impl; [apply Hout|]. intros kv Hnp Heq.
        apply Hnp. rewrite Heq. by apply Hpath. }
      destruct (isLeaf c && isMatch c key) eqn:Hm.
      + apply isMatch_inv in Hm as [v ->].
        apply Sem_leaf_inv in Hmid as [-> Hpv].
        assert (key ∈ (pre ++ [(key, v)] ++ post).*1) as Hin.
        { rewrite !fmap_app, !elem_of_app. right. left. simpl. by left. }
        specialize (Hout' Hin).
        destruct (remove_leaf_child p n es q pre post kcv key v Hd Hmin HL Hst
                    Hl Hrem) as (n' & Hrun & Hn').
        rewrite Hrun. cbn [mbind option_bind deletePost].
        split; [done|]. split; [done|]. split; [done|].
        rewrite filter_out_mid by done.
        rewrite filter_cons_False by (simpl; tauto). done.
      + rewrite (on_child_lookup _ _ _ c Hc).
        specialize (IH kcv c mid (lookupEdge_Some_elem _ _ _ Hl) Hmid).
        rewrite Hlen in IH.
        destruct (deleteHelper leafWords c key (len p + len q + 1) cnt)
          as [[r1 [[] cnt']]|]; cbn [mbind option_bind fst snd deletePost] in *.
        * destruct IH as (Hin & -> & Hr1).
          assert (key ∈ (pre ++ mid ++ post).*1) as Hin'.
          { rewrite !fmap_app, !elem_of_app. tauto. }
          specialize (Hout' Hin').
          split; [done|]. split; [done|]. destruct r1 as [c'|].
          -- destruct Hr1 as [_ Hc']. split; [done|].
             rewrite filter_out_mid by done.
             apply (Sem_inner leafWords p _ (replaceEdge kcv c' es) q).
             ++ apply Hrep.
             ++ rewrite minSize_setChildren. unfold len in *.
                by rewrite length_replaceEdge.
             ++ by rewrite nodeOf_setChildren.
             ++ by rewrite nodeOf_setChildren.
             ++ by apply Hrepl.
          -- destruct Hr1 as [v ->].
             assert (isLeaf (Leaf key v) && isMatch (Leaf key v) key = true)
               by (by rewrite (proj2 (isMatch_leaf key v key))).
             congruence.
        * destruct IH as (Hnin & -> & ->).
          rewrite setChildren_id by done. split; [|done].
          intros Hin. apply Hnin.
          by apply (proj1 (elem_mid_keys leafWords key pre mid post (Hout' Hin))).
        * intros Hin. apply IH.
          by apply (proj1 (elem_mid_keys leafWords key pre mid post (Hout' Hin))).
    - destruct (dir_findChild_None n es kcv Hd Hl) as (r & Hf & Hload).
      rewrite Hf. cbn [mbind option_bind]. rewrite Hload.
      cbn [deletePost]. split; [|done].
      intros Hin. specialize (Hpath Hin).
      pose proof (SemEdges_fresh leafWords _ _ _ kcv HS Hl) as Hu.
      rewrite Forall_forall in Hu.
      apply list_elem_of_fmap in Hin as (kv & -> & Hin).
      by apply (Hu kv Hin). }
  (* a stored key follows the compressed path *)
  assert (key ∈ kvs.*1 ->
          (p ++ q) `prefix_of` key
          /\ ((p ++ q) ++ [kc key (length (p ++ q))]) `prefix_of` keyZ key)
    as Hstored.
  { intros (kv & -> & Hin)%list_elem_of_fmap.
    pose proof (SemEdges_under _ _ _ _ HS) as Hu. rewrite Forall_forall in Hu.
    destruct (Hu kv Hin) as (b & _ & Hb).
    assert ((p ++ q) `prefix_of` kv.1) as Hpq.
    { apply prefix_keyZ_key; [by eapply prefix_app_l|].
      apply prefix_length in Hb. rewrite keyZ_length, length_app in Hb.
      simpl in Hb. lia. }
    split; [done|]. by apply prefix_snoc_kc. }
  assert (deletePost leafWords p key cnt n kvs
            (keyChar ← keyCharAt key (len p + len q);
             next ← findChild n keyChar;
             match load n next, next with
             | Some c, Slot i =>
                 if isLeaf c && isMatch c key then
                   n' ← RemoveChild leafWords n keyChar;
                   Some (Some n', (true, cnt - 1))
                 else
                   r ← on_child
                         (fun c => deleteHelper leafWords c key
                                     (len p + len q + 1) cnt)
                         (childrenOf n) (Z.to_nat i);
                   Some (Some (setChildren n r.1), r.2)
             | _, _ => Some (Some n, (false, cnt))
             end)) as Hgo.
  { rewrite keyCharAt_kc by (unfold len; lia). cbn [mbind option_bind].
    apply Hbelow. intros Hin. destruct (Hstored Hin) as [_ Hb].
    rewrite <- Hlen. unfold len. by rewrite Nat2Z.id. }
  case_bool_decide as HL0.
  - pose proof (prefixMismatch_spec leafWords n p q key kmin Hlp HL Hst
                  Hkmin Hpk) as Hpm.
    change (len p) with (Z.of_nat (length p)) in *.
    destruct (prefixMismatch leafWords n key (Z.of_nat (length p))) as [j|];
      cbn [mbind option_bind].
    + destruct Hpm as (j' & -> & Hj & Hag & Hmis). rewrite HL.
      case_bool_decide as Hjq; cbn [mbind option_bind].
      * cbn [deletePost]. split; [|done]. intros Hin.
        destruct (Hstored Hin) as [Hpq _].
        assert (j' < length q)%nat as Hlt by (unfold len in Hjq; lia).
        apply (Hmis Hlt).
        apply (agree_prefix p q key (prefix_key_keyZ _ _ Hpq)). done.
      * done.
    + cbn [deletePost]. intros Hin. destruct (Hstored Hin) as [Hpq _].
      destruct Hpm as (j' & Hj & Hshort & _).
      apply prefix_length in Hpq. rewrite length_app in Hpq. lia.
  - cbn [mbind option_bind].
    assert (q = []) as ->.
    { rewrite HL in HL0. unfold len in HL0. destruct q; [done|].
      simpl in HL0. lia. }
    replace (len p + len []) with (len p) in Hgo by (unfold len; simpl; lia).
    done.
Qed.

(** [deleteHelper] on a well-formed subtree and a non-empty key. *)
Lemma Sem_SemEdges_delete :
  (forall p n kvs, Sem leafWords p n kvs ->
     forall key cnt, key ≠ [] ->
       deletePost leafWords p key cnt n kvs
         (deleteHelper leafWords n key (len p) cnt))
  /\ (forall pq es kvs, SemEdges leafWords pq es kvs ->
        forall b c mid, (b, c) ∈ es -> Sem leafWords (pq ++ [b]) c mid ->
        forall key cnt, key ≠ [] ->
          deletePost leafWords (pq ++ [b]) key cnt c mid
            (deleteHelper leafWords c key (len pq + 1) cnt)).
Proof.
  apply Sem_SemEdges_ind.
  - intros p k v Hpk key cnt Hk.
    destruct (isMatch (Leaf k v) key) eqn:Hm.
    + rewrite deleteHelper_leaf by done. apply isMatch_leaf in Hm as ->.
      cbn [deletePost]. split; [simpl; by left|]. split; [done|]. by exists v.
    + assert (key ∉ [(k, v)].*1) as Hnin.
      { simpl. intros ->%list_elem_of_singleton.
        by rewrite (proj2 (isMatch_leaf k v k)) in Hm. }
      destruct (deleteHelper_leaf_miss leafWords k v key (len p) cnt Hk Hm)
        as [-> | ->]; cbn [deletePost]; done.
  - intros p n es q kvs Hd Hmin HL Hst HS IH key cnt Hk.
    apply (delete_inner p n es q kvs key cnt); try done.
    intros b c mid He Hc.
    replace (len (p ++ q) + 1) with (len (p ++ q) + 1) by done.
    by apply IH.
  - intros pq b c mid Hin. by apply elem_of_nil in Hin.
  - intros pq b c es l1 l2 H1 IH1 H2 IH2 b' c' mid Hin Hc' key cnt Hk.
    apply elem_of_cons in Hin as [[= -> ->]|Hin].
    + pose proof (Sem_det leafWords _ _ _ _ _ Hc' H1) as ->.
      replace (len pq + 1) with (len (pq ++ [b]))
        by (unfold len; rewrite length_app; simpl; lia).
      by apply IH1.
    + by apply (IH2 b' c' mid).
Qed.

Lemma Sem_delete p n kvs key cnt :
  Sem leafWords p n kvs -> key ≠ [] ->
  deletePost leafWords p key cnt n kvs
    (deleteHelper leafWords n key (len p) cnt).
Proof. intros H. by apply (proj1 Sem_SemEdges_delete). Qed.
End DeleteSpec.

(** * The tree operations on reachable trees *)

(** [key] and the keys of [ks] do not continue one another with a zero
    byte. *)
Definition aliasFreeb (key : Key) (ks : list Key) : bool :=
  forallb (fun k0 => negb (bool_decide (keyZ k0 `prefix_of` key))
                     && negb (bool_decide (keyZ key `prefix_of` k0))) ks.

(** [key] is a proper prefix of a key of [ks]. *)
Definition blockedb (key : Key) (ks : list Key) : bool :=
  existsb (fun k0 => bool_decide (key `prefix_of` k0)
                     && negb (bool_decide (k0 = key))) ks.

(** Every key of a sequence is alias-free with respect to the keys before
    it ([seen] lists those before the sequence). *)
Fixpoint admissible (seen ks : list Key) : bool :=
  match ks with
  | [] => true
  | k :: rest => aliasFreeb k seen && admissible (k :: seen) rest
  end.

(** No key of a sequence is a proper prefix of a key before it. *)
Fixpoint unblocked (seen ks : list Key) : bool :=
  match ks with
  | [] => true
  | k :: rest => negb (blockedb k seen) && unblocked (k :: seen) rest
  end.

(** Strictly ascending key bytes. *)
Fixpoint ascending (ks : list byte) : bool :=
  match ks with
  | [] => true
  | a :: rest =>
      match rest with
      | [] => true
      | b :: _ => byte_ltb a b && ascending rest
      end
  end.

Lemma properPrefix_iff (key k0 : Key) :
  properPrefix key k0 <-> key `prefix_of` k0 /\ k0 ≠ key.
Proof.
  split.
  - intros (r & Hr & ->). split; [by exists r|].
    intros Heq. apply Hr. rewrite <- (app_nil_r key) in Heq at 2.
    by apply app_inv_head in Heq.
  - intros [[r ->] Hne]. exists r. split; [|done].
    intros ->. by rewrite app_nil_r in Hne.
Qed.

Lemma StronglySorted_ascending (l : list byte) :
  StronglySorted byte_lt l -> ascending l = true.
Proof.
  induction 1 as [|a l Hs IH Hall]; [done|]. cbn [ascending].
  destruct l as [|b l]; [done|]. rewrite IH, andb_true_r.
  apply Forall_cons in Hall as [Hab _]. by apply byte_ltb_lt.
Qed.

Section Tree.
Context {V : Type} (leafWords : Key -> V -> Z * list byte).
Implicit Types (es : list (byte * artNode V)) (b : byte) (c n : artNode V).
Implicit Types (k key : Key) (kvs : list (Key * V)) (t : tree V).

(** The pairs of a tree, in the order [Each] hands them to its callback. *)
Definition contents t : list (Key * V) :=
  match Each t with
  | Some ns => leafList ns
  | None => []
  end.

Definition keysOf t : list Key := (contents t).*1.

(** A run of [Insert]s; [None] as soon as one panics. *)
Fixpoint insertAll t (kvs : list (Key * V)) : option (tree V) :=
  match kvs with
  | [] => Some t
  | kv :: rest => t' ← Insert leafWords t kv.1 kv.2; insertAll t' rest
  end.

(** The value inserted last under [key]. *)
Fixpoint lookupLast key (kvs : list (Key * V)) : option V :=
  match kvs with
  | [] => None
  | kv :: rest =>
      match lookupLast key rest with
      | Some v => Some v
      | None => if decide (kv.1 = key) then Some kv.2 else None
      end
  end.

(** The trees reached from the empty tree by [Insert]s and [Delete]s that
    return, where no inserted key and stored key continue one another
    with a zero byte. *)
Inductive reachable : tree V -> Prop :=
| reach_new : reachable newArt
| reach_insert t key v t' :
    reachable t -> aliasFreeb key (keysOf t) = true ->
    Insert leafWords t key v = Some t' -> reachable t'
| reach_delete t key (r : bool) t' :
    reachable t -> Delete leafWords t key = Some (r, t') -> reachable t'.

(** The bounds of the variant, and for Node4 / Node16 the order of the key
    bytes in use and the presence of their children. *)
Definition wellFormedNode n : bool :=
  match n with
  | Leaf _ _ => true
  | N4 m ks cs | N16 m ks cs =>
      (minSize n <=? size m) && (size m <=? maxSize n)
      && ascending (take (Z.to_nat (size m)) ks)
      && forallb (fun o : option (artNode V) => bool_decide (is_Some o))
           (take (Z.to_nat (size m)) cs)
  | N48 m _ _ | N256 m _ =>
      (minSize n <=? size m) && (size m <=? maxSize n)
  end.

(** The invariant of reachable trees. *)
Definition treeInv t kvs : Prop :=
  count t = len kvs
  /\ match root t with
     | None => kvs = []
     | Some n => Sem leafWords [] n kvs
     end.

Lemma aliasFreeb_spec key kvs :
  aliasFreeb key kvs.*1 = true <-> aliasFree key kvs.
Proof.
  unfold aliasFreeb, aliasFree. rewrite forallb_forall. split.
  - intros H k0 Hk0. apply list_elem_of_In, H in Hk0.
    apply andb_true_iff in Hk0 as [H1 H2].
    apply negb_true_iff, bool_decide_eq_false in H1.
    apply negb_true_iff, bool_decide_eq_false in H2. done.
  - intros H k0 Hk0. apply list_elem_of_In, H in Hk0 as [H1 H2].
    apply andb_true_iff. split; by apply negb_true_iff, bool_decide_eq_false.
Qed.

Lemma blockedb_spec key kvs :
  blockedb key kvs.*1 = true <-> blocked key kvs.
Proof.
  unfold blockedb, blocked. rewrite existsb_exists. split.
  - intros (k0 & Hk0 & [H1 H2]%andb_true_iff). exists k0.
    split; [by apply list_elem_of_In|]. apply properPrefix_iff.
    apply bool_decide_eq_true in H1.
    apply negb_true_iff, bool_decide_eq_false in H2. done.
  - intros (k0 & Hk0 & [H1 H2]%properPrefix_iff). exists k0.
    split; [by apply list_elem_of_In|]. apply andb_true_iff.
    split; [by apply bool_decide_eq_true|].
    by apply negb_true_iff, bool_decide_eq_false.
Qed.

Lemma aliasFreeb_subset key (ks ks' : list Key) :
  (forall k, k ∈ ks -> k ∈ ks') ->
  aliasFreeb key ks' = true -> aliasFreeb key ks = true.
Proof.
  unfold aliasFreeb. rewrite !forallb_forall. intros Hsub H k Hk.
  apply H. apply list_elem_of_In, Hsub. by apply list_elem_of_In.
Qed.

Lemma blockedb_subset key (ks ks' : list Key) :
  (forall k, k ∈ ks -> k ∈ ks') ->
  blockedb key ks = true -> blockedb key ks' = true.
Proof.
  unfold blockedb. rewrite !existsb_exists. intros Hsub (k & Hk & H).
  exists k. split; [|done]. apply list_elem_of_In, Hsub. by apply list_elem_of_In.
Qed.

Lemma treeInv_contents t kvs : treeInv t kvs -> contents t = kvs.
Proof.
  intros [_ H]. unfold contents, Each. destruct (root t) as [n|]; [|done].
  destruct (Sem_each leafWords [] n kvs H) as (ns & -> & Hl & _). done.
Qed.

Lemma treeInv_each t kvs :
  treeInv t kvs ->
  exists ns, Each t = Some ns /\ leafList ns = kvs
             /\ Forall (okNode (V:=V)) ns.
Proof.
  intros [_ H]. unfold Each. destruct (root t) as [n|].
  - by apply (Sem_each leafWords [] n kvs).
  - exists []. by subst.
Qed.

Lemma treeInv_NoDup t kvs : treeInv t kvs -> NoDup kvs.*1.
Proof.
  intros [_ H]. destruct (root t) as [n|]; [by eapply Sem_NoDup|].
  subst. constructor.
Qed.

Lemma treeInv_sorted t kvs : treeInv t kvs -> StronglySorted key_lt kvs.*1.
Proof.
  intros [_ H]. destruct (root t) as [n|]; [by eapply Sem_sorted|].
  subst. constructor.
Qed.

(** Counting the pairs that stay. *)
Lemma filter_key_length key kvs :
  NoDup kvs.*1 ->
  (length (filter (fun kv : Key * V => kv.1 ≠ key) kvs)
   + (if decide (key ∈ kvs.*1) then 1 else 0) = length kvs)%nat.
Proof.
  induction kvs as [|[k v] kvs IH]; intros Hnd; [done|].
  rewrite fmap_cons in Hnd. apply NoDup_cons in Hnd as [Hk Hnd].
  specialize (IH Hnd). rewrite fmap_cons. cbn [fst].
  destruct (decide (k = key)) as [->|Hne].
  - rewrite filter_cons_False by (simpl; tauto).
    rewrite decide_False in IH by done.
    rewrite decide_True by (by left). simpl. lia.
  - rewrite filter_cons_True by done. simpl.
    destruct (decide (key ∈ kvs.*1)) as [Hin|Hnin].
    + rewrite decide_True by (by right). lia.
    + rewrite decide_False; [lia|].
      intros [?|?]%elem_of_cons; [congruence|done].
Qed.

Lemma NoDup_filter_keys key kvs :
  NoDup kvs.*1 -> NoDup (filter (fun kv : Key * V => kv.1 ≠ key) kvs).*1.
Proof.
  induction kvs as [|[k v] kvs IH]; intros Hnd; [constructor|].
  rewrite fmap_cons in Hnd. apply NoDup_cons in Hnd as [Hk Hnd].
  destruct (decide (k = key)) as [->|Hne].
  - rewrite filter_cons_False by (simpl; tauto). by apply IH.
  - rewrite filter_cons_True by done. rewrite fmap_cons.
    apply NoDup_cons. split; [|by apply IH].
    intros (kv & Heq & [_ Hin]%list_elem_of_filter)%list_elem_of_fmap.
    apply Hk. apply list_elem_of_fmap. by exists kv.
Qed.

Lemma inserted_length key (v : V) kvs kvs' :
  NoDup kvs.*1 -> NoDup kvs'.*1 -> inserted key v kvs kvs' ->
  len kvs' = len kvs + (if decide (key ∈ kvs.*1) then 0 else 1).
Proof.
  intros Hnd Hnd' Hins.
  assert (kvs' ≡ₚ (key, v) :: filter (fun kv : Key * V => kv.1 ≠ key) kvs)
    as Hperm.
  { apply NoDup_Permutation.
    - by eapply NoDup_fmap_1.
    - apply NoDup_cons. split.
      + intros [Hne _]%list_elem_of_filter. by apply Hne.
      + eapply NoDup_fmap_1. by apply NoDup_filter_keys.
    - intros kv. rewrite (Hins kv), elem_of_cons, list_elem_of_filter. tauto. }
  pose proof (filter_key_length key kvs Hnd) as Hlen.
  apply Permutation_length in Hperm. simpl in Hperm. unfold len.
  destruct (decide (key ∈ kvs.*1)); lia.
Qed.

Lemma inserted_keys key (v : V) kvs kvs' k :
  inserted key v kvs kvs' -> k ∈ kvs'.*1 <-> k = key \/ k ∈ kvs.*1.
Proof.
  intros Hins. split.
  - intros (kv & -> & Hin)%list_elem_of_fmap. apply Hins in Hin as [->|[Hin _]].
    + by left.
    + right. apply list_elem_of_fmap. by exists kv.
  - intros [->|(kv & -> & Hin)%list_elem_of_fmap].
    + apply list_elem_of_fmap. exists (key, v). split; [done|].
      apply Hins. by left.
    + destruct (decide (kv.1 = key)) as [Heq|Hne].
      * apply list_elem_of_fmap. exists (key, v). split; [done|].
        apply Hins. by left.
      * apply list_elem_of_fmap. exists kv. split; [done|].
        apply Hins. by right.
Qed.

(** [Insert] on a tree that satisfies the invariant. *)
Lemma Insert_inv t kvs key v :
  treeInv t kvs -> aliasFree key kvs ->
  match Insert leafWords t key v with
  | Some t' =>
      exists kvs', treeInv t' kvs' /\ inserted key v kvs kvs'
        /\ count t' = count t + (if decide (key ∈ kvs.*1) then 0 else 1)
  | None => blocked key kvs
  end.
Proof.
  intros Hinv Hfree. pose proof (treeInv_NoDup t kvs Hinv) as Hnd.
  destruct Hinv as [Hcnt Hroot]. unfold Insert.
  destruct (root t) as [n|].
  - pose proof (Sem_insert leafWords [] n kvs key v (count t) Hroot
                  (prefix_nil _) Hfree) as Hpost.
    change (len []) with 0 in Hpost.
    destruct (insertHelper leafWords n key v 0 (count t)) as [[n' cnt']|];
      cbn [mbind option_bind insertPost fst snd] in *; [|done].
    destruct Hpost as (kvs' & HSem & Hins & ->).
    exists kvs'. split; [|done]. split; [|done]. cbn [count].
    rewrite (inserted_length key v kvs kvs'); try done; [lia|].
    by eapply Sem_NoDup.
  - subst kvs. exists [(key, v)]. split; [|split].
    + split; [cbn [count]; unfold len in *; simpl in *; lia|].
      cbn [root]. constructor. apply prefix_nil.
    + intros kv. rewrite list_elem_of_singleton. split; [tauto|].
      intros [->|[Hin _]]; [done|]. by apply elem_of_nil in Hin.
    + cbn [count]. rewrite decide_False; [done|]. simpl. apply not_elem_of_nil.
Qed.

(** [Delete] on a tree that satisfies the invariant. *)
Lemma Delete_inv t kvs key :
  treeInv t kvs -> key ≠ [] ->
  match Delete leafWords t key with
  | Some (true, t') =>
      key ∈ kvs.*1
      /\ treeInv t' (filter (fun kv : Key * V => kv.1 ≠ key) kvs)
      /\ count t' = count t - 1
  | Some (false, t') => (key ∉ kvs.*1) /\ t' = t
  | None => key ∉ kvs.*1
  end.
Proof.
  intros Hinv Hk. pose proof (treeInv_NoDup t kvs Hinv) as Hnd.
  destruct Hinv as [Hcnt Hroot]. unfold Delete.
  destruct (root t) as [n|] eqn:Hr.
  - pose proof (Sem_delete leafWords [] n kvs key (count t) Hroot Hk) as Hpost.
    change (len []) with 0 in Hpost.
    destruct (deleteHelper leafWords n key 0 (count t)) as [[r1 [[] cnt']]|];
      cbn [mbind option_bind deletePost fst snd] in *.
    + destruct Hpost as (Hin & -> & Hr1). split; [done|]. split; [|done].
      pose proof (filter_key_length key kvs Hnd) as Hlen.
      rewrite decide_True in Hlen by done.
      split; [cbn [count]; unfold len in *; lia|]. cbn [root].
      destruct r1 as [n'|]; [by destruct Hr1|].
      destruct Hr1 as [v ->]. apply Sem_leaf_inv in Hroot as [-> _].
      by rewrite filter_cons_False by (simpl; tauto).
    + destruct Hpost as (Hnin & -> & ->). split; [done|].
      destruct t as [rt ct]. simpl in *. by subst.
    + done.
  - subst kvs. split; [apply not_elem_of_nil|done].
Qed.

Lemma Delete_empty_key t : Delete leafWords t [] = Some (false, t).
Proof.
  destruct t as [[cur|] cnt]; [|done]. unfold Delete. simpl. by destruct cur.
Qed.

Lemma reachable_inv t : reachable t -> exists kvs, treeInv t kvs.
Proof.
  induction 1 as [|t key v t' Hr [kvs Hinv] Hfree Hins
                  |t key b t' Hr [kvs Hinv] Hdel].
  - exists []. by split.
  - unfold keysOf in Hfree. rewrite (treeInv_contents t kvs Hinv) in Hfree.
    apply aliasFreeb_spec in Hfree.
    pose proof (Insert_inv t kvs key v Hinv Hfree) as H.
    rewrite Hins in H. destruct H as (kvs' & Hinv' & _). by exists kvs'.
  - destruct (decide (key = [])) as [->|Hk].
    + rewrite Delete_empty_key in Hdel. injection Hdel as <- <-. by exists kvs.
    + pose proof (Delete_inv t kvs key Hinv Hk) as H. rewrite Hdel in H.
      destruct b.
      * destruct H as (_ & Hinv' & _). by eexists.
      * destruct H as (_ & ->). by exists kvs.
Qed.
End Tree.

Section TreeTheorems.
Context {V : Type} (leafWords : Key -> V -> Z * list byte).
Implicit Types (es : list (byte * artNode V)) (c n : artNode V).
Implicit Types (k key : Key) (kvs : list (Key * V)) (t : tree V).

Lemma insertAll_inv kvs : forall t kvs0 (seen : list Key),
  treeInv leafWords t kvs0 -> (forall k, k ∈ kvs0.*1 -> k ∈ seen) ->
  admissible seen kvs.*1 = true ->
  match insertAll leafWords t kvs with
  | Some t' =>
      exists kvs1,
        treeInv leafWords t' kvs1
        /\ forall key v,
             (key, v) ∈ kvs1 <->
             match lookupLast key kvs with
             | Some v' => v = v'
             | None => (key, v) ∈ kvs0
             end
  | None => unblocked seen kvs.*1 = false
  end.
Proof.
  induction kvs as [|[k v] rest IH]; intros t kvs0 seen Hinv Hseen Hadm.
  - exists kvs0. by split.
  - rewrite fmap_cons in *. cbn [fst admissible unblocked insertAll snd] in *.
    apply andb_true_iff in Hadm as [Hfree Hadm].
    assert (aliasFree k kvs0) as Hfree'.
    { apply aliasFreeb_spec. by apply (aliasFreeb_subset k _ seen). }
    pose proof (Insert_inv leafWords t kvs0 k v Hinv Hfree') as Hins.
    destruct (Insert leafWords t k v) as [t1|]; cbn [mbind option_bind].
    2:{ apply blockedb_spec in Hins.
        by rewrite (blockedb_subset k _ seen Hseen Hins). }
    destruct Hins as (kvs' & Hinv' & Hins & _).
    assert (forall k0, k0 ∈ kvs'.*1 -> k0 ∈ k :: seen) as Hseen'.
    { intros k0 Hk0. apply (inserted_keys k v kvs0 kvs' k0 Hins) in Hk0.
      destruct Hk0 as [->|Hk0]; [by left|]. right. by apply Hseen. }
    specialize (IH t1 kvs' (k :: seen) Hinv' Hseen' Hadm).
    destruct (insertAll leafWords t1 rest) as [t'|].
    + destruct IH as (kvs1 & Hinv1 & Hmem).
      exists kvs1. split; [done|]. intros key v0. rewrite (Hmem key v0).
      cbn [lookupLast fst snd]. destruct (lookupLast key rest) as [v'|]; [done|].
      rewrite (Hins (key, v0)). cbn [fst].
      destruct (decide (k = key)) as [->|Hne].
      * split; [intros [[= ->]|[_ ?]]; done|]. intros ->. by left.
      * split; [intros [[= -> ->]|[? _]]; done|]. intros Hin. right.
        split; [done|]. congruence.
    + by rewrite IH, andb_false_r.
Qed.

Lemma treeInv_search t kvs key v :
  treeInv leafWords t kvs -> (key, v) ∈ kvs ->
  Search leafWords t key = Some (Some v).
Proof.
  intros [_ Hroot] Hin. unfold Search. destruct (root t) as [n|].
  - by apply (Sem_search leafWords [] n kvs).
  - subst. by apply elem_of_nil in Hin.
Qed.

(** C2 (amended): a run of [Insert]s from the empty tree in which no two
    keys continue one another with a zero byte.  If the run returns, then
    [Search] of every inserted key returns the value inserted last under
    it; and the run does return if no key is a proper prefix of a key
    inserted before it. *)
Theorem insert_search_roundtrip kvs :
  admissible [] kvs.*1 = true ->
  (unblocked [] kvs.*1 = true -> is_Some (insertAll leafWords newArt kvs))
  /\ forall t key v,
       insertAll leafWords newArt kvs = Some t ->
       lookupLast key kvs = Some v ->
       Search leafWords t key = Some (Some v).
Proof.
  intros Hadm.
  pose proof (insertAll_inv kvs newArt [] [] (conj eq_refl eq_refl)
                (fun k H => H) Hadm) as H.
  split.
  - intros Hun. destruct (insertAll leafWords newArt kvs); [done|congruence].
  - intros t key v Hrun Hlast. rewrite Hrun in H.
    destruct H as (kvs1 & Hinv & Hmem).
    apply (treeInv_search t kvs1); [done|]. apply Hmem. by rewrite Hlast.
Qed.

Lemma treeInv_aliasFree t kvs key :
  treeInv leafWords t kvs -> key ∈ kvs.*1 -> aliasFree key kvs.
Proof.
  intros [_ Hroot] Hin k0 Hk0. destruct (root t) as [n|].
  - split; by eapply Sem_aliasFree.
  - subst. by apply elem_of_nil in Hin.
Qed.

(** C3 (amended): on a reachable tree, [Insert] of a key that is stored.
    If it returns, [Size()] is what it was and [Search] of the key returns
    the new value; and it does return if the key is not a proper prefix of
    another stored key. *)
Theorem insert_overwrite t key (v2 : V) :
  reachable leafWords t -> key ∈ keysOf t ->
  (blockedb key (keysOf t) = false -> is_Some (Insert leafWords t key v2))
  /\ forall t', Insert leafWords t key v2 = Some t' ->
       Size t' = Size t /\ Search leafWords t' key = Some (Some v2).
Proof.
  intros [kvs Hinv]%reachable_inv Hin. unfold keysOf in *.
  rewrite (treeInv_contents leafWords t kvs Hinv) in *.
  pose proof (Insert_inv leafWords t kvs key v2 Hinv
                (treeInv_aliasFree t kvs key Hinv Hin)) as H.
  split.
  - intros Hnb. destruct (Insert leafWords t key v2); [done|].
    apply blockedb_spec in H. congruence.
  - intros t' Hrun. rewrite Hrun in H. destruct H as (kvs' & Hinv' & Hins & Hcnt).
    rewrite decide_True in Hcnt by done. unfold Size. split; [lia|].
    apply (treeInv_search t' kvs'); [done|]. apply Hins. by left.
Qed.

(** C4 (amended): on a reachable tree and for a non-empty key.  [Delete]
    of a stored key returns true; whenever [Delete] returns true the key
    was stored, its pair is gone, every other pair is still there and
    [Size()] is one less; whenever it returns false the key was not stored
    and the tree is as it was. *)
Theorem delete_true_iff_removed t key :
  reachable leafWords t -> key ≠ [] ->
  (key ∈ keysOf t -> exists t', Delete leafWords t key = Some (true, t'))
  /\ forall (r : bool) t', Delete leafWords t key = Some (r, t') ->
       (r = true <-> key ∈ keysOf t)
       /\ (r = true ->
           contents t' = filter (fun kv : Key * V => kv.1 ≠ key) (contents t)
           /\ Size t' = Size t - 1)
       /\ (r = false -> t' = t).
Proof.
  intros [kvs Hinv]%reachable_inv Hk. unfold keysOf.
  rewrite (treeInv_contents leafWords t kvs Hinv).
  pose proof (Delete_inv leafWords t kvs key Hinv Hk) as H.
  split.
  - intros Hin. destruct (Delete leafWords t key) as [[[] t']|]; try done.
    + by exists t'.
    + by destruct H.
  - intros r t' Hrun. rewrite Hrun in H. destruct r.
    + destruct H as (Hin & Hinv' & Hcnt). split; [done|]. split; [|done].
      intros _. by rewrite (treeInv_contents leafWords t' _ Hinv').
    + destruct H as (Hnin & ->). split; [|done]. split; [done|]. done.
Qed.

(** C5 (amended): on a reachable tree, [Each] hands the leaves to its
    callback in strictly ascending order of their keys. *)
Theorem each_ascending t :
  reachable leafWords t ->
  exists ns, Each t = Some ns /\ StronglySorted key_lt (leafList ns).*1.
Proof.
  intros [kvs Hinv]%reachable_inv.
  destruct (treeInv_each leafWords t kvs Hinv) as (ns & Hns & Hl & _).
  exists ns. split; [done|]. rewrite Hl. by eapply treeInv_sorted.
Qed.

Lemma forallb_is_Some (l : list (artNode V)) :
  forallb (fun o : option (artNode V) => bool_decide (is_Some o)) (Some <$> l)
  = true.
Proof.
  induction l as [|x l IH]; [done|]. rewrite fmap_cons. cbn [forallb].
  rewrite IH. by rewrite bool_decide_true by (by eexists).
Qed.

Lemma okNode_wellFormed n : okNode n -> wellFormedNode n = true.
Proof.
  intros [Hleaf|(es & Hd & Hmin)]; [by destruct n|].
  pose proof (dir_length_le n es Hd) as Hmax.
  pose proof (dir_size leafWords n es Hd) as Hsz.
  destruct Hd as [Hs Hd].
  destruct n as [|m ks cs|m ks cs|m ks cs|m cs]; [done|..];
    cbn [wellFormedNode nodeOf] in *; rewrite Hsz;
    rewrite (proj2 (Z.leb_le _ _) Hmin), (proj2 (Z.leb_le _ _) Hmax);
    cbn [andb]; try done.
  - destruct (layout_take_keys _ _ _ _ _ Hd) as [Hk Hc]. unfold len.
    rewrite Nat2Z.id, Hk, Hc, forallb_is_Some, andb_true_r.
    by apply StronglySorted_ascending.
  - destruct (layout_take_keys _ _ _ _ _ Hd) as [Hk Hc]. unfold len.
    rewrite Nat2Z.id, Hk, Hc, forallb_is_Some, andb_true_r.
    by apply StronglySorted_ascending.
Qed.

(** C6 (amended): every node of a reachable tree, as [Each] lists them,
    holds a number of children within the bounds of its variant; the key
    bytes in use of a Node4 or Node16 are strictly ascending and each has
    its child. *)
Theorem nodes_within_bounds t :
  reachable leafWords t ->
  exists ns, Each t = Some ns
             /\ Forall (fun n : artNode V => wellFormedNode n = true) ns.
Proof.
  intros [kvs Hinv]%reachable_inv.
  destruct (treeInv_each leafWords t kvs Hinv) as (ns & Hns & _ & Hok).
  exists ns. split; [done|]. eapply Forall_impl; [apply Hok|].
  apply okNode_wellFormed.
Qed.
End TreeTheorems.

(** * The rest of the node file: [maximum] and the [Node] interface *)

(** The Node48 loop of [maximum]:
    [i := len(keys) - 1; for keys[i] == 0 { i-- }].  The read at [-1]
    panics, so the loop takes at most [len(keys) + 1] turns and [fuel]
    never runs out when it starts from that number. *)
Fixpoint maximum_scan48 (ks : list byte) (fuel : nat) (i : Z) : option Z :=
  match fuel with
  | O => None
  | S fuel' =>
      k ← get ks i;
      if bool_decide (k = Byte.x00) then maximum_scan48 ks fuel' (i - 1)
      else Some i
  end.

Section MoreOfTheNodeFile.
Context {V : Type}.
Implicit Types (es : list (byte * artNode V)) (b : byte) (c n : artNode V).
Implicit Types (ks : list byte) (cs : list (option (artNode V))) (m : node).

(** The Node256 loop of [maximum]:
    [i := len(children) - 1; for i > 0 && children[byte(i)] == nil { i-- }].
    It stops at [0] at the latest. *)
Fixpoint maximum_scan256 (cs : list (option (artNode V))) (fuel : nat) (i : Z)
  : option Z :=
  match fuel with
  | O => None
  | S fuel' =>
      if i >? 0 then
        c ← get cs (b2z (z2b i));
        match c with
        | None => maximum_scan256 cs fuel' (i - 1)
        | Some _ => Some i
        end
      else Some i
  end.

(** [maximum] of a (non-nil) node, with the results of [minimum]:
    [Some (Some leaf)], [Some None] for nil ([maximum] of nil is nil),
    [None] for a panic. *)
Fixpoint maximum (n : artNode V) : option (option (artNode V)) :=
  match n with
  | Leaf _ _ => Some (Some n)
  | N4 m _ cs => at_childZ maximum (Some None) cs (size m - 1)
  | N16 m _ cs => at_childZ maximum (Some None) cs (size m - 1)
  | N48 _ ks cs =>
      i ← maximum_scan48 ks (S (length ks)) (len ks - 1);
      k ← get ks i;
      at_childZ maximum (Some None) cs (b2z k)
  | N256 _ cs =>
      i ← maximum_scan256 cs (S (length cs)) (len cs - 1);
      at_childZ maximum (Some None) cs i
  end.

(** [Key()]: the key of a leaf, nil ([None]) for any other node. *)
Definition artNode_Key (n : artNode V) : option Key :=
  if isLeaf n then
    match n with Leaf k _ => Some k | _ => None end
  else None.

(** [Value()]: the value of a leaf, nil ([None]) for any other node. *)
Definition artNode_Value (n : artNode V) : option V :=
  if negb (bool_decide (nodeType n = LeafNode)) then None
  else match n with Leaf _ v => Some v | _ => None end.

(** [NodeType()] *)
Definition artNode_NodeType (n : artNode V) : NodeType := nodeType n.

(** [New()] *)
Definition New : tree V := newArt.

Lemma maximum_scan48_last ks (fuel i0 j : nat) (s : byte) :
  ks !! j = Some s -> s ≠ Byte.x00 -> (j <= i0)%nat -> (i0 < length ks)%nat ->
  (forall i y, (j < i <= i0)%nat -> ks !! i = Some y -> y = Byte.x00) ->
  (i0 - j < fuel)%nat ->
  maximum_scan48 ks fuel (Z.of_nat i0) = Some (Z.of_nat j).
Proof.
  revert i0. induction fuel as [|fuel IH]; intros i0 Hj Hs Hle Hlt Hz Hf; [lia|].
  cbn [maximum_scan48]. rewrite get_nat.
  destruct (decide (i0 = j)) as [->|Hne].
  - rewrite Hj. cbn [mbind option_bind]. by rewrite bool_decide_false.
  - destruct (lookup_lt_is_Some_2 ks i0 Hlt) as [y Hy]. rewrite Hy.
    cbn [mbind option_bind].
    rewrite (Hz i0 y) by (lia || done). rewrite bool_decide_true by done.
    replace (Z.of_nat i0 - 1) with (Z.of_nat (i0 - 1)) by lia.
    apply IH; [done|done|lia|lia| |lia].
    intros i y' Hi. apply Hz. lia.
Qed.

Lemma maximum_scan256_last cs (fuel i0 j : nat) c :
  cs !! j = Some (Some c) -> (j <= i0)%nat -> (i0 < 256)%nat ->
  (i0 < length cs)%nat ->
  (forall i, (j < i <= i0)%nat -> cs !! i = Some None) ->
  (i0 - j < fuel)%nat ->
  maximum_scan256 cs fuel (Z.of_nat i0) = Some (Z.of_nat j).
Proof.
  revert i0. induction fuel as [|fuel IH]; intros i0 Hj Hle H256 Hlt Hz Hf; [lia|].
  cbn [maximum_scan256].
  destruct (Z.gtb_spec (Z.of_nat i0) 0) as [Hpos|Hzero].
  - rewrite b2z_z2b by lia. rewrite get_nat.
    destruct (decide (i0 = j)) as [->|Hne].
    + by rewrite Hj.
    + rewrite (Hz i0) by lia. cbn [mbind option_bind].
      replace (Z.of_nat i0 - 1) with (Z.of_nat (i0 - 1)) by lia.
      apply IH; [done|lia|lia|lia| |lia].
      intros i Hi. apply Hz. lia.
  - f_equal. lia.
Qed.

Lemma sortedEdges_snoc es b c :
  sortedEdges (es ++ [(b, c)]) ->
  sortedEdges es /\ Forall (fun e => byte_lt e.1 b) es.
Proof.
  unfold sortedEdges. rewrite fmap_app. intros H.
  apply StronglySorted_app in H as (Hcross & Hs & _). split; [done|].
  apply Forall_forall. intros e He. apply Hcross.
  - by apply (list_elem_of_fmap_2 fst).
  - simpl. by left.
Qed.

Lemma lookupEdge_snoc es b c :
  sortedEdges (es ++ [(b, c)]) -> lookupEdge b (es ++ [(b, c)]) = Some c.
Proof.
  intros Hs. apply elem_lookupEdge; [done|]. apply elem_of_app. right. by left.
Qed.

(** No byte above the last one has an entry. *)
Lemma lookupEdge_above es b c b' :
  sortedEdges (es ++ [(b, c)]) -> byte_lt b b' ->
  lookupEdge b' (es ++ [(b, c)]) = None.
Proof.
  intros Hs Hlt. destruct (lookupEdge b' (es ++ [(b, c)])) as [c'|] eqn:E; [|done].
  exfalso. apply lookupEdge_Some_elem in E.
  apply sortedEdges_snoc in Hs as [_ Hall]. rewrite Forall_forall in Hall.
  apply elem_of_app in E as [E|E].
  - apply Hall in E. simpl in E. unfold byte_lt in *. lia.
  - apply list_elem_of_singleton in E. injection E as -> _.
    by apply byte_lt_irrefl in Hlt.
Qed.

Lemma maximum_layout cap m ks cs es b c :
  layout cap m ks cs (es ++ [(b, c)]) ->
  at_childZ maximum (Some None) cs (size m - 1) = maximum c.
Proof.
  intros (_ & Hsz & _ & _ & ->). apply at_childZ_lookup.
  rewrite Hsz. unfold len. rewrite length_app. simpl.
  replace (Z.of_nat (length es + 1) - 1) with (Z.of_nat (length es)) by lia.
  rewrite get_nat. rewrite lookup_app_l.
  - rewrite fmap_app, fmap_app. rewrite lookup_app_r.
    + rewrite !length_fmap. by rewrite Nat.sub_diag.
    + by rewrite !length_fmap.
  - rewrite !length_fmap, length_app. simpl. lia.
Qed.

Lemma maximum_N48 m ks cs es b c :
  layout48 m ks cs (es ++ [(b, c)]) -> sortedEdges (es ++ [(b, c)]) ->
  maximum (N48 m ks cs) = maximum c.
Proof.
  intros (Hpfx & Hsz & Hlk & Hlc & Hc0 & Hcnt & Hslot & Hinj) Hs.
  destruct (get_byte ks b Hlk) as [s Hbs]. pose proof (Hslot b s Hbs) as H.
  rewrite (lookupEdge_snoc es b c Hs) in H.
  destruct (decide (s = Byte.x00)) as [|Hne]; [discriminate H|].
  destruct H as (c0 & Hc & [= <-]). pose proof (b2z_range b) as Hbr.
  cbn [maximum]. unfold len. rewrite Hlk.
  change (Z.of_nat 256 - 1) with (Z.of_nat 255).
  rewrite (maximum_scan48_last ks 257 255 (Z.to_nat (b2z b)) s).
  - cbn [mbind option_bind]. rewrite Z2Nat.id by lia.
    rewrite Hbs. cbn [mbind option_bind]. by apply at_childZ_lookup.
  - by apply get_Some in Hbs as [_ ?].
  - done.
  - lia.
  - lia.
  - intros i y Hi Hy.
    pose proof (Hslot (z2b (Z.of_nat i)) y) as Hy'.
    rewrite b2z_z2b in Hy' by lia. rewrite get_nat in Hy'. specialize (Hy' Hy).
    destruct (decide (y = Byte.x00)) as [|Hy0]; [done|].
    destruct Hy' as (c1 & _ & Hl). exfalso.
    rewrite (lookupEdge_above es b c) in Hl; [done|done|].
    unfold byte_lt. rewrite b2z_z2b by lia. lia.
  - lia.
Qed.

Lemma maximum_N256 m cs es b c :
  layout256 m cs (es ++ [(b, c)]) -> sortedEdges (es ++ [(b, c)]) ->
  maximum (N256 m cs) = maximum c.
Proof.
  intros Hl Hs. pose proof (layout256_lookup _ _ _ b Hl) as Hb.
  rewrite (lookupEdge_snoc es b c Hs) in Hb.
  assert (length cs = 256%nat) as Hlc by apply Hl.
  pose proof (b2z_range b) as Hbr. cbn [maximum]. unfold len. rewrite Hlc.
  change (Z.of_nat 256 - 1) with (Z.of_nat 255).
  rewrite (maximum_scan256_last cs 257 255 (Z.to_nat (b2z b)) c).
  - cbn [mbind option_bind]. apply at_childZ_lookup. apply get_Some.
    split; [lia|]. by rewrite Nat2Z.id.
  - done.
  - lia.
  - lia.
  - lia.
  - intros i Hi.
    pose proof (layout256_lookup _ _ _ (z2b (Z.of_nat i)) Hl) as Hy.
    rewrite b2z_z2b, Nat2Z.id in Hy by lia. rewrite Hy. f_equal.
    apply lookupEdge_above; [done|]. unfold byte_lt.
    rewrite b2z_z2b by lia. lia.
  - lia.
Qed.

(** [maximum] of a well laid out node is that of its last child. *)
Lemma dir_maximum n es b c :
  dir n (es ++ [(b, c)]) -> maximum n = maximum c.
Proof.
  intros [Hs Hd]. destruct n as [|m ks cs|m ks cs|m ks cs|m cs]; [done|..].
  - cbn [maximum]. apply (maximum_layout 4 m ks cs es b c Hd).
  - cbn [maximum]. apply (maximum_layout 16 m ks cs es b c Hd).
  - by apply (maximum_N48 m ks cs es b c).
  - by apply (maximum_N256 m cs es b c).
Qed.
End MoreOfTheNodeFile.

Section Extremes.
Context {V : Type} (leafWords : Key -> V -> Z * list byte).
Implicit Types (es : list (byte * artNode V)) (b : byte) (c n : artNode V).
Implicit Types (p q pq : list byte) (k key : Key) (kvs : list (Key * V)).

Lemma Sem_SemEdges_maximum :
  (forall p n kvs, Sem leafWords p n kvs ->
     exists k v rest,
       kvs = rest ++ [(k, v)] /\ maximum n = Some (Some (Leaf k v)))
  /\ (forall pq es kvs, SemEdges leafWords pq es kvs ->
        forall es' b c, es = es' ++ [(b, c)] ->
        exists k v rest,
          kvs = rest ++ [(k, v)] /\ maximum c = Some (Some (Leaf k v))).
Proof.
  apply Sem_SemEdges_ind.
  - intros p k v _. by exists k, v, [].
  - intros p n es q kvs Hd Hmin _ _ _ IH.
    pose proof (dir_two n es Hd Hmin) as H2.
    destruct (exists_last (l:=es)) as (es' & [b c] & ->).
    { intros ->. simpl in H2. lia. }
    destruct (IH es' b c eq_refl) as (k & v & rest & -> & Hmax).
    exists k, v, rest. split; [done|]. by rewrite (dir_maximum n es' b c).
  - intros pq es' b c H. by destruct es'.
  - intros pq b0 c0 es l1 l2 _ IH1 Hes IH2 es' b c Heq.
    destruct es' as [|e es'']; simpl in Heq.
    + injection Heq as -> -> ->. inversion Hes; subst.
      destruct IH1 as (k & v & rest & -> & Hmax).
      exists k, v, rest. by rewrite app_nil_r.
    + injection Heq as <- ->.
      destruct (IH2 es'' b c eq_refl) as (k & v & rest & -> & Hmax).
      exists k, v, (l1 ++ rest). by rewrite (assoc_L (++)).
Qed.

Lemma Sem_maximum p n kvs :
  Sem leafWords p n kvs ->
  exists k v rest, kvs = rest ++ [(k, v)] /\ maximum n = Some (Some (Leaf k v)).
Proof. apply Sem_SemEdges_maximum. Qed.
End Extremes.

(** * [Search]: what it returns, and when it panics *)

(** The path [pq] followed so far agrees with the key as [keyChar] reads
    it, that is with zero bytes past its end. *)
Lemma agree_app (p q : list byte) (key : Key) (j : nat) :
  agree p key 0 (length p) -> agree q key (length p) j ->
  (j <= length q)%nat ->
  agree (p ++ q) key 0 (length p + j).
Proof.
  intros Hp Hq Hj i Hi. destruct (decide (i < length p)%nat) as [Hlt|Hge].
  - rewrite lookup_app_l by done. by apply Hp.
  - rewrite lookup_app_r by lia. rewrite (Hq (i - length p)%nat) by lia.
    do 2 f_equal. lia.
Qed.

(** A key that runs out inside the path to a stored key is a proper
    prefix of that key. *)
Lemma padded_short (pq : list byte) (key k0 : Key) (j : nat) :
  agree pq key 0 j -> (j < length pq)%nat -> (length key <= j)%nat ->
  pq `prefix_of` k0 -> properPrefix key k0.
Proof.
  intros Hag Hj Hlen Hk0. pose proof (prefix_length _ _ Hk0) as Hl.
  apply properPrefix_iff. split.
  - assert (key = take (length key) k0) as ->; [|apply prefix_of_take].
    apply list_eq. intros i. rewrite lookup_take.
    case_decide as Hi; [|by apply lookup_ge_None_2; lia].
    rewrite <- (prefix_lookup_eq pq k0 i Hk0) by lia.
    rewrite (Hag i) by lia. simpl.
    destruct (lookup_lt_is_Some_2 key i Hi) as [x Hx].
    by rewrite Hx, (kc_lookup key i x Hx).
  - intros ->. lia.
Qed.

Section SearchSpec.
Context {V : Type} (leafWords : Key -> V -> Z * list byte).
Implicit Types (es : list (byte * artNode V)) (b : byte) (c n : artNode V).
Implicit Types (p q pq : list byte) (k key : Key) (kvs : list (Key * V)).

(** Outcome of [searchHelper] on a subtree that holds [kvs]: a value it
    returns is stored under the key, and it panics only on a key that is
    a proper prefix of a stored key. *)
Definition searchPost key kvs (r : option (option V)) : Prop :=
  match r with
  | Some (Some v) => (key, v) ∈ kvs
  | Some None => True
  | None => blocked key kvs
  end.

Lemma searchPost_mid key pre mid post r :
  searchPost key mid r -> searchPost key (pre ++ mid ++ post) r.
Proof.
  destruct r as [[v|]|]; cbn [searchPost]; [|done|].
  - intros H. apply elem_of_app. right. apply elem_of_app. by left.
  - apply (blocked_mid leafWords).
Qed.

(** A slot returned by [findChild] lies within the children array. *)
Lemma findChild_Slot n b (i : Z) :
  findChild n b = Some (Slot i) ->
  exists o, get (childrenOf n) i = Some o /\ load n (Slot i) = o.
Proof.
  unfold findChild, load. intros H.
  assert (is_Some (get (childrenOf n) i)) as [o Ho].
  { destruct n as [k v|m ks cs|m ks cs|m ks cs|m cs];
      cbn [index childrenOf] in *.
    - cbn [mbind option_bind] in H. by destruct (0 <? 0).
    - cbn [mbind option_bind] in H.
      destruct (indexByte ks b <? 0); [done|].
      destruct (get cs (indexByte ks b)) eqn:E; [|done].
      cbn [mbind option_bind] in H. injection H as <-. by rewrite E.
    - cbn [mbind option_bind] in H.
      destruct (indexByte ks b <? 0); [done|].
      destruct (get cs (indexByte ks b)) eqn:E; [|done].
      cbn [mbind option_bind] in H. injection H as <-. by rewrite E.
    - destruct (get ks (b2z b)) as [s|]; [|done].
      cbn [mbind option_bind] in H.
      destruct (b2z s <? 0); [done|]. destruct (b2z s =? 0); [done|].
      destruct (get cs (b2z s)) eqn:E; [|done].
      cbn [mbind option_bind] in H. injection H as <-. by rewrite E.
    - cbn [mbind option_bind] in H.
      destruct (b2z b <? 0); [done|].
      destruct (get cs (b2z b)) as [[c|]|] eqn:E; [|done..].
      cbn [mbind option_bind] in H. injection H as <-. by rewrite E. }
  exists o. by rewrite Ho.
Qed.

Lemma at_child_nil {R : Type} (f : artNode V -> option R) (d : option R)
    (cs : list (option (artNode V))) (i : nat) :
  cs !! i = Some None -> at_child f d cs i = d.
Proof.
  revert i. induction cs as [|o cs IH]; intros i Hi; [done|].
  destruct i as [|i]; simpl in *.
  - by injection Hi as ->.
  - by apply IH.
Qed.

Lemma at_childZ_nil {R : Type} (f : artNode V -> option R) (d : option R)
    (cs : list (option (artNode V))) (i : Z) :
  get cs i = Some None -> at_childZ f d cs i = d.
Proof.
  intros [Hi Hc]%get_Some. unfold at_childZ.
  destruct (Z.ltb_spec i 0); [lia|]. by apply at_child_nil.
Qed.

Lemma Sem_SemEdges_searchPost :
  (forall p n kvs, Sem leafWords p n kvs ->
     forall key, agree p key 0 (length p) ->
       searchPost key kvs (searchHelper leafWords n key (len p)))
  /\ (forall pq es kvs, SemEdges leafWords pq es kvs ->
        forall b c mid, (b, c) ∈ es -> Sem leafWords (pq ++ [b]) c mid ->
        forall key, agree (pq ++ [b]) key 0 (length (pq ++ [b])) ->
          searchPost key mid (searchHelper leafWords c key (len pq + 1))).
Proof.
  apply Sem_SemEdges_ind.
  - intros p k v _ key _. cbn [searchHelper].
    destruct (isMatch (Leaf k v) key) eqn:Hm; [|done].
    apply isMatch_leaf in Hm as ->. cbn [searchPost]. by left.
  - intros p n es q kvs Hd Hmin HL Hst HS IH key Hp.
    assert (Sem leafWords p n kvs) as HSem by (by econstructor).
    destruct (Sem_minimumKey leafWords p n es q kvs Hd HS HSem)
      as (kmin & Hkmin & Hpk & Hkin).
    pose proof (dir_prefix_length leafWords n es Hd) as Hlp.
    rewrite searchHelper_inner by (by eapply dir_inner).
    pose proof (prefixMismatch_spec leafWords n p q key kmin Hlp HL Hst
                  Hkmin Hpk) as Hpm.
    change (len p) with (Z.of_nat (length p)).
    destruct (prefixMismatch leafWords n key (Z.of_nat (length p))) as [j|];
      cbn [mbind option_bind].
    + destruct Hpm as (j' & -> & Hj & Hag & Hmis). rewrite HL.
      case_bool_decide as Hjq; [done|].
      assert (j' = length q) as -> by (unfold len in Hjq; lia).
      rewrite keyCharAt_kc by (unfold len; lia). cbn [mbind option_bind].
      replace (Z.to_nat (Z.of_nat (length p) + len q)) with (length (p ++ q))
        by (rewrite length_app; unfold len; lia).
      set (b := kc key (length (p ++ q))).
      destruct (lookupEdge b es) as [c|] eqn:Hl.
      * destruct (dir_findChild_Some n es b c Hd Hl) as (i & Hf & Hc & _).
        rewrite Hf. cbn [mbind option_bind].
        rewrite (at_childZ_lookup _ _ _ _ c) by (by rewrite get_nat).
        destruct (SemEdges_split leafWords (p ++ q) es kvs b c HS
                    (dir_sorted n es Hd) Hl)
          as (pre & mid & post & -> & Hmid & _).
        apply searchPost_mid.
        replace (Z.of_nat (length p) + len q + 1) with (len (p ++ q) + 1)
          by (unfold len; rewrite length_app; lia).
        apply (IH b c mid); [by apply lookupEdge_Some_elem|done|].
        rewrite length_app.
        apply (agree_app (p ++ q) [b] key 1); [|intros i0 Hi0|simpl; lia].
        -- rewrite length_app. by apply agree_app.
        -- assert (i0 = 0%nat) as -> by lia. simpl. unfold b.
           by rewrite Nat.add_0_r.
      * destruct (dir_findChild_None n es b Hd Hl) as (r & Hf & Hload).
        rewrite Hf. cbn [mbind option_bind]. destruct r as [|i]; [done|].
        destruct (findChild_Slot n b i Hf) as (o & Ho & Hlo).
        rewrite Hload in Hlo. subst o. by rewrite at_childZ_nil.
    + cbn [searchPost]. destruct Hpm as (j' & Hj & Hshort & Hag).
      exists kmin. split; [done|].
      apply (padded_short (p ++ q) key kmin (length p + j')); [|..|done].
      * apply agree_app; [done|done|lia].
      * rewrite length_app. lia.
      * done.
  - intros pq b c mid Hin. by apply elem_of_nil in Hin.
  - intros pq b c es l1 l2 H1 IH1 H2 IH2 b' c' mid Hin Hc' key Hp.
    apply elem_of_cons in Hin as [[= -> ->]|Hin].
    + pose proof (Sem_det leafWords _ _ _ _ _ Hc' H1) as ->.
      replace (len pq + 1) with (len (pq ++ [b]))
        by (unfold len; rewrite length_app; simpl; lia).
      by apply IH1.
    + by apply (IH2 b' c' mid).
Qed.

Lemma Sem_searchPost n kvs key :
  Sem leafWords [] n kvs ->
  searchPost key kvs (searchHelper leafWords n key 0).
Proof.
  intros H. apply (proj1 Sem_SemEdges_searchPost [] n kvs H key).
  intros i Hi. simpl in Hi. lia.
Qed.

(** [Search] on a tree that satisfies the invariant. *)
Lemma treeInv_searchPost t kvs key :
  treeInv leafWords t kvs ->
  match Search leafWords t key with
  | Some (Some v) => (key, v) ∈ kvs
  | Some None => key ∉ kvs.*1
  | None => blocked key kvs
  end.
Proof.
  intros Hinv.
  assert (forall v, (key, v) ∈ kvs ->
            Search leafWords t key = Some (Some v)) as Hhit.
  { intros v. by apply treeInv_search. }
  destruct Hinv as [_ Hroot]. unfold Search in *. destruct (root t) as [n|].
  - pose proof (Sem_searchPost n kvs key Hroot) as H.
    destruct (searchHelper leafWords n key 0) as [[v|]|]; [done| |done].
    intros ([k v] & Hk & Hin)%list_elem_of_fmap_1. simpl in Hk. subst k.
    by specialize (Hhit v Hin).
  - subst kvs. simpl. apply not_elem_of_nil.
Qed.

(** X1: on a reachable tree, [Search(key)] returns a value exactly when
    the pair of the key and that value is one of the pairs [Each] lists:
    it never returns a value for a key that is not stored, nor the value
    of another key, and it does return the value of every stored key. *)
Theorem search_iff_stored t key v :
  reachable leafWords t ->
  Search leafWords t key = Some (Some v) <-> (key, v) ∈ contents t.
Proof.
  intros [kvs Hinv]%reachable_inv.
  rewrite (treeInv_contents leafWords t kvs Hinv). split.
  - intros Hs. pose proof (treeInv_searchPost t kvs key Hinv) as H.
    by rewrite Hs in H.
  - by apply treeInv_search.
Qed.

(** X2: on a reachable tree, [Search] of a key that is not stored returns
    nil, unless the key is a proper prefix of a stored key; only for such a
    key can [Search] fail with an index out of range (the second loop of
    [prefixMismatch] reads [key[depth+idx]] unguarded). *)
Theorem search_absent_key t key :
  reachable leafWords t -> key ∉ keysOf t ->
  blockedb key (keysOf t) = false ->
  Search leafWords t key = Some None.
Proof.
  intros [kvs Hinv]%reachable_inv. unfold keysOf.
  rewrite (treeInv_contents leafWords t kvs Hinv). intros Hnin Hnb.
  pose proof (treeInv_searchPost t kvs key Hinv) as H.
  destruct (Search leafWords t key) as [[v|]|]; [|done|].
  - exfalso. apply Hnin. by apply (list_elem_of_fmap_2 fst kvs (key, v)).
  - apply blockedb_spec in H. congruence.
Qed.
End SearchSpec.

(** * The tree as a map: how the operations compose *)

Lemma byte_ltb_asym (a b : byte) : byte_ltb a b = true -> byte_ltb b a = false.
Proof.
  unfold byte_ltb. intros H%Z.ltb_lt. apply Z.ltb_ge. lia.
Qed.

Lemma key_ltb_asym (k1 k2 : Key) : key_ltb k1 k2 = true -> key_ltb k2 k1 = false.
Proof.
  revert k2. induction k1 as [|a k1 IH]; intros [|b k2]; simpl; try done.
  destruct (byte_ltb a b) eqn:E1.
  - intros _. by rewrite (byte_ltb_asym a b E1).
  - destruct (byte_ltb b a) eqn:E2; [done|]. apply IH.
Qed.

(** A run of [Delete]s; the boolean tells whether every one of them
    returned true; [None] as soon as one panics. *)
Fixpoint deleteAll {V : Type} (leafWords : Key -> V -> Z * list byte)
    (t : tree V) (ks : list Key) : option (bool * tree V) :=
  match ks with
  | [] => Some (true, t)
  | k :: rest =>
      r ← Delete leafWords t k;
      r' ← deleteAll leafWords r.2 rest;
      Some (r.1 && r'.1, r'.2)
  end.

Section MapFacts.
Context {V : Type} (leafWords : Key -> V -> Z * list byte).
Implicit Types (es : list (byte * artNode V)) (c n : artNode V).
Implicit Types (k key : Key) (kvs : list (Key * V)) (t : tree V).

Lemma StronglySorted_pairs kvs :
  StronglySorted key_lt kvs.*1 ->
  StronglySorted (fun a b : Key * V => key_lt a.1 b.1) kvs.
Proof.
  induction kvs as [|kv kvs IH]; [constructor|].
  rewrite fmap_cons. intros H. inversion H as [|? ? Hs Hall]; subst.
  constructor; [by apply IH|]. rewrite Forall_fmap in Hall. exact Hall.
Qed.

(** Two lists of pairs in strictly ascending order of their keys that
    hold the same pairs are equal. *)
Lemma sorted_pairs_eq (l1 l2 : list (Key * V)) :
  StronglySorted key_lt l1.*1 -> StronglySorted key_lt l2.*1 ->
  (forall kv, kv ∈ l1 <-> kv ∈ l2) -> l1 = l2.
Proof.
  intros H1 H2 Hel.
  apply (StronglySorted_unique_strong
           (fun a b : Key * V => key_lt a.1 b.1)).
  - intros x1 x2 _ _ Hlt Hgt. unfold key_lt in *.
    rewrite (key_ltb_asym _ _ Hlt) in Hgt. done.
  - by apply StronglySorted_pairs.
  - by apply StronglySorted_pairs.
  - apply NoDup_Permutation; [| |done].
    + eapply NoDup_fmap_1. by apply StronglySorted_key_lt_NoDup.
    + eapply NoDup_fmap_1. by apply StronglySorted_key_lt_NoDup.
Qed.

Lemma elem_of_filter_keys key kvs k :
  k ∈ (filter (fun kv : Key * V => kv.1 ≠ key) kvs).*1
  <-> k ≠ key /\ k ∈ kvs.*1.
Proof.
  rewrite !list_elem_of_fmap. split.
  - intros ([k0 v0] & -> & [Hne Hin]%list_elem_of_filter). simpl in *.
    split; [done|]. by exists (k0, v0).
  - intros [Hne ([k0 v0] & -> & Hin)]. exists (k0, v0). split; [done|].
    by apply list_elem_of_filter.
Qed.

Lemma treeInv_empty t : treeInv leafWords t [] -> root t = None /\ count t = 0.
Proof.
  intros [Hc Hr]. split; [|done]. destruct (root t) as [n|]; [|done].
  by apply Sem_nonempty in Hr.
Qed.

Lemma lookupLast_Some_elem key (v : V) kvs :
  lookupLast key kvs = Some v -> (key, v) ∈ kvs.
Proof.
  induction kvs as [|[k0 v0] kvs IH]; [done|]. cbn [lookupLast fst snd].
  destruct (lookupLast key kvs) as [v'|].
  - intros [= ->]. right. by apply IH.
  - case_decide as Hk; [|done]. intros [= ->]. subst k0. by left.
Qed.

Lemma lookupLast_None key kvs :
  lookupLast key kvs = None -> key ∉ kvs.*1.
Proof.
  induction kvs as [|[k0 v0] kvs IH]; [intros _; apply not_elem_of_nil|].
  cbn [lookupLast fst snd]. rewrite fmap_cons.
  destruct (lookupLast key kvs) as [v'|]; [done|].
  case_decide as Hk; [done|]. intros _.
  apply not_elem_of_cons. split; [by intros ->|by apply IH].
Qed.

(** [Search] sees a pair exactly when the invariant lists it. *)
Lemma treeInv_search_iff t kvs key v :
  treeInv leafWords t kvs ->
  Search leafWords t key = Some (Some v) <-> (key, v) ∈ kvs.
Proof.
  intros Hinv. split.
  - intros Hs. pose proof (treeInv_searchPost leafWords t kvs key Hinv) as H.
    by rewrite Hs in H.
  - by apply treeInv_search.
Qed.

Lemma treeInv_Size t kvs : treeInv leafWords t kvs -> Size t = len kvs.
Proof. by intros [H _]. Qed.

(** X3: on a reachable tree, [Size()] is the number of leaves that [Each]
    hands to its callback. *)
Theorem size_counts_leaves t :
  reachable leafWords t ->
  exists ns, Each t = Some ns /\ Size t = len (leafList ns).
Proof.
  intros [kvs Hinv]%reachable_inv.
  destruct (treeInv_each leafWords t kvs Hinv) as (ns & Hns & Hl & _).
  exists ns. split; [done|]. rewrite Hl. by apply treeInv_Size.
Qed.

(** X4: on a reachable tree, the root pointer is nil exactly when
    [Size()] is zero: deleting the last key leaves the empty tree, not an
    inner node without children. *)
Theorem root_nil_iff_empty t :
  reachable leafWords t -> root t = None <-> Size t = 0.
Proof.
  intros [kvs [Hc Hr]]%reachable_inv. unfold Size. rewrite Hc.
  destruct (root t) as [n|].
  - apply Sem_nonempty in Hr. split; [done|]. intros H.
    destruct kvs; [done|]. unfold len in H. simpl in H. lia.
  - by subst kvs.
Qed.

(** X5: [Insert(key, v)] on a reachable tree, for a key that neither
    continues a stored key with a zero byte nor is so continued by one.
    If it returns, [Size()] has grown by one for a key that was not
    stored and is unchanged otherwise, [Search(key)] returns [v], and
    [Search] of any other key returns a value exactly when it did before,
    and then the same value. *)
Theorem insert_keeps_other_keys t key (v : V) t' :
  reachable leafWords t -> aliasFreeb key (keysOf t) = true ->
  Insert leafWords t key v = Some t' ->
  Size t' = Size t + (if decide (key ∈ keysOf t) then 0 else 1)
  /\ Search leafWords t' key = Some (Some v)
  /\ forall k' v', k' ≠ key ->
       Search leafWords t' k' = Some (Some v')
       <-> Search leafWords t k' = Some (Some v').
Proof.
  intros [kvs Hinv]%reachable_inv. unfold keysOf.
  rewrite (treeInv_contents leafWords t kvs Hinv). intros Hfree Hrun.
  apply aliasFreeb_spec in Hfree.
  pose proof (Insert_inv leafWords t kvs key v Hinv Hfree) as H.
  rewrite Hrun in H. destruct H as (kvs' & Hinv' & Hins & Hcnt).
  split; [done|]. split.
  - apply (treeInv_search leafWords t' kvs'); [done|]. apply Hins. by left.
  - intros k' v' Hne.
    rewrite (treeInv_search_iff t' kvs' k' v' Hinv').
    rewrite (treeInv_search_iff t kvs k' v' Hinv).
    rewrite (Hins (k', v')). simpl. split.
    + intros [[= ? ?]|[? _]]; done.
    + intros Hin. by right.
Qed.

Lemma Delete_true_nonempty t key t' :
  Delete leafWords t key = Some (true, t') -> key ≠ [].
Proof. intros H ->. by rewrite Delete_empty_key in H. Qed.

(** X6: when [Delete(key)] returns true on a reachable tree, the key is
    no longer stored: [Search(key)] does not return a value any more, and
    it returns nil unless the key is a proper prefix of a key that is still
    stored; [Search] of any other key returns a value exactly when it did
    before, and then the same value. *)
Theorem delete_keeps_other_keys t key t' :
  reachable leafWords t -> Delete leafWords t key = Some (true, t') ->
  (key ∉ keysOf t')
  /\ (forall v, Search leafWords t' key ≠ Some (Some v))
  /\ (blockedb key (keysOf t') = false -> Search leafWords t' key = Some None)
  /\ forall k' v', k' ≠ key ->
       Search leafWords t' k' = Some (Some v')
       <-> Search leafWords t k' = Some (Some v').
Proof.
  intros [kvs Hinv]%reachable_inv Hrun.
  pose proof (Delete_true_nonempty t key t' Hrun) as Hk.
  pose proof (Delete_inv leafWords t kvs key Hinv Hk) as H.
  rewrite Hrun in H. destruct H as (Hin & Hinv' & Hcnt). unfold keysOf.
  rewrite (treeInv_contents leafWords t' _ Hinv').
  assert (key ∉ (filter (fun kv : Key * V => kv.1 ≠ key) kvs).*1) as Hnin.
  { rewrite elem_of_filter_keys. by intros [? _]. }
  pose proof (treeInv_searchPost leafWords t' _ key Hinv') as Hpost.
  split; [done|]. split; [|split].
  - intros v Hs. rewrite Hs in Hpost. apply Hnin.
    by apply (list_elem_of_fmap_2 fst _ (key, v)).
  - intros Hnb. destruct (Search leafWords t' key) as [[v|]|]; [|done|].
    + exfalso. apply Hnin. by apply (list_elem_of_fmap_2 fst _ (key, v)).
    + apply blockedb_spec in Hpost. congruence.
  - intros k' v' Hne.
    rewrite (treeInv_search_iff t' _ k' v' Hinv').
    rewrite (treeInv_search_iff t kvs k' v' Hinv).
    rewrite list_elem_of_filter. simpl. tauto.
Qed.

(** X7: on a reachable tree, [Insert] of a non-empty key that is not
    stored followed by [Delete] of that key: [Delete] returns true, and
    the pairs of the tree and [Size()] are what they were before the
    [Insert]. *)
Theorem insert_delete_roundtrip t key (v : V) t' :
  reachable leafWords t -> aliasFreeb key (keysOf t) = true ->
  key ≠ [] -> key ∉ keysOf t ->
  Insert leafWords t key v = Some t' ->
  exists t'', Delete leafWords t' key = Some (true, t'')
              /\ contents t'' = contents t /\ Size t'' = Size t.
Proof.
  intros [kvs Hinv]%reachable_inv. unfold keysOf.
  rewrite (treeInv_contents leafWords t kvs Hinv). intros Hfree Hk Hnin Hrun.
  apply aliasFreeb_spec in Hfree.
  pose proof (Insert_inv leafWords t kvs key v Hinv Hfree) as H.
  rewrite Hrun in H. destruct H as (kvs' & Hinv' & Hins & Hcnt).
  rewrite decide_False in Hcnt by done.
  assert (key ∈ kvs'.*1) as Hin'.
  { apply (list_elem_of_fmap_2 fst kvs' (key, v)). apply Hins. by left. }
  pose proof (Delete_inv leafWords t' kvs' key Hinv' Hk) as H.
  destruct (Delete leafWords t' key) as [[[] t'']|]; [|by destruct H|done].
  destruct H as (_ & Hinv'' & Hcnt'). exists t''. split; [done|].
  assert (filter (fun kv : Key * V => kv.1 ≠ key) kvs' = kvs) as Heq.
  { apply sorted_pairs_eq.
    - by apply (treeInv_sorted leafWords t'').
    - by apply (treeInv_sorted leafWords t).
    - intros kv. rewrite list_elem_of_filter, (Hins kv). split.
      + intros [Hne [->|[? _]]]; done.
      + intros Hin. assert (kv.1 ≠ key) as Hne.
        { intros <-. apply Hnin. by apply (list_elem_of_fmap_2 fst kvs kv). }
        split; [done|]. by right. }
  rewrite Heq in Hinv''.
  rewrite (treeInv_contents leafWords t'' kvs Hinv''). split; [done|].
  unfold Size. lia.
Qed.

Lemma deleteAll_inv (ks : list Key) : forall t kvs,
  treeInv leafWords t kvs -> NoDup ks -> (forall k, k ∈ ks <-> k ∈ kvs.*1) ->
  [] ∉ ks ->
  exists t', deleteAll leafWords t ks = Some (true, t')
             /\ root t' = None /\ Size t' = 0.
Proof.
  induction ks as [|k ks IH]; intros t kvs Hinv Hnd Hel Hne.
  - exists t. split; [done|]. apply treeInv_empty.
    destruct kvs as [|kv kvs]; [done|]. exfalso.
    apply (not_elem_of_nil kv.1). apply Hel. rewrite fmap_cons. by left.
  - apply NoDup_cons in Hnd as [Hk Hnd].
    apply not_elem_of_cons in Hne as [Hk0 Hne].
    assert (k ≠ []) as Hk0' by done.
    pose proof (Delete_inv leafWords t kvs k Hinv Hk0') as H.
    assert (k ∈ kvs.*1) as Hin by (apply Hel; by left).
    cbn [deleteAll].
    destruct (Delete leafWords t k) as [[[] t1]|]; [|by destruct H|done].
    destruct H as (_ & Hinv1 & _). cbn [mbind option_bind snd fst].
    destruct (IH t1 _ Hinv1 Hnd) as (t' & Hrun & Hroot & Hsize); [|done|].
    + intros k'. rewrite elem_of_filter_keys, <- (Hel k').
      rewrite elem_of_cons. split.
      * intros Hk'. split; [by intros ->|by right].
      * intros [Hne' [?|?]]; done.
    + exists t'. rewrite Hrun. by cbn [mbind option_bind snd fst andb].
Qed.

(** X8: on a reachable tree that does not store the empty key, deleting
    every stored key once, in any order, empties the tree: every
    [Delete] returns true, and afterwards the root is nil and [Size()] is
    zero. *)
Theorem delete_all_empties t (ks : list Key) :
  reachable leafWords t -> ks ≡ₚ keysOf t -> [] ∉ ks ->
  exists t', deleteAll leafWords t ks = Some (true, t')
             /\ root t' = None /\ Size t' = 0.
Proof.
  intros [kvs Hinv]%reachable_inv. unfold keysOf.
  rewrite (treeInv_contents leafWords t kvs Hinv). intros Hperm Hne.
  apply (deleteAll_inv ks t kvs); [done| | |done].
  - rewrite Hperm. by apply (treeInv_NoDup leafWords t).
  - intros k. by rewrite Hperm.
Qed.

(** X9: the pairs of a tree do not depend on the order of the [Insert]s:
    two runs of [Insert]s from the empty tree that return and leave every
    key with the same last value give trees whose pairs, as [Each] lists
    them, and [Size()] are the same. *)
Theorem insertion_order_irrelevant kvs1 kvs2 t1 t2 :
  admissible [] kvs1.*1 = true -> admissible [] kvs2.*1 = true ->
  (forall key, lookupLast key kvs1 = lookupLast key kvs2) ->
  insertAll leafWords newArt kvs1 = Some t1 ->
  insertAll leafWords newArt kvs2 = Some t2 ->
  contents t1 = contents t2 /\ Size t1 = Size t2.
Proof.
  intros Hadm1 Hadm2 Hsame Hrun1 Hrun2.
  pose proof (insertAll_inv leafWords kvs1 newArt [] []
                (conj eq_refl eq_refl) (fun k H => H) Hadm1) as H1.
  pose proof (insertAll_inv leafWords kvs2 newArt [] []
                (conj eq_refl eq_refl) (fun k H => H) Hadm2) as H2.
  rewrite Hrun1 in H1. rewrite Hrun2 in H2.
  destruct H1 as (l1 & Hinv1 & Hmem1). destruct H2 as (l2 & Hinv2 & Hmem2).
  rewrite (treeInv_contents leafWords t1 l1 Hinv1).
  rewrite (treeInv_contents leafWords t2 l2 Hinv2).
  assert (l1 = l2) as ->.
  { apply sorted_pairs_eq.
    - by apply (treeInv_sorted leafWords t1).
    - by apply (treeInv_sorted leafWords t2).
    - intros [k v]. by rewrite (Hmem1 k v), (Hmem2 k v), (Hsame k). }
  split; [done|].
  by rewrite (treeInv_Size t1 l2 Hinv1), (treeInv_Size t2 l2 Hinv2).
Qed.

Lemma omap_Key_leafList (ns : list (artNode V)) :
  omap artNode_Key ns = (leafList ns).*1.
Proof.
  induction ns as [|n ns IH]; [done|].
  destruct n; cbn; by rewrite ?IH.
Qed.

Lemma elem_of_leafList (ns : list (artNode V)) key (v : V) :
  (key, v) ∈ leafList ns
  <-> exists n, n ∈ ns /\ artNode_NodeType n = LeafNode
                /\ artNode_Key n = Some key /\ artNode_Value n = Some v.
Proof.
  unfold leafList. rewrite list_elem_of_omap. split.
  - intros (n & Hin & Hn). exists n. split; [done|].
    destruct n; try done. by injection Hn as -> ->.
  - intros (n & Hin & Ht & Hk & Hv). exists n. split; [done|].
    destruct n; try done. cbn in Hk, Hv. by injection Hk as ->; injection Hv as ->.
Qed.

(** X10: on a reachable tree, the leaves among the nodes that [Each]
    hands to its callback are the stored pairs: a node with [NodeType()]
    LeafNode, [Key()] k and [Value()] v is handed over exactly when
    [Search(k)] returns v, and no key is handed over twice. *)
Theorem each_lists_stored_pairs t :
  reachable leafWords t ->
  exists ns,
    Each t = Some ns
    /\ NoDup (omap artNode_Key ns)
    /\ forall key v,
         (exists n, n ∈ ns /\ artNode_NodeType n = LeafNode
                    /\ artNode_Key n = Some key /\ artNode_Value n = Some v)
         <-> Search leafWords t key = Some (Some v).
Proof.
  intros [kvs Hinv]%reachable_inv.
  destruct (treeInv_each leafWords t kvs Hinv) as (ns & Hns & Hl & _).
  exists ns. split; [done|]. split.
  - rewrite omap_Key_leafList, Hl. by apply (treeInv_NoDup leafWords t).
  - intros key v. rewrite <- elem_of_leafList, Hl.
    by rewrite (treeInv_search_iff t kvs key v Hinv).
Qed.

(** X11: on a reachable tree that is not empty, [minimum] of the root is
    the leaf of a stored pair whose key is below every other stored key
    in the order of [bytes.Compare]. *)
Theorem minimum_is_least t n :
  reachable leafWords t -> root t = Some n ->
  exists k v,
    minimum n = Some (Some (Leaf k v))
    /\ (k, v) ∈ contents t
    /\ forall k', k' ∈ keysOf t -> k' = k \/ key_lt k k'.
Proof.
  intros [kvs Hinv]%reachable_inv Hroot. unfold keysOf.
  rewrite (treeInv_contents leafWords t kvs Hinv).
  pose proof (treeInv_sorted leafWords t kvs Hinv) as Hs.
  destruct Hinv as [_ Hr]. rewrite Hroot in Hr.
  destruct (Sem_minimum leafWords [] n kvs Hr) as (k & v & rest & -> & Hmin).
  exists k, v. split; [done|]. split; [by left|].
  rewrite fmap_cons in Hs. inversion Hs as [|? ? _ Hall]; subst.
  intros k' [->|Hin]%elem_of_cons; [by left|]. right.
  rewrite Forall_forall in Hall. by apply Hall.
Qed.

(** X12: on a reachable tree that is not empty, [maximum] of the root is
    the leaf of a stored pair whose key is above every other stored key
    in the order of [bytes.Compare]. *)
Theorem maximum_is_greatest t n :
  reachable leafWords t -> root t = Some n ->
  exists k v,
    maximum n = Some (Some (Leaf k v))
    /\ (k, v) ∈ contents t
    /\ forall k', k' ∈ keysOf t -> k' = k \/ key_lt k' k.
Proof.
  intros [kvs Hinv]%reachable_inv Hroot. unfold keysOf.
  rewrite (treeInv_contents leafWords t kvs Hinv).
  pose proof (treeInv_sorted leafWords t kvs Hinv) as Hs.
  destruct Hinv as [_ Hr]. rewrite Hroot in Hr.
  destruct (Sem_maximum leafWords [] n kvs Hr) as (k & v & rest & -> & Hmax).
  exists k, v. split; [done|]. split.
  { apply elem_of_app. right. by left. }
  rewrite fmap_app in Hs |- *. simpl in Hs |- *.
  intros k' [Hin|Hin]%elem_of_app.
  - right. apply (StronglySorted_app_1_elem_of _ _ _ k' k Hs Hin). by left.
  - left. by apply list_elem_of_singleton in Hin.
Qed.

Lemma fixed_length_admissible (L : nat) (ks : list Key) : forall seen,
  Forall (fun k => length k = L) seen -> Forall (fun k => length k = L) ks ->
  admissible seen ks = true /\ unblocked seen ks = true.
Proof.
  induction ks as [|k ks IH]; intros seen Hseen Hks; [done|].
  apply Forall_cons in Hks as [Hk Hks]. cbn [admissible unblocked].
  destruct (IH (k :: seen)) as [-> ->]; [by constructor|done|].
  rewrite !andb_true_r. split.
  - apply forallb_forall. intros k0 Hk0%list_elem_of_In.
    rewrite Forall_forall in Hseen. specialize (Hseen k0 Hk0).
    apply andb_true_iff. split; apply negb_true_iff, bool_decide_eq_false;
      intros Hp%prefix_length; rewrite keyZ_length in Hp; lia.
  - apply negb_true_iff. apply not_true_iff_false.
    intros (k0 & Hk0%list_elem_of_In & Hb)%existsb_exists.
    rewrite Forall_forall in Hseen. specialize (Hseen k0 Hk0).
    apply andb_true_iff in Hb as [Hp%bool_decide_eq_true Hn].
    apply negb_true_iff, bool_decide_eq_false in Hn. apply Hn.
    destruct Hp as [r ->]. rewrite length_app in Hseen.
    destruct r; [by rewrite app_nil_r|]. simpl in Hseen. lia.
Qed.

(** X13: keys of one length (such as UUIDs or fixed-width integers).
    Every run of [Insert]s from the empty tree with keys of length [L]
    returns, and afterwards [Search] of any key of length [L] returns the
    value inserted last under that key, and nil for a key that was not
    inserted. *)
Theorem fixed_length_keys_map (L : nat) kvs :
  Forall (fun kv : Key * V => length kv.1 = L) kvs ->
  exists t,
    insertAll leafWords newArt kvs = Some t
    /\ forall key, length key = L ->
         Search leafWords t key = Some (lookupLast key kvs).
Proof.
  intros HL.
  assert (Forall (fun k : Key => length k = L) kvs.*1) as HL'.
  { by apply Forall_fmap. }
  destruct (fixed_length_admissible L kvs.*1 [] (Forall_nil_2 _) HL')
    as [Hadm Hun].
  pose proof (insertAll_inv leafWords kvs newArt [] []
                (conj eq_refl eq_refl) (fun k H => H) Hadm) as H.
  destruct (insertAll leafWords newArt kvs) as [t|]; [|congruence].
  destruct H as (kvs1 & Hinv & Hmem). exists t. split; [done|].
  intros key Hkey.
  pose proof (treeInv_searchPost leafWords t kvs1 key Hinv) as Hpost.
  destruct (Search leafWords t key) as [[v|]|].
  - apply Hmem in Hpost. destruct (lookupLast key kvs); [by subst|].
    by apply elem_of_nil in Hpost.
  - destruct (lookupLast key kvs) as [v'|] eqn:E; [|done]. exfalso.
    apply Hpost. apply (list_elem_of_fmap_2 fst kvs1 (key, v')).
    apply Hmem. by rewrite E.
  - exfalso. destruct Hpost as (k0 & Hk0 & r & Hr & ->).
    apply list_elem_of_fmap_1 in Hk0 as ([k1 v1] & Heq & Hin). simpl in Heq.
    subst k1. apply Hmem in Hin.
    destruct (lookupLast (key ++ r) kvs) as [v'|] eqn:E;
      [|by apply elem_of_nil in Hin].
    apply lookupLast_Some_elem in E. rewrite Forall_forall in HL.
    specialize (HL _ E). simpl in HL. rewrite length_app in HL.
    destruct r; [done|]. simpl in HL. lia.
Qed.
End MapFacts.

(** * Adding to and removing from the directory of a node *)

(** The variant a node shrinks into. *)
Definition shrunkType (t : NodeType) : NodeType :=
  match t with
  | Node16 => Node4
  | Node48 => Node16
  | Node256 => Node48
  | t => t
  end.

Section NodeOps.
Context {V : Type} (leafWords : Key -> V -> Z * list byte).
Implicit Types (es : list (byte * artNode V)) (b : byte) (c n : artNode V).
Implicit Types (ks : list byte) (cs : list (option (artNode V))) (m : node).

Lemma removeEdge_insertEdge es b c :
  sortedEdges es -> lookupEdge b es = None ->
  removeEdge b (insertEdge b c es) = es.
Proof.
  intros Hs Hb. apply sortedEdges_ext; [|done|].
  - apply sortedEdges_removeEdge. by apply sortedEdges_insertEdge.
  - intros b'. rewrite lookupEdge_removeEdge.
    case_decide as Hb'; [by subst|]. by apply lookupEdge_insertEdge_ne.
Qed.

Lemma isFull_false_lt n es :
  dir n es -> isFull leafWords n = false -> len es < maxSize n.
Proof.
  intros Hd Hf. pose proof (dir_length_le n es Hd) as Hle.
  pose proof (dir_size leafWords n es Hd) as Hsz.
  apply bool_decide_eq_false in Hf. lia.
Qed.

(** Below capacity [addChild] works in place. *)
Lemma dir_addChild_room n es b c :
  dir n es -> isFull leafWords n = false -> lookupEdge b es = None ->
  exists n',
    addChild leafWords n b c = Some n'
    /\ nodeType n' = nodeType n
    /\ dir n' (insertEdge b c es)
    /\ nodeOf leafWords n' = incSize (nodeOf leafWords n).
Proof.
  intros Hd Hf Hb. pose proof (isFull_false_lt n es Hd Hf) as Hlt.
  pose proof (sortedEdges_insertEdge b c es (dir_sorted n es Hd) Hb) as Hs'.
  destruct Hd as [Hs Hd].
  destruct n as [|m ks cs|m ks cs|m ks cs|m cs]; [done|..];
    cbn [maxSize] in Hlt; unfold len, node4Max, node16Max, node48Max,
      node256Max in Hlt.
  - destruct (addChild_N4 leafWords m ks cs es b c Hd) as (ks' & cs' & Hr & Hl);
      [lia|].
    eexists. split; [done|]. split; [done|]. split; [by split|done].
  - destruct (addChild_N16_fresh leafWords 3 m ks cs es b c Hd Hs)
      as (ks' & cs' & Hr & Hl); [lia|done|].
    eexists. split; [done|]. split; [done|]. split; [by split|done].
  - destruct (addChild_N48 leafWords 3 m ks cs es b c Hd)
      as (ks' & cs' & Hr & Hl); [lia|done|].
    eexists. split; [done|]. split; [done|]. split; [by split|done].
  - destruct (addChild_N256 leafWords 3 m cs es b c Hd)
      as (cs' & Hr & Hl); [lia|done|].
    eexists. split; [done|]. split; [done|]. split; [by split|done].
Qed.

(** X14: [addChild(b, child)] on a well-formed node below capacity, for a
    byte that has no child yet: the node keeps its variant, [size] grows
    by one, [findChild(b)] returns the new child afterwards and every
    other byte leads where it led before. *)
Theorem addChild_below_capacity n es b c :
  dir n es -> isFull leafWords n = false -> lookupEdge b es = None ->
  exists n',
    addChild leafWords n b c = Some n'
    /\ nodeType n' = nodeType n
    /\ size (nodeOf leafWords n') = size (nodeOf leafWords n) + 1
    /\ forall b', childUnder n' b'
                  = Some (if decide (b' = b) then Some c
                          else lookupEdge b' es).
Proof.
  intros Hd Hf Hb.
  destruct (dir_addChild_room n es b c Hd Hf Hb) as (n' & Hr & Ht & Hd' & Hm).
  exists n'. split; [done|]. split; [done|]. split; [by rewrite Hm|].
  intros b'. rewrite (dir_childUnder n' _ b' Hd').
  by rewrite lookupEdge_insertEdge.
Qed.

(** [RemoveChild] of a byte that has a child, with the variant of the
    result. *)
Lemma dir_RemoveChild_type n es b c :
  dir n es -> lookupEdge b es = Some c -> minSize n <= len es ->
  (nodeType n = Node4 -> length es ≠ 2%nat) ->
  exists n',
    RemoveChild leafWords n b = Some n'
    /\ dir n' (removeEdge b es)
    /\ nodeType n' = (if len es - 1 <? minSize n then shrunkType (nodeType n)
                      else nodeType n)
    /\ prefixLen (nodeOf leafWords n') = prefixLen (nodeOf leafWords n)
    /\ storedPrefix (nodeOf leafWords n') = storedPrefix (nodeOf leafWords n).
Proof.
  intros [Hs H] Hb Hmin Hn4.
  pose proof (sortedEdges_removeEdge b es Hs) as Hs'.
  pose proof (length_removeEdge b c es Hs Hb) as Hlr.
  destruct n as [|m ks cs|m ks cs|m ks cs|m cs]; [done|..];
    cbn [nodeOf minSize nodeType shrunkType] in *.
  - destruct (RemoveChild_N4 leafWords m ks cs es b c H Hs Hb)
      as (ks' & cs' & Hl & Hrun).
    specialize (Hn4 eq_refl). destruct H as (_ & Hsz & _).
    unfold len, node4Min in *. rewrite Hsz in Hrun.
    destruct (Z.ltb_spec (Z.of_nat (length es) - 1) 2) as [|Hge]; [lia|].
    eexists. split; [done|]. split; [by split|]. by repeat split.
  - destruct (RemoveChild_N16 leafWords m ks cs es b c H Hs Hb)
      as (ks' & cs' & Hl & Hrun).
    destruct H as (_ & Hsz & _). unfold len, node16Min in *.
    rewrite Hsz in Hrun.
    destruct (Z.ltb_spec (Z.of_nat (length es) - 1) 5) as [Hlt|Hge].
    + destruct (shrink_N16 leafWords (decSize m) ks' cs' _ Hl)
        as (m' & ks2 & cs2 & Hsh & Hl2 & HL & Hst); [lia|].
      rewrite Hsh in Hrun.
      eexists. split; [done|]. split; [by split|]. by repeat split.
    + eexists. split; [done|]. split; [by split|]. by repeat split.
  - destruct (RemoveChild_N48 leafWords m ks cs es b c H Hs Hb)
      as (ks' & cs' & Hl & Hrun).
    destruct H as (_ & Hsz & _). unfold len, node48Min in *.
    rewrite Hsz in Hrun.
    destruct (Z.ltb_spec (Z.of_nat (length es) - 1) 17) as [Hlt|Hge].
    + destruct (shrink_N48 leafWords (decSize m) ks' cs' _ Hl Hs')
        as (m' & ks2 & cs2 & Hsh & Hl2 & HL & Hst); [lia|].
      rewrite Hsh in Hrun.
      eexists. split; [done|]. split; [by split|]. by repeat split.
    + eexists. split; [done|]. split; [by split|]. by repeat split.
  - destruct (RemoveChild_N256 leafWords m cs es b c H Hs Hb)
      as (cs' & Hl & Hrun).
    destruct H as (_ & Hsz & _). unfold len, node256Min in *.
    rewrite Hsz in Hrun.
    destruct (Z.ltb_spec (Z.of_nat (length es) - 1) 49) as [Hlt|Hge].
    + destruct (shrink_N256 leafWords (decSize m) cs' _ Hl Hs')
        as (m' & ks2 & cs2 & Hsh & Hl2 & HL & Hst); [lia|].
      rewrite Hsh in Hrun.
      eexists. split; [done|]. split; [by split|]. by repeat split.
    + eexists. split; [done|]. split; [by split|]. by repeat split.
Qed.

(** X15: [RemoveChild(b)] on a well-formed node within the bounds of its
    variant, for a byte that has a child (a Node4 with two children, which
    collapses into its other child, apart): afterwards [findChild(b)]
    returns nil, every other byte leads where it led before, and [size] is
    one less.  The node keeps its variant unless [size] falls below the
    minimum of the variant, in which case it becomes the next smaller
    variant. *)
Theorem RemoveChild_present n es b c :
  dir n es -> lookupEdge b es = Some c -> minSize n <= len es ->
  (nodeType n = Node4 -> length es ≠ 2%nat) ->
  exists n',
    RemoveChild leafWords n b = Some n'
    /\ nodeType n' = (if len es - 1 <? minSize n then shrunkType (nodeType n)
                      else nodeType n)
    /\ size (nodeOf leafWords n') = size (nodeOf leafWords n) - 1
    /\ forall b', childUnder n' b'
                  = Some (if decide (b' = b) then None else lookupEdge b' es).
Proof.
  intros Hd Hb Hmin Hn4.
  destruct (dir_RemoveChild_type n es b c Hd Hb Hmin Hn4)
    as (n' & Hr & Hd' & Ht & _).
  exists n'. split; [done|]. split; [done|]. split.
  - rewrite (dir_size leafWords n' _ Hd'), (dir_size leafWords n es Hd).
    pose proof (length_removeEdge b c es (dir_sorted n es Hd) Hb) as Hl.
    unfold len. lia.
  - intros b'. rewrite (dir_childUnder n' _ b' Hd').
    by rewrite lookupEdge_removeEdge.
Qed.

(** X16: [shrink] of a well-formed Node16, Node48 or Node256 whose
    children fit into the next smaller variant gives a node of that
    variant with the same [prefixLen], the same stored prefix bytes, the
    same number of children and the same child under every byte. *)
Theorem shrink_preserves_directory n es :
  dir n es -> nodeType n ≠ Node4 ->
  len es <= (match nodeType n with
             | Node16 => node4Max | Node48 => node16Max | _ => node48Max
             end) ->
  exists n',
    shrink leafWords n = Some n'
    /\ nodeType n' = shrunkType (nodeType n)
    /\ prefixLen (nodeOf leafWords n') = prefixLen (nodeOf leafWords n)
    /\ storedPrefix (nodeOf leafWords n') = storedPrefix (nodeOf leafWords n)
    /\ size (nodeOf leafWords n') = size (nodeOf leafWords n)
    /\ forall b, childUnder n' b = childUnder n b.
Proof.
  intros Hd Hn4 Hfit.
  assert (exists n',
            shrink leafWords n = Some n'
            /\ nodeType n' = shrunkType (nodeType n)
            /\ prefixLen (nodeOf leafWords n') = prefixLen (nodeOf leafWords n)
            /\ storedPrefix (nodeOf leafWords n')
               = storedPrefix (nodeOf leafWords n)
            /\ dir n' es) as (n' & Hr & Ht & HL & Hst & Hd').
  { destruct Hd as [Hs Hd].
    destruct n as [|m ks cs|m ks cs|m ks cs|m cs]; [done|done|..];
      cbn [nodeType] in Hfit;
      unfold len, node4Max, node16Max, node48Max in Hfit.
    - destruct (shrink_N16 leafWords m ks cs es Hd)
        as (m' & ks' & cs' & Hr & Hl & HL & Hst); [lia|].
      eexists. split; [done|]. do 3 (split; [done|]). by split.
    - destruct (shrink_N48 leafWords m ks cs es Hd Hs)
        as (m' & ks' & cs' & Hr & Hl & HL & Hst); [lia|].
      eexists. split; [done|]. do 3 (split; [done|]). by split.
    - destruct (shrink_N256 leafWords m cs es Hd Hs)
        as (m' & ks' & cs' & Hr & Hl & HL & Hst); [lia|].
      eexists. split; [done|]. do 3 (split; [done|]). by split. }
  exists n'. repeat (split; [done|]). split.
  - by rewrite (dir_size leafWords n' es Hd'), (dir_size leafWords n es Hd).
  - intros b. by rewrite (dir_childUnder n' es b Hd'), (dir_childUnder n es b Hd).
Qed.

Lemma grown_minSize n n' :
  nodeType n' = grownType (nodeType n) -> nodeType n ≠ Node256 ->
  isLeaf n = false -> maxSize n < minSize n'.
Proof.
  destruct n, n'; cbn; try done; intros; unfold node4Max, node16Max,
    node48Max, node16Min, node48Min, node256Min; lia.
Qed.

(** X17: [addChild(b, child)] followed by [RemoveChild(b)] on a
    well-formed node within the bounds of its variant, for a byte that has
    no child: both return, and the node is back to its variant, its
    [size], its [prefixLen] and the child under every byte; a node that
    was at capacity has grown and shrunk again. *)
Theorem addChild_RemoveChild_roundtrip n es b c :
  dir n es -> minSize n <= len es -> lookupEdge b es = None ->
  exists n1 n2,
    addChild leafWords n b c = Some n1
    /\ RemoveChild leafWords n1 b = Some n2
    /\ nodeType n2 = nodeType n
    /\ size (nodeOf leafWords n2) = size (nodeOf leafWords n)
    /\ prefixLen (nodeOf leafWords n2) = prefixLen (nodeOf leafWords n)
    /\ forall b', childUnder n2 b' = childUnder n b'.
Proof.
  intros Hd Hmin Hb.
  pose proof (dir_sorted n es Hd) as Hs.
  pose proof (dir_two n es Hd Hmin) as H2.
  pose proof (length_insertEdge b c es) as Hli.
  pose proof (lookupEdge_insertEdge_fresh b c es Hb) as Hb'.
  assert (exists n1,
            addChild leafWords n b c = Some n1
            /\ dir n1 (insertEdge b c es)
            /\ prefixLen (nodeOf leafWords n1) = prefixLen (nodeOf leafWords n)
            /\ minSize n1 <= len es + 1
            /\ (if len es <? minSize n1 then shrunkType (nodeType n1)
                else nodeType n1) = nodeType n)
    as (n1 & Hr1 & Hd1 & HL1 & Hmin1 & Ht1).
  { destruct (isFull leafWords n) eqn:Hf.
    - assert (nodeType n ≠ Node256) as H256.
      { intros Ht. destruct n; try done.
        apply bool_decide_eq_true in Hf.
        rewrite (dir_size leafWords _ es Hd) in Hf. cbn in Hf.
        destruct (sortedEdges_full es b Hs) as [x Hx]; [|congruence].
        unfold len, node256Max in Hf. lia. }
      destruct (dir_addChild leafWords n es b c Hd Hb)
        as (n1 & Hr1 & Hd1 & HL1 & _ & _).
      destruct (dir_addChild_full leafWords n es b c Hd Hf H256 Hb)
        as (n1' & Hr1' & Ht1 & _).
      rewrite Hr1 in Hr1'. injection Hr1' as <-.
      exists n1. split; [done|]. split; [done|]. split; [done|].
      apply bool_decide_eq_true in Hf.
      rewrite (dir_size leafWords _ es Hd) in Hf.
      pose proof (grown_minSize n n1 Ht1 H256 (dir_inner n es Hd)) as Hg.
      assert (minSize n1 <= len es + 1) as Hm1.
      { destruct n, n1; cbn in Ht1, Hf |- *; try done;
          unfold node4Max, node16Max, node48Max, node16Min, node48Min,
            node256Min in *; lia. }
      split; [done|].
      destruct (Z.ltb_spec (len es) (minSize n1)) as [_|Hge]; [|lia].
      rewrite Ht1. by destruct n.
    - destruct (dir_addChild_room n es b c Hd Hf Hb)
        as (n1 & Hr1 & Ht1 & Hd1 & Hm1).
      exists n1. split; [done|]. split; [done|]. split; [by rewrite Hm1|].
      assert (minSize n1 = minSize n) as Hmm by (by destruct n, n1).
      rewrite Hmm. split; [lia|].
      destruct (Z.ltb_spec (len es) (minSize n)) as [Hlt|_]; [lia|done]. }
  destruct (dir_RemoveChild_type n1 _ b c Hd1 Hb') as (n2 & Hr2 & Hd2 & Ht2 & HL2 & _).
  { unfold len in *. lia. }
  { intros _. lia. }
  rewrite (removeEdge_insertEdge es b c Hs Hb) in Hd2.
  exists n1, n2. split; [done|]. split; [done|]. split.
  { rewrite Ht2. unfold len in *. rewrite Hli.
    replace (Z.of_nat (S (length es)) - 1) with (Z.of_nat (length es)) by lia.
    done. }
  split.
  { by rewrite (dir_size leafWords n2 es Hd2), (dir_size leafWords n es Hd). }
  split; [congruence|].
  intros b'. by rewrite (dir_childUnder n2 es b' Hd2), (dir_childUnder n es b' Hd).
Qed.
End NodeOps.

(** * The helpers: [memcpy], [memmove], [longestCommonPrefix] *)

(** X18: [memcpy(dst, src, numBytes)] never fails: it overwrites the
    first [min(numBytes, len(src), len(dst))] bytes of [dst] (none when
    that is negative) with those of [src] and leaves the rest of [dst] as
    it is. *)
Theorem memcpy_copies (dst src : list byte) (numBytes : Z) :
  memcpy dst src numBytes
  = take (Z.to_nat (Z.min numBytes (Z.min (len src) (len dst)))) src
    ++ drop (Z.to_nat (Z.min numBytes (Z.min (len src) (len dst)))) dst.
Proof. apply memcpy_spec. Qed.

Lemma memmove_loop_lookup (src : list byte) (n : Z) (fuel : nat) :
  forall (dst : list byte) (i : nat),
    Z.of_nat i <= n -> n <= len src -> n <= len dst ->
    (Z.to_nat n - i <= fuel)%nat ->
    exists r,
      memmove_loop fuel dst (fun _ => Some src) n (Z.of_nat i) = Some r
      /\ length r = length dst
      /\ forall j : nat,
           r !! j = if decide (i <= j < Z.to_nat n)%nat then src !! j
                    else dst !! j.
Proof.
  induction fuel as [|fuel IH]; intros dst i Hi Hs Hd Hf.
  - exists dst. split; [done|]. split; [done|]. intros j.
    case_decide; [lia|done].
  - cbn [memmove_loop]. destruct (Z.ltb_spec (Z.of_nat i) n) as [Hlt|Hge].
    + cbn [mbind option_bind]. unfold len in *. rewrite get_nat.
      destruct (lookup_lt_is_Some_2 src i) as [x Hx]; [lia|].
      rewrite Hx. cbn [mbind option_bind].
      rewrite set_Some by (unfold len; lia). cbn [mbind option_bind].
      rewrite Nat2Z.id.
      replace (Z.of_nat i + 1) with (Z.of_nat (S i)) by lia.
      destruct (IH (<[i := x]> dst) (S i)) as (r & Hr & Hlen & Hlook);
        [lia|done|rewrite length_insert; lia|lia|].
      exists r. split; [done|]. rewrite length_insert in Hlen.
      split; [done|]. intros j. rewrite Hlook.
      destruct (decide (j = i)) as [->|Hne].
      * rewrite decide_False by lia. rewrite decide_True by lia.
        rewrite list_lookup_insert_eq by lia. done.
      * rewrite list_lookup_insert_ne by done.
        repeat case_decide; try done; lia.
    + exists dst. split; [done|]. split; [done|]. intros j.
      case_decide; [lia|done].
Qed.

Lemma memmove_loop_panics (src : list byte) (n : Z) (fuel : nat) :
  forall (dst : list byte) (i : nat),
    (i <= length src)%nat -> (i <= length dst)%nat ->
    (len src < n \/ len dst < n) ->
    (Z.to_nat n - i <= fuel)%nat ->
    memmove_loop fuel dst (fun _ => Some src) n (Z.of_nat i) = None.
Proof.
  unfold len. induction fuel as [|fuel IH]; intros dst i Hs Hd Hn Hf; [lia|].
  cbn [memmove_loop]. destruct (Z.ltb_spec (Z.of_nat i) n) as [Hlt|Hge]; [|lia].
  cbn [mbind option_bind]. rewrite get_nat.
  destruct (src !! i) as [x|] eqn:Hx; [|done]. cbn [mbind option_bind].
  apply lookup_lt_Some in Hx.
  destruct (decide (i < length dst)%nat) as [Hid|Hid].
  - rewrite set_Some by (unfold len; lia). cbn [mbind option_bind].
    rewrite Nat2Z.id.
    replace (Z.of_nat i + 1) with (Z.of_nat (S i)) by lia.
    apply IH; rewrite ?length_insert; lia.
  - unfold set. destruct (Z.leb_spec 0 (Z.of_nat i)); [|lia].
    destruct (Z.ltb_spec (Z.of_nat i) (Z.of_nat (length dst))); [lia|done].
Qed.

(** X19: [memmove(dst, src, numBytes)] copies exactly [numBytes] bytes and,
    unlike [memcpy], does not clip: it fails with an index out of range
    when [numBytes] exceeds the length of [src] or of [dst].  When [src]
    is a later part of [dst] itself ([dst[s:]] with [s >= 1], as in the
    prefix split of [insertHelper]), the bytes move to the front
    unharmed. *)
Theorem memmove_copies_or_panics (dst src : list byte) (numBytes : Z) :
  (numBytes <= len src -> numBytes <= len dst ->
   memmove dst (fun _ => Some src) numBytes
   = Some (take (Z.to_nat numBytes) src ++ drop (Z.to_nat numBytes) dst))
  /\ (len src < numBytes \/ len dst < numBytes ->
      memmove dst (fun _ => Some src) numBytes = None)
  /\ (forall s cnt : nat, (1 <= s)%nat -> (s + cnt <= length dst)%nat ->
        exists dst',
          memmove dst (fun d => slice_from d (Z.of_nat s)) (Z.of_nat cnt)
          = Some dst'
          /\ length dst' = length dst
          /\ forall i, (i < cnt)%nat -> dst' !! i = dst !! (s + i)%nat).
Proof.
  split; [|split].
  - intros Hs Hd. unfold memmove.
    destruct (Z.lt_ge_cases numBytes 0) as [Hneg|Hpos].
    { by replace (Z.to_nat numBytes) with 0%nat by lia. }
    destruct (memmove_loop_lookup src numBytes (Z.to_nat numBytes) dst 0)
      as (r & Hr & Hlen & Hlook); [lia|done|done|lia|].
    change (Z.of_nat 0) with 0 in Hr. rewrite Hr. f_equal.
    unfold len in *. apply list_eq. intros j. rewrite Hlook.
    lookup_norm. lookup_cases.
  - intros Hn. unfold memmove.
    apply (memmove_loop_panics src numBytes (Z.to_nat numBytes) dst 0);
      [lia|lia|done|lia].
  - intros s cnt Hs Hc. by apply memmove_self.
Qed.

Section LongestCommonPrefix.
Context {V : Type}.

(** X20: [longestCommonPrefix] of two leaves at [depth].  When [depth]
    does not exceed the length of either key, it returns the number of
    bytes on which the two keys agree from [depth] on: at most the rest of
    the shorter key, with the bytes before that position equal pairwise
    and, when it stops early, the bytes at that position different.  When
    [depth] exceeds the length of the shorter key, no byte is compared
    and the result is the negative number [min(len) - depth]. *)
Theorem longestCommonPrefix_spec (k1 k2 : Key) (v1 v2 : V) :
  (forall d : nat, (d <= length k1)%nat -> (d <= length k2)%nat ->
     exists l : nat,
       longestCommonPrefix (Leaf k1 v1) (Leaf k2 v2) (Z.of_nat d)
       = Some (Z.of_nat l)
       /\ (d + l <= length k1)%nat /\ (d + l <= length k2)%nat
       /\ take l (drop d k1) = take l (drop d k2)
       /\ ((d + l < length k1)%nat -> (d + l < length k2)%nat ->
           k1 !! (d + l)%nat ≠ k2 !! (d + l)%nat))
  /\ (forall depth : Z, Z.min (len k1) (len k2) < depth ->
        longestCommonPrefix (Leaf k1 v1) (Leaf k2 v2) depth
        = Some (Z.min (len k1) (len k2) - depth)).
Proof.
  split.
  - intros d H1 H2. cbn [longestCommonPrefix]. rewrite min_Zmin.
    set (cnt := (Nat.min (length k1) (length k2) - d)%nat).
    assert (Z.min (len k1) (len k2) - Z.of_nat d = Z.of_nat (0 + cnt)) as Hlim.
    { unfold len, cnt. lia. }
    destruct (longestCommonPrefix_loop_spec cnt k1 k2 d 0
                (Z.min (len k1) (len k2) - Z.of_nat d))
      as (l & Hr & Hl & Heq & Hne); [unfold cnt; lia..|done|].
    change (Z.of_nat 0) with 0 in Hr.
    exists l. split.
    { replace (Z.to_nat (Z.min (len k1) (len k2) - Z.of_nat d)) with cnt
        by (unfold len, cnt; lia).
      exact Hr. }
    unfold cnt in Hl.
    split; [lia|]. split; [lia|]. split.
    + apply list_eq. intros i. rewrite !lookup_take, !lookup_drop.
      case_decide; [|done]. apply Heq. lia.
    + intros Hl1 Hl2. apply Hne. unfold cnt. lia.
  - intros depth Hd. cbn [longestCommonPrefix]. rewrite min_Zmin.
    replace (Z.to_nat (Z.min (len k1) (len k2) - depth)) with 0%nat by lia.
    done.
Qed.
End LongestCommonPrefix.

(** * [addChild] and [RemoveChild] outside their intended use

    [insertHelper] calls [addChild] only for a byte that has no child, and
    [deleteHelper] calls [RemoveChild] only for a byte that has one.  The
    two functions do not check this themselves. *)

Section Misuse.
Context {V : Type} (leafWords : Key -> V -> Z * list byte).
Implicit Types (es : list (byte * artNode V)) (b : byte) (c n : artNode V).
Implicit Types (ks : list byte) (cs : list (option (artNode V))) (m : node).

Lemma lookupEdge_app b es1 es2 :
  lookupEdge b (es1 ++ es2)
  = match lookupEdge b es1 with
    | Some c => Some c
    | None => lookupEdge b es2
    end.
Proof.
  induction es1 as [|e es1 IH]; [done|]. cbn [app lookupEdge].
  by case_decide.
Qed.

(** In a Node4 the new entry goes behind an entry with the same byte. *)
Lemma lookupEdge_insertEdge_present es b c old :
  sortedEdges es -> lookupEdge b es = Some old ->
  lookupEdge b (insertEdge b c es) = Some old.
Proof.
  induction es as [|[b0 c0] es IH]; [done|]. intros Hs Hb.
  apply sortedEdges_cons in Hs as [Hs Hall]. cbn [insertEdge lookupEdge fst snd] in *.
  assert (byte_ltb b b0 = false) as ->.
  { apply not_true_iff_false. intros Hlt%byte_ltb_lt.
    destruct (decide (b0 = b)) as [->|Hne]; [lia|].
    apply lookupEdge_Some_elem in Hb. rewrite Forall_forall in Hall.
    apply Hall in Hb. simpl in Hb. unfold byte_lt in Hb. lia. }
  cbn [lookupEdge fst snd]. case_decide; [done|]. by apply IH.
Qed.

(** In a Node16 the new entry goes in front of an entry with the same
    byte. *)
Lemma lookupEdge_insert_at es b c (p : nat) b' :
  (forall j e, (j < p)%nat -> es !! j = Some e -> byte_lt e.1 b) ->
  lookupEdge b' (take p es ++ (b, c) :: drop p es)
  = if decide (b' = b) then Some c else lookupEdge b' es.
Proof.
  intros Hbefore. rewrite lookupEdge_app. cbn [lookupEdge fst snd].
  destruct (decide (b' = b)) as [->|Hne].
  - rewrite decide_True by done.
    assert (lookupEdge b (take p es) = None) as ->; [|done].
    apply lookupEdge_None. intros ([b0 c0] & Hb0 & Hin)%list_elem_of_fmap_1.
    simpl in Hb0. subst b0.
    apply list_elem_of_lookup_1 in Hin as [j Hj].
    pose proof (lookup_lt_Some _ _ _ Hj) as Hlt. rewrite length_take in Hlt.
    rewrite lookup_take_lt in Hj by lia.
    apply (Hbefore j) in Hj; [|lia]. by apply byte_lt_irrefl in Hj.
  - rewrite decide_False by (intros ?; by subst).
    transitivity (lookupEdge b' (take p es ++ drop p es));
      [by rewrite lookupEdge_app | by rewrite take_drop].
Qed.

Lemma childUnder_N48_slot m ks cs b (i : nat) c :
  get ks (b2z b) = Some (z2b (Z.of_nat i)) -> (1 <= i <= 48)%nat ->
  cs !! i = Some (Some c) ->
  childUnder (N48 m ks cs) b = Some (Some c).
Proof.
  intros Hk Hi Hc. unfold childUnder, findChild. cbn [index].
  rewrite Hk. cbn [mbind option_bind]. rewrite b2z_z2b by lia.
  destruct (Z.ltb_spec (Z.of_nat i) 0); [lia|].
  destruct (Z.eqb_spec (Z.of_nat i) 0); [lia|].
  rewrite get_nat, Hc. cbn [mbind option_bind load childrenOf].
  by rewrite get_nat, Hc.
Qed.

(** What [findChild] sees of a Node48 for one byte. *)
Lemma childUnder_N48_ext m m' ks ks' cs cs' b (s : byte) :
  get ks (b2z b) = Some s -> get ks' (b2z b) = Some s ->
  get cs' (b2z s) = get cs (b2z s) ->
  childUnder (N48 m' ks' cs') b = childUnder (N48 m ks cs) b.
Proof.
  intros Hk Hk' Hc. unfold childUnder, findChild. cbn [index].
  rewrite Hk, Hk'. cbn [mbind option_bind].
  destruct (b2z s <? 0); [reflexivity|].
  destruct (b2z s =? 0); [reflexivity|].
  rewrite Hc. destruct (get cs (b2z s)) as [o|] eqn:E; [|reflexivity].
  cbn [mbind option_bind load childrenOf]. by rewrite Hc, E.
Qed.

Lemma childUnder_N256_get m cs b :
  length cs = 256%nat ->
  childUnder (N256 m cs) b = Some (default None (get cs (b2z b))).
Proof.
  intros Hl. unfold childUnder, findChild. cbn [mbind option_bind].
  pose proof (b2z_range b) as Hb.
  destruct (Z.ltb_spec (b2z b) 0); [lia|].
  destruct (get_is_Some cs (b2z b)) as [o Ho]; [unfold len; lia|].
  rewrite Ho. cbn [mbind option_bind]. destruct o as [c|]; [|done].
  cbn [mbind option_bind load childrenOf]. by rewrite Ho.
Qed.

(** X21: [addChild(b, child)] on a well-formed node below capacity, for a
    byte that has a child already.  Nothing is replaced and no error is
    raised: the node keeps its variant and [size] still grows by one, so
    that it no longer counts the bytes with a child.  Afterwards a Node4
    still leads to the old child under [b] (its linear scan puts the new
    entry behind the old one), while a Node16, Node48 or Node256 leads to
    the new child; every other byte leads where it led before. *)
Theorem addChild_duplicate_byte n es b c old :
  dir n es -> isFull leafWords n = false -> lookupEdge b es = Some old ->
  exists n',
    addChild leafWords n b c = Some n'
    /\ nodeType n' = nodeType n
    /\ size (nodeOf leafWords n') = size (nodeOf leafWords n) + 1
    /\ childUnder n' b
       = Some (Some (if decide (nodeType n = Node4) then old else c))
    /\ forall b', b' ≠ b -> childUnder n' b' = childUnder n b'.
Proof.
  intros Hd Hf Hb. pose proof (isFull_false_lt leafWords n es Hd Hf) as Hlt.
  pose proof (fun b' => dir_childUnder n es b' Hd) as Hcu.
  destruct Hd as [Hs Hd].
  destruct n as [|m ks cs|m ks cs|m ks cs|m cs]; [done|..];
    cbn [maxSize] in Hlt; unfold len, node4Max, node16Max, node48Max,
      node256Max in Hlt; cbn [nodeType nodeOf].
  - destruct (addChild_N4 leafWords m ks cs es b c Hd) as (ks' & cs' & Hr & Hl);
      [lia|].
    eexists. split; [done|]. split; [done|]. split; [done|].
    rewrite decide_True by done. split.
    + rewrite (childUnder_small 4 (incSize m) ks' cs' _ b _ (or_introl eq_refl) Hl).
      by rewrite (lookupEdge_insertEdge_present es b c old).
    + intros b' Hne.
      rewrite (childUnder_small 4 (incSize m) ks' cs' _ b' _ (or_introl eq_refl) Hl).
      by rewrite lookupEdge_insertEdge_ne, Hcu.
  - destruct (addChild_N16 leafWords 3 m ks cs es b c Hd Hs)
      as (p & ks' & cs' & Hr & Hl & Hp & Hbefore & _); [lia|].
    eexists. split; [done|]. split; [done|]. split; [done|].
    rewrite decide_False by done. split.
    + rewrite (childUnder_small 16 (incSize m) ks' cs' _ b _ (or_intror eq_refl) Hl).
      rewrite (lookupEdge_insert_at es b c p b Hbefore).
      by rewrite decide_True.
    + intros b' Hne.
      rewrite (childUnder_small 16 (incSize m) ks' cs' _ b' _ (or_intror eq_refl) Hl).
      rewrite (lookupEdge_insert_at es b c p b' Hbefore).
      by rewrite decide_False, Hcu.
  - destruct Hd as (Hpfx & Hsz & Hlk & Hlc & Hc0 & Hcnt & Hslot & Hinj).
    unfold addChild. cbn [addChild_fuel]. rewrite Hf.
    destruct (freeSlot cs (length es) Hlc Hc0 Hcnt) as (i & -> & Hi & Hfree);
      [lia|].
    cbn [mbind option_bind]. pose proof (b2z_range b) as Hbr.
    rewrite !set_Some by (unfold len; lia). cbn [mbind option_bind].
    rewrite Nat2Z.id. eexists. split; [done|]. split; [done|].
    split; [done|]. rewrite decide_False by done. split.
    + apply (childUnder_N48_slot _ _ _ b i c); [|lia|].
      * apply get_Some. split; [lia|]. apply list_lookup_insert_eq. lia.
      * apply list_lookup_insert_eq. lia.
    + intros b' Hne. pose proof (b2z_range b') as Hbr'.
      destruct (get_byte ks b' Hlk) as [s Hs'].
      apply (childUnder_N48_ext m (incSize m) ks _ cs _ b' s); [done| |].
      * apply get_Some in Hs' as [? Hs']. apply get_Some. split; [done|].
        rewrite list_lookup_insert_ne; [done|].
        intros Heq. apply Hne, b2z_inj. lia.
      * pose proof (b2z_range s) as Hsr. unfold get.
        destruct (Z.ltb_spec (b2z s) 0); [lia|].
        apply list_lookup_insert_ne. intros Heq.
        pose proof (Hslot b' s Hs') as Hsl.
        destruct (decide (s = Byte.x00)) as [->|Hs0].
        { rewrite b2z_x00 in Heq. simpl in Heq. lia. }
        destruct Hsl as (c1 & Hc1 & _). apply get_Some in Hc1 as [_ Hc1].
        rewrite <- Heq in Hc1. congruence.
  - destruct Hd as (Hpfx & Hsz & Hlc & Hslot).
    unfold addChild. cbn [addChild_fuel]. rewrite Hf.
    pose proof (b2z_range b) as Hbr.
    rewrite !set_Some by (unfold len; lia). cbn [mbind option_bind].
    eexists. split; [done|]. split; [done|]. split; [done|].
    rewrite decide_False by done. split.
    + rewrite childUnder_N256_get by (by rewrite length_insert).
      rewrite get_insert_byte by done. by rewrite decide_True.
    + intros b' Hne.
      rewrite !childUnder_N256_get by (by rewrite ?length_insert).
      rewrite get_insert_byte by done. by rewrite decide_False.
Qed.

(** The first zero byte of the key array of a Node4 / Node16 that is
    not full and has no entry for the zero byte is the first unused
    slot. *)
Lemma indexByte_tail_zero cap m ks cs es :
  layout cap m ks cs es -> (length es < cap)%nat ->
  lookupEdge Byte.x00 es = None ->
  indexByte ks Byte.x00 = len es.
Proof.
  intros (_ & _ & _ & -> & _) Hlt H0. unfold len.
  apply indexByte_first.
  - rewrite lookup_app_r by (by rewrite length_fmap).
    rewrite length_fmap, Nat.sub_diag. apply lookup_replicate_2. lia.
  - rewrite take_app_length' by (by rewrite length_fmap).
    by apply lookupEdge_None.
Qed.

Lemma removeAt_tail cap m ks cs es :
  layout cap m ks cs es -> (0 < length es < cap)%nat ->
  exists ks' cs',
    removeAt m ks cs (len es) = Some (decSize m, ks', cs')
    /\ layout cap (decSize m) ks' cs' (take (length es - 1) es).
Proof.
  intros Hl Hlt. pose proof (layout_lengths _ _ _ _ _ Hl) as [Hlk Hlc].
  destruct Hl as (Hpfx & Hsz & Hle & Hks & Hcs). unfold removeAt, len in *.
  rewrite !set_Some by (unfold len; lia). cbn [mbind option_bind].
  rewrite Nat2Z.id. unfold shift_left. rewrite Hsz.
  replace (Z.to_nat (Z.of_nat (length es) - 1 - Z.of_nat (length es)))
    with 0%nat by lia.
  cbn [for_up mbind option_bind fst snd].
  rewrite !set_Some by (unfold len; rewrite length_insert; lia).
  cbn [mbind option_bind].
  replace (Z.to_nat (Z.of_nat (length es) - 1)) with (length es - 1)%nat by lia.
  do 2 eexists. split; [done|].
  split; [done|]. split.
  { cbn [decSize size]. unfold len. rewrite length_take. lia. }
  split; [rewrite length_take; lia|].
  rewrite !fmap_take, length_take.
  replace (length es `min` length es - 1)%nat with (length es - 1)%nat by lia.
  replace ((length es - 1) `min` length es)%nat with (length es - 1)%nat by lia.
  subst ks cs. split.
  - apply list_eq. intros j.
    assert (length es.*1 = length es) as Hl1 by (by rewrite length_fmap).
    lookup_norm. rewrite ?Hl1. lookup_cases.
  - apply list_eq. intros j.
    assert (length (Some <$> es.*2) = length es) as Hl2
      by (by rewrite !length_fmap).
    assert (length es.*2 = length es) as Hl3 by (by rewrite length_fmap).
    lookup_norm. rewrite ?Hl2, ?Hl3. lookup_cases.
Qed.

(** X22: [RemoveChild(b)] for a byte that has no child, on a well-formed
    node with more children than the minimum of its variant.  A Node48
    is left as it is, and so is a Node4 or Node16 if [b] is not zero or
    the node is at capacity.  In the other cases the node is damaged
    without an error: a Node256 has its [size] lowered by one although no
    child was removed; and a Node4 or Node16 below capacity that is asked
    to remove the zero byte finds that byte in the unused tail of its key
    array and removes its last entry, the child under its greatest
    byte. *)
Theorem RemoveChild_absent_byte n es b :
  dir n es -> lookupEdge b es = None -> minSize n < len es ->
  (nodeType n ≠ Node256 ->
   b ≠ Byte.x00 \/ nodeType n = Node48 \/ isFull leafWords n = true ->
   RemoveChild leafWords n b = Some n)
  /\ (nodeType n = Node256 ->
      RemoveChild leafWords n b
      = Some (setNode n (decSize (nodeOf leafWords n))))
  /\ (nodeType n = Node4 \/ nodeType n = Node16 -> b = Byte.x00 ->
      isFull leafWords n = false ->
      exists n' es' bl cl,
        RemoveChild leafWords n b = Some n'
        /\ es = es' ++ [(bl, cl)]
        /\ nodeType n' = nodeType n
        /\ size (nodeOf leafWords n') = size (nodeOf leafWords n) - 1
        /\ childUnder n bl = Some (Some cl)
        /\ childUnder n' bl = Some None
        /\ forall b', b' ≠ bl -> childUnder n' b' = childUnder n b').
Proof.
  intros Hd Hb Hmin.
  pose proof (fun b' => dir_childUnder n es b' Hd) as Hcu.
  pose proof (dir_size leafWords n es Hd) as Hsize.
  pose proof (dir_length_le n es Hd) as Hmax.
  destruct Hd as [Hs Hd]. split; [|split].
  - intros H256 Hcase. unfold RemoveChild.
    assert (forall x, (if size (nodeOf leafWords n) <? minSize n
                       then x else Some n) = Some n) as Hkeep.
    { intros x. destruct (Z.ltb_spec (size (nodeOf leafWords n)) (minSize n));
        [lia|done]. }
    destruct n as [|m ks cs|m ks cs|m ks cs|m cs]; [done|..|done].
    + assert (indexByte ks b < 0) as Hidx.
      { apply indexByte_neg. destruct Hd as (_ & Hsz & Hle & -> & _).
        rewrite elem_of_app. intros [Hin|Hin].
        - by apply lookupEdge_None in Hb.
        - apply elem_of_replicate in Hin as [-> Hn].
          destruct Hcase as [?|[?|Hfull]]; [done|done|].
          apply bool_decide_eq_true in Hfull. cbn in Hfull.
          unfold len, node4Max in *. lia. }
      cbn [index mbind option_bind].
      destruct (Z.ltb_spec (indexByte ks b) 0); [|lia].
      cbn [mbind option_bind]. apply Hkeep.
    + assert (indexByte ks b < 0) as Hidx.
      { apply indexByte_neg. destruct Hd as (_ & Hsz & Hle & -> & _).
        rewrite elem_of_app. intros [Hin|Hin].
        - by apply lookupEdge_None in Hb.
        - apply elem_of_replicate in Hin as [-> Hn].
          destruct Hcase as [?|[?|Hfull]]; [done|done|].
          apply bool_decide_eq_true in Hfull. cbn in Hfull.
          unfold len, node16Max in *. lia. }
      cbn [index mbind option_bind].
      destruct (Z.ltb_spec (indexByte ks b) 0); [|lia].
      cbn [mbind option_bind]. apply Hkeep.
    + destruct Hd as (Hpfx & Hsz & Hlk & Hlc & Hc0 & Hcnt & Hslot & Hinj).
      destruct (get_byte ks b Hlk) as [s Hbs].
      pose proof (Hslot b s Hbs) as H. rewrite Hb in H.
      destruct (decide (s = Byte.x00)) as [->|Hne]; [|by destruct H as (? & _ & ?)].
      cbn [index mbind option_bind]. rewrite Hbs. cbn [mbind option_bind].
      rewrite b2z_x00. cbn [Z.leb Z.compare mbind option_bind]. apply Hkeep.
  - intros H256. destruct n as [| | | |m cs]; try done.
    destruct Hd as (Hpfx & Hsz & Hlc & Hslot). unfold RemoveChild.
    cbn [index mbind option_bind]. pose proof (b2z_range b) as Hbr.
    rewrite set_Some by (unfold len; lia). cbn [mbind option_bind].
    cbn [nodeOf minSize decSize size setNode] in *.
    destruct (Z.ltb_spec (size m - 1) node256Min); [lia|].
    do 2 f_equal. apply list_insert_id.
    specialize (Hslot b). rewrite Hb in Hslot.
    by apply get_Some in Hslot as [_ ?].
  - intros Hsmall -> Hfull.
    pose proof (isFull_false_lt leafWords n es (conj Hs Hd) Hfull) as Hlt.
    assert (es ≠ []) as Hne.
    { intros ->. destruct n; cbn in Hmin; unfold len, node4Min, node16Min,
        node48Min, node256Min in Hmin; simpl in Hmin; try done; lia. }
    destruct (exists_last Hne) as (es' & [bl cl] & Hes).
    assert (take (length es - 1) es = es') as Htake.
    { rewrite Hes, length_app. simpl.
      replace (length es' + 1 - 1)%nat with (length es') by lia.
      by rewrite take_app_length. }
    assert (lookupEdge bl es = Some cl) as Hbl.
    { rewrite Hes. apply lookupEdge_snoc. by rewrite <- Hes. }
    assert (lookupEdge bl es' = None) as Hbl'.
    { apply lookupEdge_None. rewrite Hes in Hs.
      apply sortedEdges_snoc in Hs as [_ Hall]. rewrite Forall_forall in Hall.
      intros ([b0 c0] & Hb0 & Hin)%list_elem_of_fmap_1. simpl in Hb0. subst b0.
      apply Hall in Hin. by apply byte_lt_irrefl in Hin. }
    assert (forall b', b' ≠ bl -> lookupEdge b' es' = lookupEdge b' es) as Hoth.
    { intros b' Hb'. rewrite Hes, lookupEdge_app.
      destruct (lookupEdge b' es'); [done|]. cbn [lookupEdge fst snd].
      by rewrite decide_False by (intros ?; by subst). }
    assert (exists cap m ks cs,
              (n = N4 m ks cs \/ n = N16 m ks cs)
              /\ layout cap m ks cs es /\ (length es < cap)%nat
              /\ minSize n < len es)
      as (cap & m & ks & cs & Hn & Hl & Hcap & Hmin').
    { destruct n as [|m ks cs|m ks cs| |]; try (by destruct Hsmall).
      - exists 4%nat, m, ks, cs. cbn in Hlt. unfold len, node4Max in Hlt.
        split; [by left|]. split; [done|]. split; [lia|done].
      - exists 16%nat, m, ks, cs. cbn in Hlt. unfold len, node16Max in Hlt.
        split; [by right|]. split; [done|]. split; [lia|done]. }
    destruct (removeAt_tail cap m ks cs es Hl) as (ks' & cs' & Hrm & Hl').
    { split; [|done]. destruct es; [done|simpl; lia]. }
    rewrite Htake in Hl'.
    pose proof (indexByte_tail_zero cap m ks cs es Hl Hcap Hb) as Hidx.
    assert (size m = len es) as Hsz by (by destruct Hl as (_ & ? & _)).
    assert (len es' = len es - 1) as Hlen'.
    { rewrite Hes. unfold len. rewrite length_app. simpl. lia. }
    destruct Hn as [->| ->]; cbn [minSize] in Hmin'.
    + exists (N4 (decSize m) ks' cs'), es', bl, cl. split.
      { unfold RemoveChild. cbn [index mbind option_bind]. rewrite Hidx.
        destruct (Z.ltb_spec (len es) 0) as [Hn0|_];
          [unfold len in Hn0; lia|].
        rewrite Hrm. cbn [mbind option_bind fst snd nodeOf minSize decSize size].
        destruct (Z.ltb_spec (size m - 1) node4Min); [lia|done]. }
      split; [done|]. split; [done|]. split; [done|].
      split; [by rewrite Hcu, Hbl|].
      split.
      * by rewrite (childUnder_small cap (decSize m) ks' cs' es' bl _
                      (or_introl eq_refl) Hl'), Hbl'.
      * intros b' Hb'.
        rewrite (childUnder_small cap (decSize m) ks' cs' es' b' _
                   (or_introl eq_refl) Hl').
        by rewrite Hcu, Hoth.
    + exists (N16 (decSize m) ks' cs'), es', bl, cl. split.
      { unfold RemoveChild. cbn [index mbind option_bind]. rewrite Hidx.
        destruct (Z.ltb_spec (len es) 0) as [Hn0|_];
          [unfold len in Hn0; lia|].
        rewrite Hrm. cbn [mbind option_bind fst snd nodeOf minSize decSize size].
        destruct (Z.ltb_spec (size m - 1) node16Min); [lia|done]. }
      split; [done|]. split; [done|]. split; [done|].
      split; [by rewrite Hcu, Hbl|].
      split.
      * by rewrite (childUnder_small cap (decSize m) ks' cs' es' bl _
                      (or_intror eq_refl) Hl'), Hbl'.
      * intros b' Hb'.
        rewrite (childUnder_small cap (decSize m) ks' cs' es' b' _
                   (or_intror eq_refl) Hl').
        by rewrite Hcu, Hoth.
Qed.
End Misuse.

(** * Keys that end inside a long compressed path *)

Section LongPrefix.
Context {V : Type} (leafWords : Key -> V -> Z * list byte).
Implicit Types (es : list (byte * artNode V)) (b : byte) (c n : artNode V).
Implicit Types (p q pq : list byte) (k key : Key) (kvs : list (Key * V)).



End LongPrefix.

(** * The arrays of the nodes of a reachable tree *)

(** The smallest variant that holds [k] children. *)
Definition variantFor (k : Z) : NodeType :=
  if k <=? node4Max then Node4
  else if k <=? node16Max then Node16
  else if k <=? node48Max then Node48
  else Node256.

Section NodeArrays.
Context {V : Type} (leafWords : Key -> V -> Z * list byte).
Implicit Types (es : list (byte * artNode V)) (b : byte) (c n : artNode V).
Implicit Types (ks : list byte) (cs : list (option (artNode V))) (m : node).

(** An inner node is of the smallest variant that holds its children, and
    its [size] is the number of non-nil pointers of its children array. *)
Definition fitsVariant n : bool :=
  match n with
  | Leaf _ _ => true
  | N4 m _ cs | N16 m _ cs | N48 m _ cs | N256 m cs =>
      bool_decide (nodeType n = variantFor (size m))
      && bool_decide (Z.of_nat (countSome cs) = size m)
  end.

(** The key array of a Node48 indexes its children array: slot [0] is
    nil, a non-zero entry names a slot that holds a child, and no two
    bytes name the same slot. *)
Definition keysIndex48 n : Prop :=
  match n with
  | N48 _ ks cs =>
      cs !! 0%nat = Some None
      /\ (forall b s, get ks (b2z b) = Some s -> s ≠ Byte.x00 ->
            exists c, get cs (b2z s) = Some (Some c))
      /\ (forall b b' s, get ks (b2z b) = Some s -> get ks (b2z b') = Some s ->
            s ≠ Byte.x00 -> b = b')
  | _ => True
  end.

Lemma countSome_lookupEdge es (l : list byte) :
  countSome ((fun b => lookupEdge b es) <$> l) = length (omap (edgeAt es) l).
Proof.
  induction l as [|b l IH]; [done|].
  rewrite fmap_cons, countSome_cons, omap_cons_eq, IH. unfold edgeAt.
  by destruct (lookupEdge b es).
Qed.

Lemma layout256_count m cs es :
  layout256 m cs es -> sortedEdges es -> countSome cs = length es.
Proof.
  intros Hl Hs.
  assert (cs = (fun b => lookupEdge b es) <$> allBytes) as ->.
  { assert (length cs = 256%nat) as Hlc by apply Hl.
    apply list_eq. intros i. rewrite list_lookup_fmap.
    destruct (decide (i < 256)%nat) as [Hi|Hi].
    - rewrite allBytes_lookup by done. simpl.
      pose proof (layout256_lookup m cs es (z2b (Z.of_nat i)) Hl) as H.
      by rewrite b2z_z2b, Nat2Z.id in H by lia.
    - rewrite !lookup_ge_None_2; [done|rewrite allBytes_length; lia|lia]. }
  by rewrite countSome_lookupEdge, omap_edgeAt.
Qed.

Lemma dir_countSome n es : dir n es -> countSome (childrenOf n) = length es.
Proof.
  intros [Hs Hd]. destruct n as [|m ks cs|m ks cs|m ks cs|m cs]; [done|..];
    cbn [childrenOf].
  - destruct Hd as (_ & _ & _ & _ & ->).
    by rewrite countSome_app, countSome_nones, countSome_somes, length_fmap,
      Nat.add_0_r.
  - destruct Hd as (_ & _ & _ & _ & ->).
    by rewrite countSome_app, countSome_nones, countSome_somes, length_fmap,
      Nat.add_0_r.
  - apply Hd.
  - by eapply layout256_count.
Qed.

Lemma okNode_fitsVariant n : okNode n -> fitsVariant n = true.
Proof.
  intros [Hleaf|(es & Hd & Hmin)]; [by destruct n|].
  pose proof (dir_length_le n es Hd) as Hmax.
  pose proof (dir_size leafWords n es Hd) as Hsz.
  pose proof (dir_countSome n es Hd) as Hcnt.
  destruct n as [|m ks cs|m ks cs|m ks cs|m cs]; [by destruct Hd|..];
    cbn [fitsVariant nodeOf childrenOf minSize maxSize nodeType] in *;
    rewrite Hcnt, Hsz; unfold len in *;
    rewrite (bool_decide_true (_ = Z.of_nat _)) by done;
    rewrite andb_true_r; apply bool_decide_eq_true; unfold variantFor,
      node4Min, node4Max, node16Min, node16Max, node48Min, node48Max,
      node256Min, node256Max in *;
    repeat match goal with
           | |- context [?a <=? ?b] => destruct (Z.leb_spec a b)
           end; first [done | lia].
Qed.

Lemma okNode_keysIndex48 n : okNode n -> keysIndex48 n.
Proof.
  intros [Hleaf|(es & [_ Hd] & _)]; [by destruct n|].
  destruct n as [| | |m ks cs|]; try done.
  destruct Hd as (_ & _ & _ & _ & Hc0 & _ & Hslot & Hinj).
  split; [done|]. split; [|done].
  intros b s Hs Hne. specialize (Hslot b s Hs).
  rewrite decide_False in Hslot by done. destruct Hslot as (c & Hc & _).
  by exists c.
Qed.

(** X24: [index(b)] on a well-formed inner node is either negative or the
    position of a slot of the children array (it never fails); that slot
    holds the child under [b], or nil when [b] has no child.  For a byte
    without child the result is not always -1: it is 0 in a Node48, the
    byte itself in a Node256, and the position of the first unused slot in
    a Node4 or Node16 below capacity asked for the zero byte. *)
Theorem index_spec n es b :
  dir n es ->
  exists i,
    index n b = Some i
    /\ match lookupEdge b es with
       | Some c => get (childrenOf n) i = Some (Some c)
       | None =>
           (i < 0 /\ (nodeType n = Node4 \/ nodeType n = Node16))
           \/ (get (childrenOf n) i = Some None
               /\ match nodeType n with
                  | Node48 => i = 0
                  | Node256 => i = b2z b
                  | _ => b = Byte.x00 /\ i = len es /\ len es < maxSize n
                  end)
       end.
Proof.
  intros [Hs Hd]. destruct n as [|m ks cs|m ks cs|m ks cs|m cs]; [done|..];
    cbn [index childrenOf nodeType maxSize].
  - exists (indexByte ks b). split; [done|].
    pose proof (indexByte_layout 4 m ks cs es b Hd) as H.
    destruct (lookupEdge b es) as [c|] eqn:Hl.
    + destruct H as (i & -> & _ & Hc). by rewrite get_nat.
    + destruct (decide (b = Byte.x00 /\ (length es < 4)%nat)) as [[-> Hlt]|Hno].
      * right. rewrite (indexByte_tail_zero 4 m ks cs es Hd Hlt Hl).
        destruct H as [H|(i & Hi & Hc)].
        { rewrite (indexByte_tail_zero 4 m ks cs es Hd Hlt Hl) in H.
          unfold len in H. lia. }
        rewrite (indexByte_tail_zero 4 m ks cs es Hd Hlt Hl) in Hi.
        unfold len in *. assert (i = length es) as -> by lia. rewrite get_nat.
        split; [done|]. split; [done|]. split; [done|]. unfold node4Max. lia.
      * left. split; [|by left]. apply indexByte_neg.
        destruct Hd as (_ & _ & Hle & -> & _). rewrite elem_of_app.
        apply lookupEdge_None in Hl. intros [Hin|Hin]; [done|].
        apply elem_of_replicate in Hin as [-> Hn]. apply Hno. split; [done|lia].
  - exists (indexByte ks b). split; [done|].
    pose proof (indexByte_layout 16 m ks cs es b Hd) as H.
    destruct (lookupEdge b es) as [c|] eqn:Hl.
    + destruct H as (i & -> & _ & Hc). by rewrite get_nat.
    + destruct (decide (b = Byte.x00 /\ (length es < 16)%nat)) as [[-> Hlt]|Hno].
      * right. rewrite (indexByte_tail_zero 16 m ks cs es Hd Hlt Hl).
        destruct H as [H|(i & Hi & Hc)].
        { rewrite (indexByte_tail_zero 16 m ks cs es Hd Hlt Hl) in H.
          unfold len in H. lia. }
        rewrite (indexByte_tail_zero 16 m ks cs es Hd Hlt Hl) in Hi.
        unfold len in *. assert (i = length es) as -> by lia. rewrite get_nat.
        split; [done|]. split; [done|]. split; [done|]. unfold node16Max. lia.
      * left. split; [|by right]. apply indexByte_neg.
        destruct Hd as (_ & _ & Hle & -> & _). rewrite elem_of_app.
        apply lookupEdge_None in Hl. intros [Hin|Hin]; [done|].
        apply elem_of_replicate in Hin as [-> Hn]. apply Hno. split; [done|lia].
  - destruct Hd as (_ & _ & Hlk & _ & Hc0 & _ & Hslot & _).
    destruct (get_byte ks b Hlk) as [s Hbs]. rewrite Hbs.
    cbn [mbind option_bind]. exists (b2z s). split; [done|].
    specialize (Hslot b s Hbs).
    destruct (decide (s = Byte.x00)) as [->|Hne].
    + rewrite Hslot. right. rewrite b2z_x00. split; [|done].
      by apply get_Some.
    + destruct Hslot as (c & Hc & ->). done.
  - exists (b2z b). split; [done|].
    destruct Hd as (_ & _ & _ & Hslot). rewrite (Hslot b).
    destruct (lookupEdge b es); [done|]. by right.
Qed.

(** X25: every inner node that [Each] lists on a reachable tree is of
    the smallest variant that can hold its children (Node4 up to four,
    Node16 up to sixteen, Node48 up to forty-eight), and its [size] is the
    number of non-nil pointers of its children array. *)
Theorem nodes_smallest_variant t :
  reachable leafWords t ->
  exists ns, Each t = Some ns
             /\ Forall (fun n : artNode V => fitsVariant n = true) ns.
Proof.
  intros [kvs Hinv]%reachable_inv.
  destruct (treeInv_each leafWords t kvs Hinv) as (ns & Hns & _ & Hok).
  exists ns. split; [done|]. eapply Forall_impl; [apply Hok|].
  apply okNode_fitsVariant.
Qed.

(** X26: in every Node48 that [Each] lists on a reachable tree, slot 0
    of the children array is nil, every non-zero entry of the key array
    names a slot that holds a child, and no two bytes name the same
    slot. *)
Theorem node48_keys_index_children t :
  reachable leafWords t ->
  exists ns, Each t = Some ns /\ Forall keysIndex48 ns.
Proof.
  intros [kvs Hinv]%reachable_inv.
  destruct (treeInv_each leafWords t kvs Hinv) as (ns & Hns & _ & Hok).
  exists ns. split; [done|]. eapply Forall_impl; [apply Hok|].
  apply okNode_keysIndex48.
Qed.
End NodeArrays.

(** * Closed scenarios

    The scenarios below run the embedding on concrete keys, with values in
    [nat] and one concrete choice of the layout-dependent words of a leaf
    (none of the results depends on that choice). *)

(** A 64-bit little-endian layout with every address word read as zero:
    the capacity of the key slice fills the first eight prefix bytes. *)
Definition leafWords64 (k : Key) (_ : nat) : Z * list byte :=
  (0, map (fun i => z2b (len k / 256 ^ i)) (seqZ 0 8) ++ [Byte.x00; Byte.x00]).

Definition key_a : Key := ["a"%byte].
Definition key_b : Key := ["b"%byte].
Definition key_c : Key := ["c"%byte].
Definition key_d : Key := ["d"%byte].
Definition key_ab : Key := ["a"%byte; "b"%byte].
Definition key_ac : Key := ["a"%byte; "c"%byte].
Definition key_a0 : Key := ["a"%byte; Byte.x00].

(** The tree holding "ab": a single leaf. *)
Definition tree_ab : tree nat := mkTree (Some (Leaf key_ab 1%nat)) 1.

(** The Node4 with the compressed path "a" over the leaves "ab" and "ac". *)
Definition node_ab_ac : artNode nat :=
  N4 (mkNode 2 1 ("a"%byte :: replicate 9 Byte.x00))
     ["b"%byte; "c"%byte; Byte.x00; Byte.x00]
     [Some (Leaf key_ab 1%nat); Some (Leaf key_ac 2%nat); None; None].

(** The tree holding "ab" and "ac". *)
Definition tree_ab_ac : tree nat := mkTree (Some node_ab_ac) 2.

(** The tree after [Insert("a")] and [Insert("a\x00")]: both leaves hang
    under the key byte 0 of the root. *)
Definition tree_a_a0 : tree nat :=
  mkTree
    (Some (N4 (mkNode 2 1 ("a"%byte :: replicate 9 Byte.x00))
              [Byte.x00; Byte.x00; Byte.x00; Byte.x00]
              [Some (Leaf key_a 1%nat); Some (Leaf key_a0 2%nat); None; None]))
    2.

(** "a" followed by "a\x00", "a\x01", ..., [n] keys of two bytes. *)
Definition keys_a (n : nat) : list (Key * nat) :=
  (key_a, 0%nat)
  :: map (fun i => (["a"%byte; z2b (Z.of_nat i)], Datatypes.S i)) (seq 0 n).

(** A full Node4 without compressed path, and its directory. *)
Definition edges_abcd : list (byte * artNode nat) :=
  [("a"%byte, Leaf key_a 1%nat); ("b"%byte, Leaf key_b 2%nat);
   ("c"%byte, Leaf key_c 3%nat); ("d"%byte, Leaf key_d 4%nat)].

Definition node_abcd : artNode nat :=
  N4 (mkNode 4 0 (replicate 10 Byte.x00)) edges_abcd.*1 (Some <$> edges_abcd.*2).

(** A Node4 with the compressed path "xy" whose only child, under "z", is
    the inner node over "ab" and "ac". *)
Definition node_xy : node := mkNode 1 2 ("x"%byte :: "y"%byte :: replicate 8 Byte.x00).
Definition node_xyz : artNode nat :=
  N4 node_xy ["z"%byte; Byte.x00; Byte.x00; Byte.x00]
     [Some node_ab_ac; None; None; None].

(** C1 (code_bug): after [Insert("ab")] and [Insert("ac")], [Insert("a")]
    panics: the key is used up by the compressed path of the root, and line
    124 of tree.go reads [key[depth]] with [depth = len(key)]. *)
Theorem Insert_exhausted_key_panics :
  insertAll leafWords64 newArt [(key_ab, 1%nat); (key_ac, 2%nat)]
  = Some tree_ab_ac
  /\ Search leafWords64 tree_ab_ac key_a = Some None
  /\ Insert leafWords64 tree_ab_ac key_a 3%nat = None.
Proof. repeat split; vm_compute; reflexivity. Qed.

Section EmptyKey.
Context {V : Type} (leafWords : Key -> V -> Z * list byte).

(** C10: the empty key can be inserted into the empty tree and is then
    found, with [Size() = 1]; [Delete] of the empty key returns false on
    every tree and leaves root and counter as they were. *)
Theorem empty_key_inserted_never_deleted (v : V) (t : tree V) :
  Insert leafWords newArt [] v = Some (mkTree (Some (Leaf [] v)) 1)
  /\ Search leafWords (mkTree (Some (Leaf [] v)) 1) [] = Some (Some v)
  /\ Size (mkTree (Some (Leaf [] v)) 1) = 1
  /\ Delete leafWords t [] = Some (false, t).
Proof.
  repeat split. apply Delete_empty_key.
Qed.
End EmptyKey.

(** ** Where the claims fail as they are stated *)

(** C2: "a" and "a\x00" are distinct keys; after both [Insert]s,
    [Search("a\x00")] returns nil. *)
Lemma roundtrip_zero_byte_counterexample :
  bool_decide (key_a = key_a0) = false
  /\ insertAll leafWords64 newArt [(key_a, 1%nat); (key_a0, 2%nat)]
     = Some tree_a_a0
  /\ Search leafWords64 tree_a_a0 key_a0 = Some None.
Proof. repeat split; vm_compute; reflexivity. Qed.

(** C3: "a\x00" is stored in the tree made by [Insert("a")] and
    [Insert("a\x00")]; inserting it again raises [Size()] from 2 to 3, and
    [Search("a\x00")] still returns nil. *)
Lemma overwrite_zero_byte_counterexample :
  insertAll leafWords64 newArt [(key_a, 1%nat); (key_a0, 2%nat)]
  = Some tree_a_a0
  /\ contents tree_a_a0 = [(key_a, 1%nat); (key_a0, 2%nat)]
  /\ Size tree_a_a0 = 2
  /\ (t' ← Insert leafWords64 tree_a_a0 key_a0 3%nat;
      Some (Size t', Search leafWords64 t' key_a0))
     = Some (3, Some None).
Proof. repeat split; vm_compute; reflexivity. Qed.

(** C4: [Delete] returns false for keys that are stored: for "a\x00" in the
    tree made by [Insert("a")] and [Insert("a\x00")], and for the empty key
    in the tree made by [Insert("")]. *)
Lemma delete_stored_key_counterexample :
  contents tree_a_a0 = [(key_a, 1%nat); (key_a0, 2%nat)]
  /\ Delete leafWords64 tree_a_a0 key_a0 = Some (false, tree_a_a0)
  /\ Insert leafWords64 newArt [] 1%nat = Some (mkTree (Some (Leaf [] 1%nat)) 1)
  /\ contents (mkTree (Some (Leaf [] 1%nat)) 1) = [([], 1%nat)]
  /\ Delete leafWords64 (mkTree (Some (Leaf [] 1%nat)) 1) []
     = Some (false, mkTree (Some (Leaf [] 1%nat)) 1).
Proof. repeat split; vm_compute; reflexivity. Qed.

(** C5: after [Insert("a\x00")] and [Insert("a")], [Each] visits "a\x00"
    before "a", although "a" is the smaller key. *)
Lemma each_order_counterexample :
  (t ← insertAll leafWords64 newArt [(key_a0, 1%nat); (key_a, 2%nat)];
   ns ← Each t; Some (leafList ns).*1)
  = Some [key_a0; key_a]
  /\ key_ltb key_a0 key_a = false
  /\ key_ltb key_a key_a0 = true.
Proof. repeat split; vm_compute; reflexivity. Qed.

(** C6: after [Insert("a")] and [Insert("a\x00")] the root is a Node4 whose
    two key bytes in use are both 0. *)
Lemma node_keys_counterexample :
  insertAll leafWords64 newArt [(key_a, 1%nat); (key_a0, 2%nat)]
  = Some tree_a_a0
  /\ (ns ← Each tree_a_a0; Some (map wellFormedNode ns))
     = Some [false; true; true].
Proof. repeat split; vm_compute; reflexivity. Qed.

(** C7: the 256 [Insert]s of "a", "a\x00", ..., "a\xfe" leave a root
    Node256 with [size = 256] (and 255 children).  [addChild] of one more
    child on it returns normally, and the child is not there afterwards;
    so [Insert("a\xff")] returns, [Size()] is 257, and [Search("a\xff")]
    returns nil. *)
Lemma addChild_full_Node256_counterexample :
  (t ← insertAll leafWords64 newArt (keys_a 255); r ← root t;
   Some (nodeType r, isFull leafWords64 r))
  = Some (Node256, true)
  /\ (t ← insertAll leafWords64 newArt (keys_a 255); r ← root t;
      r' ← addChild leafWords64 r Byte.xff (Leaf ["a"%byte; Byte.xff] 256%nat);
      childUnder r' Byte.xff)
     = Some None
  /\ (t ← insertAll leafWords64 newArt (keys_a 256);
      Some (Size t, Search leafWords64 t ["a"%byte; Byte.xff]))
     = Some (257, Some None).
Proof. repeat split; vm_compute; reflexivity. Qed.

(** C8: the sixteen [Insert]s of "a", "a\x00", ..., "a\x0e" leave a root
    Node16 that lists the key byte 0 twice.  Before [grow] the byte 0
    reaches the leaf "a", after [grow] it reaches the leaf "a\x00". *)
Lemma grow_duplicate_keys_counterexample :
  (t ← insertAll leafWords64 newArt (keys_a 15); r ← root t;
   Some (nodeType r, childUnder r Byte.x00))
  = Some (Node16, Some (Some (Leaf key_a 0%nat)))
  /\ (t ← insertAll leafWords64 newArt (keys_a 15); r ← root t; g ← grow r;
      Some (nodeType g, childUnder g Byte.x00))
     = Some (Node48, Some (Some (Leaf key_a0 1%nat))).
Proof. repeat split; vm_compute; reflexivity. Qed.

(** ** The theorems on concrete inputs *)

Lemma insert_search_roundtrip_witness :
  admissible [] [key_ab; key_ac] = true
  /\ is_Some (insertAll leafWords64 newArt [(key_ab, 1%nat); (key_ac, 2%nat)])
  /\ Search leafWords64 tree_ab_ac key_ac = Some (Some 2%nat).
Proof.
  split; [reflexivity|].
  pose proof (insert_search_roundtrip leafWords64
                [(key_ab, 1%nat); (key_ac, 2%nat)] eq_refl) as [H1 H2].
  split; [apply H1; reflexivity|].
  apply (H2 tree_ab_ac key_ac 2%nat); reflexivity.
Defined.

Ltac reach_ab_ac :=
  apply (reach_insert leafWords64 tree_ab key_ac 2%nat);
    [apply (reach_insert leafWords64 newArt key_ab 1%nat);
       [apply reach_new|reflexivity|reflexivity]
    |vm_compute; reflexivity|vm_compute; reflexivity].

Lemma insert_overwrite_witness :
  key_ab ∈ keysOf tree_ab_ac
  /\ is_Some (Insert leafWords64 tree_ab_ac key_ab 7%nat)
  /\ (t' ← Insert leafWords64 tree_ab_ac key_ab 7%nat;
      Some (Size t', Search leafWords64 t' key_ab))
     = Some (2, Some (Some 7%nat)).
Proof.
  assert (key_ab ∈ keysOf tree_ab_ac) as Hin by (vm_compute; left).
  split; [exact Hin|].
  pose proof (insert_overwrite leafWords64 tree_ab_ac key_ab 7%nat
                ltac:(reach_ab_ac) Hin) as [H1 H2].
  split; [apply H1; vm_compute; reflexivity|].
  destruct (Insert leafWords64 tree_ab_ac key_ab 7%nat) as [t'|] eqn:Hrun;
    [|vm_compute in Hrun; discriminate Hrun].
  destruct (H2 t' eq_refl) as [HSize HSearch]. cbn [mbind option_bind].
  rewrite HSize, HSearch. reflexivity.
Defined.

Lemma delete_true_iff_removed_witness :
  key_ab ∈ keysOf tree_ab_ac
  /\ exists t', Delete leafWords64 tree_ab_ac key_ab = Some (true, t').
Proof.
  assert (key_ab ∈ keysOf tree_ab_ac) as Hin by (vm_compute; left).
  split; [exact Hin|].
  apply (delete_true_iff_removed leafWords64 tree_ab_ac key_ab
           ltac:(reach_ab_ac) ltac:(discriminate)). exact Hin.
Defined.

Lemma each_ascending_witness :
  exists ns, Each tree_ab_ac = Some ns
             /\ StronglySorted key_lt (leafList ns).*1.
Proof. apply (each_ascending leafWords64 tree_ab_ac). reach_ab_ac. Defined.

Lemma nodes_within_bounds_witness :
  exists ns, Each tree_ab_ac = Some ns
             /\ Forall (fun n : artNode nat => wellFormedNode n = true) ns.
Proof. apply (nodes_within_bounds leafWords64 tree_ab_ac). reach_ab_ac. Defined.

Ltac dir_abcd :=
  split;
    [repeat constructor
    |split; [reflexivity|split; [reflexivity|split; [simpl; lia|
       split; reflexivity]]]].

Lemma addChild_at_capacity_witness :
  isFull leafWords64 node_abcd = true
  /\ exists n',
       addChild leafWords64 node_abcd "e"%byte (Leaf ["e"%byte] 5%nat) = Some n'
       /\ nodeType n' = Node16
       /\ size (nodeOf leafWords64 n') = 5
       /\ forall b', childUnder n' b'
                     = Some (if decide (b' = "e"%byte)
                             then Some (Leaf ["e"%byte] 5%nat)
                             else lookupEdge b' edges_abcd).
Proof.
  split; [reflexivity|].
  apply (proj1 (addChild_at_capacity leafWords64 node_abcd "e"%byte
                  (Leaf ["e"%byte] 5%nat) eq_refl) edges_abcd);
    [dir_abcd|discriminate|reflexivity].
Defined.

Lemma grow_preserves_directory_witness :
  exists n',
    grow node_abcd = Some n'
    /\ nodeType n' = Node16
    /\ metaKept (nodeOf leafWords64 node_abcd) (nodeOf leafWords64 n')
    /\ forall b, childUnder n' b = childUnder node_abcd b.
Proof.
  apply (grow_preserves_directory leafWords64 node_abcd edges_abcd);
    [dir_abcd|discriminate].
Defined.

Lemma shrink_Node4_collapse_witness :
  shrink leafWords64 node_xyz
  = Some (N4 (mkNode 2 4 ("x"%byte :: "y"%byte :: "z"%byte :: "a"%byte
                          :: replicate 6 Byte.x00))
             ["b"%byte; "c"%byte; Byte.x00; Byte.x00]
             [Some (Leaf key_ab 1%nat); Some (Leaf key_ac 2%nat); None; None]).
Proof.
  unfold node_xyz.
  rewrite (proj2 (shrink_Node4_collapse leafWords64 node_xy
                    ["z"%byte; Byte.x00; Byte.x00; Byte.x00]
                    [Some node_ab_ac; None; None; None] "z"%byte node_ab_ac
                    eq_refl ltac:(simpl; lia) eq_refl eq_refl)
             eq_refl eq_refl ltac:(simpl; lia)).
  vm_compute. reflexivity.
Defined.

(** ** More scenarios *)

(** The tree holding "ab" and "ac" after [Insert("b", 3)]. *)
Definition tree_ab_ac_b : tree nat :=
  default newArt (Insert leafWords64 tree_ab_ac key_b 3%nat).

(** The tree holding "ab" and "ac" after [Delete("ab")]: the root Node4
    has collapsed into the leaf "ac". *)
Definition tree_ac : tree nat := mkTree (Some (Leaf key_ac 2%nat)) 1.

(** A Node4 with three children, and its directory. *)
Definition edges_abc : list (byte * artNode nat) :=
  [("a"%byte, Leaf key_a 1%nat); ("b"%byte, Leaf key_b 2%nat);
   ("c"%byte, Leaf key_c 3%nat)].

Definition node_abc : artNode nat :=
  N4 (mkNode 3 0 (replicate 10 Byte.x00))
     (edges_abc.*1 ++ [Byte.x00]) ((Some <$> edges_abc.*2) ++ [None]).

(** A Node16 that holds four children only. *)
Definition node16_abcd : artNode nat :=
  N16 (mkNode 4 0 (replicate 10 Byte.x00))
      (edges_abcd.*1 ++ replicate 12 Byte.x00)
      ((Some <$> edges_abcd.*2) ++ replicate 12 None).



Ltac not_elem := apply (bool_decide_eq_false_1 _); vm_compute; reflexivity.

Lemma search_iff_stored_witness :
  Search leafWords64 tree_ab_ac key_ac = Some (Some 2%nat)
  <-> (key_ac, 2%nat) ∈ contents tree_ab_ac.
Proof.
  apply (search_iff_stored leafWords64 tree_ab_ac key_ac 2%nat). reach_ab_ac.
Defined.

Lemma search_absent_key_witness :
  Search leafWords64 tree_ab_ac key_b = Some None.
Proof.
  apply (search_absent_key leafWords64 tree_ab_ac key_b);
    [reach_ab_ac|not_elem|vm_compute; reflexivity].
Defined.

Lemma size_counts_leaves_witness :
  exists ns, Each tree_ab_ac = Some ns /\ Size tree_ab_ac = len (leafList ns).
Proof. apply (size_counts_leaves leafWords64 tree_ab_ac). reach_ab_ac. Defined.

Lemma root_nil_iff_empty_witness :
  root (@newArt nat) = None <-> Size (@newArt nat) = 0.
Proof. apply (root_nil_iff_empty leafWords64 newArt). apply reach_new. Defined.

Lemma insert_keeps_other_keys_witness :
  Size tree_ab_ac_b
  = Size tree_ab_ac + (if decide (key_b ∈ keysOf tree_ab_ac) then 0 else 1)
  /\ Search leafWords64 tree_ab_ac_b key_b = Some (Some 3%nat)
  /\ forall k' v', k' ≠ key_b ->
       Search leafWords64 tree_ab_ac_b k' = Some (Some v')
       <-> Search leafWords64 tree_ab_ac k' = Some (Some v').
Proof.
  apply (insert_keeps_other_keys leafWords64 tree_ab_ac key_b 3%nat);
    [reach_ab_ac|vm_compute; reflexivity|vm_compute; reflexivity].
Defined.

Lemma delete_keeps_other_keys_witness :
  (key_ab ∉ keysOf tree_ac)
  /\ (forall v, Search leafWords64 tree_ac key_ab ≠ Some (Some v))
  /\ (blockedb key_ab (keysOf tree_ac) = false ->
      Search leafWords64 tree_ac key_ab = Some None)
  /\ forall k' v', k' ≠ key_ab ->
       Search leafWords64 tree_ac k' = Some (Some v')
       <-> Search leafWords64 tree_ab_ac k' = Some (Some v').
Proof.
  apply (delete_keeps_other_keys leafWords64 tree_ab_ac key_ab tree_ac);
    [reach_ab_ac|vm_compute; reflexivity].
Defined.

Lemma insert_delete_roundtrip_witness :
  exists t'', Delete leafWords64 tree_ab_ac_b key_b = Some (true, t'')
              /\ contents t'' = contents tree_ab_ac
              /\ Size t'' = Size tree_ab_ac.
Proof.
  apply (insert_delete_roundtrip leafWords64 tree_ab_ac key_b 3%nat);
    [reach_ab_ac|vm_compute; reflexivity|discriminate|not_elem
    |vm_compute; reflexivity].
Defined.

Lemma delete_all_empties_witness :
  exists t', deleteAll leafWords64 tree_ab_ac [key_ac; key_ab] = Some (true, t')
             /\ root t' = None /\ Size t' = 0.
Proof.
  apply (delete_all_empties leafWords64 tree_ab_ac [key_ac; key_ab]);
    [reach_ab_ac|apply perm_swap|not_elem].
Defined.

Lemma insertion_order_irrelevant_witness :
  contents tree_ab_ac
  = contents (default newArt
                (insertAll leafWords64 newArt [(key_ac, 2%nat); (key_ab, 1%nat)]))
  /\ Size tree_ab_ac
     = Size (default newArt
               (insertAll leafWords64 newArt [(key_ac, 2%nat); (key_ab, 1%nat)])).
Proof.
  apply (insertion_order_irrelevant leafWords64
           [(key_ab, 1%nat); (key_ac, 2%nat)] [(key_ac, 2%nat); (key_ab, 1%nat)]);
    [reflexivity|reflexivity| |vm_compute; reflexivity|vm_compute; reflexivity].
  intros key. cbn [lookupLast fst snd].
  destruct (decide (key_ac = key)) as [Hac|Hac];
    destruct (decide (key_ab = key)) as [Hab|Hab]; try done.
  exfalso. rewrite <- Hab in Hac. discriminate Hac.
Defined.

Lemma each_lists_stored_pairs_witness :
  exists ns,
    Each tree_ab_ac = Some ns
    /\ NoDup (omap artNode_Key ns)
    /\ forall key v,
         (exists n, n ∈ ns /\ artNode_NodeType n = LeafNode
                    /\ artNode_Key n = Some key /\ artNode_Value n = Some v)
         <-> Search leafWords64 tree_ab_ac key = Some (Some v).
Proof.
  apply (each_lists_stored_pairs leafWords64 tree_ab_ac). reach_ab_ac.
Defined.

Lemma minimum_is_least_witness :
  exists k v,
    minimum node_ab_ac = Some (Some (Leaf k v))
    /\ (k, v) ∈ contents tree_ab_ac
    /\ forall k', k' ∈ keysOf tree_ab_ac -> k' = k \/ key_lt k k'.
Proof.
  apply (minimum_is_least leafWords64 tree_ab_ac node_ab_ac);
    [reach_ab_ac|reflexivity].
Defined.

Lemma maximum_is_greatest_witness :
  exists k v,
    maximum node_ab_ac = Some (Some (Leaf k v))
    /\ (k, v) ∈ contents tree_ab_ac
    /\ forall k', k' ∈ keysOf tree_ab_ac -> k' = k \/ key_lt k' k.
Proof.
  apply (maximum_is_greatest leafWords64 tree_ab_ac node_ab_ac);
    [reach_ab_ac|reflexivity].
Defined.

Lemma fixed_length_keys_map_witness :
  exists t,
    insertAll leafWords64 newArt [(key_ab, 1%nat); (key_ac, 2%nat)] = Some t
    /\ forall key, length key = 2%nat ->
         Search leafWords64 t key
         = Some (lookupLast key [(key_ab, 1%nat); (key_ac, 2%nat)]).
Proof.
  apply (fixed_length_keys_map leafWords64 2
           [(key_ab, 1%nat); (key_ac, 2%nat)]).
  repeat constructor.
Defined.

Ltac dir_small :=
  split;
    [repeat constructor
    |split; [reflexivity|split; [reflexivity|split; [simpl; lia|
       split; reflexivity]]]].

Lemma addChild_below_capacity_witness :
  exists n',
    addChild leafWords64 node_abc "d"%byte (Leaf key_d 4%nat) = Some n'
    /\ nodeType n' = nodeType node_abc
    /\ size (nodeOf leafWords64 n') = size (nodeOf leafWords64 node_abc) + 1
    /\ forall b', childUnder n' b'
                  = Some (if decide (b' = "d"%byte) then Some (Leaf key_d 4%nat)
                          else lookupEdge b' edges_abc).
Proof.
  apply (addChild_below_capacity leafWords64 node_abc edges_abc);
    [dir_small|reflexivity|reflexivity].
Defined.

Lemma RemoveChild_present_witness :
  exists n',
    RemoveChild leafWords64 node_abcd "b"%byte = Some n'
    /\ nodeType n' = (if len edges_abcd - 1 <? minSize node_abcd
                      then shrunkType (nodeType node_abcd)
                      else nodeType node_abcd)
    /\ size (nodeOf leafWords64 n') = size (nodeOf leafWords64 node_abcd) - 1
    /\ forall b', childUnder n' b'
                  = Some (if decide (b' = "b"%byte) then None
                          else lookupEdge b' edges_abcd).
Proof.
  apply (RemoveChild_present leafWords64 node_abcd edges_abcd "b"%byte
           (Leaf key_b 2%nat));
    [dir_small|reflexivity|vm_compute; discriminate|intros _; discriminate].
Defined.

Lemma shrink_preserves_directory_witness :
  exists n',
    shrink leafWords64 node16_abcd = Some n'
    /\ nodeType n' = shrunkType (nodeType node16_abcd)
    /\ prefixLen (nodeOf leafWords64 n')
       = prefixLen (nodeOf leafWords64 node16_abcd)
    /\ storedPrefix (nodeOf leafWords64 n')
       = storedPrefix (nodeOf leafWords64 node16_abcd)
    /\ size (nodeOf leafWords64 n') = size (nodeOf leafWords64 node16_abcd)
    /\ forall b, childUnder n' b = childUnder node16_abcd b.
Proof.
  apply (shrink_preserves_directory leafWords64 node16_abcd edges_abcd);
    [dir_small|discriminate|vm_compute; discriminate].
Defined.

Lemma addChild_RemoveChild_roundtrip_witness :
  exists n1 n2,
    addChild leafWords64 node_abcd "e"%byte (Leaf ["e"%byte] 5%nat) = Some n1
    /\ RemoveChild leafWords64 n1 "e"%byte = Some n2
    /\ nodeType n2 = nodeType node_abcd
    /\ size (nodeOf leafWords64 n2) = size (nodeOf leafWords64 node_abcd)
    /\ prefixLen (nodeOf leafWords64 n2)
       = prefixLen (nodeOf leafWords64 node_abcd)
    /\ forall b', childUnder n2 b' = childUnder node_abcd b'.
Proof.
  apply (addChild_RemoveChild_roundtrip leafWords64 node_abcd edges_abcd);
    [dir_small|vm_compute; discriminate|reflexivity].
Defined.

Lemma addChild_duplicate_byte_witness :
  exists n',
    addChild leafWords64 node_abc "b"%byte (Leaf key_b 7%nat) = Some n'
    /\ nodeType n' = nodeType node_abc
    /\ size (nodeOf leafWords64 n') = size (nodeOf leafWords64 node_abc) + 1
    /\ childUnder n' "b"%byte
       = Some (Some (if decide (nodeType node_abc = Node4)
                     then Leaf key_b 2%nat else Leaf key_b 7%nat))
    /\ forall b', b' ≠ "b"%byte -> childUnder n' b' = childUnder node_abc b'.
Proof.
  apply (addChild_duplicate_byte leafWords64 node_abc edges_abc);
    [dir_small|reflexivity|reflexivity].
Defined.

Lemma RemoveChild_absent_byte_witness :
  exists n' es' bl cl,
    RemoveChild leafWords64 node_abc Byte.x00 = Some n'
    /\ edges_abc = es' ++ [(bl, cl)]
    /\ nodeType n' = nodeType node_abc
    /\ size (nodeOf leafWords64 n') = size (nodeOf leafWords64 node_abc) - 1
    /\ childUnder node_abc bl = Some (Some cl)
    /\ childUnder n' bl = Some None
    /\ forall b', b' ≠ bl -> childUnder n' b' = childUnder node_abc b'.
Proof.
  apply (proj2 (proj2 (RemoveChild_absent_byte leafWords64 node_abc edges_abc
                         Byte.x00 ltac:(dir_small) eq_refl eq_refl)));
    [by left|reflexivity|reflexivity].
Defined.


(** Seventeen one-byte keys: the root of their tree is a Node48. *)
Definition kvs17 : list (Key * nat) :=
  (fun i => ([z2b i], Z.to_nat i)) <$> seqZ 1 17.

Definition tree17 : tree nat :=
  default New (insertAll leafWords64 New kvs17).

(** The keys of [kvs] can be inserted into [t] one after the other, each
    one free of aliases among the keys stored before it. *)
Fixpoint insertAllFree (t : tree nat) (kvs : list (Key * nat)) : bool :=
  match kvs with
  | [] => true
  | kv :: rest =>
      aliasFreeb kv.1 (keysOf t)
      && match Insert leafWords64 t kv.1 kv.2 with
         | Some t' => insertAllFree t' rest
         | None => false
         end
  end.

Lemma insertAllFree_reachable kvs : forall t,
  reachable leafWords64 t -> insertAllFree t kvs = true ->
  reachable leafWords64 (default New (insertAll leafWords64 t kvs)).
Proof.
  induction kvs as [|kv rest IH]; intros t Ht Hall; [done|].
  cbn [insertAllFree insertAll] in *. apply andb_true_iff in Hall as [Hfree Hall].
  destruct (Insert leafWords64 t kv.1 kv.2) as [t'|] eqn:Hins; [|done].
  cbn [mbind option_bind]. apply IH; [|done].
  by apply (reach_insert leafWords64 t kv.1 kv.2).
Qed.

Lemma reachable_tree17 : reachable leafWords64 tree17.
Proof.
  apply insertAllFree_reachable; [apply reach_new|vm_compute; reflexivity].
Qed.

Lemma index_spec_witness :
  exists i,
    index node_abc "b"%byte = Some i
    /\ match lookupEdge "b"%byte edges_abc with
       | Some c => get (childrenOf node_abc) i = Some (Some c)
       | None =>
           (i < 0 /\ (nodeType node_abc = Node4 \/ nodeType node_abc = Node16))
           \/ (get (childrenOf node_abc) i = Some None
               /\ match nodeType node_abc with
                  | Node48 => i = 0
                  | Node256 => i = b2z "b"%byte
                  | _ => "b"%byte = Byte.x00 /\ i = len edges_abc
                         /\ len edges_abc < maxSize node_abc
                  end)
       end.
Proof. apply (index_spec node_abc edges_abc "b"%byte). dir_small. Defined.

Lemma nodes_smallest_variant_witness :
  exists ns, Each tree17 = Some ns
             /\ Forall (fun n : artNode nat => fitsVariant n = true) ns.
Proof. apply (nodes_smallest_variant leafWords64 tree17 reachable_tree17). Defined.

Lemma node48_keys_index_children_witness :
  exists ns, Each tree17 = Some ns /\ Forall keysIndex48 ns.
Proof.
  apply (node48_keys_index_children leafWords64 tree17 reachable_tree17).
Defined.
